(** * The routing subsystem of aie-rt: driver/src/routing/xaie_routing.c

    A shallow embedding of the tile resource table, the route catalogue,
    the breadth-first path finder, the path programmer, the data mover and
    the teardown of [xaie_routing.c], with the properties of the routing
    specification stated and settled against it.

    Conventions of the embedding.
    - Fixed-width C integers are [Z] with the wrap-around written out
      ([u8], [u16], [u64]); the bit operations are [Z.land], [Z.lor],
      [Z.lnot], [Z.shiftl].
    - A C function that reads and writes the routing instance and calls the
      hardware layer is a function [Machine -> option (A * Machine)]
      (the [Exec] monad).  [None] stands for an execution the C standard
      leaves undefined (an index outside an allocated array, a dereferenced
      null or indeterminate pointer, a shift of [1] by 31 or more) or for a
      busy-wait that never ends.
    - The hardware layer (xaie_ss.c, xaie_dma.c, xaie_core.c, ...) is not
      part of the routing file: its calls are recorded in a trace and their
      return codes are supplied by a [Backend] oracle that sees the whole
      trace so far.
    - Memory allocation ([calloc], [aligned_alloc]) is taken to succeed;
      the branches that report a failed allocation are left out. *)

From Stdlib Require Import ZArith Lia Bool.
From stdpp Require Import base option list gmap numbers.

Local Open Scope Z_scope.

(** ** Machine integers *)

Definition u8 (z : Z) : Z := z mod 256.
Definition u16 (z : Z) : Z := z mod 65536.
Definition u64 (z : Z) : Z := z mod 2 ^ 64.

(** [1 << k] on a 32-bit [int]: defined for [0 <= k < 31] only. *)
Definition shl1 (k : Z) : option Z :=
  if (0 <=? k) && (k <? 31) then Some (Z.shiftl 1 k) else None.

(** [f &= ~(1 << k)] on a [u8] field: the operands are promoted to [int],
    the result is stored back in eight bits. *)
Definition u8_clear_bit (f k : Z) : option Z :=
  m ← shl1 k; Some (u8 (Z.land f (Z.lnot m))).

(** [f |= (1 << k)] on a [u8] field. *)
Definition u8_set_bit (f k : Z) : option Z :=
  m ← shl1 k; Some (u8 (Z.lor f m)).

(** ** Data model (xaie_routing.h; [XAie_LocType], [StrmSwPortType] and
    [AieRC] are declared in xaiegbl.h) *)

(** [XAie_LocType] is a pair of [u8] fields; [XAie_TileLoc] takes two [u8]
    arguments, so a sum passed to it wraps modulo 256. *)
Record XAie_LocType := mkLoc { Col : Z; Row : Z }.

Definition XAie_TileLoc (col row : Z) : XAie_LocType :=
  {| Col := u8 col; Row := u8 row |}.

#[global] Instance XAie_LocType_eq_dec : EqDecision XAie_LocType.
Proof. solve_decision. Defined.

#[global] Instance XAie_LocType_countable : Countable XAie_LocType.
Proof.
  refine (inj_countable' (fun l => (Col l, Row l)) (fun p => mkLoc p.1 p.2) _).
  by intros [].
Defined.

(** The comparison [a.Col == b.Col && a.Row == b.Row] the source spells out
    wherever it compares two tiles. *)
Definition loc_eqb (a b : XAie_LocType) : bool :=
  (Col a =? Col b) && (Row a =? Row b).

(** The stream-switch port types, in the order of the enumeration
    (SOUTH = 4, WEST = 5, NORTH = 6, EAST = 7, as the literal array
    [StrmSwPort] of the path finder confirms). *)
Inductive StrmSwPortType :=
  | CORE | DMA | CTRL | FIFO | SOUTH | WEST | NORTH | EAST | TRACE
  | SS_PORT_TYPE_MAX.

#[global] Instance StrmSwPortType_eq_dec : EqDecision StrmSwPortType.
Proof. solve_decision. Defined.

(** [AieRC]: only [XAIE_OK = 0] and the fact that every other code is
    non-zero matter to the routing file, which accumulates codes with
    [RC |= ...] and tests [RC != XAIE_OK]. *)
Definition AieRC := Z.
Definition XAIE_OK : AieRC := 0.
Definition XAIE_ERR : AieRC := 1.

Inductive TileType := XAIE_AIE_SHIM | XAIE_AIE_MEM | XAIE_AIE_CORE.

#[global] Instance TileType_eq_dec : EqDecision TileType.
Proof. solve_decision. Defined.

Record XAie_StreamDirSupported := {
  canMoveNorth : bool;
  canMoveSouth : bool;
  canMoveEast : bool;
  canMoveWest : bool
}.

Record XAie_ChannelPortMapping := {
  channel : Z;
  port : Z;
  availability : bool
}.

Record XAie_RoutingStep := {
  sourceTile : XAie_LocType;
  sourceStream : Z;
  destStream : Z;
  source_direction : StrmSwPortType;
  dest_direction : StrmSwPortType
}.

(** The singly linked list of steps hanging off [nextStep] is a [list]. *)
Record XAie_RoutingPath := {
  source : XAie_LocType;
  destination : XAie_LocType;
  MM2S_portNo : Z;
  S2MM_portNo : Z;
  nextStep : list XAie_RoutingStep
}.

(** The linked list of programmed routes.  [WildRoute] is the indeterminate
    [nextRoute] pointer of the node that [_XAie_performRoutingOnPath]
    allocates for the first route of a tile: the node comes from
    [aligned_alloc] and only its [routePath] field is assigned. *)
Inductive XAie_ProgrammedRoutes :=
  | NullRoute
  | RouteNode (routePath : XAie_RoutingPath) (nextRoute : XAie_ProgrammedRoutes)
  | WildRoute.

(** A pointer to an array of port mappings: [None] is the null pointer,
    [Some a] the [a]-th array of the instance's [PortMappings] store. *)
Definition MappingPtr := option nat.

(** [XAie_CoreConstraint].  The two members [s2mmChannelsInUse] and
    [mm2sChannelsInUse] are left out: they are set to (NULL, 0) by the
    initialiser and never assigned again ([XAie_MoveData] works on local
    copies of them). *)
Record XAie_CoreConstraint := {
  isAutoConfigured : bool;
  MM2S_State : Z;
  S2MM_State : Z;
  ShimMM2S_State : Z;
  ShimS2MM_State : Z;
  AllChannelsInUse : bool;
  BDState : Z;
  AllBDsareInUse : bool;
  tile_type : TileType;
  DirSupported : XAie_StreamDirSupported;
  SlaveEast : Z;
  SlaveWest : Z;
  SlaveSouth : Z;
  SlaveNorth : Z;
  MasterEast : Z;
  MasterWest : Z;
  MasterSouth : Z;
  MasterNorth : Z;
  Host2AIEPorts : MappingPtr;
  Host2AIEPortCount : Z;
  AIE2HostPorts : MappingPtr;
  AIE2HostPortCount : Z;
  routesDB : XAie_ProgrammedRoutes;
  isCoreExecuting : bool
}.

(** [XAie_RouteConstraints]: each array travels with its element count
    ([NoOfBlackListedCores], [NoOfWhiteListedCores]); the pair is a list and
    the count its length. *)
Record XAie_RouteConstraints := {
  BlackListedCores : list XAie_LocType;
  WhiteListedCores : list XAie_LocType
}.

Definition NoOfBlackListedCores (rc : XAie_RouteConstraints) : Z :=
  Z.of_nat (length (BlackListedCores rc)).

Definition NoOfWhiteListedCores (rc : XAie_RouteConstraints) : Z :=
  Z.of_nat (length (WhiteListedCores rc)).

Inductive XAie_BackendType :=
  | XAIE_IO_BACKEND_BAREMETAL | XAIE_IO_BACKEND_SOCKET | XAIE_IO_BACKEND_OTHER.

(** The fields of [XAie_DevInst] (xaiegbl.h) the routing file reads. *)
Record XAie_DevInst := {
  DevNumRows : Z;
  DevNumCols : Z;
  ShimRow : Z;
  MemTileRowStart : Z;
  MemTileNumRows : Z;
  AieTileRowStart : Z;
  AieTileNumRows : Z;
  BackendType : XAie_BackendType
}.

(** [XAie_RoutingInstance].  [CoreConstraintPerCore] is indexed
    [col][row].  Every pointer of the table is dereferenced unchecked by
    the initialiser, so a tile is a structure, not a nullable pointer, and
    the [if (!constraint)] guards of the source never fire.
    [PortMappings] is the memory holding the shim port-mapping arrays, which
    several tiles may point to. *)
Record XAie_RoutingInstance := {
  DeviceInstance : XAie_DevInst;
  CoreConstraintPerCore : list (list XAie_CoreConstraint);
  NumRows : Z;
  NumCols : Z;
  PortMappings : list (list XAie_ChannelPortMapping)
}.

(** ** The tile table *)

Definition tileAt (tbl : list (list XAie_CoreConstraint)) (t : XAie_LocType)
  : option XAie_CoreConstraint :=
  if (0 <=? Col t) && (0 <=? Row t)
  then column ← tbl !! Z.to_nat (Col t); column !! Z.to_nat (Row t)
  else None.

Definition alterTile (f : XAie_CoreConstraint → XAie_CoreConstraint)
  (t : XAie_LocType) (tbl : list (list XAie_CoreConstraint))
  : list (list XAie_CoreConstraint) :=
  alter (alter f (Z.to_nat (Row t))) (Z.to_nat (Col t)) tbl.

Definition with_table (r : XAie_RoutingInstance)
  (tbl : list (list XAie_CoreConstraint)) : XAie_RoutingInstance :=
  {| DeviceInstance := DeviceInstance r; CoreConstraintPerCore := tbl;
     NumRows := NumRows r; NumCols := NumCols r;
     PortMappings := PortMappings r |}.

Definition with_mappings (r : XAie_RoutingInstance)
  (pm : list (list XAie_ChannelPortMapping)) : XAie_RoutingInstance :=
  {| DeviceInstance := DeviceInstance r;
     CoreConstraintPerCore := CoreConstraintPerCore r;
     NumRows := NumRows r; NumCols := NumCols r; PortMappings := pm |}.

(** Field setters for [XAie_CoreConstraint]. *)
Definition set_ports (c : XAie_CoreConstraint)
  (mm2s s2mm se sw ss sn me mw ms mn : Z) : XAie_CoreConstraint :=
  {| isAutoConfigured := isAutoConfigured c;
     MM2S_State := mm2s; S2MM_State := s2mm;
     ShimMM2S_State := ShimMM2S_State c; ShimS2MM_State := ShimS2MM_State c;
     AllChannelsInUse := AllChannelsInUse c; BDState := BDState c;
     AllBDsareInUse := AllBDsareInUse c; tile_type := tile_type c;
     DirSupported := DirSupported c;
     SlaveEast := se; SlaveWest := sw; SlaveSouth := ss; SlaveNorth := sn;
     MasterEast := me; MasterWest := mw; MasterSouth := ms; MasterNorth := mn;
     Host2AIEPorts := Host2AIEPorts c; Host2AIEPortCount := Host2AIEPortCount c;
     AIE2HostPorts := AIE2HostPorts c; AIE2HostPortCount := AIE2HostPortCount c;
     routesDB := routesDB c; isCoreExecuting := isCoreExecuting c |}.

Definition set_isAutoConfigured (b : bool) (c : XAie_CoreConstraint)
  : XAie_CoreConstraint :=
  {| isAutoConfigured := b;
     MM2S_State := MM2S_State c; S2MM_State := S2MM_State c;
     ShimMM2S_State := ShimMM2S_State c; ShimS2MM_State := ShimS2MM_State c;
     AllChannelsInUse := AllChannelsInUse c; BDState := BDState c;
     AllBDsareInUse := AllBDsareInUse c; tile_type := tile_type c;
     DirSupported := DirSupported c;
     SlaveEast := SlaveEast c; SlaveWest := SlaveWest c;
     SlaveSouth := SlaveSouth c; SlaveNorth := SlaveNorth c;
     MasterEast := MasterEast c; MasterWest := MasterWest c;
     MasterSouth := MasterSouth c; MasterNorth := MasterNorth c;
     Host2AIEPorts := Host2AIEPorts c; Host2AIEPortCount := Host2AIEPortCount c;
     AIE2HostPorts := AIE2HostPorts c; AIE2HostPortCount := AIE2HostPortCount c;
     routesDB := routesDB c; isCoreExecuting := isCoreExecuting c |}.

Definition set_isCoreExecuting (b : bool) (c : XAie_CoreConstraint)
  : XAie_CoreConstraint :=
  {| isAutoConfigured := isAutoConfigured c;
     MM2S_State := MM2S_State c; S2MM_State := S2MM_State c;
     ShimMM2S_State := ShimMM2S_State c; ShimS2MM_State := ShimS2MM_State c;
     AllChannelsInUse := AllChannelsInUse c; BDState := BDState c;
     AllBDsareInUse := AllBDsareInUse c; tile_type := tile_type c;
     DirSupported := DirSupported c;
     SlaveEast := SlaveEast c; SlaveWest := SlaveWest c;
     SlaveSouth := SlaveSouth c; SlaveNorth := SlaveNorth c;
     MasterEast := MasterEast c; MasterWest := MasterWest c;
     MasterSouth := MasterSouth c; MasterNorth := MasterNorth c;
     Host2AIEPorts := Host2AIEPorts c; Host2AIEPortCount := Host2AIEPortCount c;
     AIE2HostPorts := AIE2HostPorts c; AIE2HostPortCount := AIE2HostPortCount c;
     routesDB := routesDB c; isCoreExecuting := b |}.

Definition set_BDState (bd : Z) (c : XAie_CoreConstraint)
  : XAie_CoreConstraint :=
  {| isAutoConfigured := isAutoConfigured c;
     MM2S_State := MM2S_State c; S2MM_State := S2MM_State c;
     ShimMM2S_State := ShimMM2S_State c; ShimS2MM_State := ShimS2MM_State c;
     AllChannelsInUse := AllChannelsInUse c; BDState := bd;
     AllBDsareInUse := AllBDsareInUse c; tile_type := tile_type c;
     DirSupported := DirSupported c;
     SlaveEast := SlaveEast c; SlaveWest := SlaveWest c;
     SlaveSouth := SlaveSouth c; SlaveNorth := SlaveNorth c;
     MasterEast := MasterEast c; MasterWest := MasterWest c;
     MasterSouth := MasterSouth c; MasterNorth := MasterNorth c;
     Host2AIEPorts := Host2AIEPorts c; Host2AIEPortCount := Host2AIEPortCount c;
     AIE2HostPorts := AIE2HostPorts c; AIE2HostPortCount := AIE2HostPortCount c;
     routesDB := routesDB c; isCoreExecuting := isCoreExecuting c |}.

Definition set_routesDB (db : XAie_ProgrammedRoutes) (c : XAie_CoreConstraint)
  : XAie_CoreConstraint :=
  {| isAutoConfigured := isAutoConfigured c;
     MM2S_State := MM2S_State c; S2MM_State := S2MM_State c;
     ShimMM2S_State := ShimMM2S_State c; ShimS2MM_State := ShimS2MM_State c;
     AllChannelsInUse := AllChannelsInUse c; BDState := BDState c;
     AllBDsareInUse := AllBDsareInUse c; tile_type := tile_type c;
     DirSupported := DirSupported c;
     SlaveEast := SlaveEast c; SlaveWest := SlaveWest c;
     SlaveSouth := SlaveSouth c; SlaveNorth := SlaveNorth c;
     MasterEast := MasterEast c; MasterWest := MasterWest c;
     MasterSouth := MasterSouth c; MasterNorth := MasterNorth c;
     Host2AIEPorts := Host2AIEPorts c; Host2AIEPortCount := Host2AIEPortCount c;
     AIE2HostPorts := AIE2HostPorts c; AIE2HostPortCount := AIE2HostPortCount c;
     routesDB := db; isCoreExecuting := isCoreExecuting c |}.

(** ** Hardware layer and the execution monad *)

Inductive XAie_DmaDirection := DMA_S2MM | DMA_MM2S.

(** The calls the routing file makes into the rest of the driver. *)
Inductive HwCall :=
  | XAie_StrmConnCctEnable (t : XAie_LocType) (slave : StrmSwPortType)
      (slavePort : Z) (master : StrmSwPortType) (masterPort : Z)
  | XAie_StrmConnCctDisable (t : XAie_LocType) (slave : StrmSwPortType)
      (slavePort : Z) (master : StrmSwPortType) (masterPort : Z)
  | XAie_EnableAieToShimDmaStrmPort (t : XAie_LocType) (portNum : Z)
  | XAie_EnableShimDmaToAieStrmPort (t : XAie_LocType) (portNum : Z)
  | XAie_DmaDescInit (t : XAie_LocType)
  | XAie_DmaSetAddrLen (addr len : Z)
  | XAie_DmaSetAddrOffsetLen (memInst offset len : Z)
  | XAie_DmaEnableBd
  | XAie_DmaWriteBd (t : XAie_LocType) (bdNum : Z)
  | XAie_DmaChannelPushBdToQueue (t : XAie_LocType) (chNum : Z)
      (dir : XAie_DmaDirection) (bdNum : Z)
  | XAie_DmaChannelEnable (t : XAie_LocType) (chNum : Z)
      (dir : XAie_DmaDirection)
  | XAie_DmaGetPendingBdCount (t : XAie_LocType) (chNum : Z)
      (dir : XAie_DmaDirection)
  | XAie_CoreEnable (t : XAie_LocType).

(** The hardware layer as an oracle: the return code of a call, and the
    count [XAie_DmaGetPendingBdCount] stores through its pointer argument,
    as functions of the calls made so far and of the call itself. *)
Record Backend := {
  hw_rc : list HwCall → HwCall → AieRC;
  hw_pending : list HwCall → HwCall → Z
}.

Record Machine := {
  ri : XAie_RoutingInstance;
  calls : list HwCall
}.

Definition Exec (A : Type) : Type := Machine → option (A * Machine).

Definition ret {A} (a : A) : Exec A := fun m => Some (a, m).

Definition bind {A B} (e : Exec A) (k : A → Exec B) : Exec B :=
  fun m => match e m with
           | Some (a, m') => k a m'
           | None => None
           end.

(** An undefined execution. *)
Definition undef {A} : Exec A := fun _ => None.

Declare Scope exec_scope.
Delimit Scope exec_scope with exec.
Notation "x <<- e ;; k" := (bind e (fun x => k))
  (at level 100, e at next level, right associativity) : exec_scope.
Notation "e ;;; k" := (bind e (fun _ => k))
  (at level 100, right associativity) : exec_scope.
Local Open Scope exec_scope.

Definition lift_opt {A} (o : option A) : Exec A :=
  fun m => match o with Some a => Some (a, m) | None => None end.

Definition get_ri : Exec XAie_RoutingInstance := fun m => Some (ri m, m).

Definition put_ri (r : XAie_RoutingInstance) : Exec unit :=
  fun m => Some (tt, {| ri := r; calls := calls m |}).

(** [routingInstance->CoreConstraintPerCore[tile.Col][tile.Row]], read. *)
Definition constraintOf (t : XAie_LocType) : Exec XAie_CoreConstraint :=
  r <<- get_ri ;; lift_opt (tileAt (CoreConstraintPerCore r) t).

(** An assignment through the pointer
    [routingInstance->CoreConstraintPerCore[tile.Col][tile.Row]]. *)
Definition modifyConstraint (t : XAie_LocType)
  (f : XAie_CoreConstraint → XAie_CoreConstraint) : Exec unit :=
  r <<- get_ri ;;
  _ <<- lift_opt (tileAt (CoreConstraintPerCore r) t) ;;
  put_ri (with_table r (alterTile f t (CoreConstraintPerCore r))).

Section WithBackend.

Variable be : Backend.

(** A call into the hardware layer: it is appended to the trace and the
    oracle supplies its return code. *)
Definition hw (c : HwCall) : Exec AieRC :=
  fun m => Some (hw_rc be (calls m) c,
                 {| ri := ri m; calls := calls m ++ [c] |}).

Definition hw_count (c : HwCall) : Exec (AieRC * Z) :=
  fun m => Some ((hw_rc be (calls m) c, u8 (hw_pending be (calls m) c)),
                 {| ri := ri m; calls := calls m ++ [c] |}).

End WithBackend.

(** ** Helper APIs of the source *)

(** The queue of the path finder: a circular buffer of [capacity] slots,
    kept here as the list of the items between [front] and [rear]. *)
Record Queue := {
  capacity : Z;
  items : list XAie_LocType
}.

Definition createQueue (cap : Z) : Queue := {| capacity := cap; items := [] |}.

Definition isFull (q : Queue) : bool := Z.of_nat (length (items q)) =? capacity q.

Definition isEmpty (q : Queue) : bool :=
  match items q with [] => true | _ => false end.

Definition _XAie_enqueue (q : Queue) (item : XAie_LocType) : Queue :=
  if isFull q then q
  else {| capacity := capacity q; items := items q ++ [item] |}.

Definition _XAie_dequeue (q : Queue) : XAie_LocType * Queue :=
  match items q with
  | [] => (XAie_TileLoc (-1) (-1), q)
  | item :: rest => (item, {| capacity := capacity q; items := rest |})
  end.

Definition reversePath (path : list XAie_LocType) : list XAie_LocType :=
  rev path.

Definition _XAie_isShimTile (r : XAie_RoutingInstance) (t : XAie_LocType)
  : option bool :=
  c ← tileAt (CoreConstraintPerCore r) t;
  Some (bool_decide (tile_type c = XAIE_AIE_SHIM)).

Definition _XAie_isMemTile (r : XAie_RoutingInstance) (t : XAie_LocType)
  : option bool :=
  c ← tileAt (CoreConstraintPerCore r) t;
  Some (bool_decide (tile_type c = XAIE_AIE_MEM)).

(** ** XAie_InitRoutingHandler *)

Definition defaultHost2AIEPortChannelMapping : list XAie_ChannelPortMapping :=
  [ {| channel := 0; port := 3; availability := true |};
    {| channel := 1; port := 7; availability := true |} ].

Definition defaultAIE2HostPortChannelMapping : list XAie_ChannelPortMapping :=
  [ {| channel := 0; port := 2; availability := true |};
    {| channel := 1; port := 3; availability := true |} ].

(** The three row tests of the initialiser's double loop. *)
Definition isShimTileRow (dev : XAie_DevInst) (row : Z) : bool :=
  row =? ShimRow dev.

Definition isMemTileRow (dev : XAie_DevInst) (row : Z) : bool :=
  let MemTileStart := u8 (MemTileRowStart dev) in
  let MemTileEnd :=
    if 0 <? MemTileStart then u8 (MemTileStart + MemTileNumRows dev - 1)
    else 0 in
  (MemTileStart <=? row) && (row <=? MemTileEnd).

Definition isAieTile (dev : XAie_DevInst) (row : Z) : bool :=
  let AieTileRowStart' := u8 (AieTileRowStart dev) in
  let AieTileRowEnd := u8 (AieTileRowStart' + AieTileNumRows dev) in
  (AieTileRowStart' <=? row) && (row <=? AieTileRowEnd).

(** The body of the double loop for one tile.  [raw] is the content of the
    freshly allocated structure; a row that passes none of the three tests
    keeps it, but for the two flags assigned after the tests.  The two
    default mapping arrays are allocated once and every shim tile points to
    the same pair (addresses 0 and 1 of [PortMappings]). *)
Definition initCoreConstraint (dev : XAie_DevInst) (row : Z)
  (raw : XAie_CoreConstraint) : XAie_CoreConstraint :=
  if isMemTileRow dev row && negb (isShimTileRow dev row) then
    {| isAutoConfigured := false; tile_type := XAIE_AIE_MEM;
       S2MM_State := 0x3F; MM2S_State := 0x3F;
       ShimS2MM_State := 0x0; ShimMM2S_State := 0x0;
       BDState := 0xFFFFFFFFFFFF;
       DirSupported := {| canMoveNorth := true; canMoveSouth := true;
                          canMoveEast := false; canMoveWest := false |};
       SlaveEast := 0x0; SlaveWest := 0x0;
       SlaveSouth := 0x3F; SlaveNorth := 0xF;
       MasterEast := 0x0; MasterWest := 0x0;
       MasterSouth := 0xF; MasterNorth := 0x3F;
       Host2AIEPorts := None; Host2AIEPortCount := 0;
       AIE2HostPorts := None; AIE2HostPortCount := 0;
       routesDB := NullRoute; isCoreExecuting := false;
       AllChannelsInUse := false; AllBDsareInUse := false |}
  else if isAieTile dev row then
    {| isAutoConfigured := false; tile_type := XAIE_AIE_CORE;
       S2MM_State := 0x3; MM2S_State := 0x3;
       ShimS2MM_State := 0x0; ShimMM2S_State := 0x0;
       BDState := 0xFFFF;
       DirSupported := {| canMoveNorth := true; canMoveSouth := true;
                          canMoveEast := true; canMoveWest := true |};
       SlaveEast := 0xF; SlaveWest := 0xF;
       SlaveSouth := 0x3F; SlaveNorth := 0xF;
       MasterEast := 0xF; MasterWest := 0xF;
       MasterSouth := 0xF; MasterNorth := 0x3F;
       Host2AIEPorts := None; Host2AIEPortCount := 0;
       AIE2HostPorts := None; AIE2HostPortCount := 0;
       routesDB := NullRoute; isCoreExecuting := false;
       AllChannelsInUse := false; AllBDsareInUse := false |}
  else if isShimTileRow dev row then
    {| isAutoConfigured := false; tile_type := XAIE_AIE_SHIM;
       S2MM_State := 0x3; MM2S_State := 0x3;
       ShimS2MM_State := 0x3; ShimMM2S_State := 0x3;
       BDState := 0xFFFF;
       DirSupported := {| canMoveNorth := true; canMoveSouth := true;
                          canMoveEast := true; canMoveWest := true |};
       SlaveEast := 0xF; SlaveWest := 0xF;
       SlaveSouth := 0x0; SlaveNorth := 0xF;
       MasterEast := 0xF; MasterWest := 0xF;
       MasterSouth := 0x0; MasterNorth := 0x3F;
       Host2AIEPorts := Some 0%nat; Host2AIEPortCount := 2;
       AIE2HostPorts := Some 1%nat; AIE2HostPortCount := 2;
       routesDB := NullRoute; isCoreExecuting := false;
       AllChannelsInUse := false; AllBDsareInUse := false |}
  else
    {| isAutoConfigured := isAutoConfigured raw;
       tile_type := tile_type raw;
       S2MM_State := S2MM_State raw; MM2S_State := MM2S_State raw;
       ShimS2MM_State := ShimS2MM_State raw;
       ShimMM2S_State := ShimMM2S_State raw;
       BDState := BDState raw; DirSupported := DirSupported raw;
       SlaveEast := SlaveEast raw; SlaveWest := SlaveWest raw;
       SlaveSouth := SlaveSouth raw; SlaveNorth := SlaveNorth raw;
       MasterEast := MasterEast raw; MasterWest := MasterWest raw;
       MasterSouth := MasterSouth raw; MasterNorth := MasterNorth raw;
       Host2AIEPorts := Host2AIEPorts raw;
       Host2AIEPortCount := Host2AIEPortCount raw;
       AIE2HostPorts := AIE2HostPorts raw;
       AIE2HostPortCount := AIE2HostPortCount raw;
       routesDB := routesDB raw; isCoreExecuting := isCoreExecuting raw;
       AllChannelsInUse := false; AllBDsareInUse := false |}.

(** The numbers [0, 1, ..., n-1] a [for (u8 i = 0; i < n; i++)] loop runs
    through. *)
Definition upto (n : Z) : list Z := Z.of_nat <$> seq 0 (Z.to_nat n).

Definition XAie_InitRoutingHandler (DevInst : XAie_DevInst)
  (raw : XAie_LocType → XAie_CoreConstraint) : XAie_RoutingInstance :=
  let NumCols' := u8 (DevNumCols DevInst) in
  let NumRows' := u8 (DevNumRows DevInst) in
  {| DeviceInstance := DevInst;
     NumRows := NumRows';
     NumCols := NumCols';
     CoreConstraintPerCore :=
       (fun col => (fun row => initCoreConstraint DevInst row
                                 (raw (XAie_TileLoc col row)))
                   <$> upto NumRows') <$> upto NumCols';
     PortMappings := [ defaultHost2AIEPortChannelMapping;
                       defaultAIE2HostPortChannelMapping ] |}.

(** The initial state of section 4.1 of the specification, as its table
    gives it: slaves (E,W,S,N), masters (E,W,S,N), mm2s, s2mm, free BDs. *)
Record InitialMasks := {
  im_slaves : Z * Z * Z * Z;
  im_masters : Z * Z * Z * Z;
  im_mm2s : Z;
  im_s2mm : Z;
  im_bd : Z
}.

Definition spec_initial_masks (k : TileType) : InitialMasks :=
  match k with
  | XAIE_AIE_SHIM =>
      {| im_slaves := (0xF, 0xF, 0x00, 0xF);
         im_masters := (0xF, 0xF, 0x00, 0x3F);
         im_mm2s := 0x3; im_s2mm := 0x3; im_bd := 0xFFFF |}
  | XAIE_AIE_MEM =>
      {| im_slaves := (0x00, 0x00, 0x3F, 0xF);
         im_masters := (0x00, 0x00, 0xF, 0x3F);
         im_mm2s := 0x3F; im_s2mm := 0x3F; im_bd := 0xFFFFFFFFFFFF |}
  | XAIE_AIE_CORE =>
      {| im_slaves := (0xF, 0xF, 0x3F, 0xF);
         im_masters := (0xF, 0xF, 0xF, 0x3F);
         im_mm2s := 0x3; im_s2mm := 0x3; im_bd := 0xFFFF |}
  end.

Definition masks_of (c : XAie_CoreConstraint) : InitialMasks :=
  {| im_slaves := (SlaveEast c, SlaveWest c, SlaveSouth c, SlaveNorth c);
     im_masters := (MasterEast c, MasterWest c, MasterSouth c, MasterNorth c);
     im_mm2s := MM2S_State c; im_s2mm := S2MM_State c; im_bd := BDState c |}.

(** A tile the initialiser seeds: its row passes one of the three tests. *)
Definition seeded_row (dev : XAie_DevInst) (row : Z) : bool :=
  (isMemTileRow dev row && negb (isShimTileRow dev row))
  || isAieTile dev row || isShimTileRow dev row.

(** The kind the device layout gives a row, in the words of the
    specification (section 3.1): the shim row is a shim interface, the rows
    of the memory-tile band are memory tiles and the rows of the compute
    band are compute tiles.  It is written from the layout alone and is
    compared with what the initialiser writes. *)
Definition spec_kind_of_row (dev : XAie_DevInst) (row : Z) : option TileType :=
  if row =? ShimRow dev then Some XAIE_AIE_SHIM
  else if (MemTileRowStart dev <=? row)
          && (row <? MemTileRowStart dev + MemTileNumRows dev)
  then Some XAIE_AIE_MEM
  else if (AieTileRowStart dev <=? row)
          && (row <? AieTileRowStart dev + AieTileNumRows dev)
  then Some XAIE_AIE_CORE
  else None.

(** A layout whose bands are stacked and fit the 8-bit row counters of the
    initialiser: the shim row, above it the memory-tile band, above it the
    compute band.  A device with no memory tile has an empty band, that
    starts above the shim row or, as in the first device generation, has
    start row 0 with the shim row being row 0. *)
Definition stacked_layout (dev : XAie_DevInst) : Prop :=
  0 ≤ ShimRow dev < AieTileRowStart dev
  ∧ 0 ≤ MemTileNumRows dev
  ∧ MemTileRowStart dev + MemTileNumRows dev ≤ AieTileRowStart dev
  ∧ 0 ≤ AieTileNumRows dev
  ∧ AieTileRowStart dev + AieTileNumRows dev ≤ 255
  ∧ (ShimRow dev < MemTileRowStart dev
     ∨ (MemTileRowStart dev = 0 ∧ MemTileNumRows dev = 0 ∧ ShimRow dev = 0)).

(** ** Shim port mappings *)

(** The loop
    [for (i = 0; i < count; i++) if (arr[i].port == port) arr[i].availability = v]. *)
Fixpoint setAvailability (port' : Z) (v : bool) (idx : list Z)
  (arr : list XAie_ChannelPortMapping) : option (list XAie_ChannelPortMapping) :=
  match idx with
  | [] => Some arr
  | i :: rest =>
      e ← arr !! Z.to_nat i;
      setAvailability port' v rest
        (if port e =? port'
         then <[Z.to_nat i := {| channel := channel e; port := port e;
                                 availability := v |}]> arr
         else arr)
  end.

(** The loop [for (i = 0; i < count; i++) if (arr[i].availability) return
    arr[i].port]; the inner [None] is "fell out of the loop". *)
Fixpoint firstAvailablePort (idx : list Z)
  (arr : list XAie_ChannelPortMapping) : option (option Z) :=
  match idx with
  | [] => Some None
  | i :: rest =>
      e ← arr !! Z.to_nat i;
      if availability e then Some (Some (port e))
      else firstAvailablePort rest arr
  end.

(** The loop [for (i = 0; i < count; i++) if (arr[i].port == port) return
    arr[i].channel]. *)
Fixpoint channelOfPort (port' : Z) (idx : list Z)
  (arr : list XAie_ChannelPortMapping) : option (option Z) :=
  match idx with
  | [] => Some None
  | i :: rest =>
      e ← arr !! Z.to_nat i;
      if port e =? port' then Some (Some (channel e))
      else channelOfPort port' rest arr
  end.

(** The array behind a mapping pointer, for a loop of [count] rounds: with
    no round to run the pointer is not dereferenced. *)
Definition mappingArray (r : XAie_RoutingInstance) (p : MappingPtr)
  (count : Z) : option (list XAie_ChannelPortMapping) :=
  if count <=? 0 then Some []
  else a ← p; PortMappings r !! a.

Definition updateMappingArray (p : MappingPtr) (count : Z)
  (f : list XAie_ChannelPortMapping → option (list XAie_ChannelPortMapping))
  : Exec unit :=
  if count <=? 0 then ret tt
  else
    r <<- get_ri ;;
    a <<- lift_opt p ;;
    arr <<- lift_opt (PortMappings r !! a) ;;
    arr' <<- lift_opt (f arr) ;;
    put_ri (with_mappings r (<[a := arr']> (PortMappings r))).

Definition _XAie_updatePortAvailabilityForShimDmaToAie (tile : XAie_LocType)
  (port' : Z) (SetOrUnset : bool) : Exec AieRC :=
  constraint <<- constraintOf tile ;;
  r <<- get_ri ;;
  shim <<- lift_opt (_XAie_isShimTile r tile) ;;
  if negb shim then ret XAIE_ERR
  else
    updateMappingArray (Host2AIEPorts constraint) (Host2AIEPortCount constraint)
      (setAvailability port' SetOrUnset (upto (Host2AIEPortCount constraint))) ;;;
    ret XAIE_OK.

Definition _XAie_updatePortAvailabilityForAieToShimDma (tile : XAie_LocType)
  (port' : Z) (SetOrUnset : bool) : Exec AieRC :=
  constraint <<- constraintOf tile ;;
  r <<- get_ri ;;
  shim <<- lift_opt (_XAie_isShimTile r tile) ;;
  if negb shim then ret XAIE_ERR
  else
    updateMappingArray (AIE2HostPorts constraint) (AIE2HostPortCount constraint)
      (setAvailability port' SetOrUnset (upto (AIE2HostPortCount constraint))) ;;;
    ret XAIE_OK.

Definition findAvailableChannelIDforShimTile (r : XAie_RoutingInstance)
  (tile : XAie_LocType) (port' : Z) (HostToAie : bool) : option Z :=
  constraint ← tileAt (CoreConstraintPerCore r) tile;
  if HostToAie then
    arr ← mappingArray r (Host2AIEPorts constraint) (Host2AIEPortCount constraint);
    ch ← channelOfPort port' (upto (Host2AIEPortCount constraint)) arr;
    Some (default 0 ch)
  else
    arr ← mappingArray r (AIE2HostPorts constraint) (AIE2HostPortCount constraint);
    ch ← channelOfPort port' (upto (AIE2HostPortCount constraint)) arr;
    Some (default 0 ch).

(** ** Port bitmaps *)

(** The field a [switch (portSource)] over the slave side selects; [None]
    is the [default: break]. *)
Definition getSlave (d : StrmSwPortType) (c : XAie_CoreConstraint) : option Z :=
  match d with
  | SOUTH => Some (SlaveSouth c)
  | NORTH => Some (SlaveNorth c)
  | EAST => Some (SlaveEast c)
  | WEST => Some (SlaveWest c)
  | DMA => Some (MM2S_State c)
  | _ => None
  end.

Definition putSlave (d : StrmSwPortType) (v : Z) (c : XAie_CoreConstraint)
  : XAie_CoreConstraint :=
  match d with
  | SOUTH => set_ports c (MM2S_State c) (S2MM_State c) (SlaveEast c)
               (SlaveWest c) v (SlaveNorth c) (MasterEast c) (MasterWest c)
               (MasterSouth c) (MasterNorth c)
  | NORTH => set_ports c (MM2S_State c) (S2MM_State c) (SlaveEast c)
               (SlaveWest c) (SlaveSouth c) v (MasterEast c) (MasterWest c)
               (MasterSouth c) (MasterNorth c)
  | EAST => set_ports c (MM2S_State c) (S2MM_State c) v
               (SlaveWest c) (SlaveSouth c) (SlaveNorth c) (MasterEast c)
               (MasterWest c) (MasterSouth c) (MasterNorth c)
  | WEST => set_ports c (MM2S_State c) (S2MM_State c) (SlaveEast c)
               v (SlaveSouth c) (SlaveNorth c) (MasterEast c) (MasterWest c)
               (MasterSouth c) (MasterNorth c)
  | DMA => set_ports c v (S2MM_State c) (SlaveEast c)
               (SlaveWest c) (SlaveSouth c) (SlaveNorth c) (MasterEast c)
               (MasterWest c) (MasterSouth c) (MasterNorth c)
  | _ => c
  end.

(** The field a [switch (portDest)] over the master side selects. *)
Definition getMaster (d : StrmSwPortType) (c : XAie_CoreConstraint) : option Z :=
  match d with
  | SOUTH => Some (MasterSouth c)
  | NORTH => Some (MasterNorth c)
  | EAST => Some (MasterEast c)
  | WEST => Some (MasterWest c)
  | DMA => Some (S2MM_State c)
  | _ => None
  end.

Definition putMaster (d : StrmSwPortType) (v : Z) (c : XAie_CoreConstraint)
  : XAie_CoreConstraint :=
  match d with
  | SOUTH => set_ports c (MM2S_State c) (S2MM_State c) (SlaveEast c)
               (SlaveWest c) (SlaveSouth c) (SlaveNorth c) (MasterEast c)
               (MasterWest c) v (MasterNorth c)
  | NORTH => set_ports c (MM2S_State c) (S2MM_State c) (SlaveEast c)
               (SlaveWest c) (SlaveSouth c) (SlaveNorth c) (MasterEast c)
               (MasterWest c) (MasterSouth c) v
  | EAST => set_ports c (MM2S_State c) (S2MM_State c) (SlaveEast c)
               (SlaveWest c) (SlaveSouth c) (SlaveNorth c) v
               (MasterWest c) (MasterSouth c) (MasterNorth c)
  | WEST => set_ports c (MM2S_State c) (S2MM_State c) (SlaveEast c)
               (SlaveWest c) (SlaveSouth c) (SlaveNorth c) (MasterEast c)
               v (MasterSouth c) (MasterNorth c)
  | DMA => set_ports c (MM2S_State c) v (SlaveEast c)
               (SlaveWest c) (SlaveSouth c) (SlaveNorth c) (MasterEast c)
               (MasterWest c) (MasterSouth c) (MasterNorth c)
  | _ => c
  end.

(** One [switch] of the two update functions: [op] is [u8_clear_bit]
    ([&= ~(1 << stream)]) or [u8_set_bit] ([|= (1 << stream)]). *)
Definition updSlave (op : Z → Z → option Z) (d : StrmSwPortType) (stream : Z)
  (c : XAie_CoreConstraint) : option XAie_CoreConstraint :=
  match getSlave d c with
  | Some f => v ← op f stream; Some (putSlave d v c)
  | None => Some c
  end.

Definition updMaster (op : Z → Z → option Z) (d : StrmSwPortType) (stream : Z)
  (c : XAie_CoreConstraint) : option XAie_CoreConstraint :=
  match getMaster d c with
  | Some f => v ← op f stream; Some (putMaster d v c)
  | None => Some c
  end.

Definition updStrmConn (op : Z → Z → option Z) (tile : XAie_LocType)
  (portSource : StrmSwPortType) (sourceStream' : Z)
  (portDest : StrmSwPortType) (destStream' : Z) : Exec unit :=
  constraint <<- constraintOf tile ;;
  c1 <<- lift_opt (updSlave op portSource sourceStream' constraint) ;;
  c2 <<- lift_opt (updMaster op portDest destStream' c1) ;;
  modifyConstraint tile (fun _ => c2).

(** Marks the two ports of a connection as used. *)
Definition _XAie_updatePortAvailabilityForStrmConn :=
  updStrmConn u8_clear_bit.

(** Marks the two ports of a connection as available. *)
Definition _XAie_updatePortAvailabilityForStrmConnInverse :=
  updStrmConn u8_set_bit.

(** The loop [for (i = 0; i < 8; i++) if (a & (1 << i)) return i;] of
    [_XAie_findFirstMatchingStream], and its two-bitmap form
    [(a & (1 << i)) && (b & (1 << i))] of
    [findFirstMatchingStreamForDestination]; [-1] when the loop falls
    through. *)
Definition bitSet (a i : Z) : bool := negb (Z.land a (Z.shiftl 1 i) =? 0).

Fixpoint firstCommonBit (idx : list Z) (a b : Z) : Z :=
  match idx with
  | [] => -1
  | i :: rest => if bitSet a i && bitSet b i then i
                 else firstCommonBit rest a b
  end.

Fixpoint firstBit (idx : list Z) (a : Z) : Z :=
  match idx with
  | [] => -1
  | i :: rest => if bitSet a i then i else firstBit rest a
  end.

Definition findFirstMatchingStreamForDestination (r : XAie_RoutingInstance)
  (SourceTile DestinationTile : XAie_LocType)
  (SourceDirection : StrmSwPortType) : option Z :=
  constraintSource ← tileAt (CoreConstraintPerCore r) SourceTile;
  constraintDestination ← tileAt (CoreConstraintPerCore r) DestinationTile;
  match SourceDirection with
  | NORTH => Some (firstCommonBit (upto 8) (MasterNorth constraintSource)
                     (SlaveSouth constraintDestination))
  | SOUTH => Some (firstCommonBit (upto 8) (MasterSouth constraintSource)
                     (SlaveNorth constraintDestination))
  | EAST => Some (firstCommonBit (upto 8) (MasterEast constraintSource)
                     (SlaveWest constraintDestination))
  | WEST => Some (firstCommonBit (upto 8) (MasterWest constraintSource)
                     (SlaveEast constraintDestination))
  | DMA => Some (firstCommonBit (upto 8) (u8 (-1)) (u8 (-1)))
  | _ => Some (-1)
  end.

Definition _XAie_findFirstMatchingStream (r : XAie_RoutingInstance)
  (tile : XAie_LocType) (direction : StrmSwPortType) (isEndTile : bool)
  : option Z :=
  constraint ← tileAt (CoreConstraintPerCore r) tile;
  shim ← _XAie_isShimTile r tile;
  shimPort ← (
    if (shim : bool) then
      if isEndTile then
        mappingArray r (AIE2HostPorts constraint) (AIE2HostPortCount constraint)
        ≫= firstAvailablePort (upto (AIE2HostPortCount constraint))
      else
        mappingArray r (Host2AIEPorts constraint) (Host2AIEPortCount constraint)
        ≫= firstAvailablePort (upto (Host2AIEPortCount constraint))
    else Some None) : option (option Z);
  match shimPort with
  | Some p => Some p
  | None =>
      match direction with
      | NORTH => Some (firstBit (upto 8) (SlaveNorth constraint))
      | SOUTH => Some (firstBit (upto 8) (SlaveSouth constraint))
      | EAST => Some (firstBit (upto 8) (SlaveEast constraint))
      | WEST => Some (firstBit (upto 8) (SlaveWest constraint))
      | DMA => Some (firstBit (upto 8)
                       (if isEndTile then S2MM_State constraint
                        else MM2S_State constraint))
      | _ => Some (-1)
      end
  end.

(** ** Buffer descriptors *)

(** [BDState |= (1 << bdID)] when [bdID < MAX_BUFFER_IDS], a local constant
    of value 16; [bdID] is a [u8] parameter. *)
Definition _XAie_resetBDAvailability (tile : XAie_LocType) (bdID : Z)
  : Exec unit :=
  let bdID := u8 bdID in
  constraint <<- constraintOf tile ;;
  if bdID <? 16 then
    m <<- lift_opt (shl1 bdID) ;;
    modifyConstraint tile (set_BDState (u64 (Z.lor (BDState constraint) m)))
  else ret tt.

(** The loop of [_XAie_findAvailableBufferID] over the candidate ids; the
    test [BDState & (1 << bufferID)] and the update
    [BDState &= ~(1 << bufferID)] are done in 64 bits, the shift in [int]. *)
Fixpoint findBufferID (ids : list Z) (bd : Z) : option (Z * Z) :=
  match ids with
  | [] => Some (-1, bd)
  | bufferID :: rest =>
      m ← shl1 bufferID;
      if negb (Z.land bd (u64 m) =? 0)
      then Some (bufferID, Z.land bd (u64 (Z.lnot m)))
      else findBufferID rest bd
  end.

(** [MAX_BUFFER_IDS] is 48 here. *)
Definition _XAie_findAvailableBufferID (tile : XAie_LocType) : Exec Z :=
  constraint <<- constraintOf tile ;;
  res <<- lift_opt (findBufferID (upto 48) (BDState constraint)) ;;
  let '(bufferID, bd) := res in
  (if bufferID =? -1 then ret tt
   else modifyConstraint tile (set_BDState bd)) ;;;
  ret bufferID.

(** ** Route catalogue *)

Definition samePair (p : XAie_RoutingPath) (src dst : XAie_LocType) : bool :=
  (loc_eqb (source p) src) && (loc_eqb (destination p) dst).

(** [_XAie_findRouteInRouteDB]: the outer [None] is the walk reaching an
    indeterminate pointer, the inner one is the NULL result.  (A node's
    [routePath] is never NULL.) *)
Fixpoint _XAie_findRouteInRouteDB (db : XAie_ProgrammedRoutes)
  (src dst : XAie_LocType) : option (option XAie_RoutingPath) :=
  match db with
  | NullRoute => Some None
  | WildRoute => None
  | RouteNode p next =>
      if samePair p src dst then Some (Some p)
      else _XAie_findRouteInRouteDB next src dst
  end.

Definition _XAie_addRouteInRoutesDB (head : XAie_ProgrammedRoutes)
  (p : XAie_RoutingPath) : XAie_ProgrammedRoutes :=
  RouteNode p head.

(** [_XAie_FreeRouteFromRoutesDB]: unlinks the first node of the pair. *)
Fixpoint _XAie_FreeRouteFromRoutesDB (head : XAie_ProgrammedRoutes)
  (src dst : XAie_LocType) : option XAie_ProgrammedRoutes :=
  match head with
  | NullRoute => Some NullRoute
  | WildRoute => None
  | RouteNode p next =>
      if samePair p src dst then Some next
      else next' ← _XAie_FreeRouteFromRoutesDB next src dst;
           Some (RouteNode p next')
  end.

(** ** Path finder *)

Definition _XAie_isTileWhitelisted (CurrTile : XAie_LocType)
  (whitelist : list XAie_LocType) : bool :=
  existsb (loc_eqb CurrTile) whitelist.

Definition _XAie_isTileBlackListed (CurrTile : XAie_LocType)
  (initialConstraints : option XAie_RouteConstraints) : bool :=
  match initialConstraints with
  | Some rc => existsb (loc_eqb CurrTile) (BlackListedCores rc)
  | None => false
  end.

(** A [u8] bitmap used as a truth value. *)
Definition nonzero (z : Z) : bool := negb (z =? 0).

(** The port test of [_XAie_isAdjTileValidForCurrTile]: the [switch] over
    the direction. *)
Definition isPortAvailable (currentConstraint adjConstraint : XAie_CoreConstraint)
  (direction : StrmSwPortType) : bool :=
  match direction with
  | NORTH => nonzero (SlaveNorth currentConstraint)
             && nonzero (MasterSouth adjConstraint)
  | SOUTH => nonzero (SlaveSouth currentConstraint)
             && nonzero (MasterNorth adjConstraint)
  | EAST => nonzero (SlaveEast currentConstraint)
            && nonzero (MasterWest adjConstraint)
  | WEST => nonzero (SlaveWest currentConstraint)
            && nonzero (MasterEast adjConstraint)
  | _ => false
  end.

Definition _XAie_isAdjTileValidForCurrTile (r : XAie_RoutingInstance)
  (RouteConstraints : option XAie_RouteConstraints)
  (currentTile adjTile : XAie_LocType) (direction : StrmSwPortType)
  (visited : gset XAie_LocType) : option bool :=
  if negb ((Col adjTile <? NumCols r) && (Row adjTile <? NumRows r))
  then Some false
  else
    currentConstraint ← tileAt (CoreConstraintPerCore r) currentTile;
    adjConstraint ← tileAt (CoreConstraintPerCore r) adjTile;
    Some (negb (_XAie_isTileBlackListed adjTile RouteConstraints)
          && negb (bool_decide (adjTile ∈ visited))
          && isPortAvailable currentConstraint adjConstraint direction).

(** The state of the search: the queue, the [visited] matrix (the set of
    the tiles marked [true]), the [Pred] matrix (a map; [calloc] makes an
    unwritten entry the tile (0,0)) and the flag [found]. *)
Record BfsState := {
  queue : Queue;
  visited : gset XAie_LocType;
  Pred : gmap XAie_LocType XAie_LocType;
  found : bool
}.

Definition predOf (P : gmap XAie_LocType XAie_LocType) (t : XAie_LocType)
  : XAie_LocType :=
  default (mkLoc 0 0) (P !! t).

Definition whitelistActive (RouteConstraints : option XAie_RouteConstraints)
  : bool :=
  match RouteConstraints with
  | Some rc => 0 <? NoOfWhiteListedCores rc
  | None => false
  end.

Definition whitelistOf (RouteConstraints : option XAie_RouteConstraints)
  : list XAie_LocType :=
  match RouteConstraints with
  | Some rc => WhiteListedCores rc
  | None => []
  end.

(** The walk along the parent chain that checks the whitelist:
    [while (temp != source) { if (... !whitelisted(temp)) { allWhitelisted
    = false; break; } temp = Pred[temp]; }].  One unit of fuel per move;
    [None] when the fuel runs out. *)
Fixpoint allWhitelisted (fuel : nat)
  (RouteConstraints : option XAie_RouteConstraints)
  (P : gmap XAie_LocType XAie_LocType) (src temp : XAie_LocType)
  : option bool :=
  if loc_eqb temp src then Some true
  else if whitelistActive RouteConstraints
          && negb (_XAie_isTileWhitelisted temp (whitelistOf RouteConstraints))
  then Some false
  else match fuel with
       | O => None
       | S fuel' =>
           allWhitelisted fuel' RouteConstraints P src (predOf P temp)
       end.

(** The arrays [dCol], [dRow] and [StrmSwPort]: North, South, East, West. *)
Definition directions : list (Z * Z * StrmSwPortType) :=
  [ (0, 1, NORTH); (0, -1, SOUTH); (1, 0, EAST); (-1, 0, WEST) ].

Section PathFinder.

Variable r : XAie_RoutingInstance.
Variable RouteConstraints : option XAie_RouteConstraints.
Variables src dst : XAie_LocType.

(** The number of tiles of the grid, [MAX_ROWS * MAX_COLS]. *)
Definition gridSize : Z := NumRows r * NumCols r.

(** One round of the [for (i = 0; i < 4; i++)] loop. *)
Definition visitDirection (current : XAie_LocType) (st : BfsState)
  (d : Z * Z * StrmSwPortType) : option BfsState :=
  let '(dCol, dRow, StrmSwPort) := d in
  let adj := XAie_TileLoc (Col current + dCol) (Row current + dRow) in
  valid ← _XAie_isAdjTileValidForCurrTile r RouteConstraints current adj
             StrmSwPort (visited st);
  if (valid : bool) then
    let st1 := {| queue := _XAie_enqueue (queue st) adj;
                  visited := {[ adj ]} ∪ visited st;
                  Pred := <[ adj := current ]> (Pred st);
                  found := found st |} in
    if loc_eqb adj dst then
      ok ← allWhitelisted (Z.to_nat gridSize) RouteConstraints (Pred st1)
             src adj;
      Some (if (ok : bool)
            then {| queue := queue st1; visited := visited st1;
                    Pred := Pred st1; found := true |}
            else st1)
    else Some st1
  else Some st.

(** The [for] loop over the four directions, left by [break] once [found]
    is set. *)
Fixpoint visitNeighbours (current : XAie_LocType)
  (ds : list (Z * Z * StrmSwPortType)) (st : BfsState) : option BfsState :=
  match ds with
  | [] => Some st
  | d :: rest =>
      st' ← visitDirection current st d;
      if found st' then Some st' else visitNeighbours current rest st'
  end.

(** [while (!isEmpty(queue) && !found)]: one unit of fuel per round. *)
Fixpoint bfsLoop (fuel : nat) (st : BfsState) : option BfsState :=
  if isEmpty (queue st) || found st then Some st
  else match fuel with
       | O => None
       | S fuel' =>
           let '(current, q) := _XAie_dequeue (queue st) in
           st' ← visitNeighbours current directions
                   {| queue := q; visited := visited st;
                      Pred := Pred st; found := found st |};
           bfsLoop fuel' st'
       end.

(** The loop [while (at != source)] that stores [at] in the next entry of
    [path] and moves to [Pred[at]]: [room] is the number of entries of [path] still unwritten; writing past
    the array is undefined. *)
Fixpoint collectPath (room : nat) (P : gmap XAie_LocType XAie_LocType)
  (at' : XAie_LocType) (acc : list XAie_LocType)
  : option (list XAie_LocType) :=
  if loc_eqb at' src then Some acc
  else match room with
       | O => None
       | S room' => collectPath room' P (predOf P at') (acc ++ [at'])
       end.

Definition bfsInit : BfsState :=
  {| queue := _XAie_enqueue (createQueue gridSize) src;
     visited := ∅; Pred := ∅; found := false |}.

(** [_XAie_findShortestPath]: the result is the returned flag and the
    content of [path] up to [*pathLength].  [pathRoom] is the number of
    entries the caller allocated for [path].  The loop of the search runs
    at most once per queued tile, so [gridSize + 1] rounds of fuel are
    never used up (lemma [bfsLoop_fuel] below). *)
Definition _XAie_findShortestPath (pathRoom : Z)
  : option (bool * list XAie_LocType) :=
  if loc_eqb src dst then Some (true, [])
  else
    st ← bfsLoop (S (Z.to_nat gridSize)) bfsInit;
    if negb (found st) then Some (false, [])
    else
      p ← collectPath (Z.to_nat (pathRoom - 1)) (Pred st) dst [];
      Some (true, reversePath (p ++ [src])).

End PathFinder.

(** ** Path programmer *)

(** The local variables of [_XAie_performRoutingOnPath] that live across
    the rounds of its loop; [steps] is the list built through [lastStep],
    [pathMM2S] and [pathS2MM] are the two port fields of [CurrRoutingPath]. *)
Record RouteLoop := {
  lastDir : StrmSwPortType;
  lastStream : Z;
  steps : list XAie_RoutingStep;
  pathMM2S : Z;
  pathS2MM : Z
}.

Definition setAutoConfigured (t : XAie_LocType) : Exec unit :=
  modifyConstraint t (set_isAutoConfigured true).

Section WithBackend2.

Variable be : Backend.

(** The special handling of the last tile ([i == pathLength - 1]). *)
Definition routeLastTile (src dst LastTile : XAie_LocType) (ls : RouteLoop)
  : Exec AieRC :=
  r0 <<- get_ri ;;
  shim <<- lift_opt (_XAie_isShimTile r0 LastTile) ;;
  let dirLast := if (shim : bool) then SOUTH else DMA in
  destStream' <<- lift_opt (_XAie_findFirstMatchingStream r0 LastTile dirLast true) ;;
  if destStream' =? -1 then ret XAIE_ERR
  else
    setAutoConfigured LastTile ;;;
    RC <<- hw be (XAie_StrmConnCctEnable LastTile (lastDir ls) (lastStream ls)
                    dirLast destStream') ;;
    if negb (RC =? XAIE_OK) then ret XAIE_ERR
    else
      _XAie_updatePortAvailabilityForStrmConn LastTile (lastDir ls)
        (lastStream ls) dirLast destStream' ;;;
      let newStep := {| sourceTile := LastTile;
                        sourceStream := lastStream ls;
                        destStream := destStream';
                        source_direction := lastDir ls;
                        dest_direction := dirLast |} in
      let CurrRoutingPath := {| source := src; destination := dst;
                                MM2S_portNo := pathMM2S ls;
                                S2MM_portNo := u8 destStream';
                                nextStep := steps ls ++ [newStep] |} in
      RC <<- (if (shim : bool) then
                RC <<- hw be (XAie_EnableAieToShimDmaStrmPort LastTile destStream') ;;
                if negb (RC =? XAIE_OK) then ret XAIE_ERR
                else
                  _XAie_updatePortAvailabilityForAieToShimDma LastTile
                    destStream' false ;;;
                  ret XAIE_OK
              else ret XAIE_OK) ;;
      if negb (RC =? XAIE_OK) then ret XAIE_ERR
      else
        Sourceconstraint <<- constraintOf src ;;
        match routesDB Sourceconstraint with
        | NullRoute =>
            modifyConstraint src
              (set_routesDB (RouteNode CurrRoutingPath WildRoute)) ;;;
            ret XAIE_OK
        | RouteNode _ _ =>
            modifyConstraint src
              (set_routesDB (_XAie_addRouteInRoutesDB
                               (routesDB Sourceconstraint) CurrRoutingPath)) ;;;
            ret XAIE_OK
        | WildRoute => undef
        end.

(** A round of the loop for a tile that is not the last one; the result is
    the return code when the function returns from inside the round, the
    updated locals when the loop goes on. *)
Definition routeHop (i : Z) (SourceTile DestinationTile : XAie_LocType)
  (ls : RouteLoop) : Exec (AieRC + RouteLoop) :=
  let sameCol := Col DestinationTile =? Col SourceTile in
  let dirSource :=
    if sameCol
    then (if Row SourceTile <? Row DestinationTile then NORTH else SOUTH)
    else (if Col SourceTile <? Col DestinationTile then EAST else WEST) in
  let dirDest :=
    if sameCol
    then (if Row SourceTile <? Row DestinationTile then SOUTH else NORTH)
    else (if Col SourceTile <? Col DestinationTile then WEST else EAST) in
  r0 <<- get_ri ;;
  shim <<- lift_opt (_XAie_isShimTile r0 SourceTile) ;;
  let actualdirSource :=
    if (shim : bool) then lastDir ls
    else (if i =? 0 then DMA else lastDir ls) in
  let actualdirDest := dirSource in
  sourceStream' <<-
    (if (shim : bool) && negb (i =? 0) then ret (lastStream ls)
     else lift_opt (_XAie_findFirstMatchingStream r0 SourceTile
                      actualdirSource false)) ;;
  destStream' <<- lift_opt (findFirstMatchingStreamForDestination r0
                              SourceTile DestinationTile dirSource) ;;
  if (sourceStream' =? -1) || (destStream' =? -1) then ret (inl XAIE_ERR)
  else
    setAutoConfigured SourceTile ;;;
    RC <<- hw be (XAie_StrmConnCctEnable SourceTile actualdirSource
                    sourceStream' actualdirDest destStream') ;;
    if negb (RC =? XAIE_OK) then ret (inl XAIE_ERR)
    else
      let newStep := {| sourceTile := SourceTile;
                        sourceStream := sourceStream';
                        destStream := destStream';
                        source_direction := actualdirSource;
                        dest_direction := actualdirDest |} in
      _XAie_updatePortAvailabilityForStrmConn SourceTile actualdirSource
        sourceStream' actualdirDest destStream' ;;;
      let ls' := {| lastDir := dirDest; lastStream := destStream';
                    steps := steps ls ++ [newStep];
                    pathMM2S := if i =? 0 then u8 sourceStream'
                                else pathMM2S ls;
                    pathS2MM := pathS2MM ls |} in
      if (shim : bool) && (i =? 0) then
        RC <<- hw be (XAie_EnableShimDmaToAieStrmPort SourceTile sourceStream') ;;
        if negb (RC =? XAIE_OK) then ret (inl XAIE_ERR)
        else
          _XAie_updatePortAvailabilityForShimDmaToAie SourceTile
            sourceStream' false ;;;
          ret (inr ls')
      else ret (inr ls').

(** The loop [for (i = 0; i < pathLength; i++)] over [path]; [rest] is
    [path] from index [i] on. *)
Fixpoint routeLoop (src dst : XAie_LocType) (i : Z)
  (rest : list XAie_LocType) (ls : RouteLoop) : Exec AieRC :=
  match rest with
  | [] => ret XAIE_OK
  | [LastTile] => routeLastTile src dst LastTile ls
  | SourceTile :: ((DestinationTile :: _) as rest') =>
      res <<- routeHop i SourceTile DestinationTile ls ;;
      match res with
      | inl rc => ret rc
      | inr ls' => routeLoop src dst (i + 1) rest' ls'
      end
  end.

Definition _XAie_performRoutingOnPath (src dst : XAie_LocType)
  (path : list XAie_LocType) : Exec AieRC :=
  routeLoop src dst 0 path
    {| lastDir := SOUTH; lastStream := -1; steps := [];
       pathMM2S := u8 (-1); pathS2MM := u8 (-1) |}.

(** ** Public entry points *)

Definition XAie_SetCoreExecute (tile : XAie_LocType) (isExecute : bool)
  : Exec AieRC :=
  modifyConstraint tile (set_isCoreExecuting isExecute) ;;;
  ret XAIE_OK.

(** The test [!_XAie_isShimTile(..) && !_XAie_isMemTile(..)]. *)
Definition isComputeEndpoint (t : XAie_LocType) : Exec bool :=
  r0 <<- get_ri ;;
  shim <<- lift_opt (_XAie_isShimTile r0 t) ;;
  mem <<- lift_opt (_XAie_isMemTile r0 t) ;;
  ret (negb shim && negb mem).

Definition XAie_Route (RouteConstraints : option XAie_RouteConstraints)
  (src dst : XAie_LocType) : Exec AieRC :=
  Sourceconstraint <<- constraintOf src ;;
  existing <<- lift_opt (_XAie_findRouteInRouteDB (routesDB Sourceconstraint)
                           src dst) ;;
  match existing with
  | Some _ => ret XAIE_ERR
  | None =>
      r0 <<- get_ri ;;
      res <<- lift_opt (_XAie_findShortestPath r0 RouteConstraints src dst
                          (NumRows r0 * NumCols r0)) ;;
      let '(ok, path) := res in
      if negb ok then ret XAIE_ERR
      else
        RC <<- _XAie_performRoutingOnPath src dst path ;;
        if negb (RC =? XAIE_OK) then ret XAIE_ERR
        else
          srcCore <<- isComputeEndpoint src ;;
          (if (srcCore : bool) then XAie_SetCoreExecute src true
           else ret XAIE_OK) ;;;
          dstCore <<- isComputeEndpoint dst ;;
          (if (dstCore : bool) then XAie_SetCoreExecute dst true
           else ret XAIE_OK) ;;;
          ret XAIE_OK
  end.

(** The loop of [XAie_DeRoute] over the steps of the route; [first] tells
    whether [currentStep == routingPath->nextStep]. *)
Fixpoint derouteLoop (pathSource : XAie_LocType) (first : bool)
  (todo : list XAie_RoutingStep) : Exec AieRC :=
  match todo with
  | [] => ret XAIE_OK
  | currentStep :: rest =>
      RC <<- hw be (XAie_StrmConnCctDisable (sourceTile currentStep)
                      (source_direction currentStep) (sourceStream currentStep)
                      (dest_direction currentStep) (destStream currentStep)) ;;
      if negb (RC =? XAIE_OK) then ret XAIE_ERR
      else
        _XAie_updatePortAvailabilityForStrmConnInverse (sourceTile currentStep)
          (source_direction currentStep) (sourceStream currentStep)
          (dest_direction currentStep) (destStream currentStep) ;;;
        r0 <<- get_ri ;;
        shim <<- lift_opt (_XAie_isShimTile r0 pathSource) ;;
        (if (shim : bool) then
           if first then
             _XAie_updatePortAvailabilityForShimDmaToAie
               (sourceTile currentStep) (sourceStream currentStep) true
           else
             _XAie_updatePortAvailabilityForAieToShimDma
               (sourceTile currentStep) (sourceStream currentStep) true
         else ret XAIE_OK) ;;;
        derouteLoop pathSource false rest
  end.

Definition XAie_DeRoute (src dst : XAie_LocType)
  (ShouldModifyCoreConfig : bool) : Exec AieRC :=
  Sourceconstraint <<- constraintOf src ;;
  _ <<- constraintOf dst ;;
  match routesDB Sourceconstraint with
  | WildRoute => undef
  | NullRoute => ret XAIE_ERR
  | RouteNode _ _ =>
      srcCore <<- isComputeEndpoint src ;;
      (if ShouldModifyCoreConfig && (srcCore : bool)
       then modifyConstraint src (set_isCoreExecuting false)
       else ret tt) ;;;
      dstCore <<- isComputeEndpoint dst ;;
      (if ShouldModifyCoreConfig && (dstCore : bool)
       then modifyConstraint dst (set_isCoreExecuting false)
       else ret tt) ;;;
      lookup' <<- lift_opt (_XAie_findRouteInRouteDB (routesDB Sourceconstraint)
                              src dst) ;;
      routingPath <<- lift_opt lookup' ;;
      RC <<- derouteLoop (source routingPath) true (nextStep routingPath) ;;
      if negb (RC =? XAIE_OK) then ret XAIE_ERR
      else
        Sourceconstraint' <<- constraintOf src ;;
        db <<- lift_opt (_XAie_FreeRouteFromRoutesDB
                           (routesDB Sourceconstraint') src dst) ;;
        modifyConstraint src (set_routesDB db) ;;;
        ret XAIE_OK
  end.

(** ** Data mover *)

Record XAie_BDs := {
  sourceBD : Z;
  destinationBD : Z
}.

(** One half of [_XAie_programBufferDescriptors]: the descriptor of one
    endpoint.  The result is the accumulated code and the buffer id. *)
Definition programOneDescriptor (tile : XAie_LocType) (Object data_size : Z)
  (RC : AieRC) : Exec (AieRC * Z) :=
  rc1 <<- hw be (XAie_DmaDescInit tile) ;;
  r0 <<- get_ri ;;
  shim <<- lift_opt (_XAie_isShimTile r0 tile) ;;
  rc2 <<- (if (shim : bool) then
             match BackendType (DeviceInstance r0) with
             | XAIE_IO_BACKEND_BAREMETAL | XAIE_IO_BACKEND_SOCKET =>
                 hw be (XAie_DmaSetAddrLen Object data_size)
             | _ => hw be (XAie_DmaSetAddrOffsetLen Object 0 data_size)
             end
           else hw be (XAie_DmaSetAddrLen Object data_size)) ;;
  rc3 <<- hw be XAie_DmaEnableBd ;;
  bufferID <<- _XAie_findAvailableBufferID tile ;;
  rc4 <<- hw be (XAie_DmaWriteBd tile bufferID) ;;
  ret (Z.lor (Z.lor (Z.lor (Z.lor RC rc1) rc2) rc3) rc4, bufferID).

Definition _XAie_programBufferDescriptors (src : XAie_LocType)
  (SourceObject data_size DestinationObject : Z) (dst : XAie_LocType)
  : Exec (AieRC * XAie_BDs) :=
  s <<- programOneDescriptor src SourceObject data_size XAIE_OK ;;
  let '(RC, sourceBufferID) := s in
  if negb (RC =? XAIE_OK)
  then ret (XAIE_ERR, {| sourceBD := u16 sourceBufferID; destinationBD := 0 |})
  else
    d <<- programOneDescriptor dst DestinationObject data_size RC ;;
    let '(RC, destBufferID) := d in
    let BDs := {| sourceBD := u16 sourceBufferID;
                  destinationBD := u16 destBufferID |} in
    if negb (RC =? XAIE_OK) then ret (XAIE_ERR, BDs)
    else ret (XAIE_OK, BDs).

(** [while (destPendingBDCount) RC |= XAie_DmaGetPendingBdCount(..)]: the
    count starts at 1, so the register is read at least once; [polls]
    bounds the number of reads, and the execution has no result when the
    count is still non-zero after that many. *)
Fixpoint pendingLoop (polls : nat) (tile : XAie_LocType) (chNum : Z)
  (RC : AieRC) : Exec AieRC :=
  match polls with
  | O => undef
  | S polls' =>
      res <<- hw_count be (XAie_DmaGetPendingBdCount tile chNum DMA_S2MM) ;;
      let '(rc, destPendingBDCount) := res in
      if destPendingBDCount =? 0 then ret (Z.lor RC rc)
      else pendingLoop polls' tile chNum (Z.lor RC rc)
  end.

Definition XAie_MoveData (polls : nat) (src : XAie_LocType)
  (SourceObject data_size DestinationObject : Z) (dst : XAie_LocType)
  : Exec AieRC :=
  prog <<- _XAie_programBufferDescriptors src SourceObject data_size
             DestinationObject dst ;;
  let '(rc, bufferDescriptors) := prog in
  if negb (rc =? XAIE_OK) then ret XAIE_ERR
  else
    Sourceconstraint <<- constraintOf src ;;
    lookup' <<- lift_opt (_XAie_findRouteInRouteDB (routesDB Sourceconstraint)
                            src dst) ;;
    match lookup' with
    | None => ret XAIE_ERR
    | Some routingPath =>
        r0 <<- get_ri ;;
        shimS <<- lift_opt (_XAie_isShimTile r0 src) ;;
        sourceChannelID <<-
          (if (shimS : bool) then
             ch <<- lift_opt (findAvailableChannelIDforShimTile r0 src
                               (MM2S_portNo routingPath) true) ;;
             ret (u8 ch)
           else ret (MM2S_portNo routingPath)) ;;
        shimD <<- lift_opt (_XAie_isShimTile r0 dst) ;;
        destChannelID <<-
          (if (shimD : bool) then
             ch <<- lift_opt (findAvailableChannelIDforShimTile r0 dst
                               (S2MM_portNo routingPath) false) ;;
             ret (u8 ch)
           else ret (S2MM_portNo routingPath)) ;;
        rc1 <<- hw be (XAie_DmaChannelPushBdToQueue src sourceChannelID
                         DMA_MM2S (sourceBD bufferDescriptors)) ;;
        rc2 <<- hw be (XAie_DmaChannelEnable src sourceChannelID DMA_MM2S) ;;
        let RC := Z.lor (Z.lor XAIE_OK rc1) rc2 in
        if negb (RC =? XAIE_OK) then ret XAIE_ERR
        else
          rc3 <<- hw be (XAie_DmaChannelPushBdToQueue dst destChannelID
                           DMA_S2MM (destinationBD bufferDescriptors)) ;;
          rc4 <<- hw be (XAie_DmaChannelEnable dst destChannelID DMA_S2MM) ;;
          let RC := Z.lor (Z.lor RC rc3) rc4 in
          if negb (RC =? XAIE_OK) then ret XAIE_ERR
          else
            RC <<- pendingLoop polls dst destChannelID RC ;;
            if negb (RC =? XAIE_OK) then ret XAIE_ERR
            else
              _XAie_resetBDAvailability dst (destinationBD bufferDescriptors) ;;;
              _XAie_resetBDAvailability src (sourceBD bufferDescriptors) ;;;
              ret XAIE_OK
    end.

(** ** XAie_Run *)

Fixpoint forEach {A} (l : list A) (body : A → Exec unit) : Exec unit :=
  match l with
  | [] => ret tt
  | a :: rest => body a ;;; forEach rest body
  end.

Definition XAie_Run (count : Z) : Exec AieRC :=
  r0 <<- get_ri ;;
  forEach (upto count) (fun _ =>
    forEach (upto (NumCols r0)) (fun col =>
      forEach (upto (NumRows r0)) (fun row =>
        coreConstraint <<- constraintOf (mkLoc col row) ;;
        if isCoreExecuting coreConstraint
        then hw be (XAie_CoreEnable (XAie_TileLoc col row)) ;;; ret tt
        else ret tt))) ;;;
  ret XAIE_OK.

End WithBackend2.

(** ** A concrete device: 5 columns by 6 rows

    Shim row 0, one memory-tile row (row 1), compute rows 2 to 5: the
    layout the system tests of the repository use (test/stest/hw_config.h). *)

Definition dev56 : XAie_DevInst :=
  {| DevNumRows := 6; DevNumCols := 5; ShimRow := 0;
     MemTileRowStart := 1; MemTileNumRows := 1;
     AieTileRowStart := 2; AieTileNumRows := 4;
     BackendType := XAIE_IO_BACKEND_SOCKET |}.

(** Some content for freshly allocated structures; every row of [dev56] is
    seeded, so it does not show in the table. *)
Definition raw0 : XAie_CoreConstraint :=
  {| isAutoConfigured := false; MM2S_State := 0; S2MM_State := 0;
     ShimMM2S_State := 0; ShimS2MM_State := 0; AllChannelsInUse := false;
     BDState := 0; AllBDsareInUse := false; tile_type := XAIE_AIE_SHIM;
     DirSupported := {| canMoveNorth := false; canMoveSouth := false;
                        canMoveEast := false; canMoveWest := false |};
     SlaveEast := 0; SlaveWest := 0; SlaveSouth := 0; SlaveNorth := 0;
     MasterEast := 0; MasterWest := 0; MasterSouth := 0; MasterNorth := 0;
     Host2AIEPorts := None; Host2AIEPortCount := 0;
     AIE2HostPorts := None; AIE2HostPortCount := 0;
     routesDB := NullRoute; isCoreExecuting := false |}.

Definition ri56 : XAie_RoutingInstance :=
  XAie_InitRoutingHandler dev56 (fun _ => raw0).

(** The machine right after initialisation, and a hardware layer whose
    every call succeeds and whose DMA queues are always drained. *)
Definition m56 : Machine := {| ri := ri56; calls := [] |}.

Definition okBackend : Backend :=
  {| hw_rc := fun _ _ => XAIE_OK; hw_pending := fun _ _ => 0 |}.

(** Running a call on the machine a previous call left. *)
Definition andThen {A B} (x : option (A * Machine)) (e : Exec B)
  : option (B * Machine) :=
  match x with
  | Some (_, m) => e m
  | None => None
  end.

Definition machineOf {A} (x : option (A * Machine)) : option Machine :=
  snd <$> x.

Definition codeOf {A} (x : option (A * Machine)) : option A :=
  fst <$> x.

Definition tileOf (m : Machine) (t : XAie_LocType) : option XAie_CoreConstraint :=
  tileAt (CoreConstraintPerCore (ri m)) t.

(** The machine after the call
    [XAie_Route(ri, NULL, XAie_TileLoc(2,3), XAie_TileLoc(4,3))] of the first
    system test, on the initial machine. *)
Definition m56_routed : Machine :=
  default m56 (machineOf (XAie_Route okBackend None (mkLoc 2 3) (mkLoc 4 3) m56)).

(** A constraint set with no blacklist and the one tile (3,3) on its
    whitelist. *)
Definition only33 : option XAie_RouteConstraints :=
  Some {| BlackListedCores := []; WhiteListedCores := [mkLoc 3 3] |}.

(** The well-formedness of an instance: the table has [NumCols] columns of
    [NumRows] tiles, both counts being [u8] values. *)
Definition wfInstance (r : XAie_RoutingInstance) : bool :=
  (0 <=? NumCols r) && (NumCols r <=? 255)
  && (0 <=? NumRows r) && (NumRows r <=? 255)
  && (Z.of_nat (length (CoreConstraintPerCore r)) =? NumCols r)
  && forallb (fun column => Z.of_nat (length column) =? NumRows r)
       (CoreConstraintPerCore r).

(** The per-tile resource state a route reserves from: the eight port
    bitmaps, the two channel bitmaps and the buffer-descriptor bitmap. *)
Definition bitmaps (m : Machine) (t : XAie_LocType) : option InitialMasks :=
  masks_of <$> tileOf m t.

(** ** Abbreviations used by the statements *)

(** The machine with its tile table replaced. *)
Definition setTable (m : Machine) (tbl : list (list XAie_CoreConstraint))
  : Machine :=
  {| ri := with_table (ri m) tbl; calls := calls m |}.

(** The optional call of [XAie_SetCoreExecute(.., true)] on an endpoint of
    a route. *)
Definition markCore (t : XAie_LocType) (m : Machine) : Machine :=
  match tileOf m t with
  | Some c =>
      if negb (bool_decide (tile_type c = XAIE_AIE_SHIM))
         && negb (bool_decide (tile_type c = XAIE_AIE_MEM))
      then setTable m (alterTile (set_isCoreExecuting true) t
                         (CoreConstraintPerCore (ri m)))
      else m
  | None => m
  end.


(** The calls [XAie_Run] makes in one sweep of the grid: a core enable for
    every tile marked as executing, column by column. *)
Definition coreEnables (r : XAie_RoutingInstance) : list HwCall :=
  concat ((fun col =>
    concat ((fun row =>
      match tileAt (CoreConstraintPerCore r) (mkLoc col row) with
      | Some c => if isCoreExecuting c
                  then [XAie_CoreEnable (XAie_TileLoc col row)] else []
      | None => []
      end) <$> upto (NumRows r))) <$> upto (NumCols r)).



(** The route catalogue hanging off a tile. *)
Definition catalogueOf (m : Machine) (t : XAie_LocType)
  : option XAie_ProgrammedRoutes :=
  routesDB <$> tileOf m t.

(** Two tile records that differ at most in [isCoreExecuting], raised. *)
Definition sameButExec (c c' : XAie_CoreConstraint) : Prop :=
  c' = c ∨ c' = set_isCoreExecuting true c.

(** ** Scenarios on the 5 by 6 device

    Each is a sequence of public calls on the initial machine [m56], with
    the hardware layer [okBackend]. *)

(** Shim to compute and back: [XAie_Route] from the shim tile (2,0) to the
    compute tile (4,4), then [XAie_DeRoute] of the same pair. *)
Definition shimRoute : option (AieRC * Machine) :=
  XAie_Route okBackend None (mkLoc 2 0) (mkLoc 4 4) m56.

Definition shimDeRoute : option (AieRC * Machine) :=
  andThen shimRoute (XAie_DeRoute okBackend (mkLoc 2 0) (mkLoc 4 4) true).

(** Compute to shim: [XAie_Route] from (4,4) to the shim tile (2,0), then
    [XAie_DeRoute]. *)
Definition toShimRoute : option (AieRC * Machine) :=
  XAie_Route okBackend None (mkLoc 4 4) (mkLoc 2 0) m56.

Definition toShimDeRoute : option (AieRC * Machine) :=
  andThen toShimRoute (XAie_DeRoute okBackend (mkLoc 4 4) (mkLoc 2 0) true).

(** Two routes into (3,3), from its northern and southern neighbours; they
    take the two S2MM channels of (3,3). *)
Definition twoInto33 : option (AieRC * Machine) :=
  andThen (XAie_Route okBackend None (mkLoc 3 4) (mkLoc 3 3) m56)
    (XAie_Route okBackend None (mkLoc 3 2) (mkLoc 3 3)).

(** A third route into (3,3), from its western neighbour (2,3). *)
Definition thirdInto33 : option (AieRC * Machine) :=
  andThen twoInto33 (XAie_Route okBackend None (mkLoc 2 3) (mkLoc 3 3)).

(** Then a route from (2,3) through (3,3) to (4,3). *)
Definition through33 : option (AieRC * Machine) :=
  andThen thirdInto33 (XAie_Route okBackend None (mkLoc 2 3) (mkLoc 4 3)).

(** Four routes that cross from (2,3) to (3,3), each from its own source. *)
Definition fourEastward : option (AieRC * Machine) :=
  andThen
    (andThen
       (andThen (XAie_Route okBackend None (mkLoc 2 3) (mkLoc 3 3) m56)
          (XAie_Route okBackend None (mkLoc 1 3) (mkLoc 3 3)))
       (XAie_Route okBackend None (mkLoc 0 3) (mkLoc 4 3)))
    (XAie_Route okBackend None (mkLoc 2 2) (mkLoc 4 3)).


(** Eight calls of [XAie_MoveData] from the memory tile (2,1) to itself,
    with no route programmed; then a route from (2,1) to the compute tile
    (2,2) above it; then [XAie_MoveData] along that route. *)
Fixpoint repeatCall {A} (n : nat) (e : Exec A) (x : option (A * Machine))
  : option (A * Machine) :=
  match n with
  | O => x
  | S n' => repeatCall n' e (andThen x e)
  end.

Definition eightFailedMoves : option (AieRC * Machine) :=
  repeatCall 8
    (XAie_MoveData okBackend 1 (mkLoc 2 1) 0x2000 128 0x3000 (mkLoc 2 1))
    (Some (XAIE_OK, m56)).

Definition memRoute : option (AieRC * Machine) :=
  andThen eightFailedMoves (XAie_Route okBackend None (mkLoc 2 1) (mkLoc 2 2)).

Definition memMove : option (AieRC * Machine) :=
  andThen memRoute
    (XAie_MoveData okBackend 1 (mkLoc 2 1) 0x2000 128 0x2000 (mkLoc 2 2)).

(** Observations on the outcome of a scenario. *)
Definition bitmapsAfter {A} (x : option (A * Machine)) (t : XAie_LocType)
  : option InitialMasks :=
  m ← machineOf x; bitmaps m t.

Definition stepsAfter {A} (x : option (A * Machine)) (src dst : XAie_LocType)
  : option (list (XAie_LocType * StrmSwPortType * Z * StrmSwPortType * Z)) :=
  m ← machineOf x;
  c ← tileOf m src;
  found ← _XAie_findRouteInRouteDB (routesDB c) src dst;
  p ← found;
  Some ((fun s => (sourceTile s, source_direction s, sourceStream s,
                   dest_direction s, destStream s)) <$> nextStep p).

Definition mappingsAfter {A} (x : option (A * Machine))
  : option (list (list XAie_ChannelPortMapping)) :=
  m ← machineOf x; Some (PortMappings (ri m)).

(** ** Nothing is released

    [subBits a b]: every bit set in [a] is set in [b], that is, the free
    ports of [a] are among those of [b]. *)
Definition subBits (a b : Z) : Prop :=
  ∀ i, Z.testbit a i = true → Z.testbit b i = true.

(** A tile record [c'] that holds no more free ports or channels than [c],
    with the same buffer descriptors, catalogue and kind. *)
Definition tileLe (c' c : XAie_CoreConstraint) : Prop :=
  routesDB c' = routesDB c ∧ BDState c' = BDState c
  ∧ tile_type c' = tile_type c
  ∧ Host2AIEPorts c' = Host2AIEPorts c
  ∧ Host2AIEPortCount c' = Host2AIEPortCount c
  ∧ AIE2HostPorts c' = AIE2HostPorts c
  ∧ AIE2HostPortCount c' = AIE2HostPortCount c
  ∧ subBits (MM2S_State c') (MM2S_State c)
  ∧ subBits (S2MM_State c') (S2MM_State c)
  ∧ subBits (SlaveEast c') (SlaveEast c)
  ∧ subBits (SlaveWest c') (SlaveWest c)
  ∧ subBits (SlaveSouth c') (SlaveSouth c)
  ∧ subBits (SlaveNorth c') (SlaveNorth c)
  ∧ subBits (MasterEast c') (MasterEast c)
  ∧ subBits (MasterWest c') (MasterWest c)
  ∧ subBits (MasterSouth c') (MasterSouth c)
  ∧ subBits (MasterNorth c') (MasterNorth c).

(** A port-mapping entry that is the same port and channel, available only
    if it was. *)
Definition entryLe (e' e : XAie_ChannelPortMapping) : Prop :=
  channel e' = channel e ∧ port e' = port e
  ∧ (availability e' = true → availability e = true).

(** [noRelease m m']: from [m] to [m'] no port, channel or shim port has
    been released, and no buffer descriptor or catalogue has changed. *)
Definition noRelease (m m' : Machine) : Prop :=
  (∀ t c, tileOf m t = Some c → ∃ c', tileOf m' t = Some c' ∧ tileLe c' c)
  ∧ Forall2 (Forall2 entryLe) (PortMappings (ri m')) (PortMappings (ri m)).

(** Every result [a] of [e] that satisfies [P] comes with machines related
    by [R]. *)
Definition ensures {A} (P : A → Prop) (R : Machine → Machine → Prop)
  (e : Exec A) : Prop :=
  ∀ m a m', e m = Some (a, m') → P a → R m m'.

(** ** Vocabulary for the path finder *)

(** The neighbour of [u] in a direction of the [directions] array. *)
Definition adjOf (u : XAie_LocType) (d : Z * Z * StrmSwPortType)
  : XAie_LocType :=
  XAie_TileLoc (Col u + d.1.1) (Row u + d.1.2).

(** [traversable r RC u v]: [v] is a neighbour of [u] and the edge test of
    the path finder passes for it with no tile visited yet. *)
Definition traversable (r : XAie_RoutingInstance)
  (RC : option XAie_RouteConstraints) (u v : XAie_LocType) : Prop :=
  ∃ d, d ∈ directions ∧ v = adjOf u d
       ∧ _XAie_isAdjTileValidForCurrTile r RC u v d.2 ∅ = Some true.

(** A list of tiles whose consecutive members are related by [E]. *)
Fixpoint chain (E : XAie_LocType → XAie_LocType → Prop)
  (p : list XAie_LocType) : Prop :=
  match p with
  | [] => True
  | a :: rest =>
      match rest with
      | [] => True
      | b :: _ => E a b ∧ chain E rest
      end
  end.

Definition pathFromTo (s d : XAie_LocType) (p : list XAie_LocType) : Prop :=
  list.head p = Some s ∧ list.last p = Some d.

(** The tiles of a path after its first one. *)
Definition afterSource (p : list XAie_LocType) : list XAie_LocType := tail p.

(** Every path from [s] to [d] along edges that pass the edge test, and
    with the fewest tiles among such paths, has all its tiles after the
    source whitelisted. *)
Definition shortestPathsWhitelisted (r : XAie_RoutingInstance)
  (RC : option XAie_RouteConstraints) (s d : XAie_LocType) : Prop :=
  ∀ q, pathFromTo s d q → chain (traversable r RC) q →
       (∀ q', pathFromTo s d q' → chain (traversable r RC) q' →
              (length q ≤ length q')%nat) →
       ∀ t, t ∈ afterSource q →
            _XAie_isTileWhitelisted t (whitelistOf RC) = true.

(** The whitelist cannot refuse the first discovery of the destination:
    there is no whitelist, or the shortest paths are all whitelisted. *)
Definition whitelistLenient (r : XAie_RoutingInstance)
  (RC : option XAie_RouteConstraints) (s d : XAie_LocType) : Prop :=
  whitelistActive RC = false ∨ shortestPathsWhitelisted r RC s d.

Section SearchVocabulary.

Variable r : XAie_RoutingInstance.
Variable RC : option XAie_RouteConstraints.
Variables src dst : XAie_LocType.

(** The edge test without its [visited] conjunct. *)
Definition staticOK (u v : XAie_LocType) (d : StrmSwPortType) : bool :=
  (Col v <? NumCols r) && (Row v <? NumRows r)
  && negb (_XAie_isTileBlackListed v RC)
  && match tileAt (CoreConstraintPerCore r) u,
           tileAt (CoreConstraintPerCore r) v with
     | Some cu, Some cv => isPortAvailable cu cv d
     | _, _ => false
     end.

Definition edge (u v : XAie_LocType) : Prop :=
  ∃ d, d ∈ directions ∧ v = adjOf u d ∧ staticOK u v d.2 = true.

(** The tiles of the grid. *)
Definition allTiles : gset XAie_LocType :=
  list_to_set (upto (NumCols r) ≫= (fun c => mkLoc c <$> upto (NumRows r))).

(** The parent chain from [a] back to the source, the source excluded: the
    tiles the two walks of the path finder go through. *)
Fixpoint chainTo (P : gmap XAie_LocType XAie_LocType) (a : XAie_LocType)
  (l : list XAie_LocType) : Prop :=
  match l with
  | [] => a = src
  | x :: l' => a ≠ src ∧ x = a ∧ chainTo P (predOf P a) l'
  end.

(** The invariant of the search.  [lvl] gives every discovered tile its
    depth in the tree of parents, [D] is the set of the tiles whose four
    neighbours have all been looked at, [W] adds to [D] the tile being
    processed, and [L] is the depth of that tile. *)
Record SearchInv (lvl : XAie_LocType → nat) (D W : gset XAie_LocType)
  (L : nat) (st : BfsState) : Prop := {
  inv_capacity : capacity (queue st) = gridSize r;
  inv_lvl_src : lvl src = 0%nat;
  inv_src_W : src ∈ W;
  inv_D_W : D ⊆ W;
  inv_W_visited : W ⊆ {[src]} ∪ visited st;
  inv_visited_tiles : visited st ⊆ allTiles;
  inv_tree : ∀ v, v ∈ visited st → v ≠ src →
      ∃ u, Pred st !! v = Some u ∧ edge u v ∧ u ∈ W ∧ lvl v = S (lvl u);
  inv_cover : ∀ v, v ∈ visited st → v ∈ W ∨ v ∈ items (queue st);
  inv_queue_nodup : NoDup (items (queue st));
  inv_queue_visited : ∀ q, q ∈ items (queue st) → q ∈ visited st;
  inv_queue_lvl : ∀ q, q ∈ items (queue st) → q ≠ src →
      (q ∉ W) ∧ (L ≤ lvl q ≤ S L)%nat;
  inv_queue_sorted : ∀ i j q q', (i ≤ j)%nat →
      items (queue st) !! i = Some q → items (queue st) !! j = Some q' →
      q ≠ src → q' ≠ src → (lvl q ≤ lvl q')%nat;
  inv_W_lvl : ∀ u, u ∈ W → (lvl u ≤ L)%nat;
  inv_closure : ∀ u v, u ∈ D → edge u v →
      v = src ∨ (v ∈ visited st ∧ (lvl v ≤ S (lvl u))%nat);
  inv_bound : ∀ v, v ∈ visited st → v ≠ src →
      (lvl v ≤ size (visited st ∖ {[src]}))%nat
}.

(** The state after a neighbour [adj] of [cur] has passed the edge test. *)
Definition visitState (cur adj : XAie_LocType) (st : BfsState) : BfsState :=
  {| queue := _XAie_enqueue (queue st) adj;
     visited := {[ adj ]} ∪ visited st;
     Pred := <[ adj := cur ]> (Pred st);
     found := found st |}.

Definition setFound (st : BfsState) : BfsState :=
  {| queue := queue st; visited := visited st; Pred := Pred st;
     found := true |}.

Definition setQueue (q : Queue) (st : BfsState) : BfsState :=
  {| queue := q; visited := visited st; Pred := Pred st; found := found st |}.

(** The directions of [ds] have been looked at from [cur]: each neighbour
    that passes the static part of the edge test is the source or has been
    discovered, at depth [L + 1] at most. *)
Definition closedFor (lvl : XAie_LocType → nat) (L : nat)
  (cur : XAie_LocType) (st : BfsState)
  (ds : list (Z * Z * StrmSwPortType)) : Prop :=
  ∀ d, d ∈ ds → staticOK cur (adjOf cur d) d.2 = true →
       adjOf cur d = src
       ∨ (adjOf cur d ∈ visited st ∧ (lvl (adjOf cur d) ≤ S L)%nat).

(** [x] is reached from the source along [n] edges. *)
Inductive reachIn : nat → XAie_LocType → Prop :=
  | reach_0 : reachIn 0 src
  | reach_S n u v : reachIn n u → edge u v → reachIn (S n) v.

(** What holds once the destination has been discovered and accepted:
    the parents form a tree of edges back to the source, the destination
    sits at depth [k] in it, below the number of tiles, no path of edges
    from the source reaches it in fewer than [k] edges, and the walk over
    its parent chain has accepted it. *)
Record FoundInv (lvl : XAie_LocType → nat) (k : nat) (st : BfsState)
  : Prop := {
  fnd_found : found st = true;
  fnd_lvl_src : lvl src = 0%nat;
  fnd_dst : dst ∈ visited st;
  fnd_lvl_dst : lvl dst = k;
  fnd_tree : ∀ v, v ∈ visited st → v ≠ src →
      ∃ u, Pred st !! v = Some u ∧ edge u v
           ∧ (u = src ∨ u ∈ visited st) ∧ lvl v = S (lvl u);
  fnd_bound : (S k ≤ Z.to_nat (gridSize r))%nat;
  fnd_min : ∀ n, reachIn n dst → (k ≤ n)%nat;
  fnd_white : allWhitelisted (Z.to_nat (gridSize r)) RC (Pred st) src dst
              = Some true
}.

(** The depth map after the discovery of [adj] from a tile of depth [L]:
    a discovery of the source itself leaves its depth at 0. *)
Definition lvlAfter (lvl : XAie_LocType → nat) (L : nat)
  (adj : XAie_LocType) : XAie_LocType → nat :=
  fun x => if decide (x = adj) then (if decide (adj = src) then lvl x else S L)
           else lvl x.

(** When the whitelist cannot refuse it, the destination is accepted as
    soon as it is discovered, so it has not been discovered while the
    search goes on. *)
Definition whiteInv (st : BfsState) : Prop :=
  whitelistLenient r RC src dst → dst ∉ visited st.

(** The invariant inside a round of the search loop, [cur] being the tile
    taken from the queue. *)
Definition MidInv (lvl : XAie_LocType → nat) (D : gset XAie_LocType)
  (cur : XAie_LocType) (L : nat) (st : BfsState) : Prop :=
  SearchInv lvl D (D ∪ {[cur]}) L st ∧ lvl cur = L
  ∧ (src ∈ D ∨ L = 0%nat) ∧ cur ∈ allTiles
  ∧ found st = false ∧ whiteInv st.

(** The invariant between two rounds. *)
Definition HeadInv (lvl : XAie_LocType → nat) (D : gset XAie_LocType)
  (L : nat) (st : BfsState) : Prop :=
  SearchInv lvl D D L st ∧ found st = false ∧ whiteInv st.

(** The quantity that bounds the number of rounds left. *)
Definition searchMeasure (st : BfsState) : nat :=
  (length (items (queue st))
   + (Z.to_nat (gridSize r) - size (visited st)))%nat.

(** How the search loop ends: the destination has been accepted, or the
    queue is empty with nothing accepted. *)
Definition SearchDone (st : BfsState) : Prop :=
  (∃ lvl k, FoundInv lvl k st)
  ∨ (found st = false
     ∧ ∃ lvl D L, HeadInv lvl D L st ∧ items (queue st) = []).

End SearchVocabulary.

(** * Further parts of the routing file *)

(** ** The queue as the source stores it

    [Queue] of xaie_routing.h is a circular buffer: [front], [rear] and
    [size] are [int], [capacity] is [unsigned], and [array] comes from
    [aligned_alloc], so that its first content [raw] is whatever the
    allocator left.  The path finder above works on the list of the queued
    items; the two are related by [queueItems] below. *)
Module QueueArray.

Record Queue := {
  front : Z;
  rear : Z;
  size : Z;
  capacity : Z;
  array : list XAie_LocType
}.

(** [rear = capacity - 1] converts an [unsigned] to [int]: the value is
    kept for capacities up to [2^31]. *)
Definition createQueue (cap : Z) (raw : list XAie_LocType) : Queue :=
  {| front := 0; size := 0; rear := cap - 1; capacity := cap; array := raw |}.

Definition isFull (q : Queue) : bool := size q =? capacity q.

Definition isEmpty (q : Queue) : bool := size q =? 0.

(** [rear = (rear + 1) % capacity; array[rear] = item; size = size + 1]:
    a remainder by zero and a store outside the array are undefined. *)
Definition _XAie_enqueue (q : Queue) (item : XAie_LocType) : option Queue :=
  if isFull q then Some q
  else if capacity q =? 0 then None
  else
    let rear' := (rear q + 1) mod capacity q in
    if (0 <=? rear') && (rear' <? Z.of_nat (length (array q)))
    then Some {| front := front q; rear := rear'; size := size q + 1;
                 capacity := capacity q;
                 array := <[Z.to_nat rear' := item]> (array q) |}
    else None.

(** The empty queue gives the invalid tile [(XAie_LocType){-1, -1}]. *)
Definition _XAie_dequeue (q : Queue) : option (XAie_LocType * Queue) :=
  if isEmpty q then Some (XAie_TileLoc (-1) (-1), q)
  else if front q <? 0 then None
  else
    item ← array q !! Z.to_nat (front q);
    if capacity q =? 0 then None
    else Some (item, {| front := (front q + 1) mod capacity q;
                        rear := rear q; size := size q - 1;
                        capacity := capacity q; array := array q |}).

End QueueArray.

(** The items of a circular buffer, oldest first: the slots
    [front, front + 1, ..., front + size - 1], modulo the capacity. *)
Definition queueItems (q : QueueArray.Queue) : list XAie_LocType :=
  (fun i => default (XAie_TileLoc 0 0)
              (QueueArray.array q
                 !! Z.to_nat ((QueueArray.front q + i) mod QueueArray.capacity q)))
  <$> upto (QueueArray.size q).

Definition queueOf (q : QueueArray.Queue) : Queue :=
  {| capacity := QueueArray.capacity q; items := queueItems q |}.

(** The representation invariant of the circular buffer. *)
Definition queueWf (q : QueueArray.Queue) : Prop :=
  0 < QueueArray.capacity q < 2 ^ 31
  ∧ length (QueueArray.array q) = Z.to_nat (QueueArray.capacity q)
  ∧ 0 ≤ QueueArray.front q < QueueArray.capacity q
  ∧ 0 ≤ QueueArray.size q ≤ QueueArray.capacity q
  ∧ QueueArray.rear q
    = (QueueArray.front q + QueueArray.size q - 1) mod QueueArray.capacity q.

(** ** [reversePath] as the source has it

    The loop [for (i = 0; i < pathLength / 2; i++)] that swaps [path[i]]
    and [path[pathLength - 1 - i]] in place; [idx] is the list of the
    values of [i]. *)
Fixpoint swapEnds (idx : list Z) (pathLength : Z) (path : list XAie_LocType)
  : option (list XAie_LocType) :=
  match idx with
  | [] => Some path
  | i :: rest =>
      temp ← path !! Z.to_nat i;
      other ← path !! Z.to_nat (pathLength - 1 - i);
      swapEnds rest pathLength
        (<[Z.to_nat (pathLength - 1 - i) := temp]>
           (<[Z.to_nat i := other]> path))
  end.

Definition reversePathInPlace (path : list XAie_LocType) (pathLength : Z)
  : option (list XAie_LocType) :=
  swapEnds (upto (Z.quot pathLength 2)) pathLength path.

(** ** The hardware calls of a route

    The call [XAie_StrmConnCctEnable] that programs the connection a step
    records, and the call [XAie_StrmConnCctDisable] that [XAie_DeRoute]
    makes for it. *)
Definition enableOf (st : XAie_RoutingStep) : HwCall :=
  XAie_StrmConnCctEnable (sourceTile st) (source_direction st)
    (sourceStream st) (dest_direction st) (destStream st).

Definition disableOf (st : XAie_RoutingStep) : HwCall :=
  XAie_StrmConnCctDisable (sourceTile st) (source_direction st)
    (sourceStream st) (dest_direction st) (destStream st).

Definition isStrmEnable (c : HwCall) : bool :=
  match c with
  | XAie_StrmConnCctEnable _ _ _ _ _ => true
  | _ => false
  end.

(** The stream connections enabled in a trace of hardware calls. *)
Definition strmEnables (cs : list HwCall) : list HwCall :=
  filter (fun c => isStrmEnable c = true) cs.

(** Two machines with the same trace of hardware calls, and two machines
    with the same route catalogue on every tile. *)
Definition sameCalls (m m' : Machine) : Prop := calls m' = calls m.

Definition sameCatalogues (m m' : Machine) : Prop :=
  ∀ t, catalogueOf m' t = catalogueOf m t.

(** The [nextRoute] of the node that a successful [XAie_Route] puts at the
    head of a catalogue: the old head, but for the first route of a tile,
    whose node is allocated without its [nextRoute] being assigned. *)
Definition nextOfNewHead (old : XAie_ProgrammedRoutes) : XAie_ProgrammedRoutes :=
  match old with
  | NullRoute => WildRoute
  | _ => old
  end.

(** A hardware layer that refuses to disconnect the switch of tile (3,3)
    and accepts every other call, and the machine the teardown of the
    route (2,3) -> (4,3) leaves on it: the call fails at the second step
    of the route. *)
Definition failAt33 : Backend :=
  {| hw_rc := fun _ c =>
       match c with
       | XAie_StrmConnCctDisable t _ _ _ _ =>
           if decide (t = mkLoc 3 3) then XAIE_ERR else XAIE_OK
       | _ => XAIE_OK
       end;
     hw_pending := fun _ _ => 0 |}.

Definition m56_deroute_failed : Machine :=
  default m56
    (machineOf (XAie_DeRoute failAt33 (mkLoc 2 3) (mkLoc 4 3) true m56_routed)).

(** The machine after [XAie_DeRoute(ri, XAie_TileLoc(2,3), XAie_TileLoc(4,3),
    true)] on [m56_routed]. *)
Definition m56_derouted : Machine :=
  default m56_routed
    (machineOf (XAie_DeRoute okBackend (mkLoc 2 3) (mkLoc 4 3) true m56_routed)).

(** A tile of the grid of [dev] in its shim row, the row not being counted
    as a compute row as well: the tiles the initialiser gives the default
    port mappings. *)
Definition shimTileOf (dev : XAie_DevInst) (t : XAie_LocType) : Prop :=
  0 ≤ Col t < u8 (DevNumCols dev) ∧ 0 ≤ Row t < u8 (DevNumRows dev)
  ∧ isShimTileRow dev (Row t) = true ∧ isAieTile dev (Row t) = false.

(** [onlyBDs m m']: from [m] to [m'] nothing but buffer-descriptor bitmaps
    has changed in the routing instance. *)
Definition onlyBDs (m m' : Machine) : Prop :=
  (∀ t c, tileOf m t = Some c →
          ∃ bd, tileOf m' t = Some (set_BDState bd c))
  ∧ PortMappings (ri m') = PortMappings (ri m).

(** ** XAie_RouteDmaWait *)

Section WithBackend3.

Variable be : Backend.

(** The loop [u8 destPendingBDCount = 5; while (destPendingBDCount)
    XAie_DmaGetPendingBdCount(.., &destPendingBDCount);].  The count starts
    non-zero, so the first read is always made; the return codes of the
    reads are dropped.  [polls] bounds the number of reads as in
    [pendingLoop]. *)
Fixpoint dmaWaitLoop (polls : nat) (tile : XAie_LocType) (chNum : Z)
  : Exec unit :=
  match polls with
  | O => undef
  | S polls' =>
      res <<- hw_count be (XAie_DmaGetPendingBdCount tile chNum DMA_S2MM) ;;
      let '(_, destPendingBDCount) := res in
      if destPendingBDCount =? 0 then ret tt
      else dmaWaitLoop polls' tile chNum
  end.

(** The argument [isS2MM] is cast to void. *)
Definition XAie_RouteDmaWait (polls : nat) (sourcetile tile : XAie_LocType)
  (isS2MM : bool) : Exec AieRC :=
  coreConstraint <<- constraintOf sourcetile ;;
  lookup' <<- lift_opt (_XAie_findRouteInRouteDB (routesDB coreConstraint)
                          sourcetile tile) ;;
  match lookup' with
  | None => ret XAIE_ERR
  | Some routingPath =>
      r0 <<- get_ri ;;
      shim <<- lift_opt (_XAie_isShimTile r0 tile) ;;
      destChannelID <<-
        (if (shim : bool) then
           ch <<- lift_opt (findAvailableChannelIDforShimTile r0 tile
                             (S2MM_portNo routingPath) false) ;;
           ret (u8 ch)
         else ret (S2MM_portNo routingPath)) ;;
      dmaWaitLoop polls tile destChannelID ;;;
      ret XAIE_OK
  end.

End WithBackend3.

(** ** Host-edge constraints *)

Record XAie_RoutingResourceConstraint := {
  column : Z;
  channelPortMappings : MappingPtr;
  channelPortMappingCount : Z;
  HostToAie : bool
}.

Definition set_Host2AIE (p : MappingPtr) (n : Z) (c : XAie_CoreConstraint)
  : XAie_CoreConstraint :=
  {| isAutoConfigured := isAutoConfigured c;
     MM2S_State := MM2S_State c; S2MM_State := S2MM_State c;
     ShimMM2S_State := ShimMM2S_State c; ShimS2MM_State := ShimS2MM_State c;
     AllChannelsInUse := AllChannelsInUse c; BDState := BDState c;
     AllBDsareInUse := AllBDsareInUse c; tile_type := tile_type c;
     DirSupported := DirSupported c;
     SlaveEast := SlaveEast c; SlaveWest := SlaveWest c;
     SlaveSouth := SlaveSouth c; SlaveNorth := SlaveNorth c;
     MasterEast := MasterEast c; MasterWest := MasterWest c;
     MasterSouth := MasterSouth c; MasterNorth := MasterNorth c;
     Host2AIEPorts := p; Host2AIEPortCount := n;
     AIE2HostPorts := AIE2HostPorts c;
     AIE2HostPortCount := AIE2HostPortCount c;
     routesDB := routesDB c; isCoreExecuting := isCoreExecuting c |}.

Definition set_AIE2Host (p : MappingPtr) (n : Z) (c : XAie_CoreConstraint)
  : XAie_CoreConstraint :=
  {| isAutoConfigured := isAutoConfigured c;
     MM2S_State := MM2S_State c; S2MM_State := S2MM_State c;
     ShimMM2S_State := ShimMM2S_State c; ShimS2MM_State := ShimS2MM_State c;
     AllChannelsInUse := AllChannelsInUse c; BDState := BDState c;
     AllBDsareInUse := AllBDsareInUse c; tile_type := tile_type c;
     DirSupported := DirSupported c;
     SlaveEast := SlaveEast c; SlaveWest := SlaveWest c;
     SlaveSouth := SlaveSouth c; SlaveNorth := SlaveNorth c;
     MasterEast := MasterEast c; MasterWest := MasterWest c;
     MasterSouth := MasterSouth c; MasterNorth := MasterNorth c;
     Host2AIEPorts := Host2AIEPorts c;
     Host2AIEPortCount := Host2AIEPortCount c;
     AIE2HostPorts := p; AIE2HostPortCount := n;
     routesDB := routesDB c; isCoreExecuting := isCoreExecuting c |}.

(** The assignments one constraint makes on its tile. *)
Definition installEdge (Constraint : XAie_RoutingResourceConstraint)
  (c : XAie_CoreConstraint) : XAie_CoreConstraint :=
  if HostToAie Constraint
  then set_Host2AIE (channelPortMappings Constraint)
         (u8 (channelPortMappingCount Constraint)) c
  else set_AIE2Host (channelPortMappings Constraint)
         (u8 (channelPortMappingCount Constraint)) c.

(** [XAie_HostAieConstraint] is the array of constraints with its
    [ConstraintCount]: a list and its length. *)
Definition XAie_ConfigHostEdgeConstraints
  (UserResCon : list XAie_RoutingResourceConstraint) : Exec AieRC :=
  forEach UserResCon (fun Constraint =>
    modifyConstraint (XAie_TileLoc (column Constraint) 0)
      (installEdge Constraint)) ;;;
  ret XAIE_OK.

Definition clearEdges (c : XAie_CoreConstraint) : XAie_CoreConstraint :=
  set_AIE2Host None 0 (set_Host2AIE None 0 c).

Definition XAie_ResetHostEdgeConstraints : Exec AieRC :=
  r0 <<- get_ri ;;
  forEach (upto (NumCols r0)) (fun i =>
    modifyConstraint (XAie_TileLoc i 0) clearEdges) ;;;
  ret XAIE_OK.

(** ** XAie_RoutingSwitchReset *)

(** The silenced disable call of the stream-switch driver, which only
    [XAie_RoutingSwitchReset] makes. *)
Inductive SilentCall :=
  | XAie_SStrmConnCctDisable (t : XAie_LocType) (slave : StrmSwPortType)
      (slavePort : Z) (master : StrmSwPortType) (masterPort : Z).

(** A sweep issues silenced calls and may return from the function:
    [Some rc] in the first component is [return rc], [None] the normal end
    of the statement. *)
Definition Sweep : Type :=
  list SilentCall → option (option AieRC * list SilentCall).

Fixpoint sweepEach {A} (l : list A) (body : A → Sweep) : Sweep :=
  fun cs =>
    match l with
    | [] => Some (None, cs)
    | a :: rest =>
        match body a cs with
        | Some (None, cs') => sweepEach rest body cs'
        | stop => stop
        end
    end.

Definition resetDirections : list StrmSwPortType :=
  [DMA; SOUTH; WEST; NORTH; EAST].

Definition slaveBitfield (d : StrmSwPortType) (c : XAie_CoreConstraint) : Z :=
  match d with
  | SOUTH => SlaveSouth c
  | NORTH => SlaveNorth c
  | EAST => SlaveEast c
  | WEST => SlaveWest c
  | DMA => ShimMM2S_State c
  | _ => 0
  end.

Definition masterBitfield (d : StrmSwPortType) (c : XAie_CoreConstraint) : Z :=
  match d with
  | SOUTH => MasterSouth c
  | NORTH => MasterNorth c
  | EAST => MasterEast c
  | WEST => MasterWest c
  | DMA => ShimS2MM_State c
  | _ => 0
  end.

Section WithSilentBackend.

(** The return code of a silenced call, as a function of the silenced calls
    made so far and of the call. *)
Variable sstrm_rc : list SilentCall → SilentCall → AieRC.

Definition disableOne (t : XAie_LocType) (slaveDir : StrmSwPortType) (bit : Z)
  (masterDir : StrmSwPortType) (bitM : Z) : Sweep :=
  fun cs =>
    let c := XAie_SStrmConnCctDisable t slaveDir bit masterDir bitM in
    if negb (sstrm_rc cs c =? XAIE_OK) then Some (Some XAIE_ERR, cs ++ [c])
    else Some (None, cs ++ [c]).

Definition resetTile (currentTile : XAie_LocType)
  (tileConstraint : XAie_CoreConstraint) : Sweep :=
  sweepEach resetDirections (fun slaveDir =>
    let slavePortBitfield := slaveBitfield slaveDir tileConstraint in
    sweepEach resetDirections (fun masterDir =>
      let masterPortBitfield := masterBitfield masterDir tileConstraint in
      sweepEach (upto 8) (fun bit =>
        if bitSet slavePortBitfield bit then
          sweepEach (upto 8) (fun bitM =>
            if bitSet masterPortBitfield bitM
            then disableOne currentTile slaveDir bit masterDir bitM
            else fun cs => Some (None, cs))
        else fun cs => Some (None, cs)))).

(** The routing instance is only read.  [rc] is [XAIE_OK] whenever the
    loops run to their end: it holds the code of the last call, and a call
    that fails returns from the function. *)
Definition XAie_RoutingSwitchReset (r : XAie_RoutingInstance)
  (listOfTiles : list XAie_LocType) : option (AieRC * list SilentCall) :=
  match sweepEach listOfTiles (fun currentTile cs =>
          match tileAt (CoreConstraintPerCore r) currentTile with
          | None => None
          | Some tileConstraint =>
              if isAutoConfigured tileConstraint then Some (None, cs)
              else resetTile currentTile tileConstraint cs
          end) [] with
  | Some (None, cs) => Some (XAIE_OK, cs)
  | Some (Some rc, cs) => Some (rc, cs)
  | None => None
  end.

End WithSilentBackend.

(** The silenced calls due on a list of tiles, in the order of the loops:
    for every listed tile that is not auto-configured, every pair of a set
    bit of a slave bitmap and a set bit of a master bitmap. *)
Definition dueOnTile (t : XAie_LocType) (c : XAie_CoreConstraint)
  : list SilentCall :=
  slaveDir ← resetDirections;
  masterDir ← resetDirections;
  bit ← filter (fun bit => bitSet (slaveBitfield slaveDir c) bit = true)
        (upto 8);
  bitM ← filter (fun bitM => bitSet (masterBitfield masterDir c) bitM = true)
         (upto 8);
  [XAie_SStrmConnCctDisable t slaveDir bit masterDir bitM].

Definition dueCalls (r : XAie_RoutingInstance) (tiles : list XAie_LocType)
  : list SilentCall :=
  t ← tiles;
  match tileAt (CoreConstraintPerCore r) t with
  | Some c => if isAutoConfigured c then [] else dueOnTile t c
  | None => []
  end.

(** The calls of a list made one after the other up to the first that
    fails. *)
Fixpoint issueUntilFailure (rc_of : list SilentCall → SilentCall → AieRC)
  (due cs : list SilentCall) : option AieRC * list SilentCall :=
  match due with
  | [] => (None, cs)
  | c :: rest =>
      if negb (rc_of cs c =? XAIE_OK) then (Some XAIE_ERR, cs ++ [c])
      else issueUntilFailure rc_of rest (cs ++ [c])
  end.

(** The channel [XAie_RouteDmaWait] polls on the destination [tile] of a
    catalogued path. *)
Definition waitChannel (r : XAie_RoutingInstance) (tile : XAie_LocType)
  (routingPath : XAie_RoutingPath) : option Z :=
  shim ← _XAie_isShimTile r tile;
  if (shim : bool) then
    ch ← findAvailableChannelIDforShimTile r tile (S2MM_portNo routingPath)
           false;
    Some (u8 ch)
  else Some (S2MM_portNo routingPath).

(** The count the backend reports at the read that follows [k] reads [c]
    made after the calls [cs]. *)
Definition pendingAfter (be : Backend) (cs : list HwCall) (c : HwCall)
  (k : nat) : Z :=
  u8 (hw_pending be (cs ++ replicate k c) c).

(** The last constraint of a list for a column and a direction, and its
    assignments. *)
Definition lastEdge (col : Z) (h : bool)
  (l : list XAie_RoutingResourceConstraint)
  : option XAie_RoutingResourceConstraint :=
  list.last (filter (fun C => u8 (column C) = col ∧ HostToAie C = h) l).

Definition installLast (o : option XAie_RoutingResourceConstraint)
  (c : XAie_CoreConstraint) : XAie_CoreConstraint :=
  match o with
  | Some C => installEdge C c
  | None => c
  end.

(** The channel of [port'] in the first [count] entries of the array
    behind [p]. *)
Definition channelIn (r : XAie_RoutingInstance) (p : MappingPtr) (count : Z)
  (port' : Z) : option Z :=
  arr ← mappingArray r p count;
  ch ← channelOfPort port' (upto count) arr;
  Some (default 0 ch).

(** ** The fixed part of the instance *)

(** The fields of a tile record that only the initialisation and the two
    host-edge calls assign; [isAutoConfigured] is only ever raised. *)
Definition sameLayout (c c' : XAie_CoreConstraint) : Prop :=
  tile_type c' = tile_type c
  ∧ DirSupported c' = DirSupported c
  ∧ ShimMM2S_State c' = ShimMM2S_State c
  ∧ ShimS2MM_State c' = ShimS2MM_State c
  ∧ AllChannelsInUse c' = AllChannelsInUse c
  ∧ AllBDsareInUse c' = AllBDsareInUse c
  ∧ Host2AIEPorts c' = Host2AIEPorts c
  ∧ Host2AIEPortCount c' = Host2AIEPortCount c
  ∧ AIE2HostPorts c' = AIE2HostPorts c
  ∧ AIE2HostPortCount c' = AIE2HostPortCount c
  ∧ (isAutoConfigured c = true → isAutoConfigured c' = true).

Definition keepsLayout (m m' : Machine) : Prop :=
  (wfInstance (ri m) = true → wfInstance (ri m') = true)
  ∧ NumCols (ri m') = NumCols (ri m)
  ∧ NumRows (ri m') = NumRows (ri m)
  ∧ DeviceInstance (ri m') = DeviceInstance (ri m)
  ∧ ∀ t c, tileOf m t = Some c →
      ∃ c', tileOf m' t = Some c' ∧ sameLayout c c'.

(** The tile [t] is marked as auto-configured. *)
Definition autoAt (r : XAie_RoutingInstance) (t : XAie_LocType) : Prop :=
  ∃ c, tileAt (CoreConstraintPerCore r) t = Some c
       ∧ isAutoConfigured c = true.


(** ** Reserving and releasing the ports of a step *)

(** What [_XAie_updatePortAvailabilityForStrmConn] and its inverse, called
    with the fields of a step, make of the record of the step's tile. *)
Definition reserveStep (st : XAie_RoutingStep) (c : XAie_CoreConstraint)
  : option XAie_CoreConstraint :=
  c1 ← updSlave u8_clear_bit (source_direction st) (sourceStream st) c;
  updMaster u8_clear_bit (dest_direction st) (destStream st) c1.

Definition releaseStep (st : XAie_RoutingStep) (c : XAie_CoreConstraint)
  : option XAie_CoreConstraint :=
  c1 ← updSlave u8_set_bit (source_direction st) (sourceStream st) c;
  updMaster u8_set_bit (dest_direction st) (destStream st) c1.

(** The two ports of a step are marked as available in a tile record. *)
Definition stepFree (st : XAie_RoutingStep) (c : XAie_CoreConstraint) : Prop :=
  ∃ f g, getSlave (source_direction st) c = Some f
         ∧ getMaster (dest_direction st) c = Some g
         ∧ Z.testbit f (sourceStream st) = true
         ∧ Z.testbit g (destStream st) = true.

(** The port and channel bitmaps of a tile record hold [u8] values. *)
Definition u8Ports (c : XAie_CoreConstraint) : Prop :=
  ∀ d f, getSlave d c = Some f ∨ getMaster d c = Some f → 0 ≤ f < 256.

(** A tile of the instance that is not a shim tile and holds [u8]
    bitmaps. *)
Definition plainTile (m : Machine) (t : XAie_LocType) : Prop :=
  ∃ c, tileOf m t = Some c ∧ tile_type c ≠ XAIE_AIE_SHIM ∧ u8Ports c.

(** The port mappings, the tile types and the bitmaps of the tiles are the
    same in two machines. *)
Definition sameView (m m' : Machine) : Prop :=
  PortMappings (ri m') = PortMappings (ri m)
  ∧ ∀ t c, tileOf m t = Some c →
      ∃ c', tileOf m' t = Some c' ∧ tile_type c' = tile_type c
            ∧ masks_of c' = masks_of c.

(** ** What a failed [XAie_Route] leaves reserved *)

(** The machine before and after the third route into (3,3), the call
    that fails at its last tile. *)
Definition m56_twoInto33 : Machine := default m56 (machineOf twoInto33).

Definition m56_thirdInto33 : Machine := default m56 (machineOf thirdInto33).

(** The calls of [new] that the hardware layer accepted, [hist] being the
    calls made before them. *)
Fixpoint okCalls (be : Backend) (hist new : list HwCall) : list HwCall :=
  match new with
  | [] => []
  | c :: rest =>
      (if hw_rc be hist c =? XAIE_OK then [c] else [])
      ++ okCalls be (hist ++ [c]) rest
  end.

(** Bit [k] of the bitmap a [switch] over a direction selects is clear: the
    port or channel is in use. *)
Definition portTaken (field : option Z) (k : Z) : Prop :=
  ∀ f, field = Some f → Z.testbit f k = false.

(** No entry for [port'] among the [count] first ones of the array behind
    the pointer [p] is available. *)
Definition portMarked (r : XAie_RoutingInstance) (p : MappingPtr)
  (count port' : Z) : Prop :=
  ∀ arr i e, mappingArray r p count = Some arr → i ∈ upto count →
             arr !! Z.to_nat i = Some e → port e = port' →
             availability e = false.

(** What an accepted call of the path programmer has reserved, as the
    machine [m] records it: the slave and the master port of a connection
    are in use in their tile, the port of a shim DMA connection is marked
    in the mapping array of its tile. *)
Definition reservedIn (m : Machine) (call : HwCall) : Prop :=
  match call with
  | XAie_StrmConnCctEnable t ps s pd d =>
      ∃ c, tileOf m t = Some c
           ∧ portTaken (getSlave ps c) s ∧ portTaken (getMaster pd c) d
  | XAie_EnableShimDmaToAieStrmPort t p =>
      ∃ c, tileOf m t = Some c
           ∧ portMarked (ri m) (Host2AIEPorts c) (Host2AIEPortCount c) p
  | XAie_EnableAieToShimDmaStrmPort t p =>
      ∃ c, tileOf m t = Some c
           ∧ portMarked (ri m) (AIE2HostPorts c) (AIE2HostPortCount c) p
  | _ => True
  end.

(** From [m] to [m'] nothing has been released, and what the accepted
    hardware calls made in between have reserved is reserved in [m']. *)
Definition keepsReserved (be : Backend) (m m' : Machine) : Prop :=
  noRelease m m'
  ∧ ∃ new, calls m' = calls m ++ new
           ∧ ∀ c, c ∈ okCalls be (calls m) new → reservedIn m' c.

(** * Properties *)

(** ** The tile table *)

Lemma tileAt_alterTile f t t' tbl c :
  tileAt tbl t = Some c →
  tileAt (alterTile f t tbl) t'
  = if decide (t = t') then Some (f c) else tileAt tbl t'.
Proof.
  unfold tileAt, alterTile. intros H.
  destruct ((0 <=? Col t) && (0 <=? Row t)) eqn:Ht; [|done].
  apply andb_true_iff in Ht as [Hc Hr].
  apply Z.leb_le in Hc. apply Z.leb_le in Hr.
  destruct (tbl !! Z.to_nat (Col t)) as [column|] eqn:Hcol; [|done].
  simpl in H.
  destruct ((0 <=? Col t') && (0 <=? Row t')) eqn:Ht'.
  - apply andb_true_iff in Ht' as [Hc' Hr'].
    apply Z.leb_le in Hc'. apply Z.leb_le in Hr'.
    destruct (decide (Z.to_nat (Col t) = Z.to_nat (Col t'))) as [e|n].
    + rewrite <- e. rewrite list_lookup_alter_eq, Hcol. simpl.
      destruct (decide (Z.to_nat (Row t) = Z.to_nat (Row t'))) as [e'|n'].
      * rewrite <- e'. rewrite list_lookup_alter_eq, H. simpl.
        rewrite decide_True; [done|].
        destruct t, t'; simpl in *. f_equal; lia.
      * rewrite list_lookup_alter_ne by done.
        rewrite decide_False; [done|]. intros ->. done.
    + rewrite list_lookup_alter_ne by done.
      rewrite decide_False; [done|]. intros ->. done.
  - rewrite decide_False; [done|]. intros ->.
    apply andb_false_iff in Ht' as [Hx|Hx]; apply Z.leb_gt in Hx; lia.
Qed.

Lemma tileAt_alterTile_eq f t tbl c :
  tileAt tbl t = Some c → tileAt (alterTile f t tbl) t = Some (f c).
Proof. intros H. rewrite (tileAt_alterTile _ _ _ _ _ H). by rewrite decide_True. Qed.

Lemma tileAt_alterTile_ne f t t' tbl c :
  tileAt tbl t = Some c → t ≠ t' →
  tileAt (alterTile f t tbl) t' = tileAt tbl t'.
Proof. intros H Hne. rewrite (tileAt_alterTile _ _ _ _ _ H). by rewrite decide_False. Qed.

Lemma loc_eta t : mkLoc (Col t) (Row t) = t.
Proof. by destruct t. Qed.

Lemma upto_lookup n i :
  0 ≤ i < n → upto n !! Z.to_nat i = Some i.
Proof.
  intros H. unfold upto. rewrite list_lookup_fmap.
  rewrite lookup_seq_lt by lia. simpl. f_equal. lia.
Qed.

(** ** Initial state of the tile table *)

(** What the initialiser writes on a row of a stacked layout, kind by
    kind. *)
Lemma initCoreConstraint_kind (dev : XAie_DevInst) (row : Z)
  (raw : XAie_CoreConstraint) (k : TileType) :
  stacked_layout dev →
  spec_kind_of_row dev row = Some k →
  tile_type (initCoreConstraint dev row raw) = k
  ∧ masks_of (initCoreConstraint dev row raw) = spec_initial_masks k.
Proof.
  intros (Hs & Hm & Hma & Ha & Hend & Hband).
  unfold spec_kind_of_row, initCoreConstraint, isMemTileRow, isAieTile,
    isShimTileRow, u8.
  cbv zeta.
  rewrite (Z.mod_small (AieTileRowStart dev)) by lia.
  rewrite (Z.mod_small (AieTileRowStart dev + AieTileNumRows dev)) by lia.
  rewrite (Z.mod_small (MemTileRowStart dev)) by lia.
  destruct Hband as [Hlt|(H0 & Hn0 & Hs0)].
  - replace (0 <? MemTileRowStart dev) with true
      by (symmetry; apply Z.ltb_lt; lia).
    rewrite (Z.mod_small (MemTileRowStart dev + MemTileNumRows dev - 1))
      by lia.
    destruct (Z.eqb_spec row (ShimRow dev));
      destruct (Z.leb_spec (MemTileRowStart dev) row);
      destruct (Z.ltb_spec row (MemTileRowStart dev + MemTileNumRows dev));
      destruct (Z.leb_spec row (MemTileRowStart dev + MemTileNumRows dev - 1));
      destruct (Z.leb_spec (AieTileRowStart dev) row);
      destruct (Z.ltb_spec row (AieTileRowStart dev + AieTileNumRows dev));
      destruct (Z.leb_spec row (AieTileRowStart dev + AieTileNumRows dev));
      simpl;
      first [ exfalso; lia | intros [= <-]; split; reflexivity | intros [=] ].
  - rewrite H0, Hn0, Hs0. change (0 <? 0) with false. cbv iota.
    destruct (Z.eqb_spec row 0);
      destruct (Z.leb_spec 0 row);
      destruct (Z.ltb_spec row (0 + 0));
      destruct (Z.leb_spec row 0);
      destruct (Z.leb_spec (AieTileRowStart dev) row);
      destruct (Z.ltb_spec row (AieTileRowStart dev + AieTileNumRows dev));
      destruct (Z.leb_spec row (AieTileRowStart dev + AieTileNumRows dev));
      simpl;
      first [ exfalso; lia | intros [= <-]; split; reflexivity | intros [=] ].
Qed.

(** C8. On every device whose bands are stacked (shim row, memory-tile
    band if any, compute band, all within 8-bit row numbers) and for every tile of
    the grid, [XAie_InitRoutingHandler] leaves in the table a tile of the
    kind the layout gives its row, with the slave, master, MM2S, S2MM and
    buffer-descriptor masks that the table of section 4.1 gives for that
    kind: a tile of the shim row is a shim tile with the shim masks, a tile
    of the memory-tile band is a memory tile with the memory masks, a tile
    of the compute band is a compute tile with the compute masks. *)
Theorem init_seeds_per_kind (dev : XAie_DevInst)
  (raw : XAie_LocType → XAie_CoreConstraint) (t : XAie_LocType)
  (k : TileType) :
  stacked_layout dev →
  0 ≤ Col t < u8 (DevNumCols dev) →
  0 ≤ Row t < u8 (DevNumRows dev) →
  spec_kind_of_row dev (Row t) = Some k →
  ∃ c, tileAt (CoreConstraintPerCore (XAie_InitRoutingHandler dev raw)) t = Some c
       ∧ tile_type c = k
       ∧ masks_of c = spec_initial_masks k.
Proof.
  intros Hlay Hc Hr Hk.
  unfold XAie_InitRoutingHandler, tileAt. simpl.
  replace ((0 <=? Col t) && (0 <=? Row t)) with true
    by (symmetry; apply andb_true_iff; split; apply Z.leb_le; lia).
  rewrite list_lookup_fmap, (upto_lookup _ _ Hc). simpl.
  rewrite list_lookup_fmap, (upto_lookup _ _ Hr). simpl.
  eexists. split; [reflexivity|].
  exact (initCoreConstraint_kind dev (Row t) _ k Hlay Hk).
Qed.

Lemma init_seeds_per_kind_witness :
  (∃ c, tileAt (CoreConstraintPerCore ri56) (mkLoc 2 0) = Some c
        ∧ tile_type c = XAIE_AIE_SHIM
        ∧ masks_of c = spec_initial_masks XAIE_AIE_SHIM)
  ∧ (∃ c, tileAt (CoreConstraintPerCore ri56) (mkLoc 2 1) = Some c
          ∧ tile_type c = XAIE_AIE_MEM
          ∧ masks_of c = spec_initial_masks XAIE_AIE_MEM)
  ∧ (∃ c, tileAt (CoreConstraintPerCore ri56) (mkLoc 2 3) = Some c
          ∧ tile_type c = XAIE_AIE_CORE
          ∧ masks_of c = spec_initial_masks XAIE_AIE_CORE).
Proof.
  assert (stacked_layout dev56) as Hlay by (unfold stacked_layout; simpl; lia).
  unfold ri56. split; [|split].
  - apply (init_seeds_per_kind dev56 (fun _ => raw0) (mkLoc 2 0) _ Hlay);
      vm_compute; (split; congruence) || reflexivity.
  - apply (init_seeds_per_kind dev56 (fun _ => raw0) (mkLoc 2 1) _ Hlay);
      vm_compute; (split; congruence) || reflexivity.
  - apply (init_seeds_per_kind dev56 (fun _ => raw0) (mkLoc 2 3) _ Hlay);
      vm_compute; (split; congruence) || reflexivity.
Defined.

(** ** Reasoning about executions *)

Lemma bind_inv {A B} (e : Exec A) (k : A → Exec B) m b m' :
  bind e k m = Some (b, m') →
  ∃ a m1, e m = Some (a, m1) ∧ k a m1 = Some (b, m').
Proof.
  unfold bind. destruct (e m) as [[a m1]|]; [|done]. eauto.
Qed.

Lemma bind_intro {A B} (e : Exec A) (k : A → Exec B) m a m1 :
  e m = Some (a, m1) → bind e k m = k a m1.
Proof. unfold bind. by intros ->. Qed.

Lemma ret_inv {A} (a b : A) m m' : ret a m = Some (b, m') → b = a ∧ m' = m.
Proof. unfold ret. by intros [= -> ->]. Qed.

Lemma lift_opt_inv {A} (o : option A) a m m' :
  lift_opt o m = Some (a, m') → o = Some a ∧ m' = m.
Proof. unfold lift_opt. destruct o; [|done]. by intros [= -> ->]. Qed.

Lemma get_ri_inv r m m' : get_ri m = Some (r, m') → r = ri m ∧ m' = m.
Proof. unfold get_ri. by intros [= <- <-]. Qed.

Lemma constraintOf_inv t c m m' :
  constraintOf t m = Some (c, m') → tileOf m t = Some c ∧ m' = m.
Proof.
  unfold constraintOf. intros H.
  apply bind_inv in H as (r & m1 & H1 & H2).
  apply get_ri_inv in H1 as [-> ->].
  by apply lift_opt_inv in H2.
Qed.

Lemma constraintOf_intro t c m :
  tileOf m t = Some c → constraintOf t m = Some (c, m).
Proof.
  unfold constraintOf, tileOf, bind, get_ri, lift_opt. by intros ->.
Qed.

Lemma modifyConstraint_inv t f u m m' :
  modifyConstraint t f m = Some (u, m') →
  ∃ c, tileOf m t = Some c
       ∧ m' = setTable m (alterTile f t (CoreConstraintPerCore (ri m))).
Proof.
  unfold modifyConstraint. intros H.
  apply bind_inv in H as (r & m1 & H1 & H).
  apply get_ri_inv in H1 as [-> ->].
  apply bind_inv in H as (c & m1 & H1 & H).
  apply lift_opt_inv in H1 as [H1 ->].
  unfold put_ri in H. injection H as _ <-. eauto.
Qed.

Lemma modifyConstraint_intro t f m c :
  tileOf m t = Some c →
  modifyConstraint t f m
  = Some (tt, setTable m (alterTile f t (CoreConstraintPerCore (ri m)))).
Proof.
  unfold modifyConstraint, tileOf, bind, get_ri, lift_opt, put_ri.
  by intros ->.
Qed.

Lemma tileOf_setTable_alter m f t t' c :
  tileOf m t = Some c →
  tileOf (setTable m (alterTile f t (CoreConstraintPerCore (ri m)))) t'
  = if decide (t = t') then Some (f c) else tileOf m t'.
Proof. intros H. unfold tileOf, setTable. simpl. by apply tileAt_alterTile. Qed.

(** Splits a hypothesis [e m = Some (a, m')] along the binds of [e]. *)
Ltac exec_inv H :=
  repeat first
    [ apply bind_inv in H as (? & ? & ? & H)
    | apply ret_inv in H as [? ?]
    | apply lift_opt_inv in H as [? ?]
    | apply get_ri_inv in H as [? ?]
    | apply constraintOf_inv in H as [? ?] ]; subst.

Lemma isComputeEndpoint_inv t b m m' :
  isComputeEndpoint t m = Some (b, m') →
  m' = m ∧ ∃ c, tileOf m t = Some c
                ∧ b = negb (bool_decide (tile_type c = XAIE_AIE_SHIM))
                      && negb (bool_decide (tile_type c = XAIE_AIE_MEM)).
Proof.
  unfold isComputeEndpoint, _XAie_isShimTile, _XAie_isMemTile. intros H.
  apply bind_inv in H as (r & m1 & H1 & H).
  apply get_ri_inv in H1 as [-> ->].
  apply bind_inv in H as (s & m1 & H1 & H).
  apply lift_opt_inv in H1 as [H1 ->].
  apply bind_inv in H as (s' & m1 & H2 & H).
  apply lift_opt_inv in H2 as [H2 ->].
  apply ret_inv in H as [-> ->]. split; [done|].
  unfold tileOf.
  destruct (tileAt (CoreConstraintPerCore (ri m)) t) as [c|]; [|done].
  simpl in *. exists c. by simplify_eq.
Qed.

Lemma isComputeEndpoint_intro t m c :
  tileOf m t = Some c →
  isComputeEndpoint t m
  = Some (negb (bool_decide (tile_type c = XAIE_AIE_SHIM))
          && negb (bool_decide (tile_type c = XAIE_AIE_MEM)), m).
Proof.
  unfold isComputeEndpoint, _XAie_isShimTile, _XAie_isMemTile, tileOf,
    bind, get_ri, lift_opt, ret.
  intros ->. reflexivity.
Qed.

Lemma tile_type_markCore t t' m :
  tile_type <$> tileOf (markCore t m) t' = tile_type <$> tileOf m t'.
Proof.
  unfold markCore. destruct (tileOf m t) as [c|] eqn:Hc; [|done].
  destruct (_ && _); [|done].
  rewrite (tileOf_setTable_alter _ _ _ _ _ Hc).
  destruct (decide (t = t')) as [<-|]; [|done]. by rewrite Hc.
Qed.

Lemma isCoreExecuting_markCore_keep t t' m c :
  tileOf m t' = Some c → isCoreExecuting c = true →
  ∃ c', tileOf (markCore t m) t' = Some c' ∧ isCoreExecuting c' = true.
Proof.
  intros Hc' He. unfold markCore.
  destruct (tileOf m t) as [c0|] eqn:Hc; [|eauto].
  destruct (_ && _); [|eauto].
  rewrite (tileOf_setTable_alter _ _ _ _ _ Hc).
  destruct (decide (t = t')) as [<-|]; eauto.
Qed.

Lemma isCoreExecuting_markCore_set t m c :
  tileOf m t = Some c →
  tile_type c = XAIE_AIE_CORE →
  ∃ c', tileOf (markCore t m) t = Some c' ∧ isCoreExecuting c' = true.
Proof.
  intros Hc Ht. unfold markCore. rewrite Hc, Ht. simpl.
  rewrite (tileOf_setTable_alter _ _ _ _ _ Hc), decide_True by done. eauto.
Qed.

Lemma markCore_spec t b m m1 rc m' :
  isComputeEndpoint t m = Some (b, m1) →
  (if (b : bool) then XAie_SetCoreExecute t true else ret XAIE_OK) m1
  = Some (rc, m') →
  m' = markCore t m.
Proof.
  intros H1 H.
  apply isComputeEndpoint_inv in H1 as (-> & c & Hc & ->).
  unfold markCore. rewrite Hc.
  destruct (_ && _).
  - unfold XAie_SetCoreExecute in H.
    apply bind_inv in H as (u & m1 & H1 & H).
    apply modifyConstraint_inv in H1 as (c' & _ & ->).
    by apply ret_inv in H as [_ ->].
  - by apply ret_inv in H as [_ ->].
Qed.

Lemma markCore_run {B} t m c (k : AieRC → Exec B) :
  tileOf m t = Some c →
  bind (isComputeEndpoint t)
    (fun srcCore => bind (if (srcCore : bool) then XAie_SetCoreExecute t true
                          else ret XAIE_OK) k) m
  = k XAIE_OK (markCore t m).
Proof.
  intros Hc. rewrite (bind_intro _ _ _ _ _ (isComputeEndpoint_intro _ _ _ Hc)).
  unfold markCore. rewrite Hc. destruct (_ && _); [|done].
  unfold XAie_SetCoreExecute.
  erewrite (bind_intro (bind _ _)); [reflexivity|].
  by rewrite (bind_intro _ _ _ _ _ (modifyConstraint_intro _ _ _ _ Hc)).
Qed.

(** ** XAie_Route: the shape of its executions *)

Lemma XAie_Route_ok_inv be RC src dst m m' :
  XAie_Route be RC src dst m = Some (XAIE_OK, m') →
  ∃ c path m1,
    tileOf m src = Some c
    ∧ _XAie_findRouteInRouteDB (routesDB c) src dst = Some None
    ∧ _XAie_findShortestPath (ri m) RC src dst
        (NumRows (ri m) * NumCols (ri m)) = Some (true, path)
    ∧ _XAie_performRoutingOnPath be src dst path m = Some (XAIE_OK, m1)
    ∧ m' = markCore dst (markCore src m1).
Proof.
  unfold XAie_Route. intros H.
  apply bind_inv in H as (c & m0 & Hc & H).
  apply constraintOf_inv in Hc as [Hc ->].
  apply bind_inv in H as (ex & m0 & Hex & H).
  apply lift_opt_inv in Hex as [Hex ->].
  destruct ex as [p|]; [by apply ret_inv in H as [? _]|].
  apply bind_inv in H as (r0 & m0 & Hr & H).
  apply get_ri_inv in Hr as [-> ->].
  apply bind_inv in H as ([ok path] & m0 & Hp & H).
  apply lift_opt_inv in Hp as [Hp ->].
  destruct ok; simpl in H; [|by apply ret_inv in H as [? _]].
  apply bind_inv in H as (rc & m1 & Hprog & H).
  destruct (rc =? XAIE_OK) eqn:Hrc; simpl in H;
    [|by apply ret_inv in H as [? _]].
  apply Z.eqb_eq in Hrc as ->.
  apply bind_inv in H as (b1 & m1' & Hb1 & H).
  apply bind_inv in H as (x1 & m2 & Hs1 & H).
  pose proof (markCore_spec _ _ _ _ _ _ Hb1 Hs1) as ->.
  apply bind_inv in H as (b2 & m2' & Hb2 & H).
  apply bind_inv in H as (x2 & m3 & Hs2 & H).
  pose proof (markCore_spec _ _ _ _ _ _ Hb2 Hs2) as ->.
  apply ret_inv in H as [_ ->].
  exists c, path, m1. done.
Qed.

(** ** XAie_Run *)

Lemma forEach_calls {A} (r : XAie_RoutingInstance) (g : A → list HwCall)
  (body : A → Exec unit) (l : list A) :
  (∀ a cs, a ∈ l →
     body a {| ri := r; calls := cs |}
     = Some (tt, {| ri := r; calls := cs ++ g a |})) →
  ∀ cs, forEach l body {| ri := r; calls := cs |}
        = Some (tt, {| ri := r; calls := cs ++ concat (g <$> l) |}).
Proof.
  induction l as [|a l IH]; intros Hbody cs; simpl.
  - by rewrite app_nil_r.
  - unfold bind. rewrite Hbody by set_solver.
    rewrite IH by (intros; apply Hbody; set_solver).
    by rewrite <- app_assoc.
Qed.

Lemma wfInstance_tileAt r t :
  wfInstance r = true →
  0 ≤ Col t < NumCols r → 0 ≤ Row t < NumRows r →
  is_Some (tileAt (CoreConstraintPerCore r) t).
Proof.
  unfold wfInstance, tileAt. intros Hwf Hc Hr.
  repeat (apply andb_true_iff in Hwf as [Hwf ?]).
  replace ((0 <=? Col t) && (0 <=? Row t)) with true
    by (symmetry; apply andb_true_iff; split; apply Z.leb_le; lia).
  destruct (CoreConstraintPerCore r !! Z.to_nat (Col t)) as [column|] eqn:E.
  - simpl. apply lookup_lt_is_Some.
    assert (column ∈ CoreConstraintPerCore r) as Hin
      by (eapply list_elem_of_lookup; eauto).
    apply list_elem_of_In in Hin.
    match goal with H : forallb _ _ = true |- _ =>
      rewrite forallb_forall in H; specialize (H _ Hin) end.
    lia.
  - apply lookup_ge_None in E. lia.
Qed.

Lemma tileAt_wfInstance_range r t c :
  wfInstance r = true →
  tileAt (CoreConstraintPerCore r) t = Some c →
  (0 ≤ Col t < NumCols r) ∧ (0 ≤ Row t < NumRows r).
Proof.
  unfold wfInstance, tileAt. intros Hwf H.
  repeat (apply andb_true_iff in Hwf as [Hwf ?]).
  destruct ((0 <=? Col t) && (0 <=? Row t)) eqn:E; [|done].
  apply andb_true_iff in E as [? ?].
  destruct (CoreConstraintPerCore r !! Z.to_nat (Col t)) as [column|] eqn:E;
    [|done].
  simpl in H.
  assert (column ∈ CoreConstraintPerCore r) as Hin
    by (eapply list_elem_of_lookup_2; eauto).
  apply lookup_lt_Some in E. apply lookup_lt_Some in H.
  apply list_elem_of_In in Hin.
  match goal with H : forallb _ _ = true |- _ =>
    rewrite forallb_forall in H; specialize (H _ Hin) end.
  lia.
Qed.

Lemma elem_of_upto n i : i ∈ upto n ↔ 0 ≤ i < n.
Proof.
  unfold upto. rewrite list_elem_of_fmap. split.
  - intros (k & -> & Hk). apply elem_of_seq in Hk. lia.
  - intros H. exists (Z.to_nat i). split; [lia|]. apply elem_of_seq. lia.
Qed.

Lemma elem_of_concat {A} (x : A) (ls : list (list A)) :
  x ∈ concat ls ↔ ∃ l, x ∈ l ∧ l ∈ ls.
Proof.
  rewrite list_elem_of_In, in_concat. split.
  - intros (l & ? & ?). exists l. by rewrite !list_elem_of_In.
  - intros (l & ? & ?). exists l. by rewrite <- !list_elem_of_In.
Qed.

Lemma XAie_Run_spec be count r cs :
  wfInstance r = true →
  XAie_Run be count {| ri := r; calls := cs |}
  = Some (XAIE_OK,
          {| ri := r;
             calls := cs ++ concat ((fun _ => coreEnables r) <$> upto count) |}).
Proof.
  intros Hwf. unfold XAie_Run, bind at 1. simpl.
  unfold bind at 1.
  rewrite (forEach_calls r (fun _ => coreEnables r)); [done|].
  intros _ cs1 _.
  unfold coreEnables. apply forEach_calls.
  intros col cs2 Hcol. apply forEach_calls.
  intros row cs3 Hrow.
  apply elem_of_upto in Hcol. apply elem_of_upto in Hrow.
  destruct (wfInstance_tileAt r (mkLoc col row) Hwf Hcol Hrow) as [c Hc].
  rewrite (bind_intro _ _ _ c {| ri := r; calls := cs3 |})
    by (by apply constraintOf_intro).
  rewrite Hc. destruct (isCoreExecuting c); [|by rewrite app_nil_r].
  reflexivity.
Qed.

Lemma coreEnables_elem r t c :
  wfInstance r = true →
  tileAt (CoreConstraintPerCore r) t = Some c →
  isCoreExecuting c = true →
  XAie_CoreEnable t ∈ coreEnables r.
Proof.
  intros Hwf Hc He.
  destruct (tileAt_wfInstance_range _ _ _ Hwf Hc) as [Hcol Hrow].
  unfold coreEnables. apply elem_of_concat.
  exists (concat ((fun row =>
      match tileAt (CoreConstraintPerCore r) (mkLoc (Col t) row) with
      | Some c => if isCoreExecuting c
                  then [XAie_CoreEnable (XAie_TileLoc (Col t) row)] else []
      | None => []
      end) <$> upto (NumRows r))).
  split.
  - apply elem_of_concat.
    exists [XAie_CoreEnable t]. split; [constructor|].
    apply list_elem_of_fmap. exists (Row t). split; [|by apply elem_of_upto].
    rewrite loc_eta.
    rewrite Hc, He. unfold XAie_TileLoc, u8.
    unfold wfInstance in Hwf.
    repeat (apply andb_true_iff in Hwf as [Hwf ?]).
    rewrite !Z.mod_small; [by destruct t|lia..].
  - apply list_elem_of_fmap. exists (Col t). split; [done|].
    by apply elem_of_upto.
Qed.

(** ** Core execution flags set by XAie_Route *)

(** C9. Whenever [XAie_Route] returns [XAIE_OK], each of its two endpoints
    that is neither a shim tile nor a memory tile has [isCoreExecuting]
    set; and on a well-formed instance a later [XAie_Run] with a positive
    count returns [XAIE_OK] and issues [XAie_CoreEnable] for that endpoint,
    with no call of [XAie_SetCoreExecute] in between. *)
Theorem route_marks_endpoint_cores be RC src dst m m' t :
  XAie_Route be RC src dst m = Some (XAIE_OK, m') →
  t = src ∨ t = dst →
  _XAie_isShimTile (ri m') t = Some false →
  _XAie_isMemTile (ri m') t = Some false →
  (∃ c, tileOf m' t = Some c ∧ isCoreExecuting c = true)
  ∧ (wfInstance (ri m') = true →
     ∀ be' count, 0 < count →
       ∃ issued, XAie_Run be' count m'
                 = Some (XAIE_OK, {| ri := ri m'; calls := calls m' ++ issued |})
                 ∧ XAie_CoreEnable t ∈ issued).
Proof.
  intros HR Ht Hshim Hmem.
  apply XAie_Route_ok_inv in HR as (c0 & path & m1 & _ & _ & _ & _ & ->).
  unfold _XAie_isShimTile, _XAie_isMemTile in Hshim, Hmem.
  fold (tileOf (markCore dst (markCore src m1)) t) in Hshim, Hmem.
  destruct (tileOf (markCore dst (markCore src m1)) t) as [c|] eqn:Hc;
    [|done].
  simpl in Hshim, Hmem.
  assert (tile_type c = XAIE_AIE_CORE) as Hcore.
  { destruct (tile_type c); [by rewrite bool_decide_eq_true_2 in Hshim
      | by rewrite bool_decide_eq_true_2 in Hmem | done]. }
  assert (∃ c', tileOf (markCore dst (markCore src m1)) t = Some c'
                ∧ isCoreExecuting c' = true) as (c' & Hc' & He).
  { pose proof (tile_type_markCore dst t (markCore src m1)) as T2.
    rewrite Hc in T2. simpl in T2.
    destruct (tileOf (markCore src m1) t) as [c1|] eqn:Hc1; [|done].
    injection T2 as T2.
    destruct Ht as [-> | ->].
    - pose proof (tile_type_markCore src src m1) as T1.
      rewrite Hc1 in T1. simpl in T1.
      destruct (tileOf m1 src) as [c2|] eqn:Hc2; [|done].
      injection T1 as T1.
      destruct (isCoreExecuting_markCore_set src m1 c2 Hc2) as (c3 & H3 & E3);
        [congruence|].
      eapply isCoreExecuting_markCore_keep; eauto.
    - eapply isCoreExecuting_markCore_set; eauto. congruence. }
  assert (c' = c) as -> by congruence.
  split; [eauto|].
  intros Hwf be' count Hcount.
  unfold tileOf in Hc.
  destruct (markCore dst (markCore src m1)) as [r cs]. simpl in *.
  exists (concat ((fun _ => coreEnables r) <$> upto count)).
  split; [by apply XAie_Run_spec|].
  apply elem_of_concat.
  exists (coreEnables r). split.
  - eapply coreEnables_elem; eauto.
  - apply list_elem_of_fmap. exists 0. split; [done|].
    apply elem_of_upto. lia.
Qed.

Lemma route_marks_endpoint_cores_witness :
  (∃ c, tileOf m56_routed (mkLoc 2 3) = Some c ∧ isCoreExecuting c = true)
  ∧ ∃ issued, XAie_Run okBackend 1 m56_routed
              = Some (XAIE_OK, {| ri := ri m56_routed;
                                  calls := calls m56_routed ++ issued |})
              ∧ XAie_CoreEnable (mkLoc 2 3) ∈ issued.
Proof.
  destruct (route_marks_endpoint_cores okBackend None (mkLoc 2 3) (mkLoc 4 3)
              m56 m56_routed (mkLoc 2 3)) as [H1 H2].
  - vm_compute. reflexivity.
  - left. reflexivity.
  - vm_compute. reflexivity.
  - vm_compute. reflexivity.
  - split; [exact H1|]. apply H2; [vm_compute; reflexivity | lia].
Defined.

(** ** Buffer descriptors *)

Lemma shl1_Some k v : shl1 k = Some v → 0 ≤ k < 31 ∧ v = 2 ^ k.
Proof.
  unfold shl1. destruct ((0 <=? k) && (k <? 31)) eqn:E; [|done].
  apply andb_true_iff in E as [H1 H2].
  apply Z.leb_le in H1. apply Z.ltb_lt in H2.
  intros [= <-]. split; [lia|]. rewrite Z.shiftl_1_l. done.
Qed.

(** What a defined search returns: either [-1] with every candidate tried,
    or a candidate below 31 whose bit was set, with that bit cleared. *)
Lemma findBufferID_spec ids b id bd :
  findBufferID ids b = Some (id, bd) →
  (id = -1 ∧ bd = b ∧ Forall (fun k => 0 ≤ k < 31) ids)
  ∨ (id ∈ ids ∧ 0 ≤ id < 31
     ∧ Z.land b (u64 (2 ^ id)) ≠ 0
     ∧ bd = Z.land b (u64 (Z.lnot (2 ^ id)))).
Proof.
  induction ids as [|k ids IH]; simpl.
  - intros [= <- <-]. left. done.
  - destruct (shl1 k) as [v|] eqn:Hk; [|done]. simpl.
    apply shl1_Some in Hk as [Hk ->].
    destruct (Z.land b (u64 (2 ^ k)) =? 0) eqn:E; simpl.
    + intros H. destruct (IH H) as [(-> & -> & HF)|(Hin & ? & ? & ?)].
      * left. split_and!; [done..|]. by constructor.
      * right. split_and!; [by apply list_elem_of_further|first [done|lia]..].
    + intros [= <- <-]. apply Z.eqb_neq in E.
      right. split_and!; [apply list_elem_of_here|lia|lia|done|done].
Qed.

Lemma findBufferID_upto48 b id bd :
  findBufferID (upto 48) b = Some (id, bd) →
  0 ≤ id < 31
  ∧ Z.land b (u64 (2 ^ id)) ≠ 0
  ∧ bd = Z.land b (u64 (Z.lnot (2 ^ id))).
Proof.
  intros H. apply findBufferID_spec in H as [(_ & _ & HF)|(_ & ? & ? & ?)];
    [|done].
  exfalso. rewrite list.Forall_forall in HF.
  assert (31 ∈ upto 48) as Hin by (apply elem_of_upto; lia).
  apply HF in Hin. lia.
Qed.

Lemma u64_pow2 k : 0 ≤ k < 31 → u64 (2 ^ k) = 2 ^ k.
Proof.
  intros H. unfold u64. apply Z.mod_small. split; [lia|].
  apply Z.pow_lt_mono_r; lia.
Qed.

Lemma u64_lnot_pow2_testbit k j :
  0 ≤ k < 31 → 0 ≤ j →
  Z.testbit (u64 (Z.lnot (2 ^ k))) j = (j <? 64) && negb (j =? k).
Proof.
  intros Hk Hj. unfold u64.
  rewrite Z.testbit_mod_pow2 by lia. rewrite Z.lnot_spec by lia.
  rewrite Z.pow2_bits_eqb by lia.
  destruct (j <? 64); [|done]. simpl. f_equal.
  destruct (Z.eqb_spec k j), (Z.eqb_spec j k); (done || lia).
Qed.

(** The bit a defined search picks was set before it and is clear after. *)
Lemma findBufferID_bits b id bd :
  findBufferID (upto 48) b = Some (id, bd) →
  0 ≤ id < 31 ∧ Z.testbit b id = true ∧ Z.testbit bd id = false
  ∧ ∀ j, Z.testbit bd j = true → Z.testbit b j = true.
Proof.
  intros H. apply findBufferID_upto48 in H as (Hid & Hset & ->).
  split; [done|]. rewrite u64_pow2 in Hset by done. split_and!.
  - destruct (Z.testbit b id) eqn:E; [done|]. exfalso. apply Hset.
    apply Z.bits_inj'. intros n Hn. rewrite Z.land_spec, Z.bits_0.
    rewrite Z.pow2_bits_eqb by lia.
    destruct (Z.eqb_spec id n) as [->|]; [by rewrite E|].
    by rewrite andb_false_r.
  - rewrite Z.land_spec, u64_lnot_pow2_testbit by lia.
    rewrite Z.eqb_refl. simpl. by rewrite !andb_false_r.
  - intros j. rewrite Z.land_spec. intros Hj.
    by apply andb_true_iff in Hj as [? _].
Qed.

Lemma hw_inv be c rc m m' :
  hw be c m = Some (rc, m') → ri m' = ri m.
Proof. unfold hw. by intros [= _ <-]. Qed.

Lemma tileOf_ri m m' t : ri m' = ri m → tileOf m' t = tileOf m t.
Proof. unfold tileOf. by intros ->. Qed.

Lemma findAvailableBufferID_inv t id m m' :
  _XAie_findAvailableBufferID t m = Some (id, m') →
  ∃ c bd, tileOf m t = Some c
          ∧ findBufferID (upto 48) (BDState c) = Some (id, bd)
          ∧ m' = setTable m (alterTile (set_BDState bd) t
                               (CoreConstraintPerCore (ri m))).
Proof.
  unfold _XAie_findAvailableBufferID. intros H.
  apply bind_inv in H as (c & m0 & Hc & H).
  apply constraintOf_inv in Hc as [Hc ->].
  apply bind_inv in H as ([id' bd] & m0 & Hf & H).
  apply lift_opt_inv in Hf as [Hf ->].
  apply bind_inv in H as (u & m1 & Hm & H).
  apply ret_inv in H as [E ->]. subst id'.
  pose proof (findBufferID_upto48 _ _ _ Hf) as (Hid & _).
  destruct (id =? -1) eqn:E; [apply Z.eqb_eq in E; lia|].
  apply modifyConstraint_inv in Hm as (c' & _ & ->). eauto.
Qed.




(** ** XAie_MoveData without a programmed route *)


Lemma findAvailableBufferID_run t m c id bd :
  tileOf m t = Some c →
  findBufferID (upto 48) (BDState c) = Some (id, bd) →
  _XAie_findAvailableBufferID t m
  = Some (id, setTable m (alterTile (set_BDState bd) t
                            (CoreConstraintPerCore (ri m)))).
Proof.
  intros Hc Hf. unfold _XAie_findAvailableBufferID.
  rewrite (bind_intro _ _ _ _ _ (constraintOf_intro _ _ _ Hc)).
  unfold bind at 1, lift_opt. rewrite Hf.
  pose proof (findBufferID_upto48 _ _ _ Hf) as (Hid & _).
  destruct (id =? -1) eqn:E; [apply Z.eqb_eq in E; lia|].
  by rewrite (bind_intro _ _ _ _ _ (modifyConstraint_intro _ _ _ _ Hc)).
Qed.

Lemma programOneDescriptor_run be t o sz RC m c id bd :
  tileOf m t = Some c →
  findBufferID (upto 48) (BDState c) = Some (id, bd) →
  ∃ rc m', programOneDescriptor be t o sz RC m = Some ((rc, id), m')
           ∧ CoreConstraintPerCore (ri m')
             = alterTile (set_BDState bd) t (CoreConstraintPerCore (ri m)).
Proof.
  intros Hc Hf. unfold programOneDescriptor.
  unfold bind at 1, hw at 1. unfold bind at 1, get_ri. simpl.
  unfold bind at 1, lift_opt, _XAie_isShimTile.
  unfold tileOf in Hc. rewrite Hc. simpl.
  destruct (bool_decide (tile_type c = XAIE_AIE_SHIM));
    [destruct (BackendType (DeviceInstance (ri m)))|];
    unfold bind, hw, ret; simpl;
    (erewrite findAvailableBufferID_run; [|exact Hc|exact Hf]);
    simpl; eauto.
Qed.

(** ** A route from a tile to itself *)

Lemma loc_eqb_refl t : loc_eqb t t = true.
Proof. unfold loc_eqb. by rewrite !Z.eqb_refl. Qed.

Lemma loc_eqb_eq a b : loc_eqb a b = true ↔ a = b.
Proof.
  unfold loc_eqb. rewrite andb_true_iff, !Z.eqb_eq.
  destruct a, b; simpl. split; [intros [-> ->]; done | intros [= -> ->]; done].
Qed.

Lemma loc_eqb_neq a b : loc_eqb a b = false ↔ a ≠ b.
Proof.
  rewrite <- loc_eqb_eq. destruct (loc_eqb a b); split; congruence.
Qed.

Lemma tileOf_markCore t t' m c :
  tileOf m t' = Some c →
  ∃ c', tileOf (markCore t m) t' = Some c' ∧ sameButExec c c'.
Proof.
  intros Hc. unfold markCore.
  destruct (tileOf m t) as [c0|] eqn:Hc0; [|exists c; by split; [|left]].
  destruct (_ && _); [|exists c; by split; [|left]].
  rewrite (tileOf_setTable_alter _ _ _ _ _ Hc0).
  destruct (decide (t = t')) as [<-|].
  - assert (c0 = c) as -> by congruence. eexists. split; [done|]. by right.
  - exists c. by split; [|left].
Qed.

Lemma catalogueOf_markCore t t' m :
  catalogueOf (markCore t m) t' = catalogueOf m t'.
Proof.
  unfold catalogueOf. destruct (tileOf m t') as [c|] eqn:Hc.
  - destruct (tileOf_markCore t t' m c Hc) as (c' & -> & [->| ->]); done.
  - unfold markCore. destruct (tileOf m t) as [c0|] eqn:Hc0; [|by rewrite Hc].
    destruct (_ && _); [|by rewrite Hc].
    rewrite (tileOf_setTable_alter _ _ _ _ _ Hc0).
    destruct (decide (t = t')) as [<-|]; [congruence|by rewrite Hc].
Qed.

Lemma XAie_Route_self be RC s m c :
  tileOf m s = Some c →
  _XAie_findRouteInRouteDB (routesDB c) s s = Some None →
  XAie_Route be RC s s m = Some (XAIE_OK, markCore s (markCore s m)).
Proof.
  intros Hc Hnone. unfold XAie_Route.
  rewrite (bind_intro _ _ _ _ _ (constraintOf_intro _ _ _ Hc)).
  unfold bind at 1, lift_opt. rewrite Hnone.
  unfold bind at 1, get_ri. unfold bind at 1.
  unfold _XAie_findShortestPath. rewrite loc_eqb_refl. simpl.
  unfold bind at 1. unfold _XAie_performRoutingOnPath, routeLoop, ret at 1.
  simpl.
  rewrite (markCore_run _ _ _ _ Hc).
  destruct (tileOf_markCore s s m c Hc) as (c' & Hc' & _).
  rewrite (markCore_run _ _ _ _ Hc'). done.
Qed.

Lemma programBufferDescriptors_self_run be s so len do m c id1 bd1 id2 bd2 :
  tileOf m s = Some c →
  findBufferID (upto 48) (BDState c) = Some (id1, bd1) →
  findBufferID (upto 48) bd1 = Some (id2, bd2) →
  ∃ prc bds m' c',
    _XAie_programBufferDescriptors be s so len do s m = Some ((prc, bds), m')
    ∧ tileOf m' s = Some c' ∧ routesDB c' = routesDB c.
Proof.
  intros Hc Hf1 Hf2. unfold _XAie_programBufferDescriptors.
  destruct (programOneDescriptor_run be s so len XAIE_OK m c id1 bd1 Hc Hf1)
    as (rc1 & ma & Ha & Hta).
  rewrite (bind_intro _ _ _ _ _ Ha).
  assert (tileOf ma s = Some (set_BDState bd1 c)) as Hca.
  { unfold tileOf. rewrite Hta. by apply tileAt_alterTile_eq. }
  destruct (rc1 =? XAIE_OK) eqn:E1; simpl.
  - destruct (programOneDescriptor_run be s do len rc1 ma _ id2 bd2 Hca Hf2)
      as (rc2 & mb & Hb & Htb).
    assert (tileOf mb s = Some (set_BDState bd2 (set_BDState bd1 c))) as Hcb.
    { unfold tileOf. rewrite Htb. by apply tileAt_alterTile_eq. }
    rewrite (bind_intro _ _ _ _ _ Hb).
    destruct (rc2 =? XAIE_OK); simpl; unfold ret; eauto 10.
  - unfold ret. eauto 10.
Qed.

(** C10. When source and destination are the same tile, [XAie_Route]
    returns [XAIE_OK] (provided no route of that pair is catalogued yet) and
    inserts no entry into the route catalogue of any tile; a second
    [XAie_Route] of the same pair returns [XAIE_OK] too; and a later
    [XAie_MoveData] of the pair, whatever the hardware layer answers,
    returns [XAIE_ERR] with the catalogue lookup finding no route.  The two
    buffer-descriptor searches of [XAie_MoveData] are assumed to be defined
    on the tile. *)
Theorem route_to_self_is_not_catalogued be RC s m c id1 bd1 id2 bd2 :
  tileOf m s = Some c →
  _XAie_findRouteInRouteDB (routesDB c) s s = Some None →
  findBufferID (upto 48) (BDState c) = Some (id1, bd1) →
  findBufferID (upto 48) bd1 = Some (id2, bd2) →
  ∃ m1 m2,
    XAie_Route be RC s s m = Some (XAIE_OK, m1)
    ∧ (∀ t, catalogueOf m1 t = catalogueOf m t)
    ∧ XAie_Route be RC s s m1 = Some (XAIE_OK, m2)
    ∧ (∀ t, catalogueOf m2 t = catalogueOf m t)
    ∧ (∃ c2, tileOf m2 s = Some c2
             ∧ _XAie_findRouteInRouteDB (routesDB c2) s s = Some None)
    ∧ ∀ be' polls so len do,
        ∃ m3, XAie_MoveData be' polls s so len do s m2 = Some (XAIE_ERR, m3).
Proof.
  intros Hc Hnone Hf1 Hf2.
  set (m1 := markCore s (markCore s m)).
  set (m2 := markCore s (markCore s m1)).
  assert (∀ t, catalogueOf m1 t = catalogueOf m t) as Hcat1
    by (intros; unfold m1; by rewrite !catalogueOf_markCore).
  assert (∀ t, catalogueOf m2 t = catalogueOf m t) as Hcat2
    by (intros; unfold m2; by rewrite !catalogueOf_markCore).
  assert (∃ c2, tileOf m2 s = Some c2 ∧ routesDB c2 = routesDB c
                ∧ BDState c2 = BDState c) as (c2 & Hc2 & Hdb2 & Hbd2).
  { destruct (tileOf_markCore s s m c Hc) as (ca & Ha & Sa).
    destruct (tileOf_markCore s s _ ca Ha) as (cb & Hb & Sb).
    destruct (tileOf_markCore s s _ cb Hb) as (cc & Hcc & Sc).
    destruct (tileOf_markCore s s _ cc Hcc) as (cd & Hd & Sd).
    exists cd. split; [exact Hd|].
    destruct Sa as [->| ->], Sb as [->| ->], Sc as [->| ->], Sd as [->| ->];
      done. }
  assert (∃ c1, tileOf m1 s = Some c1 ∧ routesDB c1 = routesDB c)
    as (c1 & Hc1 & Hdb1).
  { destruct (tileOf_markCore s s m c Hc) as (ca & Ha & Sa).
    destruct (tileOf_markCore s s _ ca Ha) as (cb & Hb & Sb).
    exists cb. split; [exact Hb|].
    destruct Sa as [->| ->], Sb as [->| ->]; done. }
  exists m1, m2. split_and!.
  - by apply XAie_Route_self with c.
  - done.
  - apply XAie_Route_self with c1; [done|by rewrite Hdb1].
  - done.
  - exists c2. by rewrite Hdb2.
  - intros be' polls so len do. unfold XAie_MoveData.
    rewrite <- Hbd2 in Hf1.
    destruct (programBufferDescriptors_self_run be' s so len do m2 c2
                id1 bd1 id2 bd2 Hc2 Hf1 Hf2)
      as (prc & bds & m3 & c3 & Hrun & Hc3 & Hdb3).
    rewrite (bind_intro _ _ _ _ _ Hrun).
    destruct (prc =? XAIE_OK); simpl; [|unfold ret; eauto].
    rewrite (bind_intro _ _ _ _ _ (constraintOf_intro _ _ _ Hc3)).
    unfold bind at 1, lift_opt. rewrite Hdb3, Hdb2, Hnone.
    unfold ret. eauto.
Qed.

Lemma route_to_self_is_not_catalogued_witness :
  ∃ m1 m2,
    XAie_Route okBackend None (mkLoc 2 3) (mkLoc 2 3) m56 = Some (XAIE_OK, m1)
    ∧ (∀ t, catalogueOf m1 t = catalogueOf m56 t)
    ∧ XAie_Route okBackend None (mkLoc 2 3) (mkLoc 2 3) m1 = Some (XAIE_OK, m2)
    ∧ (∀ t, catalogueOf m2 t = catalogueOf m56 t)
    ∧ (∃ c2, tileOf m2 (mkLoc 2 3) = Some c2
             ∧ _XAie_findRouteInRouteDB (routesDB c2) (mkLoc 2 3) (mkLoc 2 3)
               = Some None)
    ∧ ∀ be' polls so len do,
        ∃ m3, XAie_MoveData be' polls (mkLoc 2 3) so len do (mkLoc 2 3) m2
              = Some (XAIE_ERR, m3).
Proof.
  apply (route_to_self_is_not_catalogued okBackend None (mkLoc 2 3) m56
           (default raw0 (tileOf m56 (mkLoc 2 3))) 0 0xFFFE 1 0xFFFC);
    vm_compute; reflexivity.
Defined.



(** ** Teardown of a route with a shim endpoint *)

(** C1 at two inputs on the freshly initialised 5 by 6 instance.
    [XAie_Route] from the shim tile (2,0) to (4,4) followed by
    [XAie_DeRoute], both returning [XAIE_OK], leaves [SlaveSouth] of (2,0)
    at 0x08 where it was 0x00.  [XAie_Route] from (4,4) to the shim tile
    (2,0) followed by [XAie_DeRoute] leaves [MasterSouth] of (2,0) at 0x04
    where it was 0x00, and the array-to-host port 2 marked unavailable. *)
Theorem route_deroute_changes_shim_state :
  bitmaps m56 (mkLoc 2 0) = Some (spec_initial_masks XAIE_AIE_SHIM)
  ∧ PortMappings (ri m56) = [ defaultHost2AIEPortChannelMapping;
                              defaultAIE2HostPortChannelMapping ]
  ∧ codeOf shimRoute = Some XAIE_OK
  ∧ codeOf shimDeRoute = Some XAIE_OK
  ∧ bitmapsAfter shimDeRoute (mkLoc 2 0)
    = Some {| im_slaves := (0xF, 0xF, 0x08, 0xF);
              im_masters := (0xF, 0xF, 0x00, 0x3F);
              im_mm2s := 0x3; im_s2mm := 0x3; im_bd := 0xFFFF |}
  ∧ codeOf toShimRoute = Some XAIE_OK
  ∧ codeOf toShimDeRoute = Some XAIE_OK
  ∧ bitmapsAfter toShimDeRoute (mkLoc 2 0)
    = Some {| im_slaves := (0xF, 0xF, 0x00, 0xF);
              im_masters := (0xF, 0xF, 0x04, 0x3F);
              im_mm2s := 0x3; im_s2mm := 0x3; im_bd := 0xFFFF |}
  ∧ mappingsAfter toShimDeRoute
    = Some [ defaultHost2AIEPortChannelMapping;
             [ {| channel := 0; port := 2; availability := false |};
               {| channel := 1; port := 3; availability := true |} ] ].
Proof. split_and!; vm_compute; reflexivity. Qed.

(** ** Stream ports across a junction *)

(** C3 at an input reached through the public calls.  After two routes
    have taken both S2MM channels of (3,3), a third route into (3,3) from
    (2,3) fails at its last tile; the following route from (2,3) to (4,3)
    succeeds with the three steps below: the step on (3,3), the second of
    three, records slave port 0 on WEST, while the step before it records
    master port 1 on EAST. *)
Theorem route_steps_port_mismatch :
  codeOf twoInto33 = Some XAIE_OK
  ∧ codeOf thirdInto33 = Some XAIE_ERR
  ∧ codeOf through33 = Some XAIE_OK
  ∧ stepsAfter through33 (mkLoc 2 3) (mkLoc 4 3)
    = Some [ (mkLoc 2 3, DMA, 1, EAST, 1);
             (mkLoc 3 3, WEST, 0, EAST, 0);
             (mkLoc 4 3, WEST, 0, DMA, 0) ].
Proof. split_and!; vm_compute; reflexivity. Qed.

(** ** The edge test of the path finder *)

(** C5 at an input reached through the public calls.  After four routes
    that cross from (2,3) to (3,3), no master port of (2,3) towards EAST is
    free and no slave port of (3,3) on WEST is free, so no port index is
    free on both; yet the edge test of the path finder, for the edge from
    (2,3) to (3,3) with nothing visited and no blacklist, answers true: it
    reads [SlaveEast] of (2,3) and [MasterWest] of (3,3), both 0xF.  The
    routine the path programmer uses for the same hop finds no index. *)
Theorem edge_test_reads_reverse_ports :
  codeOf fourEastward = Some XAIE_OK
  ∧ ∃ m, machineOf fourEastward = Some m
    ∧ MasterEast <$> tileOf m (mkLoc 2 3) = Some 0x0
    ∧ SlaveWest <$> tileOf m (mkLoc 3 3) = Some 0x0
    ∧ SlaveEast <$> tileOf m (mkLoc 2 3) = Some 0xF
    ∧ MasterWest <$> tileOf m (mkLoc 3 3) = Some 0xF
    ∧ _XAie_isAdjTileValidForCurrTile (ri m) None (mkLoc 2 3) (mkLoc 3 3)
        EAST ∅ = Some true
    ∧ findFirstMatchingStreamForDestination (ri m) (mkLoc 2 3) (mkLoc 3 3)
        EAST = Some (-1).
Proof.
  split; [vm_compute; reflexivity|].
  eexists. split_and!; vm_compute; reflexivity.
Qed.

(** ** Buffer descriptors 16 and up *)

(** C7 at an input reached through the public calls.  Eight calls of
    [XAie_MoveData] with no programmed route leave the buffer descriptors
    0 to 15 of the memory tile (2,1) reserved.  The next [XAie_MoveData],
    along a programmed route from (2,1) to (2,2), returns [XAIE_OK] and
    takes descriptor 16 of (2,1), which it does not give back: [BDState]
    of (2,1) is 0xFFFFFFFF0000 before the call and 0xFFFFFFFE0000 after it,
    while the descriptor of the compute tile (2,2) is given back. *)
Theorem move_data_keeps_bd_16 :
  codeOf memRoute = Some XAIE_OK
  ∧ codeOf memMove = Some XAIE_OK
  ∧ BDState <$> (machineOf memRoute ≫= (fun m => tileOf m (mkLoc 2 1)))
    = Some 0xFFFFFFFF0000
  ∧ BDState <$> (machineOf memMove ≫= (fun m => tileOf m (mkLoc 2 1)))
    = Some 0xFFFFFFFE0000
  ∧ BDState <$> (machineOf memRoute ≫= (fun m => tileOf m (mkLoc 2 2)))
    = Some 0xFFFF
  ∧ BDState <$> (machineOf memMove ≫= (fun m => tileOf m (mkLoc 2 2)))
    = Some 0xFFFF.
Proof. split_and!; vm_compute; reflexivity. Qed.

(** ** Failure while programming a path *)

(** C2 as stated fails: with both S2MM channels of (3,3) taken, the path
    finder finds the path (2,3), (3,3), the programmer reserves MM2S
    channel 0 and EAST master port 0 of (2,3) and then finds no channel on
    (3,3); [XAie_Route] returns [XAIE_ERR] and the two reservations on (2,3)
    stay: [MM2S_State] goes from 0x3 to 0x2 and [MasterEast] from 0xF to
    0xE. *)
Lemma route_failure_keeps_reservations :
  ∃ m, machineOf twoInto33 = Some m
    ∧ _XAie_findShortestPath (ri m) None (mkLoc 2 3) (mkLoc 3 3)
        (NumRows (ri m) * NumCols (ri m))
      = Some (true, [mkLoc 2 3; mkLoc 3 3])
    ∧ bitmaps m (mkLoc 2 3) = Some (spec_initial_masks XAIE_AIE_CORE)
    ∧ ∃ m', XAie_Route okBackend None (mkLoc 2 3) (mkLoc 3 3) m
            = Some (XAIE_ERR, m')
      ∧ bitmaps m' (mkLoc 2 3)
        = Some {| im_slaves := (0xF, 0xF, 0x3F, 0xF);
                  im_masters := (0xE, 0xF, 0xF, 0x3F);
                  im_mm2s := 0x2; im_s2mm := 0x3; im_bd := 0xFFFF |}.
Proof.
  eexists. split; [vm_compute; reflexivity|].
  split_and!; [vm_compute; reflexivity..|].
  eexists. split; vm_compute; reflexivity.
Qed.

(** ** What a failed XAie_Route leaves behind *)

Lemma subBits_refl a : subBits a a.
Proof. by intros i. Qed.

Lemma subBits_trans a b c : subBits a b → subBits b c → subBits a c.
Proof. intros H1 H2 i Hi. eauto. Qed.

Lemma u8_clear_bit_sub f k v : u8_clear_bit f k = Some v → subBits v f.
Proof.
  unfold u8_clear_bit. destruct (shl1 k) as [m|]; [|done]. simpl.
  intros [= <-] i Hi.
  destruct (Z.neg_nonneg_cases i) as [Hn|Hn];
    [by rewrite Z.testbit_neg_r in Hi|].
  unfold u8 in Hi. change 256 with (2 ^ 8) in Hi.
  rewrite Z.testbit_mod_pow2, Z.land_spec in Hi by lia.
  apply andb_true_iff in Hi as [_ Hi]. by apply andb_true_iff in Hi as [? _].
Qed.

Lemma tileLe_refl c : tileLe c c.
Proof. unfold tileLe. split_and!; (done || apply subBits_refl). Qed.

Lemma tileLe_trans a b c : tileLe a b → tileLe b c → tileLe a c.
Proof.
  unfold tileLe. intros H1 H2.
  destruct_and!. split_and!; first [congruence | eapply subBits_trans; eauto].
Qed.

Lemma entryLe_refl e : entryLe e e.
Proof. by unfold entryLe. Qed.

Lemma entryLe_trans a b c : entryLe a b → entryLe b c → entryLe a c.
Proof. unfold entryLe. intros (?&?&?) (?&?&?). split_and!; [congruence..|auto]. Qed.

Lemma noRelease_refl m : noRelease m m.
Proof.
  split.
  - intros t c Hc. exists c. split; [done|apply tileLe_refl].
  - apply Forall2_same_length_lookup. split; [done|].
    intros i x y Hx Hy. simplify_eq.
    apply Forall2_same_length_lookup. split; [done|].
    intros j e e' He He'. simplify_eq. apply entryLe_refl.
Qed.

Lemma noRelease_trans m1 m2 m3 :
  noRelease m1 m2 → noRelease m2 m3 → noRelease m1 m3.
Proof.
  intros [T1 M1] [T2 M2]. split.
  - intros t c Hc. destruct (T1 t c Hc) as (c2 & Hc2 & L1).
    destruct (T2 t c2 Hc2) as (c3 & Hc3 & L2).
    exists c3. split; [done|]. eapply tileLe_trans; eauto.
  - eapply Forall2_trans; [|exact M2|exact M1].
    intros x y z Hxy Hyz. eapply Forall2_trans; [|exact Hxy|exact Hyz].
    intros ???. apply entryLe_trans.
Qed.

Lemma noRelease_same_ri m m' : ri m' = ri m → noRelease m m'.
Proof.
  intros E. destruct (noRelease_refl m) as [T M]. split.
  - intros t c Hc. rewrite (tileOf_ri _ _ _ E). eauto.
  - by rewrite E.
Qed.

Lemma ensures_ret {A} P R (a : A) :
  (∀ m, R m m) → ensures P R (ret a).
Proof. intros HR m b m' H _. apply ret_inv in H as [_ ->]. apply HR. Qed.

Lemma ensures_bind {A B} (P : B → Prop) R (e : Exec A) (k : A → Exec B) :
  (∀ m1 m2 m3, R m1 m2 → R m2 m3 → R m1 m3) →
  ensures (fun _ => True) R e →
  (∀ a, ensures P R (k a)) →
  ensures P R (bind e k).
Proof.
  intros HT He Hk m b m' H Hb.
  apply bind_inv in H as (a & m1 & H1 & H2).
  eapply HT; [eapply He; eauto|eapply Hk; eauto].
Qed.

Lemma ensures_weaken {A} (P Q : A → Prop) R (e : Exec A) :
  (∀ a, P a → Q a) → ensures Q R e → ensures P R e.
Proof. intros HPQ He m a m' H Ha. eapply He; eauto. Qed.

Lemma ensures_lift_opt {A} P (o : option A) :
  ensures P noRelease (lift_opt o).
Proof. intros m a m' H _. apply lift_opt_inv in H as [_ ->]. apply noRelease_refl. Qed.

Lemma ensures_get_ri P : ensures P noRelease get_ri.
Proof. intros m a m' H _. apply get_ri_inv in H as [_ ->]. apply noRelease_refl. Qed.

Lemma ensures_constraintOf P t : ensures P noRelease (constraintOf t).
Proof.
  intros m a m' H _. apply constraintOf_inv in H as [_ ->].
  apply noRelease_refl.
Qed.

Lemma ensures_hw P be c : ensures P noRelease (hw be c).
Proof. intros m a m' H _. apply hw_inv in H. by apply noRelease_same_ri. Qed.

Lemma ensures_undef {A} (P : A → Prop) R : ensures P R undef.
Proof. by intros m a m' H. Qed.

Lemma noRelease_modify m t c c' :
  tileOf m t = Some c → tileLe c' c →
  noRelease m (setTable m (alterTile (fun _ => c') t
                             (CoreConstraintPerCore (ri m)))).
Proof.
  intros Hc Hle. split.
  - intros t' c0 Hc0. rewrite (tileOf_setTable_alter _ _ _ _ _ Hc).
    destruct (decide (t = t')) as [<-|].
    + exists c'. split; [done|]. by assert (c0 = c) as -> by congruence.
    + exists c0. split; [done|apply tileLe_refl].
  - simpl. apply (noRelease_refl m).
Qed.

Lemma ensures_modifyConstraint P t f :
  (∀ c, tileLe (f c) c) → ensures P noRelease (modifyConstraint t f).
Proof.
  intros Hf m a m' H _. apply modifyConstraint_inv in H as (c & Hc & ->).
  split.
  - intros t' c0 Hc0. rewrite (tileOf_setTable_alter _ _ _ _ _ Hc).
    destruct (decide (t = t')) as [<-|].
    + exists (f c). split; [done|]. by assert (c0 = c) as -> by congruence.
    + exists c0. split; [done|apply tileLe_refl].
  - simpl. apply (noRelease_refl m).
Qed.

Lemma updSlave_clear_le d k c c' :
  updSlave u8_clear_bit d k c = Some c' → tileLe c' c.
Proof.
  unfold updSlave. destruct (getSlave d c) as [f|] eqn:Hg; simpl;
    [|intros [= <-]; apply tileLe_refl].
  destruct (u8_clear_bit f k) as [v|] eqn:Hv; [|done]. simpl.
  intros [= <-]. apply u8_clear_bit_sub in Hv.
  destruct d; simpl in *; simplify_eq;
    unfold tileLe; simpl; split_and!; (done || apply subBits_refl).
Qed.

Lemma updMaster_clear_le d k c c' :
  updMaster u8_clear_bit d k c = Some c' → tileLe c' c.
Proof.
  unfold updMaster. destruct (getMaster d c) as [f|] eqn:Hg; simpl;
    [|intros [= <-]; apply tileLe_refl].
  destruct (u8_clear_bit f k) as [v|] eqn:Hv; [|done]. simpl.
  intros [= <-]. apply u8_clear_bit_sub in Hv.
  destruct d; simpl in *; simplify_eq;
    unfold tileLe; simpl; split_and!; (done || apply subBits_refl).
Qed.

Lemma ensures_updatePortAvailabilityForStrmConn P t ps ss pd ds :
  ensures P noRelease (_XAie_updatePortAvailabilityForStrmConn t ps ss pd ds).
Proof.
  intros m a m' H _.
  unfold _XAie_updatePortAvailabilityForStrmConn, updStrmConn in H.
  apply bind_inv in H as (c & m0 & Hc & H).
  apply constraintOf_inv in Hc as [Hc ->].
  apply bind_inv in H as (c1 & m0 & H1 & H).
  apply lift_opt_inv in H1 as [H1 ->].
  apply bind_inv in H as (c2 & m0 & H2 & H).
  apply lift_opt_inv in H2 as [H2 ->].
  apply modifyConstraint_inv in H as (c0 & _ & ->).
  eapply noRelease_modify; [done|].
  eapply tileLe_trans; [eapply updMaster_clear_le|eapply updSlave_clear_le];
    eauto.
Qed.

Lemma setAvailability_false_le p idx arr arr' :
  setAvailability p false idx arr = Some arr' → Forall2 entryLe arr' arr.
Proof.
  revert arr. induction idx as [|i idx IH]; intros arr; simpl.
  - intros [= <-]. apply Forall2_same_length_lookup. split; [done|].
    intros j e e' He He'. simplify_eq. apply entryLe_refl.
  - destruct (arr !! Z.to_nat i) as [e|] eqn:He; [|done]. simpl.
    intros H. apply IH in H.
    eapply Forall2_trans; [|exact H|].
    { intros ???. apply entryLe_trans. }
    destruct (port e =? p).
    + rewrite <- (list_insert_id arr (Z.to_nat i) e He) at 2.
      apply Forall2_insert; [|by unfold entryLe].
      apply Forall2_same_length_lookup. split; [done|].
      intros j x y Hx Hy. simplify_eq. apply entryLe_refl.
    + apply Forall2_same_length_lookup. split; [done|].
      intros j x y Hx Hy. simplify_eq. apply entryLe_refl.
Qed.

Lemma ensures_updateMappingArray P p count f :
  (∀ arr arr', f arr = Some arr' → Forall2 entryLe arr' arr) →
  ensures P noRelease (updateMappingArray p count f).
Proof.
  intros Hf m a m' H _. unfold updateMappingArray in H.
  destruct (count <=? 0).
  { apply ret_inv in H as [_ ->]. apply noRelease_refl. }
  apply bind_inv in H as (r0 & m0 & Hr & H).
  apply get_ri_inv in Hr as [-> ->].
  apply bind_inv in H as (ad & m0 & Ha & H).
  apply lift_opt_inv in Ha as [Ha ->].
  apply bind_inv in H as (arr & m0 & Harr & H).
  apply lift_opt_inv in Harr as [Harr ->].
  apply bind_inv in H as (arr' & m0 & Harr' & H).
  apply lift_opt_inv in Harr' as [Harr' ->].
  unfold put_ri in H. injection H as _ <-.
  destruct (noRelease_refl m) as [T M]. split.
  - exact T.
  - simpl. rewrite <- (list_insert_id (PortMappings (ri m)) ad arr Harr) at 2.
    apply Forall2_insert; [exact M|]. by apply Hf.
Qed.

Lemma ensures_ShimDmaToAie_unset P t p :
  ensures P noRelease (_XAie_updatePortAvailabilityForShimDmaToAie t p false).
Proof.
  unfold _XAie_updatePortAvailabilityForShimDmaToAie.
  apply ensures_bind; [apply noRelease_trans|apply ensures_constraintOf|].
  intros c. apply ensures_bind; [apply noRelease_trans|apply ensures_get_ri|].
  intros r0. apply ensures_bind; [apply noRelease_trans|apply ensures_lift_opt|].
  intros shim. destruct (negb shim).
  - apply ensures_ret, noRelease_refl.
  - apply ensures_bind; [apply noRelease_trans| |].
    + apply ensures_updateMappingArray. apply setAvailability_false_le.
    + intros _. apply ensures_ret, noRelease_refl.
Qed.

Lemma ensures_AieToShimDma_unset P t p :
  ensures P noRelease (_XAie_updatePortAvailabilityForAieToShimDma t p false).
Proof.
  unfold _XAie_updatePortAvailabilityForAieToShimDma.
  apply ensures_bind; [apply noRelease_trans|apply ensures_constraintOf|].
  intros c. apply ensures_bind; [apply noRelease_trans|apply ensures_get_ri|].
  intros r0. apply ensures_bind; [apply noRelease_trans|apply ensures_lift_opt|].
  intros shim. destruct (negb shim).
  - apply ensures_ret, noRelease_refl.
  - apply ensures_bind; [apply noRelease_trans| |].
    + apply ensures_updateMappingArray. apply setAvailability_false_le.
    + intros _. apply ensures_ret, noRelease_refl.
Qed.

Lemma ensures_setAutoConfigured P t :
  ensures P noRelease (setAutoConfigured t).
Proof.
  apply ensures_modifyConstraint. intros c.
  unfold tileLe. simpl. split_and!; (done || apply subBits_refl).
Qed.

Lemma ensures_bind_ret_ok {A} R (e : Exec A) :
  ensures (fun rc => rc ≠ XAIE_OK) R (bind e (fun _ => ret XAIE_OK)).
Proof.
  intros m a m' H Ha. apply bind_inv in H as (x & m1 & _ & H).
  by apply ret_inv in H as [-> _].
Qed.

(** Discharges [ensures _ noRelease e] goals along the structure of [e]. *)
Ltac ensures_step :=
  first
    [ apply ensures_ret, noRelease_refl
    | apply ensures_lift_opt
    | apply ensures_get_ri
    | apply ensures_constraintOf
    | apply ensures_hw
    | apply ensures_undef
    | apply ensures_setAutoConfigured
    | apply ensures_updatePortAvailabilityForStrmConn
    | apply ensures_ShimDmaToAie_unset
    | apply ensures_AieToShimDma_unset
    | apply ensures_bind_ret_ok
    | apply ensures_bind; [apply noRelease_trans | | intros ?]
    | match goal with
      | |- ensures _ _ (if ?b then _ else _) => destruct b
      | |- ensures _ _ (match ?x with _ => _ end) => destruct x
      end ].

Lemma ensures_routeHop be i s d ls :
  ensures (fun _ => True) noRelease (routeHop be i s d ls).
Proof. unfold routeHop. cbv zeta. repeat ensures_step. Qed.

Lemma ensures_routeLastTile be src dst t ls :
  ensures (fun rc => rc ≠ XAIE_OK) noRelease (routeLastTile be src dst t ls).
Proof. unfold routeLastTile. cbv zeta. repeat ensures_step. Qed.

Lemma ensures_routeLoop be src dst rest :
  ∀ i ls, ensures (fun rc => rc ≠ XAIE_OK) noRelease
            (routeLoop be src dst i rest ls).
Proof.
  induction rest as [|t rest IH]; intros i ls.
  - simpl. apply ensures_ret, noRelease_refl.
  - destruct rest as [|t' rest'].
    + apply ensures_routeLastTile.
    + cbn [routeLoop].
      apply ensures_bind; [apply noRelease_trans|apply ensures_routeHop|].
      intros [rc|ls'].
      * apply ensures_ret, noRelease_refl.
      * apply IH.
Qed.

(** ** The path finder *)

Lemma u8_range z : 0 ≤ u8 z < 256.
Proof. unfold u8. apply Z.mod_pos_bound. lia. Qed.

Lemma elem_of_allTiles r t :
  t ∈ allTiles r ↔ (0 ≤ Col t < NumCols r) ∧ (0 ≤ Row t < NumRows r).
Proof.
  unfold allTiles. rewrite elem_of_list_to_set, list_elem_of_bind.
  split.
  - intros (c & Ht & Hc). apply list_elem_of_fmap in Ht as (w & -> & Hw).
    apply elem_of_upto in Hc. apply elem_of_upto in Hw. done.
  - intros [Hc Hr]. exists (Col t). split; [|by apply elem_of_upto].
    apply list_elem_of_fmap. exists (Row t).
    split; [by rewrite loc_eta|by apply elem_of_upto].
Qed.

Lemma NoDup_upto n : NoDup (upto n).
Proof.
  unfold upto. apply NoDup_fmap_2; [|apply NoDup_seq].
  intros a b. lia.
Qed.

Lemma length_upto n : length (upto n) = Z.to_nat n.
Proof. unfold upto. by rewrite length_fmap, length_seq. Qed.

Lemma NoDup_tiles (cols : list Z) (rows : list Z) :
  NoDup cols → NoDup rows →
  NoDup (cols ≫= (fun c => mkLoc c <$> rows))
  ∧ length (cols ≫= (fun c => mkLoc c <$> rows))
    = (length cols * length rows)%nat.
Proof.
  intros Hc Hr. induction Hc as [|c cols Hnin Hc IH];
    [split; [constructor|done]|].
  destruct IH as [IH1 IH2]. rewrite bind_cons. split.
  - apply list.NoDup_app. split_and!.
    + apply NoDup_fmap_2; [|done]. by intros a b [= ->].
    + intros t Ht Ht'. apply list_elem_of_fmap in Ht as (w & -> & _).
      apply list_elem_of_bind in Ht' as (c' & Ht' & Hc').
      apply list_elem_of_fmap in Ht' as (w' & [= -> _] & _). done.
    + done.
  - rewrite length_app, length_fmap, IH2. simpl. done.
Qed.

Lemma size_allTiles r :
  0 ≤ NumCols r → 0 ≤ NumRows r →
  size (allTiles r) = Z.to_nat (NumRows r * NumCols r).
Proof.
  intros Hc Hr. unfold allTiles.
  destruct (NoDup_tiles (upto (NumCols r)) (upto (NumRows r))
              (NoDup_upto _) (NoDup_upto _)) as [Hnd Hlen].
  rewrite size_list_to_set by done. rewrite Hlen, !length_upto. lia.
Qed.

Lemma wfInstance_dims r :
  wfInstance r = true → (0 ≤ NumCols r ≤ 255) ∧ (0 ≤ NumRows r ≤ 255).
Proof.
  unfold wfInstance. intros H.
  repeat (apply andb_true_iff in H as [H ?]). lia.
Qed.

Lemma allTiles_tileAt r t :
  wfInstance r = true → t ∈ allTiles r →
  is_Some (tileAt (CoreConstraintPerCore r) t).
Proof.
  intros Hwf Ht. apply elem_of_allTiles in Ht as [? ?].
  by apply wfInstance_tileAt.
Qed.

Lemma tileAt_allTiles r t c :
  wfInstance r = true → tileAt (CoreConstraintPerCore r) t = Some c →
  t ∈ allTiles r.
Proof.
  intros Hwf Ht. apply elem_of_allTiles. by eapply tileAt_wfInstance_range.
Qed.

Lemma elem_of_directions d :
  d ∈ directions ↔ d = (0, 1, NORTH) ∨ d = (0, -1, SOUTH)
                   ∨ d = (1, 0, EAST) ∨ d = (-1, 0, WEST).
Proof.
  unfold directions. rewrite !elem_of_cons, elem_of_nil. tauto.
Qed.

Lemma u8_succ_ne z : u8 (z + 1) ≠ z.
Proof.
  unfold u8. intros H.
  pose proof (Z.mod_pos_bound (z + 1) 256 ltac:(lia)).
  rewrite <- H in H0 at 1.
  assert (z + 1 = 256 * ((z + 1) / 256) + (z + 1) mod 256)
    by (apply Z.div_mod; lia).
  assert ((z + 1) / 256 = 0) by (apply Z.div_small; lia). lia.
Qed.

Lemma u8_pred_ne z : u8 (z + -1) ≠ z.
Proof.
  unfold u8. intros H.
  pose proof (Z.mod_pos_bound (z + -1) 256 ltac:(lia)) as Hb.
  assert (0 ≤ z < 256) as Hz by (rewrite <- H; exact Hb).
  destruct (decide (z = 0)) as [->|].
  - by vm_compute in H.
  - rewrite Z.mod_small in H by lia. lia.
Qed.

Lemma adjOf_ne u d : d ∈ directions → adjOf u d ≠ u.
Proof.
  intros Hd. apply elem_of_directions in Hd.
  unfold adjOf, XAie_TileLoc. destruct u as [c w]. simpl.
  destruct Hd as [-> | [-> | [-> | ->]]]; simpl; intros [= H1 H2].
  - by apply u8_succ_ne in H2.
  - by apply u8_pred_ne in H2.
  - by apply u8_succ_ne in H1.
  - by apply u8_pred_ne in H1.
Qed.

Lemma adjOf_nonneg u d : 0 ≤ Col (adjOf u d) ∧ 0 ≤ Row (adjOf u d).
Proof.
  unfold adjOf, XAie_TileLoc. simpl.
  pose proof (u8_range (Col u + d.1.1)). pose proof (u8_range (Row u + d.1.2)).
  lia.
Qed.

(** The edge test, with the tile table of a well-formed instance. *)
Lemma isAdjTileValid_eq r RC u v p vis cu :
  wfInstance r = true →
  tileAt (CoreConstraintPerCore r) u = Some cu →
  0 ≤ Col v → 0 ≤ Row v →
  _XAie_isAdjTileValidForCurrTile r RC u v p vis
  = Some (staticOK r RC u v p && negb (bool_decide (v ∈ vis))).
Proof.
  intros Hwf Hu Hc Hr. unfold _XAie_isAdjTileValidForCurrTile, staticOK.
  rewrite Hu.
  destruct (Col v <? NumCols r) eqn:E1; simpl; [|done].
  destruct (Row v <? NumRows r) eqn:E2; simpl; [|done].
  apply Z.ltb_lt in E1. apply Z.ltb_lt in E2.
  destruct (wfInstance_tileAt r v Hwf) as [cv Hcv]; [lia..|].
  rewrite Hcv. simpl. f_equal.
  destruct (_XAie_isTileBlackListed v RC), (bool_decide (v ∈ vis)),
    (isPortAvailable cu cv p); done.
Qed.

Lemma traversable_edge r RC u v : traversable r RC u v ↔ edge r RC u v.
Proof.
  unfold traversable, edge. split; intros (d & Hd & -> & H); exists d;
    (split; [done|]); (split; [done|]).
  - unfold _XAie_isAdjTileValidForCurrTile, staticOK in *.
    destruct ((Col (adjOf u d) <? NumCols r) && (Row (adjOf u d) <? NumRows r));
      simpl in *; [|done].
    destruct (tileAt (CoreConstraintPerCore r) u) as [cu|]; [|done].
    destruct (tileAt (CoreConstraintPerCore r) (adjOf u d)) as [cv|]; [|done].
    simpl in H. injection H as H.
    rewrite bool_decide_eq_false_2 in H by set_solver.
    destruct (_XAie_isTileBlackListed _ _), (isPortAvailable _ _ _); done.
  - unfold _XAie_isAdjTileValidForCurrTile, staticOK in *.
    destruct ((Col (adjOf u d) <? NumCols r) && (Row (adjOf u d) <? NumRows r));
      simpl in *; [|done].
    destruct (tileAt (CoreConstraintPerCore r) u) as [cu|];
      [|by rewrite andb_false_r in H].
    destruct (tileAt (CoreConstraintPerCore r) (adjOf u d)) as [cv|];
      [|by rewrite andb_false_r in H].
    simpl. f_equal.
    rewrite bool_decide_eq_false_2 by set_solver.
    destruct (_XAie_isTileBlackListed _ _), (isPortAvailable _ _ _); done.
Qed.

Lemma edge_target_tile r RC u v :
  edge r RC u v → v ∈ allTiles r.
Proof.
  intros (d & Hd & -> & H). apply elem_of_allTiles.
  unfold staticOK in H.
  repeat (apply andb_true_iff in H as [H ?]).
  pose proof (adjOf_nonneg u d). lia.
Qed.

Lemma edge_not_blacklisted r RC u v :
  edge r RC u v → _XAie_isTileBlackListed v RC = false.
Proof.
  intros (d & Hd & -> & H). unfold staticOK in H.
  repeat (apply andb_true_iff in H as [H ?]).
  by destruct (_XAie_isTileBlackListed _ _).
Qed.


(** *** Chains *)

Lemma chain_snoc E p u v :
  chain E p → list.last p = Some u → E u v → chain E (p ++ [v]).
Proof.
  induction p as [|a [|b p] IH]; intros Hc Hl He.
  - done.
  - simpl in Hl. injection Hl as ->. simpl. done.
  - destruct Hc as [Hab Hc]. split; [done|]. apply IH; done.
Qed.

Lemma chain_mono (E E' : XAie_LocType → XAie_LocType → Prop) p :
  (∀ a b, E a b → E' a b) → chain E p → chain E' p.
Proof.
  intros HE. induction p as [|a [|b p] IH]; try done.
  intros [Hab Hc]. split; [by apply HE|by apply IH].
Qed.

Lemma chain_targets E (Q : XAie_LocType → Prop) p :
  (∀ a b, E a b → Q b) → chain E p → ∀ t, t ∈ tail p → Q t.
Proof.
  intros HE. induction p as [|a [|b p] IH]; simpl; intros Hc t Ht.
  - by apply elem_of_nil in Ht.
  - by apply elem_of_nil in Ht.
  - destruct Hc as [Hab Hc]. apply elem_of_cons in Ht as [->|Ht].
    + eauto.
    + apply IH; done.
Qed.
Section SearchProofs.

Variable r : XAie_RoutingInstance.
Variable RC : option XAie_RouteConstraints.
Variables src dst : XAie_LocType.
Hypothesis Hwf : wfInstance r = true.
Hypothesis Hsrc : src ∈ allTiles r.
Hypothesis Hsd : src ≠ dst.

Lemma gridSize_nonneg : 0 ≤ gridSize r.
Proof. unfold gridSize. destruct (wfInstance_dims r Hwf). lia. Qed.

Lemma size_allTiles_grid : size (allTiles r) = Z.to_nat (gridSize r).
Proof.
  destruct (wfInstance_dims r Hwf). unfold gridSize.
  apply size_allTiles; lia.
Qed.

(** A duplicate-free list of discovered tiles, with one tile of the grid
    not discovered yet, does not fill the queue. *)
Lemma queue_has_room (l : list XAie_LocType) (V : gset XAie_LocType) adj :
  NoDup l → (∀ q, q ∈ l → q ∈ V) → V ⊆ allTiles r →
  adj ∈ allTiles r → adj ∉ V →
  (length l < Z.to_nat (gridSize r))%nat.
Proof.
  intros Hnd Hl HV Hadj Hnin.
  rewrite <- size_allTiles_grid.
  rewrite <- (size_list_to_set (C := gset XAie_LocType) l) by done.
  assert (size ({[adj]} ∪ (list_to_set l : gset XAie_LocType))
          ≤ size (allTiles r))%nat as Hle.
  { apply subseteq_size. intros x Hx.
    apply elem_of_union in Hx as [Hx|Hx].
    - apply elem_of_singleton in Hx as ->. done.
    - apply elem_of_list_to_set in Hx. auto. }
  rewrite size_union in Hle.
  - rewrite size_singleton in Hle. lia.
  - intros x Hx Hx'. apply elem_of_singleton in Hx as ->.
    apply elem_of_list_to_set in Hx'. auto.
Qed.

Lemma enqueue_items q adj :
  capacity q = gridSize r →
  (length (items q) < Z.to_nat (gridSize r))%nat →
  items (_XAie_enqueue q adj) = items q ++ [adj]
  ∧ capacity (_XAie_enqueue q adj) = gridSize r.
Proof.
  intros Hcap Hlen. unfold _XAie_enqueue, isFull.
  destruct (Z.of_nat (length (items q)) =? capacity q) eqn:E.
  - apply Z.eqb_eq in E. lia.
  - done.
Qed.

Lemma lvlAfter_old lvl L adj x :
  x ≠ adj ∨ adj = src → lvlAfter src lvl L adj x = lvl x.
Proof.
  unfold lvlAfter. intros [?| ->]; destruct (decide _); try done.
  by rewrite decide_True.
Qed.

Lemma lvlAfter_new lvl L adj : adj ≠ src → lvlAfter src lvl L adj adj = S L.
Proof. unfold lvlAfter. intros. by rewrite decide_True, decide_False. Qed.

Lemma SearchInv_visit lvl D W L st cur adj :
  SearchInv r RC src lvl D W L st →
  cur ∈ W → lvl cur = L → edge r RC cur adj → adj ∉ visited st →
  SearchInv r RC src (lvlAfter src lvl L adj) D W L (visitState cur adj st).
Proof.
  intros [Hcap Hl0 HsW HDW HWv Hvt Htree Hcov Hnd Hqv Hql Hqs HWl Hclo Hbd]
    HcurW Hcur Hedge Hnin.
  pose proof (edge_target_tile _ _ _ _ Hedge) as Hadj.
  assert (length (items (queue st)) < Z.to_nat (gridSize r))%nat as Hroom
    by (eapply queue_has_room; eauto).
  destruct (enqueue_items (queue st) adj Hcap Hroom) as [Hitems Hcap'].
  assert (∀ x, x ∈ W → x ≠ adj ∨ adj = src) as HWadj.
  { intros x Hx. destruct (decide (x = adj)) as [->|]; [|by left].
    apply HWv in Hx. set_solver + Hx Hnin. }
  assert (∀ x, x ∈ visited st → x ≠ adj) as Hvadj by (intros x ? ->; done).
  assert (∀ x, x ∈ W → lvlAfter src lvl L adj x = lvl x) as HlW
    by (intros; apply lvlAfter_old; auto).
  assert (∀ x, x ∈ visited st → lvlAfter src lvl L adj x = lvl x) as Hlv
    by (intros; apply lvlAfter_old; left; auto).
  constructor; simpl.
  - done.
  - rewrite HlW; done.
  - done.
  - done.
  - set_solver + HWv.
  - set_solver + Hvt Hadj.
  - intros v Hv Hvs. apply elem_of_union in Hv as [Hv|Hv].
    + apply elem_of_singleton in Hv as ->.
      exists cur. rewrite lookup_insert_eq.
      split_and!; [done..|].
      rewrite lvlAfter_new by done. rewrite HlW by done. by rewrite Hcur.
    + destruct (Htree v Hv Hvs) as (u & Hp & He & Hu & Hlvl).
      exists u. rewrite lookup_insert_ne by (intros ->; done).
      split_and!; [done..|]. rewrite Hlv, HlW by done. done.
  - intros v Hv. rewrite Hitems.
    apply elem_of_union in Hv as [Hv|Hv].
    + apply elem_of_singleton in Hv as ->. right.
      apply elem_of_app. right. constructor.
    + destruct (Hcov v Hv); [by left|right]. apply elem_of_app. by left.
  - rewrite Hitems. apply list.NoDup_app. split_and!; [done| |apply NoDup_singleton].
    intros x Hx Hx'. apply list_elem_of_singleton in Hx' as ->. auto.
  - intros q. rewrite Hitems, elem_of_app, list_elem_of_singleton.
    intros [Hq%Hqv| ->]; [set_solver + Hq|set_solver +].
  - intros q. rewrite Hitems, elem_of_app, list_elem_of_singleton.
    intros [Hq| ->] Hqs'.
    + rewrite Hlv by auto. auto.
    + split.
      * intros HW. destruct (HWadj _ HW); done.
      * rewrite lvlAfter_new by done. lia.
  - intros i j q q' Hij. rewrite Hitems.
    intros Hi Hj Hq Hq'.
    apply list.lookup_app_Some in Hj as [Hj|[Hlen Hj]].
    + assert (items (queue st) !! i = Some q) as Hi'.
      { apply lookup_lt_Some in Hj. rewrite lookup_app_l in Hi by lia. done. }
      rewrite !Hlv by (eapply Hqv, list_elem_of_lookup_2; eauto).
      eapply Hqs; eauto.
    + apply list_lookup_singleton_Some in Hj as [_ <-].
      rewrite (lvlAfter_new _ _ adj) by done.
      apply list.lookup_app_Some in Hi as [Hi|[_ Hi]].
      * assert (q ∈ items (queue st)) as Hqin
          by (eapply list_elem_of_lookup_2; eauto).
        rewrite Hlv by auto. destruct (Hql q Hqin Hq). lia.
      * apply list_lookup_singleton_Some in Hi as [_ <-].
        rewrite lvlAfter_new by done. lia.
  - intros u Hu. rewrite HlW by done. auto.
  - intros u v Hu He. destruct (Hclo u v Hu He) as [->|[Hv Hle]]; [by left|].
    right. split; [set_solver + Hv|]. rewrite Hlv, HlW by auto. done.
  - intros v Hv Hvs.
    destruct (decide (adj = src)) as [->|Hns].
    + assert (({[src]} ∪ visited st) ∖ {[src]} = visited st ∖ {[src]}) as ->
        by set_solver +.
      rewrite lvlAfter_old by auto. apply Hbd; [set_solver + Hv Hvs|done].
    + assert (({[adj]} ∪ visited st) ∖ {[src]}
              = {[adj]} ∪ (visited st ∖ {[src]})) as -> by set_solver + Hns.
      rewrite size_union by set_solver + Hnin. rewrite size_singleton.
      apply elem_of_union in Hv as [Hv|Hv].
      * apply elem_of_singleton in Hv as ->. rewrite lvlAfter_new by done.
        destruct (decide (cur = src)) as [->|Hcs].
        -- rewrite <- Hcur, Hl0. lia.
        -- assert (cur ∈ visited st) by (apply HWv in HcurW; set_solver + HcurW Hcs).
           pose proof (Hbd cur ltac:(done) Hcs). lia.
      * rewrite Hlv by done. pose proof (Hbd v Hv Hvs). lia.
Qed.

(** *** The two walks over the parents *)

Lemma allWhitelisted_eq fuel P v :
  allWhitelisted fuel RC P src v
  = if loc_eqb v src then Some true
    else if whitelistActive RC
            && negb (_XAie_isTileWhitelisted v (whitelistOf RC))
    then Some false
    else match fuel with
         | O => None
         | S fuel' => allWhitelisted fuel' RC P src (predOf P v)
         end.
Proof. destruct fuel; reflexivity. Qed.

Lemma collectPath_eq room P v acc :
  collectPath src room P v acc
  = if loc_eqb v src then Some acc
    else match room with
         | O => None
         | S room' => collectPath src room' P (predOf P v) (acc ++ [v])
         end.
Proof. destruct room; reflexivity. Qed.

Lemma allWhitelisted_inactive fuel P v :
  whitelistActive RC = false → allWhitelisted fuel RC P src v ≠ Some false.
Proof.
  intros Hw. revert v. induction fuel as [|fuel IH]; intros v;
    rewrite allWhitelisted_eq, Hw; simpl; destruct (loc_eqb v src); done.
Qed.

Lemma allWhitelisted_true fuel P : ∀ v l,
  allWhitelisted fuel RC P src v = Some true → chainTo src P v l →
  whitelistActive RC = true →
  ∀ t, t ∈ l → _XAie_isTileWhitelisted t (whitelistOf RC) = true.
Proof.
  induction fuel as [|fuel IH]; intros v l; rewrite allWhitelisted_eq;
    intros Hrun Hch Hact t Ht.
  - destruct (loc_eqb v src) eqn:E.
    + apply loc_eqb_eq in E. destruct l as [|x l'];
        [by apply elem_of_nil in Ht|]. by destruct Hch.
    + rewrite Hact in Hrun. simpl in Hrun.
      by destruct (_XAie_isTileWhitelisted v (whitelistOf RC)).
  - destruct (loc_eqb v src) eqn:E.
    + apply loc_eqb_eq in E. destruct l as [|x l'];
        [by apply elem_of_nil in Ht|]. by destruct Hch.
    + rewrite Hact in Hrun. simpl in Hrun.
      destruct (_XAie_isTileWhitelisted v (whitelistOf RC)) eqn:Ew; [|done].
      simpl in Hrun.
      destruct l as [|x l']; [by apply elem_of_nil in Ht|].
      destruct Hch as (_ & -> & Hch).
      apply elem_of_cons in Ht as [->|Ht]; [done|].
      eapply IH; eauto.
Qed.

Lemma allWhitelisted_false fuel P : ∀ v l,
  allWhitelisted fuel RC P src v = Some false → chainTo src P v l →
  ∃ t, t ∈ l ∧ _XAie_isTileWhitelisted t (whitelistOf RC) = false.
Proof.
  induction fuel as [|fuel IH]; intros v l; rewrite allWhitelisted_eq;
    intros Hrun Hch; destruct (loc_eqb v src) eqn:E; try done;
    apply loc_eqb_neq in E;
    (destruct l as [|x l']; [by simpl in Hch|]);
    destruct Hch as (_ & -> & Hch);
    destruct (whitelistActive RC); simpl in Hrun;
    destruct (_XAie_isTileWhitelisted v (whitelistOf RC)) eqn:Ew;
    simpl in Hrun; try done;
    try (exists v; split; [by left|done]).
  - destruct (IH _ _ Hrun Hch) as (t & Ht & Hf).
    exists t. split; [by right|done].
  - destruct (IH _ _ Hrun Hch) as (t & Ht & Hf).
    exists t. split; [by right|done].
Qed.

Section TreeWalks.

Variable P : gmap XAie_LocType XAie_LocType.
Variable lvl : XAie_LocType → nat.
Variable V : gset XAie_LocType.
Hypothesis Htree : ∀ v, v ∈ V → v ≠ src →
  ∃ u, P !! v = Some u ∧ edge r RC u v ∧ (u = src ∨ u ∈ V)
       ∧ lvl v = S (lvl u).
Hypothesis Hlvl0 : lvl src = 0%nat.

Lemma tree_parent v :
  v ∈ V → v ≠ src →
  edge r RC (predOf P v) v ∧ (predOf P v = src ∨ predOf P v ∈ V)
  ∧ lvl v = S (lvl (predOf P v)).
Proof.
  intros Hv Hne. destruct (Htree v Hv Hne) as (u & Hu & He & Hin & Hl).
  unfold predOf. rewrite Hu. done.
Qed.

Lemma allWhitelisted_defined fuel : ∀ v,
  v = src ∨ v ∈ V → (lvl v ≤ fuel)%nat →
  is_Some (allWhitelisted fuel RC P src v).
Proof.
  induction fuel as [|fuel IH]; intros v Hv Hle; rewrite allWhitelisted_eq;
    destruct (loc_eqb v src) eqn:E; try done;
    destruct (whitelistActive RC
              && negb (_XAie_isTileWhitelisted v (whitelistOf RC)));
    try done; apply loc_eqb_neq in E; destruct Hv as [?|Hv]; try done;
    destruct (tree_parent v Hv E) as (_ & Hin & Hl).
  - lia.
  - apply IH; [done|lia].
Qed.

Lemma collectPath_tree room : ∀ v acc,
  v = src ∨ v ∈ V → (lvl v ≤ room)%nat →
  ∃ l, collectPath src room P v acc = Some (acc ++ l)
       ∧ chainTo src P v l ∧ length l = lvl v.
Proof.
  induction room as [|room IH]; intros v acc Hv Hle; rewrite collectPath_eq;
    destruct (loc_eqb v src) eqn:E.
  - apply loc_eqb_eq in E as ->. exists []. by rewrite app_nil_r.
  - apply loc_eqb_neq in E. destruct Hv as [?|Hv]; [done|].
    destruct (tree_parent v Hv E) as (_ & _ & Hl). lia.
  - apply loc_eqb_eq in E as ->. exists []. by rewrite app_nil_r.
  - apply loc_eqb_neq in E. destruct Hv as [?|Hv]; [done|].
    destruct (tree_parent v Hv E) as (_ & Hin & Hl).
    destruct (IH (predOf P v) (acc ++ [v]) Hin ltac:(lia)) as (l & Hrun & Hch & Hlen).
    exists (v :: l). rewrite Hrun, <- app_assoc. simpl.
    split_and!; [done..|lia].
Qed.

Lemma chainTo_path : ∀ l v,
  v = src ∨ v ∈ V → chainTo src P v l →
  chain (edge r RC) (src :: rev l) ∧ list.last (src :: rev l) = Some v.
Proof.
  induction l as [|x l IH]; intros v Hv Hch.
  - simpl in Hch. subst v. done.
  - destruct Hch as (Hne & -> & Hch). destruct Hv as [?|Hv]; [done|].
    destruct (tree_parent v Hv Hne) as (He & Hin & _).
    destruct (IH _ Hin Hch) as [Hc Hlast].
    simpl rev. rewrite app_comm_cons. split.
    + apply chain_snoc with (predOf P v); done.
    + by rewrite last_snoc.
Qed.

End TreeWalks.

(** *** Consequences of the invariant *)

Lemma SearchInv_tree lvl D W L st :
  SearchInv r RC src lvl D W L st →
  ∀ v, v ∈ visited st → v ≠ src →
  ∃ u, Pred st !! v = Some u ∧ edge r RC u v
       ∧ (u = src ∨ u ∈ visited st) ∧ lvl v = S (lvl u).
Proof.
  intros Hinv v Hv Hne.
  destruct (inv_tree _ _ _ _ _ _ _ _ Hinv v Hv Hne) as (u & Hu & He & HuW & Hl).
  exists u. split_and!; try done.
  pose proof (inv_W_visited _ _ _ _ _ _ _ _ Hinv) as HW.
  set_solver + HW HuW.
Qed.

Lemma size_without_src (X : gset XAie_LocType) :
  X ⊆ allTiles r → (S (size (X ∖ {[src]})) ≤ Z.to_nat (gridSize r))%nat.
Proof.
  intros HX. rewrite <- size_allTiles_grid.
  assert (size ({[src]} ∪ X ∖ {[src]}) ≤ size (allTiles r))%nat as Hle
    by (apply subseteq_size; set_solver + HX Hsrc).
  rewrite size_union in Hle by set_solver +.
  rewrite size_singleton in Hle. lia.
Qed.

Lemma SearchInv_depth lvl D W L st v :
  SearchInv r RC src lvl D W L st → v ∈ visited st → v ≠ src →
  (S (lvl v) ≤ Z.to_nat (gridSize r))%nat.
Proof.
  intros Hinv Hv Hne.
  pose proof (inv_bound _ _ _ _ _ _ _ _ Hinv v Hv Hne).
  pose proof (size_without_src (visited st)
                (inv_visited_tiles _ _ _ _ _ _ _ _ Hinv)).
  lia.
Qed.

(** Inside a round, every tile reached in at most [L] edges is the source
    or has been discovered. *)
Lemma reach_within lvl D cur L st :
  MidInv r RC src dst lvl D cur L st →
  ∀ n x, reachIn r RC src n x → (n ≤ L)%nat →
  x = src ∨ (x ∈ visited st ∧ (lvl x ≤ n)%nat).
Proof.
  intros (Hinv & Hcur & Hs & _) n x Hreach.
  induction Hreach as [|n u v Hreach IH He]; intros Hn; [by left|].
  assert (u ∈ D ∧ (lvl u ≤ n)%nat) as [HuD Hlu].
  { destruct (IH ltac:(lia)) as [->|[Hu Hlu]].
    - split; [|rewrite (inv_lvl_src _ _ _ _ _ _ _ _ Hinv); lia].
      destruct Hs as [?|?]; [done|lia].
    - split; [|done].
      destruct (decide (u = src)) as [->|Hne];
        [destruct Hs as [?|?]; [done|lia]|].
      destruct (inv_cover _ _ _ _ _ _ _ _ Hinv u Hu) as [HW|Hq].
      + apply elem_of_union in HW as [?|HW]; [done|].
        apply elem_of_singleton in HW as ->. lia.
      + destruct (inv_queue_lvl _ _ _ _ _ _ _ _ Hinv u Hq Hne). lia. }
  destruct (inv_closure _ _ _ _ _ _ _ _ Hinv u v HuD He) as [?|[Hv Hlv]];
    [by left|right]. split; [done|lia].
Qed.

(** Between rounds with an empty queue, every tile reached from the source
    has been discovered. *)
Lemma reach_all lvl D L st :
  HeadInv r RC src dst lvl D L st → items (queue st) = [] →
  ∀ n x, reachIn r RC src n x → x = src ∨ x ∈ visited st.
Proof.
  intros (Hinv & _) Hq n x Hreach.
  induction Hreach as [|n u v Hreach IH He]; [by left|].
  assert (u ∈ D) as HuD.
  { destruct IH as [->|Hu]; [apply (inv_src_W _ _ _ _ _ _ _ _ Hinv)|].
    destruct (inv_cover _ _ _ _ _ _ _ _ Hinv u Hu) as [?|Hin]; [done|].
    rewrite Hq in Hin. by apply elem_of_nil in Hin. }
  destruct (inv_closure _ _ _ _ _ _ _ _ Hinv u v HuD He) as [?|[Hv _]]; auto.
Qed.

(** *** One direction *)

Lemma visitDirection_eq cur st d :
  cur ∈ allTiles r →
  visitDirection r RC src dst cur st d
  = if staticOK r RC cur (adjOf cur d) d.2
       && negb (bool_decide (adjOf cur d ∈ visited st))
    then
      let st1 := visitState cur (adjOf cur d) st in
      if loc_eqb (adjOf cur d) dst then
        ok ← allWhitelisted (Z.to_nat (gridSize r)) RC (Pred st1) src
               (adjOf cur d);
        Some (if (ok : bool) then setFound st1 else st1)
      else Some st1
    else Some st.
Proof.
  intros Hcur. destruct d as [[dc dr] p].
  destruct (allTiles_tileAt r cur Hwf Hcur) as [cu Hcu].
  destruct (adjOf_nonneg cur (dc, dr, p)) as [Hc Hr].
  unfold visitDirection.
  change (XAie_TileLoc (Col cur + dc) (Row cur + dr))
    with (adjOf cur (dc, dr, p)).
  rewrite (isAdjTileValid_eq r RC cur _ p (visited st) cu Hwf Hcu Hc Hr).
  reflexivity.
Qed.

Lemma searchMeasure_visit lvl D W L st cur adj :
  SearchInv r RC src lvl D W L st → adj ∈ allTiles r → adj ∉ visited st →
  searchMeasure r (visitState cur adj st) = searchMeasure r st.
Proof.
  intros Hinv Hadj Hnin. unfold searchMeasure. simpl.
  pose proof (inv_visited_tiles _ _ _ _ _ _ _ _ Hinv) as Hvt.
  assert (length (items (queue st)) < Z.to_nat (gridSize r))%nat as Hroom.
  { eapply queue_has_room; eauto.
    - apply (inv_queue_nodup _ _ _ _ _ _ _ _ Hinv).
    - apply (inv_queue_visited _ _ _ _ _ _ _ _ Hinv). }
  destruct (enqueue_items (queue st) adj
              (inv_capacity _ _ _ _ _ _ _ _ Hinv) Hroom) as [-> _].
  rewrite length_app. simpl.
  rewrite size_union by set_solver + Hnin. rewrite size_singleton.
  assert (size ({[adj]} ∪ visited st) ≤ size (allTiles r))%nat as Hle
    by (apply subseteq_size; set_solver + Hvt Hadj).
  rewrite size_union in Hle by set_solver + Hnin.
  rewrite size_singleton, size_allTiles_grid in Hle. lia.
Qed.

Lemma edge_ne u v : edge r RC u v → v ≠ u.
Proof. intros (d & Hd & -> & _). by apply adjOf_ne. Qed.

Lemma chain_reach : ∀ q n x,
  reachIn r RC src n x → chain (edge r RC) (x :: q) →
  ∃ y, list.last (x :: q) = Some y ∧ reachIn r RC src (n + length q) y.
Proof.
  induction q as [|b q IH]; intros n x Hreach Hc.
  - exists x. split; [done|]. by rewrite Nat.add_0_r.
  - destruct Hc as [He Hc].
    destruct (IH (S n) b (reach_S _ _ _ _ _ _ Hreach He) Hc) as (y & Hl & Hr).
    exists y. split; [done|]. simpl length. by rewrite Nat.add_succ_r.
Qed.

Lemma path_reach q :
  pathFromTo src dst q → chain (edge r RC) q →
  ∃ n, length q = S n ∧ reachIn r RC src n dst.
Proof.
  intros [Hh Hl] Hc. destruct q as [|a q]; [done|].
  simpl in Hh. injection Hh as ->.
  destruct (chain_reach q 0 src (reach_0 _ _ _) Hc) as (y & Hy & Hr).
  rewrite Hl in Hy. injection Hy as <-. by exists (length q).
Qed.

Lemma MidInv_visit lvl D cur L st adj :
  MidInv r RC src dst lvl D cur L st →
  edge r RC cur adj → adj ∉ visited st →
  (whitelistLenient r RC src dst → adj ≠ dst) →
  MidInv r RC src dst (lvlAfter src lvl L adj) D cur L (visitState cur adj st).
Proof.
  intros (Hinv & Hcur & Hs & HcurT & Hf & Hw) He Hnin Hnd.
  split_and!; try done.
  - apply SearchInv_visit; try done. set_solver +.
  - rewrite lvlAfter_old; [done|]. left. intros ->. by apply edge_ne in He.
  - intros Hact. specialize (Hw Hact). specialize (Hnd Hact). simpl.
    set_solver + Hw Hnd.
Qed.

Lemma FoundInv_visit lvl D cur L st :
  MidInv r RC src dst lvl D cur L st →
  edge r RC cur dst → dst ∉ visited st →
  allWhitelisted (Z.to_nat (gridSize r)) RC
    (Pred (visitState cur dst st)) src dst = Some true →
  FoundInv r RC src dst (lvlAfter src lvl L dst) (S L)
    (setFound (visitState cur dst st)).
Proof.
  intros HM He Hnin Hwalk.
  pose proof HM as (Hinv & Hcur & Hs & HcurT & Hf & Hw).
  assert (SearchInv r RC src (lvlAfter src lvl L dst) D (D ∪ {[cur]}) L
            (visitState cur dst st)) as Hinv'
    by (apply SearchInv_visit; try done; set_solver +).
  assert (dst ∈ visited (visitState cur dst st)) as Hin
    by (simpl; set_solver +).
  constructor.
  - done.
  - apply (inv_lvl_src _ _ _ _ _ _ _ _ Hinv').
  - done.
  - by apply lvlAfter_new.
  - apply (SearchInv_tree _ _ _ _ _ Hinv').
  - pose proof (SearchInv_depth _ _ _ _ _ dst Hinv' Hin ltac:(done)) as Hd.
    rewrite lvlAfter_new in Hd by done. done.
  - intros n Hreach. destruct (decide (S L ≤ n)%nat) as [|Hlt]; [done|].
    destruct (reach_within _ _ _ _ _ HM n dst Hreach ltac:(lia)) as [?|[? _]];
      done.
  - done.
Qed.

Lemma visitDirection_step lvl D cur L st d :
  MidInv r RC src dst lvl D cur L st → d ∈ directions →
  ∃ st' lvl', visitDirection r RC src dst cur st d = Some st'
    ∧ searchMeasure r st' = searchMeasure r st
    ∧ ((∃ k, FoundInv r RC src dst lvl' k st')
       ∨ (MidInv r RC src dst lvl' D cur L st'
          ∧ (∀ x, x ∈ visited st → lvl' x = lvl x)
          ∧ visited st ⊆ visited st'
          ∧ closedFor r RC src lvl' L cur st' [d])).
Proof.
  intros HM Hd. pose proof HM as (Hinv & Hcur & Hs & HcurT & Hf & Hw).
  rewrite visitDirection_eq by done.
  destruct (staticOK r RC cur (adjOf cur d) d.2) eqn:Est; simpl.
  2: { exists st, lvl. split_and!; [done..|right].
       split_and!; [done..|].
       intros d' Hd' Hst. apply list_elem_of_singleton in Hd' as ->.
       congruence. }
  destruct (bool_decide (adjOf cur d ∈ visited st)) eqn:Evis; simpl.
  { apply bool_decide_eq_true in Evis.
    exists st, lvl. split_and!; [done..|right].
    split_and!; [done..|].
    intros d' Hd' _. apply list_elem_of_singleton in Hd' as ->.
    destruct (decide (adjOf cur d = src)) as [|Hne]; [by left|right].
    split; [done|].
    destruct (inv_cover _ _ _ _ _ _ _ _ Hinv _ Evis) as [HW|Hq].
    - pose proof (inv_W_lvl _ _ _ _ _ _ _ _ Hinv _ HW). lia.
    - destruct (inv_queue_lvl _ _ _ _ _ _ _ _ Hinv _ Hq Hne). lia. }
  apply bool_decide_eq_false in Evis.
  assert (edge r RC cur (adjOf cur d)) as He by (by exists d).
  pose proof (edge_target_tile _ _ _ _ He) as Hadj.
  pose proof (searchMeasure_visit _ _ _ _ _ cur _ Hinv Hadj Evis) as Hmu.
  assert (∀ x, x ∈ visited st → lvlAfter src lvl L (adjOf cur d) x = lvl x)
    as Hold by (intros x Hx; apply lvlAfter_old; left; by intros ->).
  assert (closedFor r RC src (lvlAfter src lvl L (adjOf cur d)) L cur
            (visitState cur (adjOf cur d) st) [d]) as Hclosed.
  { intros d' Hd' _. apply list_elem_of_singleton in Hd' as ->.
    destruct (decide (adjOf cur d = src)) as [|Hne]; [by left|right].
    split; [simpl; set_solver +|]. rewrite lvlAfter_new by done. lia. }
  assert (visited st ⊆ visited (visitState cur (adjOf cur d) st)) as Hsub
    by (simpl; set_solver +).
  destruct (loc_eqb (adjOf cur d) dst) eqn:Edst.
  - apply loc_eqb_eq in Edst. rewrite Edst in *.
    assert (SearchInv r RC src (lvlAfter src lvl L dst) D (D ∪ {[cur]}) L
              (visitState cur dst st)) as Hinv'
      by (apply SearchInv_visit; try done; set_solver +).
    assert (dst ∈ visited (visitState cur dst st)) as Hin
      by (simpl; set_solver +).
    destruct (allWhitelisted_defined (Pred (visitState cur dst st))
                (lvlAfter src lvl L dst) (visited (visitState cur dst st))
                (SearchInv_tree _ _ _ _ _ Hinv')
                (inv_lvl_src _ _ _ _ _ _ _ _ Hinv')
                (Z.to_nat (gridSize r)) dst (or_intror Hin)) as [ok Hok].
    { pose proof (SearchInv_depth _ _ _ _ _ dst Hinv' Hin ltac:(done)). lia. }
    simpl in Hok |- *. rewrite Hok. simpl. destruct ok.
    + exists (setFound (visitState cur dst st)), (lvlAfter src lvl L dst).
      split_and!; [done..|left]. exists (S L). by apply (FoundInv_visit lvl D).
    + exists (visitState cur dst st), (lvlAfter src lvl L dst).
      split_and!; [done..|right]. split_and!; try done.
      apply MidInv_visit; try done.
      intros [Hact|Hall]; exfalso; [by eapply allWhitelisted_inactive|].
      destruct (collectPath_tree (Pred (visitState cur dst st))
                  (lvlAfter src lvl L dst) (visited (visitState cur dst st))
                  (SearchInv_tree _ _ _ _ _ Hinv')
                  (inv_lvl_src _ _ _ _ _ _ _ _ Hinv')
                  (Z.to_nat (gridSize r)) dst [] (or_intror Hin))
        as (l & _ & Hch & Hlen).
      { pose proof (SearchInv_depth _ _ _ _ _ dst Hinv' Hin ltac:(done)). lia. }
      rewrite lvlAfter_new in Hlen by done.
      destruct (allWhitelisted_false _ _ _ _ Hok Hch) as (t & Ht & Hnw).
      destruct (chainTo_path (Pred (visitState cur dst st))
                  (lvlAfter src lvl L dst) (visited (visitState cur dst st))
                  (SearchInv_tree _ _ _ _ _ Hinv') l dst (or_intror Hin) Hch)
        as [Hc Hlast].
      rewrite (Hall (src :: rev l)) in Hnw; [done|done| | |].
      * eapply chain_mono; [|done]. intros a b. by apply traversable_edge.
      * intros q' Hq' Hcq'.
        destruct (path_reach q' Hq') as (n & -> & Hreach).
        { eapply chain_mono; [|done]. intros a b. by apply traversable_edge. }
        simpl. rewrite length_rev, Hlen.
        destruct (decide (S L ≤ n)%nat) as [|Hlt]; [lia|].
        destruct (reach_within _ _ _ _ _ HM n dst Hreach ltac:(lia))
          as [?|[? _]]; done.
      * simpl. apply list_elem_of_In. apply in_rev. rewrite rev_involutive.
        by apply list_elem_of_In.
  - apply loc_eqb_neq in Edst.
    exists (visitState cur (adjOf cur d) st), (lvlAfter src lvl L (adjOf cur d)).
    split_and!; [done..|right]. split_and!; try done.
    by apply MidInv_visit.
Qed.

(** *** The four directions *)

Lemma closedFor_mono lvl lvl' L cur st st' ds :
  closedFor r RC src lvl L cur st ds →
  visited st ⊆ visited st' → (∀ x, x ∈ visited st → lvl' x = lvl x) →
  closedFor r RC src lvl' L cur st' ds.
Proof.
  intros Hcl Hsub Hold d Hd Hst.
  destruct (Hcl d Hd Hst) as [?|[Hv Hl]]; [by left|right].
  split; [by apply Hsub|]. by rewrite Hold.
Qed.

Lemma closedFor_app lvl L cur st ds1 ds2 :
  closedFor r RC src lvl L cur st ds1 → closedFor r RC src lvl L cur st ds2 →
  closedFor r RC src lvl L cur st (ds1 ++ ds2).
Proof.
  intros H1 H2 d Hd. apply elem_of_app in Hd as [Hd|Hd]; [by apply H1|by apply H2].
Qed.

Lemma visitNeighbours_steps D cur L ds : ∀ lvl st seen,
  (∀ d, d ∈ ds → d ∈ directions) →
  MidInv r RC src dst lvl D cur L st →
  closedFor r RC src lvl L cur st seen →
  ∃ st' lvl', visitNeighbours r RC src dst cur ds st = Some st'
    ∧ searchMeasure r st' = searchMeasure r st
    ∧ ((∃ k, FoundInv r RC src dst lvl' k st')
       ∨ (MidInv r RC src dst lvl' D cur L st'
          ∧ closedFor r RC src lvl' L cur st' (seen ++ ds))).
Proof.
  induction ds as [|d ds IH]; intros lvl st seen Hds HM Hseen.
  - exists st, lvl. rewrite app_nil_r. split_and!; [done..|by right].
  - destruct (visitDirection_step lvl D cur L st d HM)
      as (st1 & lvl1 & Hrun & Hmu & [[k HF]|(HM1 & Hold & Hsub & Hcl)]).
    { apply Hds. constructor. }
    + exists st1, lvl1. simpl. rewrite Hrun. simpl.
      rewrite (fnd_found _ _ _ _ _ _ _ HF).
      split_and!; [done..|left; eauto].
    + pose proof HM1 as (_ & _ & _ & _ & Hf1 & _).
      destruct (IH lvl1 st1 (seen ++ [d])) as (st' & lvl' & Hrun' & Hmu' & Hres).
      * intros d' Hd'. apply Hds. by constructor.
      * done.
      * apply closedFor_app; [|done]. by apply closedFor_mono with lvl st.
      * exists st', lvl'. simpl. rewrite Hrun. simpl. rewrite Hf1.
        split_and!; [done|congruence|]. by rewrite <- app_assoc in Hres.
Qed.

Lemma visitNeighbours_closed cur st : ∀ ds,
  cur ∈ allTiles r → found st = false →
  (∀ d, d ∈ ds → staticOK r RC cur (adjOf cur d) d.2 = true →
        adjOf cur d ∈ visited st) →
  visitNeighbours r RC src dst cur ds st = Some st.
Proof.
  induction ds as [|d ds IH]; intros Hcur Hf Hcl; [done|].
  simpl. rewrite visitDirection_eq by done.
  assert (staticOK r RC cur (adjOf cur d) d.2
          && negb (bool_decide (adjOf cur d ∈ visited st)) = false) as ->.
  { destruct (staticOK r RC cur (adjOf cur d) d.2) eqn:E; [|done].
    rewrite bool_decide_eq_true_2; [done|]. apply Hcl; [constructor|done]. }
  simpl. rewrite Hf. apply IH; try done.
  intros d' Hd'. apply Hcl. by constructor.
Qed.

(** *** Between two rounds *)

Lemma HeadInv_finish lvl D cur L st :
  MidInv r RC src dst lvl D cur L st →
  closedFor r RC src lvl L cur st directions →
  HeadInv r RC src dst lvl (D ∪ {[cur]}) L st.
Proof.
  intros (Hinv & Hcur & Hs & HcurT & Hf & Hw) Hcl.
  split_and!; [|done..].
  destruct Hinv
    as [Hcap Hl0 HsW HDW HWv Hvt Htree Hcov Hnd Hqv Hql Hqs HWl Hclo Hbd].
  constructor; try done.
  intros u v Hu He. apply elem_of_union in Hu as [Hu|Hu]; [eauto|].
  apply elem_of_singleton in Hu as ->.
  destruct He as (d & Hd & -> & Hst). rewrite Hcur. by apply Hcl.
Qed.

Lemma MidInv_dequeue lvl D L st f rest :
  HeadInv r RC src dst lvl D L st → items (queue st) = f :: rest → f ≠ src →
  MidInv r RC src dst lvl D f (lvl f)
    (setQueue {| capacity := capacity (queue st); items := rest |} st).
Proof.
  intros (Hinv & Hf & Hw) Hq Hne.
  destruct Hinv
    as [Hcap Hl0 HsW HDW HWv Hvt Htree Hcov Hnd Hqv Hql Hqs HWl Hclo Hbd].
  rewrite Hq in *.
  assert (f ∈ visited st) as Hfv by (apply Hqv; constructor).
  destruct (Hql f ltac:(constructor) Hne) as [HfD [Hflo Hfhi]].
  apply list.NoDup_cons in Hnd as [Hfr Hnd].
  split_and!; [|done|by left|by apply Hvt|done|done].
  constructor; simpl; try done.
  - set_solver + HsW.
  - set_solver +.
  - set_solver + HWv Hfv.
  - intros v Hv Hvs. destruct (Htree v Hv Hvs) as (u & ? & ? & Hu & ?).
    exists u. split_and!; try done. set_solver + Hu.
  - intros v Hv. destruct (Hcov v Hv) as [HvD|Hin]; [left; set_solver + HvD|].
    apply elem_of_cons in Hin as [->|Hin]; [left; set_solver +|by right].
  - intros q Hin. apply Hqv. by constructor.
  - intros q Hin Hqs'.
    destruct (Hql q ltac:(by constructor) Hqs') as [HqD [Hqlo Hqhi]].
    split.
    + intros [?|Hqf]%elem_of_union; [done|].
      apply elem_of_singleton in Hqf as ->. done.
    + split; [|lia].
      apply list_elem_of_lookup_1 in Hin as [i Hi].
      apply (Hqs 0%nat (S i) f q); simpl; try done. lia.
  - intros i j q q' Hij Hi Hj. apply (Hqs (S i) (S j)); simpl; try done. lia.
  - intros u [Hu|Hu]%elem_of_union.
    + pose proof (HWl u Hu). lia.
    + apply elem_of_singleton in Hu as ->. lia.
Qed.

Lemma HeadInv_dequeue_src lvl D L st rest :
  HeadInv r RC src dst lvl D L st → items (queue st) = src :: rest →
  HeadInv r RC src dst lvl D L
    (setQueue {| capacity := capacity (queue st); items := rest |} st)
  ∧ (∀ d, d ∈ directions → staticOK r RC src (adjOf src d) d.2 = true →
          adjOf src d ∈ visited st).
Proof.
  intros (Hinv & Hf & Hw) Hq.
  destruct Hinv
    as [Hcap Hl0 HsW HDW HWv Hvt Htree Hcov Hnd Hqv Hql Hqs HWl Hclo Hbd].
  rewrite Hq in *. split.
  - apply list.NoDup_cons in Hnd as [Hfr Hnd].
    split_and!; [|done..]. constructor; simpl; try done.
    + intros v Hv. destruct (Hcov v Hv) as [HvD|Hin]; [by left|].
      apply elem_of_cons in Hin as [->|Hin]; [by left|by right].
    + intros q Hin. apply Hqv. by constructor.
    + intros q Hin. apply Hql. by constructor.
    + intros i j q q' Hij Hi Hj. apply (Hqs (S i) (S j)); simpl; try done. lia.
  - intros d Hd Hst.
    destruct (Hclo src (adjOf src d) HsW) as [Heq|[Hv _]]; [by exists d| |done].
    by apply adjOf_ne in Heq.
Qed.

(** *** The search loop *)

Lemma bfsLoop_eq fuel st :
  bfsLoop r RC src dst fuel st
  = if isEmpty (queue st) || found st then Some st
    else match fuel with
         | O => None
         | S fuel' =>
             let '(current, q) := _XAie_dequeue (queue st) in
             st' ← visitNeighbours r RC src dst current directions
                     (setQueue q st);
             bfsLoop r RC src dst fuel' st'
         end.
Proof. destruct fuel; reflexivity. Qed.

Lemma bfsLoop_found fuel st lvl k :
  FoundInv r RC src dst lvl k st → bfsLoop r RC src dst fuel st = Some st.
Proof.
  intros HF. rewrite bfsLoop_eq, (fnd_found _ _ _ _ _ _ _ HF).
  by rewrite orb_true_r.
Qed.

Lemma round_ends fuel lvl D cur L st :
  (∀ lvl D L st, HeadInv r RC src dst lvl D L st →
     (searchMeasure r st ≤ fuel)%nat →
     ∃ st', bfsLoop r RC src dst fuel st = Some st'
            ∧ SearchDone r RC src dst st') →
  MidInv r RC src dst lvl D cur L st → (searchMeasure r st ≤ fuel)%nat →
  ∃ st', (visitNeighbours r RC src dst cur directions st
            ≫= bfsLoop r RC src dst fuel) = Some st'
         ∧ SearchDone r RC src dst st'.
Proof.
  intros IH HM Hmu.
  assert (closedFor r RC src lvl L cur st []) as Hnil
    by (intros d Hd; by apply elem_of_nil in Hd).
  destruct (visitNeighbours_steps D cur L directions lvl st []
              ltac:(done) HM Hnil)
    as (st1 & lvl1 & Hrun & Hmu1 & [[k HF]|[HM1 Hcl]]).
  - rewrite Hrun. simpl. rewrite (bfsLoop_found _ _ _ _ HF).
    exists st1. split; [done|left; eauto].
  - rewrite Hrun. simpl.
    apply (IH lvl1 (D ∪ {[cur]}) L); [by apply HeadInv_finish|lia].
Qed.

Lemma bfsLoop_head fuel : ∀ lvl D L st,
  HeadInv r RC src dst lvl D L st → (searchMeasure r st ≤ fuel)%nat →
  ∃ st', bfsLoop r RC src dst fuel st = Some st'
         ∧ SearchDone r RC src dst st'.
Proof.
  induction fuel as [|fuel IH]; intros lvl D L st HH Hmu;
    pose proof HH as (Hinv & Hf & Hw);
    rewrite bfsLoop_eq, Hf, orb_false_r; unfold isEmpty, _XAie_dequeue;
    destruct (items (queue st)) as [|f rest] eqn:Hq.
  - exists st. split; [done|right]. split; [done|]. by exists lvl, D, L.
  - unfold searchMeasure in Hmu. rewrite Hq in Hmu. simpl in Hmu. lia.
  - exists st. split; [done|right]. split; [done|]. by exists lvl, D, L.
  - assert (searchMeasure r
              (setQueue {| capacity := capacity (queue st); items := rest |} st)
            ≤ fuel)%nat as Hmu'.
    { unfold searchMeasure in *. rewrite Hq in Hmu. simpl in *. lia. }
    destruct (decide (f = src)) as [->|Hne].
    + destruct (HeadInv_dequeue_src lvl D L st rest HH Hq) as [HH' Hcl].
      rewrite visitNeighbours_closed; try done. simpl.
      by apply (IH lvl D L).
    + apply (round_ends fuel lvl D f (lvl f)); try done.
      by apply MidInv_dequeue with L.
Qed.

Lemma gridSize_pos : 0 < gridSize r.
Proof.
  apply elem_of_allTiles in Hsrc as [Hc Hr]. unfold gridSize. nia.
Qed.

Lemma bfsInit_eq :
  bfsInit r src
  = {| queue := {| capacity := gridSize r; items := [src] |};
       visited := ∅; Pred := ∅; found := false |}.
Proof.
  pose proof gridSize_pos as Hpos.
  unfold bfsInit, _XAie_enqueue, isFull, createQueue.
  cbn [items capacity length Z.of_nat].
  change (Z.of_nat 0) with 0.
  destruct (0 =? gridSize r) eqn:E; [apply Z.eqb_eq in E; lia|done].
Qed.

Lemma MidInv_init :
  MidInv r RC src dst (fun _ => 0%nat) ∅ src 0
    {| queue := {| capacity := gridSize r; items := [] |};
       visited := ∅; Pred := ∅; found := false |}.
Proof.
  split_and!; [|done|by right|done|done|intros _; simpl; set_solver +].
  constructor; simpl; try done;
    try (intros ? Hv; by apply not_elem_of_empty in Hv);
    try (intros ? Hq; by apply elem_of_nil in Hq);
    try (intros ? ? Hu; by apply not_elem_of_empty in Hu).
  - set_solver +.
  - constructor.
Qed.

(** The search loop ends within its [gridSize + 1] rounds. *)
Lemma bfsLoop_fuel :
  ∃ st', bfsLoop r RC src dst (S (Z.to_nat (gridSize r))) (bfsInit r src)
         = Some st'
         ∧ SearchDone r RC src dst st'.
Proof.
  rewrite bfsInit_eq, bfsLoop_eq.
  unfold isEmpty, _XAie_dequeue. cbn [queue items found orb capacity].
  apply (round_ends _ (fun _ => 0%nat) ∅ src 0%nat).
  - intros lvl D L st. apply bfsLoop_head.
  - apply MidInv_init.
  - unfold searchMeasure, setQueue. cbn [queue items visited length].
    rewrite size_empty. lia.
Qed.

(** *** The result of the search *)

Lemma findShortestPath_spec :
  ∃ ok p, _XAie_findShortestPath r RC src dst (gridSize r) = Some (ok, p)
    ∧ (ok = true →
         pathFromTo src dst p ∧ chain (edge r RC) p
         ∧ (whitelistActive RC = true → ∀ t, t ∈ afterSource p →
              _XAie_isTileWhitelisted t (whitelistOf RC) = true)
         ∧ (∀ n, reachIn r RC src n dst → (length p ≤ S n)%nat))
    ∧ (ok = false → whitelistLenient r RC src dst →
         ∀ n, ¬ reachIn r RC src n dst).
Proof.
  unfold _XAie_findShortestPath.
  assert (loc_eqb src dst = false) as -> by by apply loc_eqb_neq.
  destruct bfsLoop_fuel
    as (st & -> & [(lvl & k & HF)|(Hf & lvl & D & L & HH & Hq)]); simpl.
  - rewrite (fnd_found _ _ _ _ _ _ _ HF). simpl.
    pose proof (fnd_bound _ _ _ _ _ _ _ HF) as Hk.
    pose proof (fnd_lvl_dst _ _ _ _ _ _ _ HF) as Hld.
    destruct (collectPath_tree (Pred st) lvl (visited st)
                (fnd_tree _ _ _ _ _ _ _ HF) (fnd_lvl_src _ _ _ _ _ _ _ HF)
                (Z.to_nat (gridSize r - 1)) dst []
                (or_intror (fnd_dst _ _ _ _ _ _ _ HF)) ltac:(lia))
      as (l & Hrun & Hch & Hlen).
    rewrite Hrun. simpl.
    destruct (chainTo_path (Pred st) lvl (visited st)
                (fnd_tree _ _ _ _ _ _ _ HF) l dst
                (or_intror (fnd_dst _ _ _ _ _ _ _ HF)) Hch) as [Hc Hlast].
    exists true, (reversePath (l ++ [src])).
    unfold reversePath. rewrite rev_app_distr. simpl.
    split; [done|]. split; [|done]. intros _. split_and!.
    + done.
    + done.
    + intros Hact t Ht. simpl in Ht.
      apply (allWhitelisted_true _ _ dst l (fnd_white _ _ _ _ _ _ _ HF) Hch Hact).
      apply list_elem_of_In. apply in_rev. by apply list_elem_of_In.
    + intros n Hreach. pose proof (fnd_min _ _ _ _ _ _ _ HF n Hreach).
      simpl. rewrite length_rev. lia.
  - rewrite Hf. simpl. exists false, []. split; [done|]. split; [done|].
    intros _ Hact n Hreach.
    destruct (reach_all _ _ _ _ HH Hq n dst Hreach) as [?|Hv]; [done|].
    destruct HH as (_ & _ & Hw). by apply Hw in Hv.
Qed.

End SearchProofs.

(** X26.  What the path search of [XAie_Route] does guarantee.  On a
    well-formed instance, for a source tile of the grid and a destination
    other than the source, the search returns a result.  When it reports
    success, the path leads from the source to the destination along
    edges that pass the edge test of the search, no tile after the source
    is blacklisted, with a non-empty whitelist every tile after the source
    is whitelisted, and no path of such edges from the source to the
    destination has fewer tiles.  The search reports success whenever such
    a path exists and the whitelist cannot refuse the first discovery of
    the destination: the whitelist is empty, or every such path with the
    fewest tiles has all its tiles after the source whitelisted. *)
Theorem shortest_path_search_correct r RC src dst :
  wfInstance r = true →
  is_Some (tileAt (CoreConstraintPerCore r) src) →
  src ≠ dst →
  ∃ ok p,
    _XAie_findShortestPath r RC src dst (NumRows r * NumCols r) = Some (ok, p)
    ∧ (ok = true →
         pathFromTo src dst p
         ∧ chain (traversable r RC) p
         ∧ (∀ t, t ∈ afterSource p → _XAie_isTileBlackListed t RC = false)
         ∧ (whitelistActive RC = true → ∀ t, t ∈ afterSource p →
              _XAie_isTileWhitelisted t (whitelistOf RC) = true)
         ∧ (∀ q, pathFromTo src dst q → chain (traversable r RC) q →
              (length p ≤ length q)%nat))
    ∧ (whitelistLenient r RC src dst →
         (∃ q, pathFromTo src dst q ∧ chain (traversable r RC) q) →
         ok = true).
Proof.
  intros Hwf [c Hc] Hsd.
  pose proof (tileAt_allTiles r src c Hwf Hc) as Hsrc.
  destruct (findShortestPath_spec r RC src dst Hwf Hsrc Hsd)
    as (ok & p & Hrun & Hok & Hno).
  exists ok, p. split; [done|]. split.
  - intros Htrue. destruct (Hok Htrue) as (Hft & Hch & Hwl & Hmin).
    split_and!; try done.
    + eapply chain_mono; [|done]. intros a b. by apply traversable_edge.
    + eapply chain_targets; [|done]. intros a b. apply edge_not_blacklisted.
    + intros q Hq Hcq.
      destruct (path_reach r RC src dst q Hq) as (n & -> & Hreach).
      { eapply chain_mono; [|done]. intros a b. by apply traversable_edge. }
      by apply Hmin.
  - intros Hlen (q & Hq & Hcq). destruct ok; [done|].
    destruct (path_reach r RC src dst q Hq) as (n & _ & Hreach).
    { eapply chain_mono; [|done]. intros a b. by apply traversable_edge. }
    by destruct (Hno eq_refl Hlen n).
Qed.

Lemma shortest_path_search_correct_witness :
  whitelistActive only33 = true
  ∧ ∃ p,
      _XAie_findShortestPath ri56 only33 (mkLoc 2 3) (mkLoc 3 3)
        (NumRows ri56 * NumCols ri56) = Some (true, p)
      ∧ pathFromTo (mkLoc 2 3) (mkLoc 3 3) p
      ∧ chain (traversable ri56 only33) p
      ∧ (∀ t, t ∈ afterSource p → _XAie_isTileBlackListed t only33 = false)
      ∧ (∀ t, t ∈ afterSource p →
           _XAie_isTileWhitelisted t (whitelistOf only33) = true)
      ∧ (∀ q, pathFromTo (mkLoc 2 3) (mkLoc 3 3) q →
           chain (traversable ri56 only33) q → (length p ≤ length q)%nat).
Proof.
  split; [reflexivity|].
  assert (pathFromTo (mkLoc 2 3) (mkLoc 3 3) [mkLoc 2 3; mkLoc 3 3]
          ∧ chain (traversable ri56 only33) [mkLoc 2 3; mkLoc 3 3])
    as [Hp Hcp].
  { split; [split; reflexivity|]. cbn [chain]. split; [|exact I].
    exists (1, 0, EAST). split_and!; [|reflexivity|vm_compute; reflexivity].
    apply elem_of_directions. tauto. }
  destruct (shortest_path_search_correct ri56 only33 (mkLoc 2 3) (mkLoc 3 3))
    as (ok & p & Hrun & Hok & Hcomplete).
  - vm_compute. reflexivity.
  - vm_compute. eexists. reflexivity.
  - intros H. discriminate H.
  - assert (ok = true) as ->.
    { apply Hcomplete; [|by exists [mkLoc 2 3; mkLoc 3 3]].
      right. intros q [Hh Hl] _ Hmin t Ht.
      specialize (Hmin _ Hp Hcp).
      destruct q as [|a [|b [|c q]]]; simpl in Hh, Hl, Hmin, Ht.
      - discriminate Hh.
      - congruence.
      - injection Hl as ->. apply list_elem_of_singleton in Ht as ->.
        reflexivity.
      - lia. }
    exists p. destruct (Hok eq_refl) as (H1 & H2 & H3 & H4 & H5).
    split_and!; [exact Hrun|exact H1|exact H2|exact H3| |exact H5].
    apply H4. reflexivity.
Defined.

(** C4.  The path search does not find every path that respects the
    constraints.  On the initial 5x6 instance, with the whitelist
    [(2,3); (3,3); (3,4)], the path (2,3), (3,3), (3,4) passes the edge
    test, holds no blacklisted tile and is whitelisted, endpoints
    included; yet the search from (2,3) to (3,4) reports failure: the
    destination is discovered first from (2,4), that parent chain is
    rejected, and (3,4), already marked visited, is never discovered
    again.  Nor is the source checked against the lists: with the
    whitelist [(3,3)] the search from (2,3) to (3,3) succeeds with a path
    whose first tile is not whitelisted, and with the source (2,3)
    blacklisted the search to (3,4) succeeds with a path through it. *)
Theorem shortest_path_search_misses_constraints :
  let gate l := Some {| BlackListedCores := []; WhiteListedCores := l |} in
  let three := [mkLoc 2 3; mkLoc 3 3; mkLoc 3 4] in
  (_XAie_findShortestPath ri56 (gate [mkLoc 3 3]) (mkLoc 2 3) (mkLoc 3 3)
     (NumRows ri56 * NumCols ri56)
   = Some (true, [mkLoc 2 3; mkLoc 3 3])
   ∧ whitelistActive (gate [mkLoc 3 3]) = true
   ∧ _XAie_isTileWhitelisted (mkLoc 2 3) (whitelistOf (gate [mkLoc 3 3]))
     = false)
  ∧ (let black := Some {| BlackListedCores := [mkLoc 2 3];
                          WhiteListedCores := [] |} in
     _XAie_findShortestPath ri56 black (mkLoc 2 3) (mkLoc 3 4)
       (NumRows ri56 * NumCols ri56)
     = Some (true, [mkLoc 2 3; mkLoc 2 4; mkLoc 3 4])
     ∧ _XAie_isTileBlackListed (mkLoc 2 3) black = true)
  ∧ (pathFromTo (mkLoc 2 3) (mkLoc 3 4) three
     ∧ chain (traversable ri56 (gate three)) three
     ∧ (∀ t, t ∈ three →
          _XAie_isTileWhitelisted t (whitelistOf (gate three)) = true
          ∧ _XAie_isTileBlackListed t (gate three) = false)
     ∧ _XAie_findShortestPath ri56 (gate three) (mkLoc 2 3) (mkLoc 3 4)
         (NumRows ri56 * NumCols ri56)
       = Some (false, [])).
Proof.
  intros gate three. split_and!; try (vm_compute; reflexivity).
  - split; vm_compute; reflexivity.
  - split; reflexivity.
  - subst three. cbn [chain]. split.
    + exists (1, 0, EAST). split_and!; [|reflexivity|vm_compute; reflexivity].
      apply elem_of_directions. tauto.
    + split; [|done].
      exists (0, 1, NORTH). split_and!; [|reflexivity|vm_compute; reflexivity].
      apply elem_of_directions. tauto.
  - intros t Ht. unfold three in Ht.
    repeat (apply elem_of_cons in Ht as [->|Ht]; [by vm_compute|]).
    by apply elem_of_nil in Ht.
Qed.

(** * Further properties of the routing file *)

(** ** The circular buffer is a first-in first-out queue *)

Lemma upto_snoc n : 0 ≤ n → upto (n + 1) = upto n ++ [n].
Proof.
  intros Hn. unfold upto.
  replace (Z.to_nat (n + 1)) with (S (Z.to_nat n)) by lia.
  rewrite seq_S, fmap_app. simpl. f_equal. f_equal. lia.
Qed.

Lemma upto_cons n : 0 < n → upto n = 0 :: ((fun i => i + 1) <$> upto (n - 1)).
Proof.
  intros Hn. unfold upto.
  replace (Z.to_nat n) with (S (Z.to_nat (n - 1))) by lia.
  simpl. f_equal. rewrite <- seq_shift, <- !list_fmap_compose.
  apply list_fmap_ext. intros i x _. simpl. lia.
Qed.

Lemma length_upto' n : length (upto n) = Z.to_nat n.
Proof. apply length_upto. Qed.

Lemma mod_apart a b c :
  0 < c → 0 ≤ a < b → b - a < c → a mod c ≠ b mod c.
Proof.
  intros Hc Hab Hlt Heq.
  pose proof (Z.div_mod a c ltac:(lia)). pose proof (Z.div_mod b c ltac:(lia)).
  assert (b - a = c * (b / c - a / c)) as Hk by lia.
  destruct (Z_le_gt_dec (b / c - a / c) 0); nia.
Qed.

Lemma queueItems_length q :
  0 ≤ QueueArray.size q → Z.of_nat (length (queueItems q)) = QueueArray.size q.
Proof.
  intros Hs. unfold queueItems. rewrite length_fmap, length_upto. lia.
Qed.

Lemma queue_create cap raw :
  0 < cap < 2 ^ 31 → length raw = Z.to_nat cap →
  queueWf (QueueArray.createQueue cap raw)
  ∧ queueOf (QueueArray.createQueue cap raw) = createQueue cap.
Proof.
  intros Hc Hlen. split; [|done].
  unfold queueWf. simpl. split_and!; try lia.
  apply (Z.mod_unique _ _ (-1)); lia.
Qed.

Lemma queue_enqueue q x :
  queueWf q →
  ∃ q', QueueArray._XAie_enqueue q x = Some q' ∧ queueWf q'
        ∧ queueOf q' = _XAie_enqueue (queueOf q) x.
Proof.
  intros (Hc & Hlen & Hf & Hs & Hr).
  unfold QueueArray._XAie_enqueue, QueueArray.isFull, _XAie_enqueue, isFull.
  cbn [queueOf items capacity]. rewrite queueItems_length by lia.
  destruct (QueueArray.size q =? QueueArray.capacity q) eqn:E;
    [by exists q|].
  apply Z.eqb_neq in E.
  assert ((QueueArray.capacity q =? 0) = false) as -> by (apply Z.eqb_neq; lia).
  assert ((QueueArray.rear q + 1) mod QueueArray.capacity q
          = (QueueArray.front q + QueueArray.size q) mod QueueArray.capacity q)
    as Hrear.
  { rewrite Hr, Z.add_mod_idemp_l by lia. f_equal. lia. }
  rewrite Hrear.
  pose proof (Z.mod_pos_bound (QueueArray.front q + QueueArray.size q)
                (QueueArray.capacity q) ltac:(lia)) as Hb.
  assert ((0 <=? (QueueArray.front q + QueueArray.size q)
                 mod QueueArray.capacity q)
          && ((QueueArray.front q + QueueArray.size q)
                mod QueueArray.capacity q
              <? Z.of_nat (length (QueueArray.array q))) = true) as ->.
  { apply andb_true_iff. split; [apply Z.leb_le|apply Z.ltb_lt]; lia. }
  eexists. split; [reflexivity|]. split.
  - unfold queueWf. cbn. rewrite length_insert. split_and!; try lia.
    f_equal. lia.
  - unfold queueOf, queueItems. cbn. f_equal.
    rewrite upto_snoc, fmap_app by lia. f_equal.
    + apply list_fmap_ext. intros i k Hk.
      apply list_elem_of_lookup_2, elem_of_upto in Hk.
      rewrite list_lookup_insert_ne; [done|].
      pose proof (Z.mod_pos_bound (QueueArray.front q + k)
                    (QueueArray.capacity q) ltac:(lia)).
      pose proof (mod_apart (QueueArray.front q + k)
                    (QueueArray.front q + QueueArray.size q)
                    (QueueArray.capacity q) ltac:(lia) ltac:(lia) ltac:(lia)).
      lia.
    + simpl. rewrite list_lookup_insert_eq by lia. done.
Qed.

Lemma queue_dequeue q :
  queueWf q →
  ∃ y q', QueueArray._XAie_dequeue q = Some (y, q') ∧ queueWf q'
          ∧ _XAie_dequeue (queueOf q) = (y, queueOf q').
Proof.
  intros (Hc & Hlen & Hf & Hs & Hr).
  unfold QueueArray._XAie_dequeue, QueueArray.isEmpty, _XAie_dequeue.
  cbn [queueOf items capacity].
  destruct (QueueArray.size q =? 0) eqn:E.
  - apply Z.eqb_eq in E. exists (XAie_TileLoc (-1) (-1)), q.
    split; [done|]. split; [done|].
    unfold queueItems. rewrite E. done.
  - apply Z.eqb_neq in E.
    assert ((QueueArray.front q <? 0) = false) as -> by (apply Z.ltb_ge; lia).
    assert ((QueueArray.capacity q =? 0) = false) as -> by (apply Z.eqb_neq; lia).
    destruct (lookup_lt_is_Some_2 (QueueArray.array q)
                (Z.to_nat (QueueArray.front q)) ltac:(lia)) as [item Hitem].
    rewrite Hitem. cbn.
    eexists _, _. split; [reflexivity|]. split.
    + unfold queueWf. cbn.
      pose proof (Z.mod_pos_bound (QueueArray.front q + 1)
                    (QueueArray.capacity q) ltac:(lia)).
      split_and!; try lia.
      rewrite Hr.
      replace ((QueueArray.front q + 1) mod QueueArray.capacity q
               + (QueueArray.size q - 1) - 1)
        with ((QueueArray.front q + 1) mod QueueArray.capacity q
              + (QueueArray.size q - 2)) by lia.
      rewrite Z.add_mod_idemp_l by lia. f_equal. lia.
    + unfold queueItems at 1. rewrite upto_cons by lia. cbn [fmap list_fmap].
      rewrite Z.add_0_r, Z.mod_small, Hitem by lia. cbn.
      f_equal. unfold queueOf, queueItems. cbn. f_equal.
      rewrite <- list_fmap_compose. apply list_fmap_ext. intros i k _. cbn.
      rewrite Z.add_mod_idemp_l by lia.
      by replace (QueueArray.front q + (k + 1))
        with (QueueArray.front q + 1 + k) by lia.
Qed.

(** X1.  The circular buffer of the source behaves as the first-in
    first-out list the path finder is modelled on: a queue made by
    [createQueue] is empty, [_XAie_enqueue] appends the item unless
    [capacity] items are queued, in which case it does nothing,
    [_XAie_dequeue] returns the oldest item and removes it, or the invalid
    tile when nothing is queued, and neither indexes outside the array. *)
Theorem queue_array_is_fifo cap raw q x :
  0 < cap < 2 ^ 31 → length raw = Z.to_nat cap → queueWf q →
  (queueWf (QueueArray.createQueue cap raw)
   ∧ queueOf (QueueArray.createQueue cap raw) = createQueue cap)
  ∧ (∃ q', QueueArray._XAie_enqueue q x = Some q' ∧ queueWf q'
           ∧ queueOf q' = _XAie_enqueue (queueOf q) x)
  ∧ (∃ y q', QueueArray._XAie_dequeue q = Some (y, q') ∧ queueWf q'
             ∧ _XAie_dequeue (queueOf q) = (y, queueOf q')).
Proof.
  intros Hc Hlen Hq. split_and!.
  - by apply queue_create.
  - by apply queue_create.
  - by apply queue_enqueue.
  - by apply queue_dequeue.
Qed.

Lemma queue_array_is_fifo_witness :
  (queueWf (QueueArray.createQueue 2 [mkLoc 0 0; mkLoc 0 0])
   ∧ queueOf (QueueArray.createQueue 2 [mkLoc 0 0; mkLoc 0 0]) = createQueue 2)
  ∧ (∃ q', QueueArray._XAie_enqueue
             (QueueArray.createQueue 2 [mkLoc 0 0; mkLoc 0 0]) (mkLoc 2 3)
           = Some q' ∧ queueWf q'
           ∧ queueOf q'
             = _XAie_enqueue
                 (queueOf (QueueArray.createQueue 2 [mkLoc 0 0; mkLoc 0 0]))
                 (mkLoc 2 3))
  ∧ (∃ y q', QueueArray._XAie_dequeue
               (QueueArray.createQueue 2 [mkLoc 0 0; mkLoc 0 0])
             = Some (y, q') ∧ queueWf q'
             ∧ _XAie_dequeue
                 (queueOf (QueueArray.createQueue 2 [mkLoc 0 0; mkLoc 0 0]))
               = (y, queueOf q')).
Proof.
  apply (queue_array_is_fifo 2 [mkLoc 0 0; mkLoc 0 0]).
  - lia.
  - reflexivity.
  - unfold queueWf. simpl. split_and!; try lia. reflexivity.
Defined.

(** ** [reversePath] reverses *)

Lemma swapEnds_app idx1 idx2 n l :
  swapEnds (idx1 ++ idx2) n l = swapEnds idx1 n l ≫= swapEnds idx2 n.
Proof.
  revert l. induction idx1 as [|i idx1 IH]; intros l; [done|].
  simpl. destruct (l !! Z.to_nat i) as [temp|]; [|done]. simpl.
  destruct (l !! Z.to_nat (n - 1 - i)) as [other|]; [|done]. simpl.
  apply IH.
Qed.

Lemma swapEnds_prefix (l : list XAie_LocType) (n : nat) :
  (n ≤ length l)%nat → ∀ k : nat, (2 * k ≤ n)%nat →
  ∃ l', swapEnds (upto (Z.of_nat k)) (Z.of_nat n) l = Some l'
        ∧ length l' = length l
        ∧ ∀ j, l' !! j = if decide ((j < k)%nat ∨ (n - k ≤ j < n)%nat)
                         then l !! (n - 1 - j)%nat else l !! j.
Proof.
  intros Hn k. induction k as [|k IH]; intros Hk.
  - exists l. split_and!; try done. intros j.
    rewrite decide_False by lia. done.
  - destruct (IH ltac:(lia)) as (l' & Hrun & Hlen & Hl').
    replace (Z.of_nat (S k)) with (Z.of_nat k + 1) by lia.
    rewrite upto_snoc, swapEnds_app, Hrun by lia. simpl.
    pose proof (Hl' k) as Hk1. rewrite decide_False in Hk1 by lia.
    pose proof (Hl' (n - 1 - k)%nat) as Hk2.
    rewrite decide_False in Hk2 by lia.
    destruct (lookup_lt_is_Some_2 l k ltac:(lia)) as [temp Htemp].
    destruct (lookup_lt_is_Some_2 l (n - 1 - k)%nat ltac:(lia))
      as [other Hother].
    rewrite Nat2Z.id.
    replace (Z.to_nat (Z.of_nat n - 1 - Z.of_nat k)) with (n - 1 - k)%nat
      by lia.
    rewrite Hk1, Htemp, Hk2, Hother. simpl.
    eexists. split; [reflexivity|]. split.
    + by rewrite !length_insert.
    + intros j. rewrite !list_lookup_insert, !length_insert, Hl'.
      repeat case_decide; try lia; try done.
      * replace (n - 1 - j)%nat with k by lia. done.
      * by replace (n - 1 - j)%nat with (n - 1 - k)%nat by lia.
Qed.

(** X2.  The swap loop of [reversePath] reverses the first [pathLength]
    entries of the array and leaves the rest as it is, without reading or
    writing outside these entries: the list reversal the path finder is
    modelled with. *)
Theorem reversePath_in_place (path : list XAie_LocType) (pathLength : Z) :
  0 ≤ pathLength ≤ Z.of_nat (length path) →
  reversePathInPlace path pathLength
  = Some (reversePath (take (Z.to_nat pathLength) path)
          ++ drop (Z.to_nat pathLength) path).
Proof.
  intros Hn. unfold reversePathInPlace, reversePath.
  rewrite Z.quot_div_nonneg by lia.
  pose proof (Z.div_mod pathLength 2 ltac:(lia)) as Hdiv.
  pose proof (Z.mod_pos_bound pathLength 2 ltac:(lia)) as Hmod.
  set (n := Z.to_nat pathLength). set (k := Z.to_nat (pathLength / 2)).
  destruct (swapEnds_prefix path n ltac:(lia) k ltac:(lia))
    as (l' & Hrun & Hlen & Hl').
  replace (pathLength / 2) with (Z.of_nat k) by lia.
  replace pathLength with (Z.of_nat n) at 1 by lia.
  rewrite Hrun. f_equal. apply list_eq. intros j. rewrite Hl'.
  rewrite rev_alt. change (rev_append (take n path) []) with (reverse (take n path)).
  assert (length (reverse (take n path)) = n) as Hlr
    by (rewrite length_reverse, length_take; lia).
  destruct (decide (j < n)%nat) as [Hj|Hj].
  - rewrite lookup_app_l by lia.
    rewrite reverse_lookup by (rewrite length_take; lia).
    rewrite length_take, lookup_take_lt by lia.
    replace (n `min` length path - S j)%nat with (n - 1 - j)%nat by lia.
    case_decide; [done|]. f_equal. lia.
  - rewrite lookup_app_r by lia. rewrite lookup_drop, Hlr.
    rewrite decide_False by lia. f_equal. lia.
Qed.

Lemma reversePath_in_place_witness :
  reversePathInPlace [mkLoc 3 4; mkLoc 2 4; mkLoc 2 3; mkLoc 0 0] 3
  = Some (reversePath (take (Z.to_nat 3)
                         [mkLoc 3 4; mkLoc 2 4; mkLoc 2 3; mkLoc 0 0])
          ++ drop (Z.to_nat 3) [mkLoc 3 4; mkLoc 2 4; mkLoc 2 3; mkLoc 0 0]).
Proof.
  apply reversePath_in_place. simpl. lia.
Defined.

(** ** Bits of the availability bitmaps *)

Lemma land_pow2_eqb a i :
  0 ≤ i → (Z.land a (2 ^ i) =? 0) = negb (Z.testbit a i).
Proof.
  intros Hi. destruct (Z.testbit a i) eqn:E; simpl.
  - apply Z.eqb_neq. intros H.
    assert (Z.testbit (Z.land a (2 ^ i)) i = true) as Hb
      by (rewrite Z.land_spec, E, Z.pow2_bits_eqb, Z.eqb_refl by lia; done).
    rewrite H, Z.bits_0 in Hb. done.
  - apply Z.eqb_eq. apply Z.bits_inj'. intros n Hn.
    rewrite Z.land_spec, Z.bits_0, Z.pow2_bits_eqb by lia.
    destruct (Z.eqb_spec i n) as [->|]; [by rewrite E|apply andb_false_r].
Qed.

Lemma bitSet_testbit a i : 0 ≤ i → bitSet a i = Z.testbit a i.
Proof.
  intros Hi. unfold bitSet.
  rewrite Z.shiftl_1_l, land_pow2_eqb by lia. apply negb_involutive.
Qed.

Lemma u8_testbit z j : Z.testbit (u8 z) j = (j <? 8) && Z.testbit z j.
Proof. unfold u8. change 256 with (2 ^ 8). apply Z.testbit_mod_pow2. lia. Qed.

Lemma u8_lt_testbit f j : 0 ≤ f < 256 → Z.testbit f j = true → 0 ≤ j < 8.
Proof.
  intros Hf Hb.
  destruct (Z.lt_ge_cases j 0) as [Hneg|Hpos];
    [by rewrite Z.testbit_neg_r in Hb|].
  split; [done|].
  assert (u8 f = f) as Hu by (unfold u8; apply Z.mod_small; lia).
  rewrite <- Hu, u8_testbit in Hb.
  apply andb_true_iff in Hb as [Hlt _]. by apply Z.ltb_lt in Hlt.
Qed.

Lemma u8_clear_bit_testbit f k v j :
  u8_clear_bit f k = Some v → 0 ≤ j →
  Z.testbit v j = (j <? 8) && Z.testbit f j && negb (k =? j).
Proof.
  unfold u8_clear_bit. intros H Hj.
  destruct (shl1 k) as [m|] eqn:Em; [|done]. simpl in H. injection H as <-.
  apply shl1_Some in Em as [Hk ->].
  rewrite u8_testbit, Z.land_spec, Z.lnot_spec, Z.pow2_bits_eqb by lia.
  by rewrite andb_assoc.
Qed.

Lemma u8_set_bit_testbit f k v j :
  u8_set_bit f k = Some v → 0 ≤ j →
  Z.testbit v j = (j <? 8) && (Z.testbit f j || (k =? j)).
Proof.
  unfold u8_set_bit. intros H Hj.
  destruct (shl1 k) as [m|] eqn:Em; [|done]. simpl in H. injection H as <-.
  apply shl1_Some in Em as [Hk ->].
  by rewrite u8_testbit, Z.lor_spec, Z.pow2_bits_eqb by lia.
Qed.

Lemma shl1_run k : 0 ≤ k < 31 → shl1 k = Some (2 ^ k).
Proof.
  intros Hk. unfold shl1.
  replace ((0 <=? k) && (k <? 31)) with true
    by (symmetry; apply andb_true_iff; split; [apply Z.leb_le|apply Z.ltb_lt]; lia).
  by rewrite Z.shiftl_1_l.
Qed.

(** Setting a bit that has just been cleared gives the field back. *)
Lemma u8_set_after_clear f k :
  0 ≤ f < 256 → Z.testbit f k = true →
  ∃ v, u8_clear_bit f k = Some v ∧ u8_set_bit v k = Some f.
Proof.
  intros Hf Hb. pose proof (u8_lt_testbit f k Hf Hb) as Hk.
  unfold u8_clear_bit, u8_set_bit. rewrite shl1_run by lia. simpl.
  eexists. split; [reflexivity|]. f_equal.
  apply Z.bits_inj'. intros j Hj.
  rewrite u8_testbit, Z.lor_spec, u8_testbit, Z.land_spec, Z.lnot_spec,
    Z.pow2_bits_eqb by lia.
  destruct (Z.eqb_spec k j) as [->|Hne].
  - rewrite Hb. simpl. rewrite orb_true_r, andb_true_r.
    apply Z.ltb_lt. lia.
  - simpl. rewrite orb_false_r, andb_true_r.
    destruct (Z.testbit f j) eqn:E; [|by rewrite !andb_false_r].
    pose proof (u8_lt_testbit f j Hf E).
    replace (j <? 8) with true by (symmetry; apply Z.ltb_lt; lia). done.
Qed.

(** The search loop over the bits 0 to 7 of a bitmap returns the lowest
    set bit, or -1 when none of them is set. *)
Lemma firstBit_seq a : ∀ n k s,
  firstBit (Z.of_nat <$> seq k n) a = s →
  (s = -1 ∧ ∀ i, Z.of_nat k ≤ i < Z.of_nat (k + n) → Z.testbit a i = false)
  ∨ (Z.of_nat k ≤ s < Z.of_nat (k + n) ∧ Z.testbit a s = true
     ∧ ∀ i, Z.of_nat k ≤ i < s → Z.testbit a i = false).
Proof.
  induction n as [|n IH]; intros k s Hs; simpl in Hs.
  - left. split; [done|]. intros i Hi. lia.
  - rewrite bitSet_testbit in Hs by lia.
    destruct (Z.testbit a (Z.of_nat k)) eqn:E.
    + right. subst s. split_and!; [lia..|done|]. intros i Hi. lia.
    + destruct (IH (S k) s Hs) as [[-> Hall]|(Hr & Hb & Hall)].
      * left. split; [done|]. intros i Hi.
        destruct (decide (i = Z.of_nat k)) as [->|]; [done|].
        apply Hall. lia.
      * right. split_and!; [lia..|done|]. intros i Hi.
        destruct (decide (i = Z.of_nat k)) as [->|]; [done|].
        apply Hall. lia.
Qed.

Lemma firstBit_upto8 a s :
  firstBit (upto 8) a = s →
  (s = -1 ∧ ∀ i, 0 ≤ i < 8 → Z.testbit a i = false)
  ∨ (0 ≤ s < 8 ∧ Z.testbit a s = true
     ∧ ∀ i, 0 ≤ i < s → Z.testbit a i = false).
Proof. intros H. by apply (firstBit_seq a 8 0) in H. Qed.

(** The search depends on the bits 0 to 7 only. *)
Lemma firstBit_after a b s :
  (∀ i, 0 ≤ i < 8 → Z.testbit b i = true → Z.testbit a i = true ∧ i ≠ s) →
  firstBit (upto 8) a = s → s ≠ -1 →
  firstBit (upto 8) b = -1 ∨ s < firstBit (upto 8) b.
Proof.
  intros Hsub Ha Hs.
  destruct (firstBit_upto8 a s Ha) as [[? _]|(Hr & Hb & Hlow)]; [done|].
  destruct (firstBit_upto8 b _ eq_refl) as [[? _]|(Hr' & Hb' & _)]; [by left|].
  right. destruct (Hsub _ Hr' Hb') as [Hab Hne].
  destruct (Z.lt_ge_cases (firstBit (upto 8) b) s) as [Hlt|Hge]; [|lia].
  rewrite Hlow in Hab by lia. done.
Qed.

(** ** Reserving and releasing stream ports *)

Lemma list_alter_fix {A} (f : A → A) (l : list A) i :
  (∀ x, l !! i = Some x → f x = x) → alter f i l = l.
Proof.
  intros Hf. apply list_eq. intros j.
  destruct (decide (i = j)) as [->|Hne].
  - rewrite list_lookup_alter_eq. destruct (l !! j) eqn:E; simpl; [|done].
    f_equal. by apply Hf.
  - by rewrite list_lookup_alter_ne.
Qed.

Lemma alterTile_fix f t tbl c :
  tileAt tbl t = Some c → f c = c → alterTile f t tbl = tbl.
Proof.
  unfold tileAt, alterTile. intros Ht Hf.
  destruct ((0 <=? Col t) && (0 <=? Row t)); [|done].
  apply list_alter_fix. intros column Hcol. rewrite Hcol in Ht. simpl in Ht.
  apply list_alter_fix. intros c' Hc'. congruence.
Qed.

Lemma alterTile_alterTile f g t tbl :
  alterTile f t (alterTile g t tbl) = alterTile (f ∘ g) t tbl.
Proof.
  unfold alterTile. rewrite list_alter_alter_eq.
  apply list_alter_ext; [|done]. intros column _. simpl.
  by rewrite list_alter_alter_eq.
Qed.

Lemma setTable_same m : setTable m (CoreConstraintPerCore (ri m)) = m.
Proof. by destruct m as [[] ?]. Qed.

Lemma setTable_setTable m t1 t2 : setTable (setTable m t1) t2 = setTable m t2.
Proof. done. Qed.

Lemma updStrmConn_inv op t ps s pd d u m m' :
  updStrmConn op t ps s pd d m = Some (u, m') →
  ∃ c c1 c2, tileOf m t = Some c ∧ updSlave op ps s c = Some c1
             ∧ updMaster op pd d c1 = Some c2
             ∧ m' = setTable m (alterTile (fun _ => c2) t
                                  (CoreConstraintPerCore (ri m))).
Proof.
  unfold updStrmConn. intros H.
  apply bind_inv in H as (c & m0 & Hc & H).
  apply constraintOf_inv in Hc as [Hc ->].
  apply bind_inv in H as (c1 & m0 & H1 & H).
  apply lift_opt_inv in H1 as [H1 ->].
  apply bind_inv in H as (c2 & m0 & H2 & H).
  apply lift_opt_inv in H2 as [H2 ->].
  apply modifyConstraint_inv in H as (c0 & _ & ->). eauto 10.
Qed.

Lemma updStrmConn_run op t ps s pd d m c c1 c2 :
  tileOf m t = Some c → updSlave op ps s c = Some c1 →
  updMaster op pd d c1 = Some c2 →
  updStrmConn op t ps s pd d m
  = Some (tt, setTable m (alterTile (fun _ => c2) t
                            (CoreConstraintPerCore (ri m)))).
Proof.
  intros Hc H1 H2. unfold updStrmConn.
  rewrite (bind_intro _ _ _ _ _ (constraintOf_intro _ _ _ Hc)).
  unfold bind at 1, lift_opt. rewrite H1.
  unfold bind at 1. rewrite H2.
  by apply (modifyConstraint_intro _ _ _ c).
Qed.

Lemma findFirstMatchingStream_start r t d c :
  tileAt (CoreConstraintPerCore r) t = Some c →
  tile_type c ≠ XAIE_AIE_SHIM →
  _XAie_findFirstMatchingStream r t d false
  = Some (match getSlave d c with
          | Some f => firstBit (upto 8) f
          | None => -1
          end).
Proof.
  intros Hc Hns. unfold _XAie_findFirstMatchingStream, _XAie_isShimTile.
  rewrite Hc. simpl. rewrite bool_decide_eq_false_2 by done. simpl.
  by destruct d.
Qed.

Lemma updMaster_keeps_slave op pd x c c' d :
  updMaster op pd x c = Some c' →
  getSlave d c' = getSlave d c ∧ tile_type c' = tile_type c.
Proof.
  unfold updMaster. intros H.
  destruct (getMaster pd c) as [g|]; [|by injection H as <-].
  destruct (op g x) as [v|]; [|done]. simpl in H. injection H as <-.
  by destruct pd, d.
Qed.

Lemma updSlave_field op d s c c' f :
  updSlave op d s c = Some c' → getSlave d c = Some f →
  ∃ v, op f s = Some v ∧ getSlave d c' = Some v
       ∧ tile_type c' = tile_type c.
Proof.
  unfold updSlave. intros H Hf. rewrite Hf in H.
  destruct (op f s) as [v|]; [|done]. simpl in H. injection H as <-.
  exists v. split; [done|]. by destruct d.
Qed.

(** X3.  A stream port that has been marked used is not chosen again: on
    a tile that is not a shim tile, after
    [_XAie_updatePortAvailabilityForStrmConn] has recorded the slave port
    [s] that [_XAie_findFirstMatchingStream] returned for a direction, the
    next search in that direction returns a higher port or -1. *)
Theorem reserved_stream_is_not_chosen_again m t c d s pd ds m' :
  tileOf m t = Some c → tile_type c ≠ XAIE_AIE_SHIM →
  _XAie_findFirstMatchingStream (ri m) t d false = Some s → s ≠ -1 →
  _XAie_updatePortAvailabilityForStrmConn t d s pd ds m = Some (tt, m') →
  ∃ s', _XAie_findFirstMatchingStream (ri m') t d false = Some s'
        ∧ (s' = -1 ∨ s < s').
Proof.
  intros Hc Hns Hfind Hs Hupd.
  rewrite (findFirstMatchingStream_start _ _ _ _ Hc Hns) in Hfind.
  injection Hfind as Hfind.
  destruct (getSlave d c) as [f|] eqn:Ef; [|done].
  apply updStrmConn_inv in Hupd as (c0 & c1 & c2 & Hc0 & H1 & H2 & ->).
  assert (c0 = c) as -> by congruence.
  destruct (updSlave_field _ _ _ _ _ _ H1 Ef) as (v & Hv & Hg1 & Ht1).
  destruct (updMaster_keeps_slave _ _ _ _ _ d H2) as [Hg2 Ht2].
  assert (tileOf (setTable m (alterTile (fun _ => c2) t
                                (CoreConstraintPerCore (ri m)))) t = Some c2)
    as Hc2.
  { rewrite (tileOf_setTable_alter _ _ _ _ _ Hc). by rewrite decide_True. }
  rewrite (findFirstMatchingStream_start _ _ _ _ Hc2) by congruence.
  rewrite Hg2, Hg1. eexists. split; [reflexivity|].
  apply (firstBit_after f v s); try done.
  intros i Hi Hb. rewrite (u8_clear_bit_testbit _ _ _ _ Hv) in Hb by lia.
  apply andb_true_iff in Hb as [Hb Hne]. apply andb_true_iff in Hb as [_ Hb].
  split; [done|]. apply negb_true_iff, Z.eqb_neq in Hne. done.
Qed.

Lemma reserved_stream_is_not_chosen_again_witness :
  ∃ s', _XAie_findFirstMatchingStream
          (ri (default m56 (machineOf
                 (_XAie_updatePortAvailabilityForStrmConn (mkLoc 2 3) DMA 0
                    EAST 0 m56)))) (mkLoc 2 3) DMA false = Some s'
        ∧ (s' = -1 ∨ 0 < s').
Proof.
  eapply (reserved_stream_is_not_chosen_again m56 (mkLoc 2 3) _ DMA 0 EAST 0).
  - vm_compute. reflexivity.
  - vm_compute. discriminate.
  - vm_compute. reflexivity.
  - lia.
  - vm_compute. reflexivity.
Defined.

Lemma port_round_trip_fields ps pd c f g s d :
  getSlave ps c = Some f → getMaster pd c = Some g →
  0 ≤ f < 256 → 0 ≤ g < 256 →
  Z.testbit f s = true → Z.testbit g d = true →
  ∃ c1 c2 c3,
    updSlave u8_clear_bit ps s c = Some c1
    ∧ updMaster u8_clear_bit pd d c1 = Some c2
    ∧ updSlave u8_set_bit ps s c2 = Some c3
    ∧ updMaster u8_set_bit pd d c3 = Some c.
Proof.
  intros Hf Hg Hfr Hgr Hfs Hgd.
  destruct (u8_set_after_clear f s Hfr Hfs) as (v & Hv1 & Hv2).
  destruct (u8_set_after_clear g d Hgr Hgd) as (w & Hw1 & Hw2).
  unfold updSlave, updMaster.
  destruct c; destruct ps; try discriminate; destruct pd; try discriminate;
    simpl in *; injection Hf as ->; injection Hg as ->;
    (eexists _, _, _; split_and!;
     [ rewrite Hv1; reflexivity
     | simpl; rewrite Hw1; reflexivity
     | simpl; rewrite Hv2; reflexivity
     | simpl; rewrite Hw2; reflexivity ]).
Qed.

(** X4.  Releasing undoes reserving: when the slave port [s] and the
    master port [d] of a tile are both available,
    [_XAie_updatePortAvailabilityForStrmConn] followed by
    [_XAie_updatePortAvailabilityForStrmConnInverse] with the same
    arguments leaves the routing instance exactly as it was. *)
Theorem reserve_then_release_restores m t c ps pd f g s d :
  tileOf m t = Some c →
  getSlave ps c = Some f → getMaster pd c = Some g →
  0 ≤ f < 256 → 0 ≤ g < 256 →
  Z.testbit f s = true → Z.testbit g d = true →
  (_XAie_updatePortAvailabilityForStrmConn t ps s pd d ;;;
   _XAie_updatePortAvailabilityForStrmConnInverse t ps s pd d) m
  = Some (tt, m).
Proof.
  intros Hc Hf Hg Hfr Hgr Hfs Hgd.
  destruct (port_round_trip_fields ps pd c f g s d Hf Hg Hfr Hgr Hfs Hgd)
    as (c1 & c2 & c3 & H1 & H2 & H3 & H4).
  unfold _XAie_updatePortAvailabilityForStrmConn,
    _XAie_updatePortAvailabilityForStrmConnInverse.
  rewrite (bind_intro _ _ _ _ _ (updStrmConn_run _ _ _ _ _ _ _ _ _ _ Hc H1 H2)).
  assert (tileOf (setTable m (alterTile (fun _ => c2) t
                                (CoreConstraintPerCore (ri m)))) t = Some c2)
    as Hc2.
  { rewrite (tileOf_setTable_alter _ _ _ _ _ Hc). by rewrite decide_True. }
  rewrite (updStrmConn_run _ _ _ _ _ _ _ _ _ _ Hc2 H3 H4).
  f_equal. f_equal. rewrite setTable_setTable. simpl.
  rewrite alterTile_alterTile, (alterTile_fix _ _ _ c); try done.
  apply setTable_same.
Qed.

Lemma reserve_then_release_restores_witness :
  (_XAie_updatePortAvailabilityForStrmConn (mkLoc 2 3) DMA 0 EAST 0 ;;;
   _XAie_updatePortAvailabilityForStrmConnInverse (mkLoc 2 3) DMA 0 EAST 0) m56
  = Some (tt, m56).
Proof.
  eapply (reserve_then_release_restores m56 (mkLoc 2 3) _ DMA EAST 0x3 0xF).
  - vm_compute. reflexivity.
  - vm_compute. reflexivity.
  - vm_compute. reflexivity.
  - lia.
  - lia.
  - reflexivity.
  - reflexivity.
Defined.

(** ** Allocating and releasing buffer descriptors *)

Lemma u64_testbit z j : Z.testbit (u64 z) j = (j <? 64) && Z.testbit z j.
Proof. unfold u64. apply Z.testbit_mod_pow2. lia. Qed.

Lemma resetBDAvailability_run t id m c :
  tileOf m t = Some c → 0 ≤ id < 16 →
  _XAie_resetBDAvailability t id m
  = Some (tt, setTable m
                (alterTile (set_BDState (u64 (Z.lor (BDState c) (2 ^ id)))) t
                   (CoreConstraintPerCore (ri m)))).
Proof.
  intros Hc Hid. unfold _XAie_resetBDAvailability.
  assert (u8 id = id) as -> by (unfold u8; apply Z.mod_small; lia).
  rewrite (bind_intro _ _ _ _ _ (constraintOf_intro _ _ _ Hc)).
  replace (id <? 16) with true by (symmetry; apply Z.ltb_lt; lia).
  unfold bind at 1, lift_opt. rewrite shl1_run by lia.
  by apply (modifyConstraint_intro _ _ _ c).
Qed.

Lemma bd_allocate_round_trip m t c id m1 :
  tileOf m t = Some c → 0 ≤ BDState c < 2 ^ 64 →
  _XAie_findAvailableBufferID t m = Some (id, m1) → 0 ≤ id < 16 →
  _XAie_resetBDAvailability t id m1 = Some (tt, m).
Proof.
  intros Hc Hbd Hfind Hid.
  apply findAvailableBufferID_inv in Hfind as (c0 & bd & Hc0 & Hf & ->).
  assert (c0 = c) as -> by congruence.
  pose proof (findBufferID_bits _ _ _ Hf) as (_ & Hset & _).
  apply findBufferID_upto48 in Hf as (_ & _ & ->).
  assert (tileOf (setTable m (alterTile
            (set_BDState (Z.land (BDState c) (u64 (Z.lnot (2 ^ id))))) t
            (CoreConstraintPerCore (ri m)))) t
          = Some (set_BDState (Z.land (BDState c) (u64 (Z.lnot (2 ^ id)))) c))
    as Hc1.
  { rewrite (tileOf_setTable_alter _ _ _ _ _ Hc). by rewrite decide_True. }
  rewrite (resetBDAvailability_run _ _ _ _ Hc1) by done.
  f_equal. f_equal. rewrite setTable_setTable. simpl.
  rewrite alterTile_alterTile, (alterTile_fix _ _ _ c); try done;
    [apply setTable_same|].
  simpl.
  assert (u64 (Z.lor (Z.land (BDState c) (u64 (Z.lnot (2 ^ id)))) (2 ^ id))
          = BDState c) as ->.
  { apply Z.bits_inj'. intros j Hj.
    rewrite u64_testbit, Z.lor_spec, Z.land_spec, u64_lnot_pow2_testbit,
      Z.pow2_bits_eqb by lia.
    destruct (Z.eqb_spec id j) as [->|Hne].
    - rewrite Hset. rewrite Z.eqb_refl. simpl.
      rewrite orb_true_r, andb_true_r. apply Z.ltb_lt. lia.
    - replace (j =? id) with false by (symmetry; apply Z.eqb_neq; lia).
      simpl. rewrite orb_false_r, andb_true_r.
      destruct (Z.testbit (BDState c) j) eqn:E; [|by rewrite !andb_false_r].
      destruct (Z.ltb_spec j 64) as [|Hge]; [done|].
      exfalso.
      assert (u64 (BDState c) = BDState c) as Hu
        by (unfold u64; apply Z.mod_small; lia).
      rewrite <- Hu, u64_testbit in E.
      apply andb_true_iff in E as [E _]. apply Z.ltb_lt in E. lia. }
  by destruct c.
Qed.

(** X5.  A buffer descriptor with an id below 16 that
    [_XAie_findAvailableBufferID] has handed out is given back by
    [_XAie_resetBDAvailability]: the two calls in a row leave the routing
    instance exactly as it was. *)
Theorem bd_allocate_then_release_restores m t c id m1 :
  tileOf m t = Some c → 0 ≤ BDState c < 2 ^ 64 →
  _XAie_findAvailableBufferID t m = Some (id, m1) → 0 ≤ id < 16 →
  _XAie_resetBDAvailability t id m1 = Some (tt, m).
Proof.
  intros Hc Hbd Hfind Hid. by apply (bd_allocate_round_trip m t c).
Qed.

Lemma bd_allocate_then_release_restores_witness :
  _XAie_resetBDAvailability (mkLoc 2 3) 0
    (setTable m56 (alterTile (set_BDState 0xFFFE) (mkLoc 2 3)
                     (CoreConstraintPerCore (ri m56))))
  = Some (tt, m56).
Proof.
  eapply (bd_allocate_then_release_restores m56 (mkLoc 2 3)).
  - vm_compute. reflexivity.
  - vm_compute. split; [discriminate|reflexivity].
  - vm_compute. reflexivity.
  - lia.
Defined.

(** ** The hardware calls of [XAie_Route] and [XAie_DeRoute] *)

Lemma sameCalls_trans m1 m2 m3 :
  sameCalls m1 m2 → sameCalls m2 m3 → sameCalls m1 m3.
Proof. unfold sameCalls. congruence. Qed.

Lemma calls_modifyConstraint P t f :
  ensures P sameCalls (modifyConstraint t f).
Proof.
  intros m a m' H _. by apply modifyConstraint_inv in H as (c & _ & ->).
Qed.

Lemma calls_updStrmConn P op t ps s pd d :
  ensures P sameCalls (updStrmConn op t ps s pd d).
Proof.
  intros m a m' H _.
  by apply updStrmConn_inv in H as (c & c1 & c2 & _ & _ & _ & ->).
Qed.

Lemma calls_updateMappingArray P p count f :
  ensures P sameCalls (updateMappingArray p count f).
Proof.
  intros m a m' H _. unfold updateMappingArray in H.
  destruct (count <=? 0); [by apply ret_inv in H as [_ ->]|].
  apply bind_inv in H as (r0 & m0 & Hr & H).
  apply get_ri_inv in Hr as [-> ->].
  apply bind_inv in H as (ad & m0 & Ha & H).
  apply lift_opt_inv in Ha as [Ha ->].
  apply bind_inv in H as (arr & m0 & Harr & H).
  apply lift_opt_inv in Harr as [Harr ->].
  apply bind_inv in H as (arr' & m0 & Harr' & H).
  apply lift_opt_inv in Harr' as [Harr' ->].
  unfold put_ri in H. by injection H as _ <-.
Qed.

Lemma calls_pure {A} P (e : Exec A) :
  (∀ m a m', e m = Some (a, m') → m' = m) → ensures P sameCalls e.
Proof. intros He m a m' H _. by rewrite (He _ _ _ H). Qed.

(** Discharges [ensures _ sameCalls e] goals along the structure of [e]. *)
Ltac calls_step :=
  first
    [ apply ensures_ret; done
    | apply calls_pure; intros ???;
      first [ intros [_ ->]%lift_opt_inv | intros [_ ->]%get_ri_inv
            | intros [_ ->]%constraintOf_inv ]; done
    | apply ensures_undef
    | apply calls_modifyConstraint
    | apply calls_updStrmConn
    | apply calls_updateMappingArray
    | apply ensures_bind; [apply sameCalls_trans | | intros ?]
    | match goal with
      | |- ensures _ _ (if ?b then _ else _) => destruct b
      end ].

Lemma calls_ShimDmaToAie P t p b :
  ensures P sameCalls (_XAie_updatePortAvailabilityForShimDmaToAie t p b).
Proof.
  unfold _XAie_updatePortAvailabilityForShimDmaToAie. repeat calls_step.
Qed.

Lemma calls_AieToShimDma P t p b :
  ensures P sameCalls (_XAie_updatePortAvailabilityForAieToShimDma t p b).
Proof.
  unfold _XAie_updatePortAvailabilityForAieToShimDma. repeat calls_step.
Qed.

Lemma hw_calls be c rc m m' :
  hw be c m = Some (rc, m') →
  rc = hw_rc be (calls m) c ∧ calls m' = calls m ++ [c] ∧ ri m' = ri m.
Proof. unfold hw. by intros [= <- <-]. Qed.

Lemma strmEnables_app cs1 cs2 :
  strmEnables (cs1 ++ cs2) = strmEnables cs1 ++ strmEnables cs2.
Proof. unfold strmEnables. apply list.filter_app. Qed.

Lemma modifyConstraint_calls t f u m m' :
  modifyConstraint t f m = Some (u, m') → calls m' = calls m.
Proof. intros H. by apply (calls_modifyConstraint (fun _ => True) t f m u m'). Qed.

Lemma updStrmConn_calls op t ps s pd d u m m' :
  updStrmConn op t ps s pd d m = Some (u, m') → calls m' = calls m.
Proof.
  intros H. by apply (calls_updStrmConn (fun _ => True) op t ps s pd d m u m').
Qed.

Lemma ShimDmaToAie_calls t p b rc m m' :
  _XAie_updatePortAvailabilityForShimDmaToAie t p b m = Some (rc, m') →
  calls m' = calls m.
Proof. intros H. by apply (calls_ShimDmaToAie (fun _ => True) t p b m rc m'). Qed.

Lemma AieToShimDma_calls t p b rc m m' :
  _XAie_updatePortAvailabilityForAieToShimDma t p b m = Some (rc, m') →
  calls m' = calls m.
Proof. intros H. by apply (calls_AieToShimDma (fun _ => True) t p b m rc m'). Qed.

Lemma sameCatalogues_refl m : sameCatalogues m m.
Proof. done. Qed.

Lemma sameCatalogues_trans m1 m2 m3 :
  sameCatalogues m1 m2 → sameCatalogues m2 m3 → sameCatalogues m1 m3.
Proof. unfold sameCatalogues. intros H1 H2 t. by rewrite H2, H1. Qed.

Lemma sameCatalogues_ri m m' : ri m' = ri m → sameCatalogues m m'.
Proof. intros H t. unfold catalogueOf. by rewrite (tileOf_ri _ _ _ H). Qed.

Lemma cat_modifyConstraint P t f :
  (∀ c, routesDB (f c) = routesDB c) →
  ensures P sameCatalogues (modifyConstraint t f).
Proof.
  intros Hf m a m' H _. apply modifyConstraint_inv in H as (c & Hc & ->).
  intros t'. unfold catalogueOf.
  rewrite (tileOf_setTable_alter _ _ _ _ _ Hc).
  destruct (decide (t = t')) as [<-|]; [|done]. rewrite Hc. simpl.
  by rewrite Hf.
Qed.

Lemma updSlave_routesDB op d s c c' :
  updSlave op d s c = Some c' → routesDB c' = routesDB c.
Proof.
  unfold updSlave. destruct (getSlave d c) as [f|]; [|by intros [= <-]].
  destruct (op f s) as [v|]; [|done]. simpl. intros [= <-]. by destruct d.
Qed.

Lemma updMaster_routesDB op d s c c' :
  updMaster op d s c = Some c' → routesDB c' = routesDB c.
Proof.
  unfold updMaster. destruct (getMaster d c) as [f|]; [|by intros [= <-]].
  destruct (op f s) as [v|]; [|done]. simpl. intros [= <-]. by destruct d.
Qed.

Lemma cat_updStrmConn P op t ps s pd d :
  ensures P sameCatalogues (updStrmConn op t ps s pd d).
Proof.
  intros m a m' H _.
  apply updStrmConn_inv in H as (c & c1 & c2 & Hc & H1 & H2 & ->).
  apply updSlave_routesDB in H1. apply updMaster_routesDB in H2.
  intros t'. unfold catalogueOf.
  rewrite (tileOf_setTable_alter _ _ _ _ _ Hc).
  destruct (decide (t = t')) as [<-|]; [|done]. rewrite Hc. simpl.
  congruence.
Qed.

Lemma cat_updateMappingArray P p count f :
  ensures P sameCatalogues (updateMappingArray p count f).
Proof.
  intros m a m' H _. unfold updateMappingArray in H.
  destruct (count <=? 0); [by apply ret_inv in H as [_ ->]|].
  apply bind_inv in H as (r0 & m0 & Hr & H).
  apply get_ri_inv in Hr as [-> ->].
  apply bind_inv in H as (ad & m0 & Ha & H).
  apply lift_opt_inv in Ha as [Ha ->].
  apply bind_inv in H as (arr & m0 & Harr & H).
  apply lift_opt_inv in Harr as [Harr ->].
  apply bind_inv in H as (arr' & m0 & Harr' & H).
  apply lift_opt_inv in Harr' as [Harr' ->].
  unfold put_ri in H. by injection H as _ <-.
Qed.

Lemma cat_pure {A} P (e : Exec A) :
  (∀ m a m', e m = Some (a, m') → m' = m) → ensures P sameCatalogues e.
Proof. intros He m a m' H _. by rewrite (He _ _ _ H). Qed.

Lemma cat_hw P be c : ensures P sameCatalogues (hw be c).
Proof. intros m a m' H _. apply hw_inv in H. by apply sameCatalogues_ri. Qed.

Lemma cat_setAutoConfigured P t :
  ensures P sameCatalogues (setAutoConfigured t).
Proof. by apply cat_modifyConstraint. Qed.

(** Discharges [ensures _ sameCatalogues e] goals along the structure of
    [e]. *)
Ltac cat_step :=
  first
    [ apply ensures_ret; done
    | apply cat_pure; intros ???;
      first [ intros [_ ->]%lift_opt_inv | intros [_ ->]%get_ri_inv
            | intros [_ ->]%constraintOf_inv ]; done
    | apply ensures_undef
    | apply cat_hw
    | apply cat_setAutoConfigured
    | apply cat_updStrmConn
    | apply cat_updateMappingArray
    | apply ensures_bind; [apply sameCatalogues_trans | | intros ?]
    | match goal with
      | |- ensures _ _ (if ?b then _ else _) => destruct b
      | |- ensures _ _ (match ?x with _ => _ end) => destruct x
      end ].

Lemma cat_ShimDmaToAie P t p b :
  ensures P sameCatalogues (_XAie_updatePortAvailabilityForShimDmaToAie t p b).
Proof.
  unfold _XAie_updatePortAvailabilityForShimDmaToAie. repeat cat_step.
Qed.

Lemma cat_AieToShimDma P t p b :
  ensures P sameCatalogues (_XAie_updatePortAvailabilityForAieToShimDma t p b).
Proof.
  unfold _XAie_updatePortAvailabilityForAieToShimDma. repeat cat_step.
Qed.

Lemma cat_routeHop be i S D ls :
  ensures (fun _ => True) sameCatalogues (routeHop be i S D ls).
Proof.
  unfold routeHop. cbv zeta.
  repeat first [ apply cat_ShimDmaToAie
               | apply (cat_updStrmConn _ u8_clear_bit) | cat_step ].
Qed.

(** A round of the programming loop that goes on has recorded one step and
    enabled its connection; the only other call it may make is the shim
    DMA enable. *)
Lemma routeHop_inv be i S D ls ls' m m' :
  routeHop be i S D ls m = Some (inr ls', m') →
  ∃ st extra, steps ls' = steps ls ++ [st]
    ∧ calls m' = calls m ++ enableOf st :: extra
    ∧ strmEnables extra = [].
Proof.
  unfold routeHop. cbv zeta. intros H.
  apply bind_inv in H as (r0 & m0 & Hr & H).
  apply get_ri_inv in Hr as [-> ->].
  apply bind_inv in H as (shim & m0 & Hs & H).
  apply lift_opt_inv in Hs as [Hs ->].
  apply bind_inv in H as (ss & m0 & Hss & H).
  assert (m0 = m) as ->.
  { destruct (shim && negb (i =? 0));
      [by apply ret_inv in Hss as [_ ->]|by apply lift_opt_inv in Hss as [_ ->]]. }
  apply bind_inv in H as (dd & m0 & Hdd & H).
  apply lift_opt_inv in Hdd as [Hdd ->].
  destruct ((ss =? -1) || (dd =? -1)); [by apply ret_inv in H as [? _]|].
  apply bind_inv in H as (u & m1 & Hauto & H).
  apply modifyConstraint_calls in Hauto.
  apply bind_inv in H as (RC & m2 & Hhw & H).
  apply hw_calls in Hhw as (_ & Hc2 & _).
  destruct (negb (RC =? XAIE_OK)); [by apply ret_inv in H as [? _]|].
  apply bind_inv in H as (u2 & m3 & Hupd & H).
  apply updStrmConn_calls in Hupd.
  destruct (shim && (i =? 0)).
  - apply bind_inv in H as (RC2 & m4 & Hhw2 & H).
    apply hw_calls in Hhw2 as (_ & Hc4 & _).
    destruct (negb (RC2 =? XAIE_OK)); [by apply ret_inv in H as [? _]|].
    apply bind_inv in H as (u3 & m5 & Hshim & H).
    apply ShimDmaToAie_calls in Hshim.
    apply ret_inv in H as [[= ->] ->].
    eexists _, [_]. simpl. split; [reflexivity|]. split.
    { rewrite Hshim, Hc4, Hupd, Hc2, Hauto, <- app_assoc. reflexivity. }
    reflexivity.
  - apply ret_inv in H as [[= ->] ->].
    eexists _, []. simpl. split; [reflexivity|]. split; [|reflexivity].
    rewrite Hupd, Hc2, Hauto. reflexivity.
Qed.

Lemma routeHop_err be i S D ls rc m m' :
  routeHop be i S D ls m = Some (inl rc, m') → rc = XAIE_ERR.
Proof.
  unfold routeHop. cbv zeta. intros H.
  apply bind_inv in H as (r0 & m0 & _ & H).
  apply bind_inv in H as (shim & m1 & _ & H).
  apply bind_inv in H as (ss & m2 & _ & H).
  apply bind_inv in H as (dd & m3 & _ & H).
  destruct ((ss =? -1) || (dd =? -1)); [by apply ret_inv in H as [[= ->] _]|].
  apply bind_inv in H as (u & m4 & _ & H).
  apply bind_inv in H as (RC & m5 & _ & H).
  destruct (negb (RC =? XAIE_OK)); [by apply ret_inv in H as [[= ->] _]|].
  apply bind_inv in H as (u2 & m6 & _ & H).
  destruct (shim && (i =? 0)).
  - apply bind_inv in H as (RC2 & m7 & _ & H).
    destruct (negb (RC2 =? XAIE_OK)); [by apply ret_inv in H as [[= ->] _]|].
    apply bind_inv in H as (u3 & m8 & _ & H).
    by apply ret_inv in H as [? _].
  - by apply ret_inv in H as [? _].
Qed.

(** The round for the last tile, when it succeeds, has recorded the last
    step, enabled its connection and put the route at the head of the
    catalogue of the source tile. *)
Lemma routeLastTile_inv be src dst T ls m m' :
  routeLastTile be src dst T ls m = Some (XAIE_OK, m') →
  ∃ st extra p old,
    calls m' = calls m ++ enableOf st :: extra
    ∧ strmEnables extra = []
    ∧ catalogueOf m src = Some old
    ∧ catalogueOf m' src = Some (RouteNode p (nextOfNewHead old))
    ∧ source p = src ∧ destination p = dst
    ∧ nextStep p = steps ls ++ [st].
Proof.
  unfold routeLastTile. cbv zeta. intros H.
  apply bind_inv in H as (r0 & m0 & Hr & H).
  apply get_ri_inv in Hr as [-> ->].
  apply bind_inv in H as (shim & m0 & Hs & H).
  apply lift_opt_inv in Hs as [Hs ->].
  apply bind_inv in H as (dd & m0 & Hdd & H).
  apply lift_opt_inv in Hdd as [Hdd ->].
  destruct (dd =? -1); [by apply ret_inv in H as [? _]|].
  apply bind_inv in H as (u & m1 & Hauto & H).
  pose proof (cat_setAutoConfigured (fun _ => True) _ _ _ _ Hauto I) as Kauto.
  apply modifyConstraint_calls in Hauto.
  apply bind_inv in H as (RC & m2 & Hhw & H).
  pose proof (cat_hw (fun _ => True) _ _ _ _ _ Hhw I) as Khw.
  apply hw_calls in Hhw as (_ & Hc2 & _).
  destruct (negb (RC =? XAIE_OK)); [by apply ret_inv in H as [? _]|].
  apply bind_inv in H as (u2 & m3 & Hupd & H).
  pose proof (cat_updStrmConn (fun _ => True) _ _ _ _ _ _ _ _ _ Hupd I) as Kupd.
  apply updStrmConn_calls in Hupd.
  apply bind_inv in H as (RC3 & m4 & Hshim & H).
  destruct (negb (RC3 =? XAIE_OK)); [by apply ret_inv in H as [? _]|].
  apply bind_inv in H as (sc & m5 & Hsc & H).
  apply constraintOf_inv in Hsc as [Hsc ->].
  assert (∃ extra, calls m4 = calls m3 ++ extra ∧ strmEnables extra = []
                   ∧ sameCatalogues m3 m4)
    as (extra & Hc4 & Hextra & Kshim).
  { destruct shim.
    - apply bind_inv in Hshim as (RC2 & m6 & Hhw2 & Hshim).
      pose proof (cat_hw (fun _ => True) _ _ _ _ _ Hhw2 I) as Khw2.
      apply hw_calls in Hhw2 as (_ & Hc6 & _).
      destruct (negb (RC2 =? XAIE_OK)).
      + apply ret_inv in Hshim as [_ ->]. eexists [_].
        split; [exact Hc6|]. split; [reflexivity|done].
      + apply bind_inv in Hshim as (u3 & m7 & Hm7 & Hshim).
        pose proof (cat_AieToShimDma (fun _ => True) _ _ _ _ _ _ Hm7 I) as K7.
        apply AieToShimDma_calls in Hm7.
        apply ret_inv in Hshim as [_ ->]. eexists [_].
        split; [rewrite Hm7; exact Hc6|]. split; [reflexivity|].
        by eapply sameCatalogues_trans.
    - apply ret_inv in Hshim as [_ ->]. exists []. rewrite app_nil_r.
      split_and!; done. }
  assert (catalogueOf m src = Some (routesDB sc)) as Hold.
  { rewrite <- (Kauto src), <- (Khw src), <- (Kupd src), <- (Kshim src).
    unfold catalogueOf. by rewrite Hsc. }
  assert (∃ p u4,
            modifyConstraint src
              (set_routesDB (RouteNode p (nextOfNewHead (routesDB sc)))) m4
            = Some (u4, m')
            ∧ source p = src ∧ destination p = dst
            ∧ nextStep p = steps ls ++
                [{| sourceTile := T; sourceStream := lastStream ls;
                    destStream := dd; source_direction := lastDir ls;
                    dest_direction := if shim then SOUTH else DMA |}])
    as (p & u4 & Hmod & Hp1 & Hp2 & Hp3).
  { destruct (routesDB sc) eqn:Edb; [| |done].
    - apply bind_inv in H as (u4 & m6 & Hm & H).
      apply ret_inv in H as [_ ->]. eexists _, _. split; [exact Hm|done].
    - apply bind_inv in H as (u4 & m6 & Hm & H).
      apply ret_inv in H as [_ ->]. unfold _XAie_addRouteInRoutesDB in Hm.
      eexists _, _. split; [exact Hm|done]. }
  apply modifyConstraint_inv in Hmod as (c & Hc & ->).
  eexists _, extra, p, (routesDB sc). split_and!; try done.
  - simpl. rewrite Hc4, Hupd, Hc2, Hauto, <- app_assoc. reflexivity.
  - unfold catalogueOf. rewrite (tileOf_setTable_alter _ _ _ _ _ Hc).
    by rewrite decide_True.
Qed.

Lemma routeLoop_ok be src dst : ∀ rest i ls m m',
  rest ≠ [] →
  routeLoop be src dst i rest ls m = Some (XAIE_OK, m') →
  ∃ more p old,
    catalogueOf m src = Some old
    ∧ catalogueOf m' src = Some (RouteNode p (nextOfNewHead old))
    ∧ source p = src ∧ destination p = dst
    ∧ nextStep p = steps ls ++ more
    ∧ strmEnables (calls m') = strmEnables (calls m) ++ (enableOf <$> more).
Proof.
  induction rest as [|T rest IH]; intros i ls m m' Hne H; [done|].
  destruct rest as [|T' rest'].
  - apply routeLastTile_inv in H
      as (st & extra & p & old & Hc & Hx & Hold & Hcat & Hs & Hd & Hst).
    exists [st], p, old. split_and!; try done.
    rewrite Hc, strmEnables_app. f_equal.
    change (enableOf st :: extra) with ([enableOf st] ++ extra).
    rewrite strmEnables_app, Hx. reflexivity.
  - cbn [routeLoop] in H.
    apply bind_inv in H as ([rc|ls'] & m1 & Hhop & H).
    + apply routeHop_err in Hhop as ->. by apply ret_inv in H as [? _].
    + pose proof (cat_routeHop _ _ _ _ _ _ _ _ Hhop I) as Khop.
      apply routeHop_inv in Hhop as (st & extra & Hst & Hc & Hx).
      apply IH in H
        as (more & p & old & Hold & Hcat & Hs & Hd & Hsteps & Hcalls);
        [|done].
      exists (st :: more), p, old. split_and!; try done.
      * by rewrite <- (Khop src).
      * rewrite Hsteps, Hst, <- app_assoc. reflexivity.
      * rewrite Hcalls, Hc, strmEnables_app, <- app_assoc. f_equal.
        change (enableOf st :: extra) with ([enableOf st] ++ extra).
        rewrite strmEnables_app, Hx. reflexivity.
Qed.

Lemma findShortestPath_nonempty r RC src dst room path :
  src ≠ dst →
  _XAie_findShortestPath r RC src dst room = Some (true, path) → path ≠ [].
Proof.
  intros Hne. unfold _XAie_findShortestPath.
  replace (loc_eqb src dst) with false by (symmetry; by apply loc_eqb_neq).
  destruct (bfsLoop _ _ _ _ _ _) as [st|]; [|done]. simpl.
  destruct (negb (found st)); [done|].
  destruct (collectPath _ _ _ _ _) as [p|]; [|done]. simpl.
  intros [= <-]. unfold reversePath. rewrite rev_app_distr. done.
Qed.

Lemma calls_markCore t m : calls (markCore t m) = calls m.
Proof. unfold markCore. by destruct (tileOf m t) as [[]|]; [destruct tile_type|]. Qed.

(** What a successful [XAie_Route] between two tiles leaves. *)
Lemma XAie_Route_ok_spec be RC src dst m m' :
  src ≠ dst → XAie_Route be RC src dst m = Some (XAIE_OK, m') →
  ∃ p old,
    catalogueOf m src = Some old
    ∧ _XAie_findRouteInRouteDB old src dst = Some None
    ∧ catalogueOf m' src = Some (RouteNode p (nextOfNewHead old))
    ∧ source p = src ∧ destination p = dst
    ∧ strmEnables (calls m')
      = strmEnables (calls m) ++ (enableOf <$> nextStep p).
Proof.
  intros Hne H.
  apply XAie_Route_ok_inv in H as (c & path & m1 & Hc & Hfind & Hpath & Hprog & ->).
  apply findShortestPath_nonempty in Hpath; [|done].
  unfold _XAie_performRoutingOnPath in Hprog.
  apply routeLoop_ok in Hprog
    as (more & p & old & Hold & Hcat & Hs & Hd & Hsteps & Hcalls); [|done].
  exists p, old. rewrite !catalogueOf_markCore, !calls_markCore.
  unfold catalogueOf in Hold. rewrite Hc in Hold. injection Hold as <-.
  split_and!; try done.
  - unfold catalogueOf. by rewrite Hc.
  - by rewrite Hsteps.
Qed.

Lemma cat_derouteLoop be ps : ∀ todo first,
  ensures (fun _ => True) sameCatalogues (derouteLoop be ps first todo).
Proof.
  induction todo as [|st todo IH]; intros first; simpl.
  - by apply ensures_ret.
  - apply ensures_bind; [apply sameCatalogues_trans|apply cat_hw|].
    intros RC. destruct (negb (RC =? XAIE_OK)); [by apply ensures_ret|].
    apply ensures_bind;
      [apply sameCatalogues_trans|apply (cat_updStrmConn _ u8_set_bit)|].
    intros _.
    apply ensures_bind; [apply sameCatalogues_trans|cat_step|]. intros r0.
    apply ensures_bind; [apply sameCatalogues_trans|cat_step|]. intros shim.
    apply ensures_bind; [apply sameCatalogues_trans| |intros _; apply IH].
    destruct shim; [destruct first|].
    + apply cat_ShimDmaToAie.
    + apply cat_AieToShimDma.
    + by apply ensures_ret.
Qed.

(** The teardown loop, when it succeeds, has made one disable call for
    each step, in the order of the steps, and no other call. *)
Lemma derouteLoop_calls be ps : ∀ todo first m m',
  derouteLoop be ps first todo m = Some (XAIE_OK, m') →
  calls m' = calls m ++ (disableOf <$> todo).
Proof.
  induction todo as [|st todo IH]; intros first m m' H; simpl in H.
  - apply ret_inv in H as [_ ->]. by rewrite app_nil_r.
  - apply bind_inv in H as (RC & m1 & Hhw & H).
    apply hw_calls in Hhw as (_ & Hc1 & _).
    destruct (negb (RC =? XAIE_OK)); [by apply ret_inv in H as [? _]|].
    apply bind_inv in H as (u & m2 & Hupd & H).
    apply updStrmConn_calls in Hupd.
    apply bind_inv in H as (r0 & m3 & Hr & H).
    apply get_ri_inv in Hr as [-> ->].
    apply bind_inv in H as (shim & m3 & Hs & H).
    apply lift_opt_inv in Hs as [Hs ->].
    apply bind_inv in H as (rc & m3 & Hshim & H).
    assert (calls m3 = calls m2) as Hc3.
    { destruct shim; [destruct first|].
      - by apply ShimDmaToAie_calls in Hshim.
      - by apply AieToShimDma_calls in Hshim.
      - by apply ret_inv in Hshim as [_ ->]. }
    apply IH in H. rewrite H, Hc3, Hupd, Hc1, <- app_assoc. reflexivity.
Qed.

Lemma modifyConstraint_cat t f u m m' :
  (∀ c, routesDB (f c) = routesDB c) →
  modifyConstraint t f m = Some (u, m') → sameCatalogues m m'.
Proof.
  intros Hf H. by apply (cat_modifyConstraint (fun _ => True) t f Hf m u m').
Qed.

Lemma isComputeEndpoint_same t b m m' :
  isComputeEndpoint t m = Some (b, m') → m' = m.
Proof. intros H. by apply isComputeEndpoint_inv in H as [-> _]. Qed.

(** What a successful [XAie_DeRoute] has done. *)
Lemma XAie_DeRoute_ok_spec be src dst flag m m' :
  XAie_DeRoute be src dst flag m = Some (XAIE_OK, m') →
  ∃ old p db,
    catalogueOf m src = Some old
    ∧ _XAie_findRouteInRouteDB old src dst = Some (Some p)
    ∧ calls m' = calls m ++ (disableOf <$> nextStep p)
    ∧ _XAie_FreeRouteFromRoutesDB old src dst = Some db
    ∧ catalogueOf m' src = Some db
    ∧ ∀ t, t ≠ src → catalogueOf m' t = catalogueOf m t.
Proof.
  unfold XAie_DeRoute. intros H.
  apply bind_inv in H as (c & m0 & Hc & H).
  apply constraintOf_inv in Hc as [Hc ->].
  apply bind_inv in H as (cd & m0 & Hcd & H).
  apply constraintOf_inv in Hcd as [Hcd ->].
  destruct (routesDB c) as [|p0 next|] eqn:Edb;
    [by apply ret_inv in H as [? _]| |done].
  rewrite <- Edb in H.
  apply bind_inv in H as (b1 & m0 & Hb1 & H).
  apply isComputeEndpoint_same in Hb1 as ->.
  apply bind_inv in H as (u1 & m1 & H1 & H).
  assert (sameCalls m m1 ∧ sameCatalogues m m1) as [C1 K1].
  { destruct (flag && b1).
    - split; [by apply modifyConstraint_calls in H1|].
      by apply modifyConstraint_cat in H1.
    - by apply ret_inv in H1 as [_ ->]. }
  apply bind_inv in H as (b2 & m0 & Hb2 & H).
  apply isComputeEndpoint_same in Hb2 as ->.
  apply bind_inv in H as (u2 & m2 & H2 & H).
  assert (sameCalls m1 m2 ∧ sameCatalogues m1 m2) as [C2 K2].
  { destruct (flag && b2).
    - split; [by apply modifyConstraint_calls in H2|].
      by apply modifyConstraint_cat in H2.
    - by apply ret_inv in H2 as [_ ->]. }
  apply bind_inv in H as (lk & m0 & Hlk & H).
  apply lift_opt_inv in Hlk as [Hlk ->].
  apply bind_inv in H as (p & m0 & Hp & H).
  apply lift_opt_inv in Hp as [-> ->].
  apply bind_inv in H as (RC & m3 & Hloop & H).
  destruct (negb (RC =? XAIE_OK)) eqn:ERC; [by apply ret_inv in H as [? _]|].
  assert (RC = XAIE_OK) as ->
    by (apply negb_false_iff, Z.eqb_eq in ERC; done).
  pose proof (cat_derouteLoop _ _ _ _ _ _ _ Hloop I) as K3.
  apply derouteLoop_calls in Hloop.
  apply bind_inv in H as (c' & m0 & Hc' & H).
  apply constraintOf_inv in Hc' as [Hc' ->].
  apply bind_inv in H as (db & m0 & Hdb & H).
  apply lift_opt_inv in Hdb as [Hdb ->].
  apply bind_inv in H as (u3 & m4 & Hmod & H).
  apply ret_inv in H as [_ ->].
  apply modifyConstraint_inv in Hmod as (c'' & _ & ->).
  assert (routesDB c' = routesDB c) as Hsame.
  { pose proof (K3 src) as E3. rewrite (K2 src), (K1 src) in E3.
    unfold catalogueOf in E3. rewrite Hc', Hc in E3. by injection E3. }
  rewrite Hsame in Hdb.
  exists (routesDB c), p, db. split_and!; try done.
  - unfold catalogueOf. by rewrite Hc.
  - simpl. unfold sameCalls in *. by rewrite Hloop, C2, C1.
  - unfold catalogueOf. rewrite (tileOf_setTable_alter _ _ _ _ _ Hc').
    by rewrite decide_True.
  - intros t Ht. unfold catalogueOf at 1.
    rewrite (tileOf_setTable_alter _ _ _ _ _ Hc').
    rewrite decide_False by done.
    fold (catalogueOf m3 t). by rewrite (K3 t), (K2 t), (K1 t).
Qed.

Lemma XAie_Route_existing be RC src dst m c p :
  tileOf m src = Some c →
  _XAie_findRouteInRouteDB (routesDB c) src dst = Some (Some p) →
  XAie_Route be RC src dst m = Some (XAIE_ERR, m).
Proof.
  intros Hc Hp. unfold XAie_Route.
  rewrite (bind_intro _ _ _ _ _ (constraintOf_intro _ _ _ Hc)).
  unfold bind, lift_opt. by rewrite Hp.
Qed.

Lemma catalogueOf_Some m t db :
  catalogueOf m t = Some db → ∃ c, tileOf m t = Some c ∧ routesDB c = db.
Proof.
  unfold catalogueOf. destruct (tileOf m t) as [c|]; [|done].
  intros [= <-]. eauto.
Qed.

Lemma find_at_head p next src dst :
  source p = src → destination p = dst →
  _XAie_findRouteInRouteDB (RouteNode p next) src dst = Some (Some p).
Proof.
  intros <- <-. simpl. unfold samePair. by rewrite !loc_eqb_refl.
Qed.

(** X6.  A successful [XAie_Route] between two different tiles leaves the
    route in the catalogue of the source tile, where the lookup finds it;
    the steps the route records are, in order, the stream connections the
    call has enabled; and a further [XAie_Route] for the same pair is
    refused with [XAIE_ERR], without any change and without any hardware
    call. *)
Theorem route_is_catalogued be RC src dst m m' :
  src ≠ dst → XAie_Route be RC src dst m = Some (XAIE_OK, m') →
  (∃ c' p, tileOf m' src = Some c'
     ∧ _XAie_findRouteInRouteDB (routesDB c') src dst = Some (Some p)
     ∧ source p = src ∧ destination p = dst
     ∧ strmEnables (calls m')
       = strmEnables (calls m) ++ (enableOf <$> nextStep p))
  ∧ ∀ be' RC', XAie_Route be' RC' src dst m' = Some (XAIE_ERR, m').
Proof.
  intros Hne H.
  apply XAie_Route_ok_spec in H
    as (p & old & _ & _ & Hcat & Hs & Hd & Hcalls); [|done].
  apply catalogueOf_Some in Hcat as (c' & Hc' & Hdb).
  pose proof (find_at_head p (nextOfNewHead old) src dst Hs Hd) as Hfind.
  rewrite <- Hdb in Hfind. split.
  - by exists c', p.
  - intros be' RC'. by apply (XAie_Route_existing _ _ _ _ _ c' p).
Qed.

Lemma route_is_catalogued_witness :
  (∃ c' p, tileOf m56_routed (mkLoc 2 3) = Some c'
     ∧ _XAie_findRouteInRouteDB (routesDB c') (mkLoc 2 3) (mkLoc 4 3)
       = Some (Some p)
     ∧ source p = mkLoc 2 3 ∧ destination p = mkLoc 4 3
     ∧ strmEnables (calls m56_routed)
       = strmEnables (calls m56) ++ (enableOf <$> nextStep p))
  ∧ ∀ be' RC', XAie_Route be' RC' (mkLoc 2 3) (mkLoc 4 3) m56_routed
               = Some (XAIE_ERR, m56_routed).
Proof.
  apply (route_is_catalogued okBackend None).
  - intros H. discriminate H.
  - vm_compute. reflexivity.
Defined.

(** X7.  A successful [XAie_DeRoute] has found the route in the catalogue
    of the source tile, has made exactly one [XAie_StrmConnCctDisable] call
    for each step the route records, in the order of the steps, and no
    other hardware call, and has unlinked the first node of the pair from
    that catalogue; the catalogues of the other tiles are unchanged. *)
Theorem deroute_disables_recorded_steps be src dst flag m m' :
  XAie_DeRoute be src dst flag m = Some (XAIE_OK, m') →
  ∃ old p db,
    catalogueOf m src = Some old
    ∧ _XAie_findRouteInRouteDB old src dst = Some (Some p)
    ∧ calls m' = calls m ++ (disableOf <$> nextStep p)
    ∧ _XAie_FreeRouteFromRoutesDB old src dst = Some db
    ∧ catalogueOf m' src = Some db
    ∧ ∀ t, t ≠ src → catalogueOf m' t = catalogueOf m t.
Proof. apply XAie_DeRoute_ok_spec. Qed.

Lemma deroute_disables_recorded_steps_witness :
  ∃ old p db,
    catalogueOf m56_routed (mkLoc 2 3) = Some old
    ∧ _XAie_findRouteInRouteDB old (mkLoc 2 3) (mkLoc 4 3) = Some (Some p)
    ∧ calls m56_derouted = calls m56_routed ++ (disableOf <$> nextStep p)
    ∧ _XAie_FreeRouteFromRoutesDB old (mkLoc 2 3) (mkLoc 4 3) = Some db
    ∧ catalogueOf m56_derouted (mkLoc 2 3) = Some db
    ∧ ∀ t, t ≠ mkLoc 2 3 →
           catalogueOf m56_derouted t = catalogueOf m56_routed t.
Proof.
  apply (deroute_disables_recorded_steps okBackend (mkLoc 2 3) (mkLoc 4 3) true).
  vm_compute. reflexivity.
Defined.

(** X8.  [XAie_DeRoute] mirrors [XAie_Route]: after a successful
    [XAie_Route] between two different tiles, a successful [XAie_DeRoute]
    of the pair disables, in the same order and with the same arguments,
    exactly the stream connections the route call enabled. *)
Theorem deroute_mirrors_route be be' RC src dst flag m m1 m2 :
  src ≠ dst →
  XAie_Route be RC src dst m = Some (XAIE_OK, m1) →
  XAie_DeRoute be' src dst flag m1 = Some (XAIE_OK, m2) →
  ∃ route,
    strmEnables (calls m1) = strmEnables (calls m) ++ (enableOf <$> route)
    ∧ calls m2 = calls m1 ++ (disableOf <$> route).
Proof.
  intros Hne Hr Hd.
  apply XAie_Route_ok_spec in Hr
    as (p & old & _ & _ & Hcat & Hs & Hdst & Hcalls); [|done].
  apply XAie_DeRoute_ok_spec in Hd
    as (old' & p' & db & Hcat' & Hfind & Hcalls' & _).
  rewrite Hcat in Hcat'. injection Hcat' as <-.
  rewrite (find_at_head p _ src dst Hs Hdst) in Hfind. injection Hfind as <-.
  by exists (nextStep p).
Qed.

Lemma deroute_mirrors_route_witness :
  ∃ route,
    strmEnables (calls m56_routed)
    = strmEnables (calls m56) ++ (enableOf <$> route)
    ∧ calls m56_derouted = calls m56_routed ++ (disableOf <$> route).
Proof.
  apply (deroute_mirrors_route okBackend okBackend None
           (mkLoc 2 3) (mkLoc 4 3) true).
  - intros H. discriminate H.
  - vm_compute. reflexivity.
  - vm_compute. reflexivity.
Defined.

(** X9.  After [XAie_Route] and [XAie_DeRoute] of a pair, the catalogue of
    the source tile is what it was before the two calls if it held a route
    then.  If it was empty, it is not empty again: the node of the first
    route of a tile is allocated without its [nextRoute] being assigned,
    so the head of the catalogue is now that indeterminate pointer and any
    later [XAie_Route] or [XAie_DeRoute] from this source has no defined
    outcome. *)
Theorem first_route_then_deroute_spoils_catalogue
  be be' RC src dst flag m m1 m2 old :
  src ≠ dst → catalogueOf m src = Some old →
  XAie_Route be RC src dst m = Some (XAIE_OK, m1) →
  XAie_DeRoute be' src dst flag m1 = Some (XAIE_OK, m2) →
  catalogueOf m2 src = Some (nextOfNewHead old)
  ∧ (old = NullRoute →
     ∀ be'' RC'' d f,
       XAie_Route be'' RC'' src d m2 = None
       ∧ XAie_DeRoute be'' src d f m2 = None).
Proof.
  intros Hne Hold Hr Hd.
  apply XAie_Route_ok_spec in Hr
    as (p & old0 & Hold0 & _ & Hcat & Hs & Hdst & _); [|done].
  rewrite Hold in Hold0. injection Hold0 as <-.
  apply XAie_DeRoute_ok_spec in Hd
    as (old' & p' & db & Hcat' & _ & _ & Hfree & Hcat2 & _).
  rewrite Hcat in Hcat'. injection Hcat' as <-.
  simpl in Hfree. unfold samePair in Hfree.
  rewrite Hs, Hdst, !loc_eqb_refl in Hfree. simpl in Hfree.
  injection Hfree as <-. split; [done|].
  intros -> be'' RC'' d f. simpl in Hcat2.
  apply catalogueOf_Some in Hcat2 as (c2 & Hc2 & Hdb). split.
  - unfold XAie_Route.
    rewrite (bind_intro _ _ _ _ _ (constraintOf_intro _ _ _ Hc2)).
    unfold bind, lift_opt. by rewrite Hdb.
  - unfold XAie_DeRoute.
    rewrite (bind_intro _ _ _ _ _ (constraintOf_intro _ _ _ Hc2)).
    unfold bind at 1. destruct (constraintOf d m2) as [[cd m3]|]; [|done].
    by rewrite Hdb.
Qed.

Lemma first_route_then_deroute_spoils_catalogue_witness :
  catalogueOf m56_derouted (mkLoc 2 3) = Some (nextOfNewHead NullRoute)
  ∧ (NullRoute = NullRoute →
     ∀ be'' RC'' d f,
       XAie_Route be'' RC'' (mkLoc 2 3) d m56_derouted = None
       ∧ XAie_DeRoute be'' (mkLoc 2 3) d f m56_derouted = None).
Proof.
  apply (first_route_then_deroute_spoils_catalogue okBackend okBackend None
           (mkLoc 2 3) (mkLoc 4 3) true m56 m56_routed).
  - intros H. discriminate H.
  - vm_compute. reflexivity.
  - vm_compute. reflexivity.
  - vm_compute. reflexivity.
Defined.

Lemma cat_XAie_DeRoute be src dst flag :
  ensures (fun rc => rc ≠ XAIE_OK) sameCatalogues
    (XAie_DeRoute be src dst flag).
Proof.
  unfold XAie_DeRoute.
  repeat first
    [ apply ensures_bind_ret_ok
    | apply cat_derouteLoop
    | apply cat_pure; apply isComputeEndpoint_same
    | apply cat_modifyConstraint; done
    | cat_step ].
Qed.

(** X10.  A failing [XAie_DeRoute] removes no route.  With both tiles in
    the grid and no route recorded on the source tile, the call does
    return [XAIE_ERR], on the machine it was given: no field and no
    hardware call changed.  And whenever the call returns [XAIE_ERR], for
    instance because the hardware layer refuses a disconnection in the
    middle of the route, every tile has the catalogue it had. *)
Theorem deroute_failure_keeps_routes be src dst flag m c cd :
  tileOf m src = Some c →
  tileOf m dst = Some cd →
  (routesDB c = NullRoute →
   XAie_DeRoute be src dst flag m = Some (XAIE_ERR, m))
  ∧ (∀ m', XAie_DeRoute be src dst flag m = Some (XAIE_ERR, m') →
           ∀ t, catalogueOf m' t = catalogueOf m t).
Proof.
  intros Hc Hcd. split.
  - intros Hnull. unfold XAie_DeRoute, bind.
    rewrite (constraintOf_intro _ _ _ Hc), (constraintOf_intro _ _ _ Hcd).
    rewrite Hnull. reflexivity.
  - intros m' H. by apply (cat_XAie_DeRoute be src dst flag m XAIE_ERR m').
Qed.

Lemma deroute_failure_keeps_routes_witness :
  XAie_DeRoute okBackend (mkLoc 2 3) (mkLoc 4 3) true m56 = Some (XAIE_ERR, m56)
  ∧ XAie_DeRoute failAt33 (mkLoc 2 3) (mkLoc 4 3) true m56_routed
    = Some (XAIE_ERR, m56_deroute_failed)
  ∧ calls m56_deroute_failed
    = calls m56_routed
      ++ [XAie_StrmConnCctDisable (mkLoc 2 3) DMA 0 EAST 0;
          XAie_StrmConnCctDisable (mkLoc 3 3) WEST 0 EAST 0]
  ∧ (∀ t, catalogueOf m56_deroute_failed t = catalogueOf m56_routed t).
Proof.
  destruct (tileOf m56 (mkLoc 2 3)) as [c|] eqn:Ec;
    [|vm_compute in Ec; discriminate Ec].
  destruct (tileOf m56 (mkLoc 4 3)) as [cd|] eqn:Ecd;
    [|vm_compute in Ecd; discriminate Ecd].
  destruct (tileOf m56_routed (mkLoc 2 3)) as [c'|] eqn:Ec';
    [|vm_compute in Ec'; discriminate Ec'].
  destruct (tileOf m56_routed (mkLoc 4 3)) as [cd'|] eqn:Ecd';
    [|vm_compute in Ecd'; discriminate Ecd'].
  assert (XAie_DeRoute failAt33 (mkLoc 2 3) (mkLoc 4 3) true m56_routed
          = Some (XAIE_ERR, m56_deroute_failed)) as Hrun
    by (vm_compute; reflexivity).
  split; [|split; [exact Hrun|split]].
  - apply (deroute_failure_keeps_routes okBackend (mkLoc 2 3) (mkLoc 4 3)
             true m56 c cd Ec Ecd).
    vm_compute in Ec. injection Ec as <-. reflexivity.
  - vm_compute. reflexivity.
  - exact (proj2 (deroute_failure_keeps_routes failAt33 (mkLoc 2 3)
                    (mkLoc 4 3) true m56_routed c' cd' Ec' Ecd')
             m56_deroute_failed Hrun).
Defined.

(** ** The instance [XAie_InitRoutingHandler] builds *)

Lemma init_tileAt dev raw t :
  0 ≤ Col t < u8 (DevNumCols dev) → 0 ≤ Row t < u8 (DevNumRows dev) →
  tileAt (CoreConstraintPerCore (XAie_InitRoutingHandler dev raw)) t
  = Some (initCoreConstraint dev (Row t) (raw (XAie_TileLoc (Col t) (Row t)))).
Proof.
  intros Hc Hr. unfold XAie_InitRoutingHandler, tileAt. simpl.
  replace ((0 <=? Col t) && (0 <=? Row t)) with true
    by (symmetry; apply andb_true_iff; split; apply Z.leb_le; lia).
  rewrite list_lookup_fmap, (upto_lookup _ _ Hc). simpl.
  rewrite list_lookup_fmap, (upto_lookup _ _ Hr). simpl. done.
Qed.

Lemma init_wfInstance dev raw :
  wfInstance (XAie_InitRoutingHandler dev raw) = true.
Proof.
  pose proof (u8_range (DevNumCols dev)). pose proof (u8_range (DevNumRows dev)).
  unfold wfInstance, XAie_InitRoutingHandler. simpl.
  rewrite !andb_true_iff. split_and!; try (apply Z.leb_le; lia).
  - apply Z.eqb_eq. rewrite length_fmap, length_upto. lia.
  - apply forallb_forall. intros column Hcol.
    apply list_elem_of_In, list_elem_of_fmap in Hcol as (col & -> & _).
    apply Z.eqb_eq. rewrite length_fmap, length_upto. lia.
Qed.

Lemma initCoreConstraint_idle dev row raw :
  seeded_row dev row = true →
  routesDB (initCoreConstraint dev row raw) = NullRoute
  ∧ isCoreExecuting (initCoreConstraint dev row raw) = false
  ∧ isAutoConfigured (initCoreConstraint dev row raw) = false.
Proof.
  unfold seeded_row, initCoreConstraint. intros H.
  destruct (isMemTileRow dev row && negb (isShimTileRow dev row)); [done|].
  destruct (isAieTile dev row); [done|].
  by destruct (isShimTileRow dev row).
Qed.

Lemma concat_all_nil {A} (ls : list (list A)) :
  (∀ l, l ∈ ls → l = []) → concat ls = [].
Proof.
  induction ls as [|l ls IH]; intros H; [done|]. simpl.
  rewrite (H l) by constructor. apply IH. intros l' Hl'. apply H.
  by constructor.
Qed.

Lemma coreEnables_spec r call :
  wfInstance r = true →
  call ∈ coreEnables r
  ↔ ∃ t c, call = XAie_CoreEnable t
           ∧ tileAt (CoreConstraintPerCore r) t = Some c
           ∧ isCoreExecuting c = true.
Proof.
  intros Hwf. split.
  - unfold coreEnables. intros H.
    apply elem_of_concat in H as (l & Hin & Hl).
    apply list_elem_of_fmap in Hl as (col & -> & Hcol).
    apply elem_of_concat in Hin as (l & Hin & Hl).
    apply list_elem_of_fmap in Hl as (row & -> & Hrow).
    apply elem_of_upto in Hcol. apply elem_of_upto in Hrow.
    pose proof (wfInstance_dims r Hwf) as [Hc Hr].
    destruct (tileAt (CoreConstraintPerCore r) (mkLoc col row)) as [c|] eqn:E;
      [|by apply elem_of_nil in Hin].
    destruct (isCoreExecuting c) eqn:Ex; [|by apply elem_of_nil in Hin].
    apply list_elem_of_singleton in Hin as ->.
    exists (mkLoc col row), c. split_and!; try done.
    unfold XAie_TileLoc, u8. by rewrite !Z.mod_small by lia.
  - intros (t & c & -> & Hc & Hx). by apply (coreEnables_elem r t c).
Qed.

(** X11.  The instance [XAie_InitRoutingHandler] returns has as many
    columns and rows of tiles as the device, whatever the device; and when
    every row of the device is a shim, memory or compute row, every tile
    starts with an empty catalogue, not auto-configured and not marked for
    execution, so that [XAie_Run] right after the initialisation makes no
    hardware call. *)
Theorem init_gives_idle_instance dev raw be count cs :
  (∀ row, 0 ≤ row < u8 (DevNumRows dev) → seeded_row dev row = true) →
  wfInstance (XAie_InitRoutingHandler dev raw) = true
  ∧ (∀ t c,
       tileAt (CoreConstraintPerCore (XAie_InitRoutingHandler dev raw)) t
       = Some c →
       routesDB c = NullRoute ∧ isCoreExecuting c = false
       ∧ isAutoConfigured c = false)
  ∧ XAie_Run be count {| ri := XAie_InitRoutingHandler dev raw; calls := cs |}
    = Some (XAIE_OK,
            {| ri := XAie_InitRoutingHandler dev raw; calls := cs |}).
Proof.
  intros Hseed. pose proof (init_wfInstance dev raw) as Hwf.
  assert (∀ t c,
       tileAt (CoreConstraintPerCore (XAie_InitRoutingHandler dev raw)) t
       = Some c →
       routesDB c = NullRoute ∧ isCoreExecuting c = false
       ∧ isAutoConfigured c = false) as Hidle.
  { intros t c Hc.
    destruct (tileAt_wfInstance_range _ _ _ Hwf Hc) as [Hcol Hrow].
    rewrite init_tileAt in Hc by done. injection Hc as <-.
    apply initCoreConstraint_idle. by apply Hseed. }
  split_and!; try done.
  rewrite XAie_Run_spec by done. do 3 f_equal.
  rewrite <- (app_nil_r cs) at 2. f_equal.
  apply concat_all_nil. intros l Hl.
  apply list_elem_of_fmap in Hl as (i & -> & _).
  destruct (coreEnables (XAie_InitRoutingHandler dev raw)) as [|call rest] eqn:E;
    [done|].
  assert (call ∈ coreEnables (XAie_InitRoutingHandler dev raw)) as Hin
    by (rewrite E; constructor).
  apply coreEnables_spec in Hin as (t & c & _ & Hc & Hx); [|done].
  destruct (Hidle t c Hc) as (_ & Hx' & _). congruence.
Qed.

Lemma init_gives_idle_instance_witness :
  wfInstance (XAie_InitRoutingHandler dev56 (fun _ => raw0)) = true
  ∧ (∀ t c,
       tileAt (CoreConstraintPerCore
                 (XAie_InitRoutingHandler dev56 (fun _ => raw0))) t = Some c →
       routesDB c = NullRoute ∧ isCoreExecuting c = false
       ∧ isAutoConfigured c = false)
  ∧ XAie_Run okBackend 2
      {| ri := XAie_InitRoutingHandler dev56 (fun _ => raw0); calls := [] |}
    = Some (XAIE_OK,
            {| ri := XAie_InitRoutingHandler dev56 (fun _ => raw0);
               calls := [] |}).
Proof.
  apply (init_gives_idle_instance dev56 (fun _ => raw0) okBackend 2 []).
  intros row Hrow. change (u8 (DevNumRows dev56)) with 6 in Hrow.
  assert (row = 0 ∨ row = 1 ∨ row = 2 ∨ row = 3 ∨ row = 4 ∨ row = 5)
    as [->|[->|[->|[->|[->| ->]]]]] by lia; reflexivity.
Defined.

(** X12.  [XAie_Run] enables exactly the cores marked for execution: each
    of its hardware calls is [XAie_CoreEnable] on a tile whose
    [isCoreExecuting] flag is set, every such tile is enabled when [count]
    is positive, the routing instance is left as it is, and the result is
    [XAIE_OK] whatever [XAie_CoreEnable] returns. *)
Theorem run_enables_exactly_marked_cores be count m :
  wfInstance (ri m) = true →
  ∃ issued,
    XAie_Run be count m
    = Some (XAIE_OK, {| ri := ri m; calls := calls m ++ issued |})
    ∧ ∀ call, call ∈ issued
        ↔ 0 < count
          ∧ ∃ t c, call = XAie_CoreEnable t ∧ tileOf m t = Some c
                   ∧ isCoreExecuting c = true.
Proof.
  intros Hwf. destruct m as [r cs]. simpl in *.
  eexists. split; [by apply XAie_Run_spec|].
  intros call. rewrite elem_of_concat. unfold tileOf. simpl. split.
  - intros (l & Hin & Hl).
    apply list_elem_of_fmap in Hl as (i & -> & Hi).
    apply elem_of_upto in Hi. split; [lia|]. by apply coreEnables_spec.
  - intros (Hpos & H). exists (coreEnables r). split.
    + by apply coreEnables_spec.
    + apply list_elem_of_fmap. exists 0. split; [done|].
      apply elem_of_upto. lia.
Qed.

Lemma run_enables_exactly_marked_cores_witness :
  ∃ issued,
    XAie_Run okBackend 1 m56_routed
    = Some (XAIE_OK,
            {| ri := ri m56_routed; calls := calls m56_routed ++ issued |})
    ∧ ∀ call, call ∈ issued
        ↔ 0 < 1
          ∧ ∃ t c, call = XAie_CoreEnable t ∧ tileOf m56_routed t = Some c
                   ∧ isCoreExecuting c = true.
Proof.
  apply (run_enables_exactly_marked_cores okBackend 1 m56_routed).
  vm_compute. reflexivity.
Defined.

(** ** The default port mappings of the shim tiles *)

Lemma init_shim_tile dev raw t :
  shimTileOf dev t →
  ∃ c, tileAt (CoreConstraintPerCore (XAie_InitRoutingHandler dev raw)) t
       = Some c
       ∧ tile_type c = XAIE_AIE_SHIM
       ∧ Host2AIEPorts c = Some 0%nat ∧ Host2AIEPortCount c = 2
       ∧ AIE2HostPorts c = Some 1%nat ∧ AIE2HostPortCount c = 2.
Proof.
  intros (Hc & Hr & Hs & Ha). rewrite init_tileAt by done.
  eexists. split; [reflexivity|]. unfold initCoreConstraint.
  rewrite Hs, Ha. simpl. rewrite andb_false_r. done.
Qed.

(** X13.  The two default port-mapping arrays are shared by all shim tiles:
    after [XAie_InitRoutingHandler], marking the host-to-array port 3 as
    used on one shim tile makes [_XAie_findFirstMatchingStream] skip it on
    every shim tile, where it then offers port 7. *)
Theorem shim_default_ports_are_shared dev raw t1 t2 d cs :
  shimTileOf dev t1 → shimTileOf dev t2 →
  _XAie_findFirstMatchingStream (XAie_InitRoutingHandler dev raw) t2 d false
  = Some 3
  ∧ ∃ m', _XAie_updatePortAvailabilityForShimDmaToAie t1 3 false
            {| ri := XAie_InitRoutingHandler dev raw; calls := cs |}
          = Some (XAIE_OK, m')
          ∧ _XAie_findFirstMatchingStream (ri m') t2 d false = Some 7.
Proof.
  intros H1 H2.
  destruct (init_shim_tile dev raw t1 H1) as (c1 & Hc1 & Ht1 & Hp1 & Hn1 & _).
  destruct (init_shim_tile dev raw t2 H2) as (c2 & Hc2 & Ht2 & Hp2 & Hn2 & _).
  split.
  - unfold _XAie_findFirstMatchingStream, _XAie_isShimTile.
    rewrite Hc2. simpl. rewrite Ht2, Hp2, Hn2. reflexivity.
  - unfold _XAie_updatePortAvailabilityForShimDmaToAie.
    rewrite (bind_intro _ _ _ c1 {| ri := XAie_InitRoutingHandler dev raw;
                                    calls := cs |})
      by (by apply constraintOf_intro).
    unfold bind at 1, get_ri. cbn [ri].
    unfold bind at 1, lift_opt, _XAie_isShimTile. rewrite Hc1. simpl.
    rewrite Ht1, Hp1, Hn1. simpl.
    eexists. split; [reflexivity|]. cbn [ri].
    unfold _XAie_findFirstMatchingStream, _XAie_isShimTile.
    cbn [CoreConstraintPerCore with_mappings]. rewrite Hc2. simpl.
    rewrite Ht2, Hp2, Hn2. reflexivity.
Qed.

Lemma shim_default_ports_are_shared_witness :
  _XAie_findFirstMatchingStream (XAie_InitRoutingHandler dev56 (fun _ => raw0))
    (mkLoc 4 0) SOUTH false = Some 3
  ∧ ∃ m', _XAie_updatePortAvailabilityForShimDmaToAie (mkLoc 0 0) 3 false
            {| ri := XAie_InitRoutingHandler dev56 (fun _ => raw0);
               calls := [] |}
          = Some (XAIE_OK, m')
          ∧ _XAie_findFirstMatchingStream (ri m') (mkLoc 4 0) SOUTH false
            = Some 7.
Proof.
  apply (shim_default_ports_are_shared dev56 (fun _ => raw0)
           (mkLoc 0 0) (mkLoc 4 0) SOUTH []).
  - unfold shimTileOf. vm_compute. split_and!; congruence.
  - unfold shimTileOf. vm_compute. split_and!; congruence.
Defined.

(** ** What [XAie_MoveData] changes *)

Lemma set_BDState_same c : set_BDState (BDState c) c = c.
Proof. by destruct c. Qed.

Lemma onlyBDs_refl m : onlyBDs m m.
Proof.
  split; [|done]. intros t c Hc. exists (BDState c).
  by rewrite set_BDState_same.
Qed.

Lemma onlyBDs_trans m1 m2 m3 : onlyBDs m1 m2 → onlyBDs m2 m3 → onlyBDs m1 m3.
Proof.
  intros [T1 M1] [T2 M2]. split; [|congruence].
  intros t c Hc. destruct (T1 t c Hc) as (bd1 & H1).
  destruct (T2 t _ H1) as (bd2 & H2). by exists bd2.
Qed.

Lemma onlyBDs_ri m m' : ri m' = ri m → onlyBDs m m'.
Proof.
  intros H. split; [|by rewrite H]. intros t c Hc. exists (BDState c).
  by rewrite set_BDState_same, (tileOf_ri _ _ _ H).
Qed.

Lemma bd_pure {A} P (e : Exec A) :
  (∀ m a m', e m = Some (a, m') → m' = m) → ensures P onlyBDs e.
Proof. intros He m a m' H _. rewrite (He _ _ _ H). apply onlyBDs_refl. Qed.

Lemma bd_hw P be c : ensures P onlyBDs (hw be c).
Proof. intros m a m' H _. apply hw_inv in H. by apply onlyBDs_ri. Qed.

Lemma bd_hw_count P be c : ensures P onlyBDs (hw_count be c).
Proof.
  intros m a m' H _. unfold hw_count in H. injection H as _ <-.
  by apply onlyBDs_ri.
Qed.

Lemma bd_modifyConstraint P t bd :
  ensures P onlyBDs (modifyConstraint t (set_BDState bd)).
Proof.
  intros m a m' H _. apply modifyConstraint_inv in H as (c & Hc & ->).
  split; [|done]. intros t' c' Hc'.
  rewrite (tileOf_setTable_alter _ _ _ _ _ Hc).
  destruct (decide (t = t')) as [<-|].
  - exists bd. congruence.
  - exists (BDState c'). by rewrite set_BDState_same.
Qed.

(** Discharges [ensures _ onlyBDs e] goals along the structure of [e]. *)
Ltac bd_step :=
  first
    [ apply ensures_ret; apply onlyBDs_refl
    | apply bd_pure; intros ???;
      first [ intros [_ ->]%lift_opt_inv | intros [_ ->]%get_ri_inv
            | intros [_ ->]%constraintOf_inv ]; done
    | apply ensures_undef
    | apply bd_hw
    | apply bd_hw_count
    | apply bd_modifyConstraint
    | apply ensures_bind; [apply onlyBDs_trans | | intros ?]
    | match goal with
      | |- ensures _ _ (if ?b then _ else _) => destruct b
      | |- ensures _ _ (match ?x with _ => _ end) => destruct x
      end ].

Lemma bd_findAvailableBufferID P t :
  ensures P onlyBDs (_XAie_findAvailableBufferID t).
Proof. unfold _XAie_findAvailableBufferID. repeat bd_step. Qed.

Lemma bd_resetBDAvailability P t id :
  ensures P onlyBDs (_XAie_resetBDAvailability t id).
Proof. unfold _XAie_resetBDAvailability. cbv zeta. repeat bd_step. Qed.

Lemma bd_programOneDescriptor P be t o sz RC :
  ensures P onlyBDs (programOneDescriptor be t o sz RC).
Proof.
  unfold programOneDescriptor.
  repeat first [ apply bd_findAvailableBufferID | bd_step ].
Qed.

Lemma bd_programBufferDescriptors P be src so sz do dst :
  ensures P onlyBDs (_XAie_programBufferDescriptors be src so sz do dst).
Proof.
  unfold _XAie_programBufferDescriptors.
  repeat first [ apply bd_programOneDescriptor | bd_step ].
Qed.

Lemma bd_pendingLoop P be t ch : ∀ polls RC,
  ensures P onlyBDs (pendingLoop be polls t ch RC).
Proof.
  induction polls as [|polls IH]; intros RC; simpl; [apply ensures_undef|].
  apply ensures_bind; [apply onlyBDs_trans|apply bd_hw_count|].
  intros [rc n]. destruct (n =? 0); [bd_step|apply IH].
Qed.

(** X14.  [XAie_MoveData] changes nothing in the routing instance but
    buffer-descriptor bitmaps, whatever it returns: every tile keeps its
    port and channel bitmaps, its flags, its mapping pointers and its
    catalogue, and the shim port mappings are as they were. *)
Theorem move_data_touches_only_bds be polls src so sz do dst m rc m' :
  XAie_MoveData be polls src so sz do dst m = Some (rc, m') →
  (∀ t c, tileOf m t = Some c →
          ∃ bd, tileOf m' t = Some (set_BDState bd c))
  ∧ PortMappings (ri m') = PortMappings (ri m).
Proof.
  intros H.
  assert (ensures (fun _ => True) onlyBDs
            (XAie_MoveData be polls src so sz do dst)) as He.
  { unfold XAie_MoveData.
    repeat first [ apply bd_programBufferDescriptors
                 | apply bd_pendingLoop
                 | apply bd_resetBDAvailability
                 | bd_step ]. }
  by apply (He m rc m').
Qed.

Lemma move_data_touches_only_bds_witness :
  (∀ t c, tileOf m56_routed t = Some c →
          ∃ bd, tileOf
                  (default m56_routed
                     (machineOf (XAie_MoveData okBackend 1 (mkLoc 2 3) 0x2000
                                   128 0x2000 (mkLoc 4 3) m56_routed))) t
                = Some (set_BDState bd c))
  ∧ PortMappings
      (ri (default m56_routed
             (machineOf (XAie_MoveData okBackend 1 (mkLoc 2 3) 0x2000
                           128 0x2000 (mkLoc 4 3) m56_routed))))
    = PortMappings (ri m56_routed).
Proof.
  apply (move_data_touches_only_bds okBackend 1 (mkLoc 2 3) 0x2000 128 0x2000
           (mkLoc 4 3) m56_routed XAIE_OK).
  vm_compute. reflexivity.
Defined.

Lemma land_range b x n :
  0 ≤ n → 0 ≤ b < 2 ^ n → 0 ≤ Z.land b x < 2 ^ n.
Proof.
  intros Hn Hb.
  assert (Z.land b x = Z.land b x mod 2 ^ n) as ->.
  { apply Z.bits_inj'. intros j Hj.
    rewrite Z.testbit_mod_pow2, Z.land_spec by lia.
    destruct (Z.ltb_spec j n) as [|Hge]; [done|]. simpl.
    rewrite <- (Z.mod_small b (2 ^ n)) by lia.
    rewrite Z.testbit_mod_pow2 by lia.
    replace (j <? n) with false by (symmetry; apply Z.ltb_ge; lia). done. }
  apply Z.mod_pos_bound. lia.
Qed.

Lemma testbit_below b n j :
  0 ≤ n → 0 ≤ b < 2 ^ n → Z.testbit b j = true → j < n.
Proof.
  intros Hn Hb Hj.
  rewrite <- (Z.mod_small b (2 ^ n)), Z.testbit_mod_pow2 in Hj by lia.
  apply andb_true_iff in Hj as [Hlt _]. by apply Z.ltb_lt.
Qed.

(** The descriptor handed out on a tile with 16 descriptors is given back
    by the release, whatever hardware calls came in between. *)
Lemma bd_round_trip_ri m t c id m1 m2 :
  tileOf m t = Some c → 0 ≤ BDState c < 2 ^ 16 →
  _XAie_findAvailableBufferID t m = Some (id, m1) →
  ri m2 = ri m1 →
  0 ≤ id < 16
  ∧ ∃ m3, _XAie_resetBDAvailability t id m2 = Some (tt, m3)
          ∧ ri m3 = ri m ∧ calls m3 = calls m2.
Proof.
  intros Hc Hbd Hfind Hri.
  pose proof Hfind as Hfind'.
  apply findAvailableBufferID_inv in Hfind' as (c0 & bd & Hc0 & Hf & Hm1).
  assert (c0 = c) as -> by congruence.
  pose proof (findBufferID_bits _ _ _ Hf) as (Hid & Hset & _).
  pose proof (testbit_below _ 16 _ ltac:(lia) Hbd Hset) as Hlt.
  split; [lia|].
  assert (0 ≤ BDState c < 2 ^ 64) as Hbd64.
  { split; [lia|]. eapply Z.lt_trans; [apply Hbd|]. done. }
  pose proof (bd_allocate_round_trip m t c id m1 Hc Hbd64 Hfind ltac:(lia))
    as Hreset.
  destruct m1 as [r1 cs1], m2 as [r2 cs2]. simpl in Hri. subst r2.
  unfold _XAie_resetBDAvailability in *. cbv zeta in *.
  apply bind_inv in Hreset as (c1 & mm & E1 & Hreset).
  apply constraintOf_inv in E1 as [E1 ->].
  rewrite (bind_intro _ _ _ c1 {| ri := r1; calls := cs2 |})
    by (by apply constraintOf_intro).
  destruct (u8 id <? 16).
  - apply bind_inv in Hreset as (mask & mm & Emask & Hreset).
    apply lift_opt_inv in Emask as [Emask ->].
    unfold bind at 1, lift_opt. rewrite Emask.
    rewrite (modifyConstraint_intro _ _ _ c1) in Hreset by done.
    rewrite (modifyConstraint_intro _ _ _ c1) by done.
    injection Hreset as Hreset. eexists. split; [reflexivity|].
    split; [|done]. simpl. rewrite <- Hreset. done.
  - apply ret_inv in Hreset as [_ Hreset]. eexists. split; [reflexivity|].
    split; [|done]. by rewrite Hreset.
Qed.

Lemma programOneDescriptor_split be t o sz RC rc id m m' :
  programOneDescriptor be t o sz RC m = Some ((rc, id), m') →
  ∃ ma mb, ri ma = ri m ∧ _XAie_findAvailableBufferID t ma = Some (id, mb)
           ∧ ri m' = ri mb.
Proof.
  unfold programOneDescriptor. intros H.
  apply bind_inv in H as (rc1 & m1 & H1 & H). apply hw_inv in H1.
  apply bind_inv in H as (r0 & m0 & Hr & H). apply get_ri_inv in Hr as [-> ->].
  apply bind_inv in H as (shim & m0 & Hs & H).
  apply lift_opt_inv in Hs as [Hs ->].
  apply bind_inv in H as (rc2 & m2 & H2 & H).
  assert (ri m2 = ri m1) as E2.
  { destruct shim; [destruct (BackendType _)|]; by apply hw_inv in H2. }
  apply bind_inv in H as (rc3 & m3 & H3 & H). apply hw_inv in H3.
  apply bind_inv in H as (id' & m4 & H4 & H).
  apply bind_inv in H as (rc4 & m5 & H5 & H). apply hw_inv in H5.
  apply ret_inv in H as [[= _ ->] ->].
  exists m3, m4. split_and!; [congruence|done|done].
Qed.

Lemma pendingLoop_ri be t ch : ∀ polls RC rc m m',
  pendingLoop be polls t ch RC m = Some (rc, m') → ri m' = ri m.
Proof.
  induction polls as [|polls IH]; intros RC rc m m' H; simpl in H; [done|].
  apply bind_inv in H as ([rc1 n] & m1 & H1 & H).
  unfold hw_count in H1. injection H1 as _ _ <-.
  destruct (n =? 0).
  - by apply ret_inv in H as [_ ->].
  - by apply IH in H.
Qed.

Lemma u16_small z : 0 ≤ z < 16 → u16 z = z.
Proof. intros H. unfold u16. apply Z.mod_small. lia. Qed.

(** X15.  A successful [XAie_MoveData] between tiles of 16 buffer
    descriptors each (shim and compute tiles) gives back the two
    descriptors it took: it leaves the routing instance exactly as it
    was. *)
Theorem move_data_gives_descriptors_back
  be polls src so sz do dst m m' cs cd :
  tileOf m src = Some cs → tileOf m dst = Some cd →
  0 ≤ BDState cs < 2 ^ 16 → 0 ≤ BDState cd < 2 ^ 16 →
  XAie_MoveData be polls src so sz do dst m = Some (XAIE_OK, m') →
  ri m' = ri m.
Proof.
  intros Hcs Hcd Hbs Hbd H. unfold XAie_MoveData in H.
  apply bind_inv in H as ([rc bds] & mP & Hprog & H).
  destruct (negb (rc =? XAIE_OK)) eqn:Erc;
    [by apply ret_inv in H as [? _]|].
  unfold _XAie_programBufferDescriptors in Hprog.
  apply bind_inv in Hprog as ([RC1 id1] & ms & Hs & Hprog).
  destruct (negb (RC1 =? XAIE_OK));
    [apply ret_inv in Hprog as [[= -> _] _]; done|].
  apply bind_inv in Hprog as ([RC2 id2] & md & Hd & Hprog).
  destruct (negb (RC2 =? XAIE_OK));
    [apply ret_inv in Hprog as [[= -> _] _]; done|].
  apply ret_inv in Hprog as [[= _ ->] ->]. cbn [sourceBD destinationBD] in H.
  apply programOneDescriptor_split in Hs as (a1 & b1 & Ea1 & Hf1 & Eb1).
  apply programOneDescriptor_split in Hd as (a2 & b2 & Ea2 & Hf2 & Eb2).
  apply bind_inv in H as (sc & m0 & Hsc & H).
  apply constraintOf_inv in Hsc as [Hsc ->].
  apply bind_inv in H as (lk & m0 & Hlk & H).
  apply lift_opt_inv in Hlk as [Hlk ->].
  destruct lk as [p|]; [|by apply ret_inv in H as [? _]].
  apply bind_inv in H as (r0 & m0 & Hr & H). apply get_ri_inv in Hr as [-> ->].
  apply bind_inv in H as (shimS & m0 & HsS & H).
  apply lift_opt_inv in HsS as [HsS ->].
  apply bind_inv in H as (chS & m0 & HchS & H).
  assert (m0 = md) as ->.
  { destruct shimS; [|by apply ret_inv in HchS as [_ ->]].
    apply bind_inv in HchS as (x & m1 & Hx & HchS).
    apply lift_opt_inv in Hx as [_ ->]. by apply ret_inv in HchS as [_ ->]. }
  apply bind_inv in H as (shimD & m0 & HsD & H).
  apply lift_opt_inv in HsD as [HsD ->].
  apply bind_inv in H as (chD & m0 & HchD & H).
  assert (m0 = md) as ->.
  { destruct shimD; [|by apply ret_inv in HchD as [_ ->]].
    apply bind_inv in HchD as (x & m1 & Hx & HchD).
    apply lift_opt_inv in Hx as [_ ->]. by apply ret_inv in HchD as [_ ->]. }
  apply bind_inv in H as (rc1 & m1 & H1 & H). apply hw_inv in H1.
  apply bind_inv in H as (rc2 & m2 & H2 & H). apply hw_inv in H2.
  cbv zeta in H.
  destruct (negb (Z.lor (Z.lor XAIE_OK rc1) rc2 =? XAIE_OK));
    [by apply ret_inv in H as [? _]|].
  apply bind_inv in H as (rc3 & m3 & H3 & H). apply hw_inv in H3.
  apply bind_inv in H as (rc4 & m4 & H4 & H). apply hw_inv in H4.
  destruct (negb (Z.lor (Z.lor (Z.lor (Z.lor XAIE_OK rc1) rc2) rc3) rc4
                  =? XAIE_OK));
    [by apply ret_inv in H as [? _]|].
  apply bind_inv in H as (rc5 & m5 & H5 & H). apply pendingLoop_ri in H5.
  destruct (negb (rc5 =? XAIE_OK)); [by apply ret_inv in H as [? _]|].
  apply bind_inv in H as (u1 & m6 & H6 & H).
  apply bind_inv in H as (u2 & m7 & H7 & H).
  apply ret_inv in H as [_ ->].
  (* the tile of the source when its descriptor is taken *)
  assert (tileOf a1 src = Some cs) as Hcs1
    by (by rewrite (tileOf_ri _ _ _ Ea1)).
  pose proof Hf1 as Hf1'.
  apply findAvailableBufferID_inv in Hf1' as (c0 & bd1 & Hc0 & Hfb1 & Hb1).
  assert (c0 = cs) as -> by congruence.
  apply findBufferID_upto48 in Hfb1 as (_ & _ & Hbd1).
  (* the tile of the destination when its descriptor is taken *)
  assert (∃ cd2, tileOf a2 dst = Some cd2 ∧ 0 ≤ BDState cd2 < 2 ^ 16)
    as (cd2 & Hcd2 & Hbd2).
  { rewrite (tileOf_ri _ _ _ Ea2), (tileOf_ri _ _ _ Eb1), Hb1.
    rewrite (tileOf_setTable_alter _ _ _ _ _ Hcs1).
    destruct (decide (src = dst)) as [<-|].
    - eexists. split; [reflexivity|]. simpl. rewrite Hbd1.
      by apply land_range.
    - exists cd. by rewrite (tileOf_ri _ _ _ Ea1). }
  destruct (bd_round_trip_ri a2 dst cd2 id2 b2 m5 Hcd2 Hbd2 Hf2)
    as (Hid2 & m6' & Hr6 & Eri6 & _); [congruence|].
  rewrite (u16_small id2 Hid2) in H6.
  assert (m6 = m6') as -> by congruence.
  destruct (bd_round_trip_ri a1 src cs id1 b1 m6' Hcs1 Hbs Hf1)
    as (Hid1 & m7' & Hr7 & Eri7 & _); [congruence|].
  rewrite (u16_small id1 Hid1) in H7.
  assert (m7 = m7') as -> by congruence.
  congruence.
Qed.

Lemma move_data_gives_descriptors_back_witness :
  ri (default m56_routed
        (machineOf (XAie_MoveData okBackend 1 (mkLoc 2 3) 0x2000 128 0x2000
                      (mkLoc 4 3) m56_routed)))
  = ri m56_routed.
Proof.
  eapply (move_data_gives_descriptors_back okBackend 1 (mkLoc 2 3) 0x2000 128
            0x2000 (mkLoc 4 3) m56_routed).
  - vm_compute. reflexivity.
  - vm_compute. reflexivity.
  - vm_compute. split; [discriminate|reflexivity].
  - vm_compute. split; [discriminate|reflexivity].
  - vm_compute. reflexivity.
Defined.

(** *** Waiting for a transfer *)

Lemma dmaWaitLoop_inv be t ch : ∀ polls m u m',
  dmaWaitLoop be polls t ch m = Some (u, m') →
  ri m' = ri m
  ∧ ∃ n, calls m'
         = calls m ++ replicate (S n) (XAie_DmaGetPendingBdCount t ch DMA_S2MM)
       ∧ pendingAfter be (calls m) (XAie_DmaGetPendingBdCount t ch DMA_S2MM) n
         = 0.
Proof.
  induction polls as [|polls IH]; intros m u m' H; [done|].
  simpl in H. apply bind_inv in H as ([rc n0] & m1 & Hc & H).
  unfold hw_count in Hc. injection Hc as <- <- <-.
  destruct (_ =? 0) eqn:E.
  - apply ret_inv in H as [_ ->]. split; [done|]. exists 0%nat.
    unfold pendingAfter. simpl. rewrite app_nil_r. split; [done|]. lia.
  - apply IH in H as [Hri (n & Hcalls & Hz)]. simpl in *.
    split; [done|]. exists (S n). rewrite Hcalls.
    unfold pendingAfter in *. simpl. rewrite <- !app_assoc in *. done.
Qed.

Lemma dmaWaitLoop_run be t ch : ∀ polls n m,
  (n < polls)%nat →
  (∀ k, (k < n)%nat →
     pendingAfter be (calls m) (XAie_DmaGetPendingBdCount t ch DMA_S2MM) k
     ≠ 0) →
  pendingAfter be (calls m) (XAie_DmaGetPendingBdCount t ch DMA_S2MM) n = 0 →
  dmaWaitLoop be polls t ch m
  = Some (tt, {| ri := ri m;
                 calls := calls m ++ replicate (S n)
                            (XAie_DmaGetPendingBdCount t ch DMA_S2MM) |}).
Proof.
  induction polls as [|polls IH]; intros n m Hn Hbusy Hdone; [lia|].
  simpl. unfold bind, hw_count. destruct n as [|n].
  - unfold pendingAfter in Hdone. simpl in Hdone. rewrite app_nil_r in Hdone.
    rewrite Hdone. simpl. done.
  - pose proof (Hbusy 0%nat ltac:(lia)) as H0. unfold pendingAfter in H0.
    simpl in H0. rewrite app_nil_r in H0.
    apply Z.eqb_neq in H0. rewrite H0.
    rewrite (IH n); simpl.
    + by rewrite <- app_assoc.
    + lia.
    + intros k Hk. specialize (Hbusy (S k) ltac:(lia)).
      unfold pendingAfter in *. simpl in Hbusy. by rewrite <- app_assoc.
    + unfold pendingAfter in *. simpl in Hdone. by rewrite <- app_assoc.
Qed.

(** For a catalogued pair the call is the polling loop on the channel
    [waitChannel] selects. *)
Lemma routeDmaWait_found be polls src t isS2MM m c p ch :
  tileOf m src = Some c →
  _XAie_findRouteInRouteDB (routesDB c) src t = Some (Some p) →
  waitChannel (ri m) t p = Some ch →
  XAie_RouteDmaWait be polls src t isS2MM m
  = (dmaWaitLoop be polls t ch ;;; ret XAIE_OK) m.
Proof.
  intros Hc Hfind Hch. unfold XAie_RouteDmaWait.
  rewrite (bind_intro _ _ _ _ _ (constraintOf_intro _ _ _ Hc)).
  rewrite Hfind. cbn [lift_opt bind].
  unfold waitChannel in Hch.
  unfold bind at 1 2 3, get_ri, lift_opt.
  destruct (_XAie_isShimTile (ri m) t) as [shim|]; [|done].
  simpl in Hch. destruct shim.
  - unfold bind at 1, lift_opt.
    destruct (findAvailableChannelIDforShimTile _ _ _ _) as [ch0|]; [|done].
    simpl in Hch. injection Hch as <-. done.
  - injection Hch as <-. done.
Qed.

(** X16.  [XAie_RouteDmaWait] for a pair that is not in the source tile's
    catalogue returns [XAIE_ERR] at once, with no hardware call.  For a
    catalogued pair it only reads the pending count of one S2MM channel of
    the destination tile until a read reports zero: it returns [XAIE_OK]
    whatever the return codes of the reads, leaves the routing instance as
    it is, and it does return when one of the first [polls] reads reports
    zero. *)
Theorem route_dma_wait_only_polls be polls src t isS2MM m c found :
  tileOf m src = Some c →
  _XAie_findRouteInRouteDB (routesDB c) src t = Some found →
  match found with
  | None => XAie_RouteDmaWait be polls src t isS2MM m = Some (XAIE_ERR, m)
  | Some p =>
      ∀ ch, waitChannel (ri m) t p = Some ch →
        let read := XAie_DmaGetPendingBdCount t ch DMA_S2MM in
        (∀ rc m',
           XAie_RouteDmaWait be polls src t isS2MM m = Some (rc, m') →
           rc = XAIE_OK ∧ ri m' = ri m
           ∧ ∃ n, calls m' = calls m ++ replicate (S n) read
                  ∧ pendingAfter be (calls m) read n = 0)
        ∧ (∀ n, (n < polls)%nat →
             (∀ k, (k < n)%nat → pendingAfter be (calls m) read k ≠ 0) →
             pendingAfter be (calls m) read n = 0 →
             XAie_RouteDmaWait be polls src t isS2MM m
             = Some (XAIE_OK, {| ri := ri m;
                                 calls := calls m ++ replicate (S n) read |}))
  end.
Proof.
  intros Hc Hfind. destruct found as [p|].
  - intros ch Hch read.
    rewrite (routeDmaWait_found be polls src t isS2MM m c p ch Hc Hfind Hch).
    split.
    + intros rc m' H. apply bind_inv in H as ([] & m1 & Hloop & H).
      apply ret_inv in H as [-> ->].
      apply dmaWaitLoop_inv in Hloop as [Hri Hn]. done.
    + intros n Hn Hbusy Hdone. unfold bind.
      by rewrite (dmaWaitLoop_run be t ch polls n m Hn Hbusy Hdone).
  - unfold XAie_RouteDmaWait.
    rewrite (bind_intro _ _ _ _ _ (constraintOf_intro _ _ _ Hc)).
    by rewrite Hfind.
Qed.

Lemma route_dma_wait_only_polls_witness :
  XAie_RouteDmaWait okBackend 1 (mkLoc 2 3) (mkLoc 4 3) true m56_routed
  = Some (XAIE_OK,
          {| ri := ri m56_routed;
             calls := calls m56_routed
                      ++ [XAie_DmaGetPendingBdCount (mkLoc 4 3) 0 DMA_S2MM] |}).
Proof.
  destruct (tileOf m56_routed (mkLoc 2 3)) as [c|] eqn:Hc;
    [|by vm_compute in Hc].
  destruct (_XAie_findRouteInRouteDB (routesDB c) (mkLoc 2 3) (mkLoc 4 3))
    as [[p|]|] eqn:Hf.
  - pose proof (route_dma_wait_only_polls okBackend 1 (mkLoc 2 3) (mkLoc 4 3)
                  true m56_routed c (Some p) Hc Hf) as H.
    simpl in H.
    assert (waitChannel (ri m56_routed) (mkLoc 4 3) p = Some 0) as Hch.
    { vm_compute in Hc. injection Hc as <-. vm_compute in Hf.
      injection Hf as <-. vm_compute. reflexivity. }
    destruct (H 0 Hch) as [_ Hrun].
    apply (Hrun 0%nat); [lia | intros k Hk; lia | reflexivity].
  - vm_compute in Hc. injection Hc as <-. vm_compute in Hf. discriminate.
  - vm_compute in Hc. injection Hc as <-. vm_compute in Hf. discriminate.
Defined.

(** *** Host-edge constraints *)

Lemma forEach_app {A} (body : A → Exec unit) (l1 l2 : list A) m :
  forEach (l1 ++ l2) body m
  = (forEach l1 body ;;; forEach l2 body) m.
Proof.
  revert m. induction l1 as [|a l1 IH]; intros m; [done|].
  simpl. unfold bind. destruct (body a m) as [[[] m1]|]; [|done].
  by rewrite IH.
Qed.

Lemma forEach_one {A} (body : A → Exec unit) (a : A) m :
  forEach [a] body m = body a m.
Proof.
  simpl. unfold bind. destruct (body a m) as [[[] m1]|]; done.
Qed.

Lemma resetColumns_run m :
  wfInstance (ri m) = true → 0 < NumRows (ri m) →
  ∀ n : nat, Z.of_nat n ≤ NumCols (ri m) →
  ∃ m', forEach (upto (Z.of_nat n))
          (fun i => modifyConstraint (XAie_TileLoc i 0) clearEdges) m
        = Some (tt, m')
      ∧ calls m' = calls m
      ∧ PortMappings (ri m') = PortMappings (ri m)
      ∧ ∀ t c, tileOf m t = Some c →
          tileOf m' t
          = Some (if (Row t =? 0) && (Col t <? Z.of_nat n)
                  then clearEdges c else c).
Proof.
  intros Hwf Hrows. pose proof (wfInstance_dims _ Hwf) as [Hcols _].
  induction n as [|n IH]; intros Hn.
  - exists m. split_and!; try done. intros t c Ht.
    pose proof (tileAt_wfInstance_range _ _ _ Hwf Ht) as [Hc _].
    replace (Col t <? Z.of_nat 0) with false by (symmetry; apply Z.ltb_ge; lia).
    by rewrite andb_false_r.
  - destruct IH as (m1 & Hrun & Hcalls & Hpm & Htiles); [lia|].
    rewrite Nat2Z.inj_succ, <- Z.add_1_r, upto_snoc by lia.
    rewrite forEach_app. unfold bind at 1. rewrite Hrun.
    rewrite forEach_one.
    assert (XAie_TileLoc (Z.of_nat n) 0 = mkLoc (Z.of_nat n) 0) as ->.
    { unfold XAie_TileLoc, u8. f_equal. apply Z.mod_small. lia. }
    destruct (wfInstance_tileAt (ri m) (mkLoc (Z.of_nat n) 0) Hwf) as [c0 Hc0];
      [simpl; lia | simpl; lia |].
    pose proof (Htiles _ _ Hc0) as H1. simpl in H1.
    replace (Z.of_nat n <? Z.of_nat n) with false in H1
      by (symmetry; apply Z.ltb_ge; lia).
    simpl in H1.
    rewrite (modifyConstraint_intro _ _ _ _ H1).
    eexists. split; [reflexivity|]. split_and!; try done.
    intros t c Ht. rewrite (tileOf_setTable_alter _ _ _ _ _ H1).
    destruct (decide (mkLoc (Z.of_nat n) 0 = t)) as [<-|Hne].
    + simpl. replace (Z.of_nat n <? Z.of_nat n + 1) with true
        by (symmetry; apply Z.ltb_lt; lia).
      simpl. unfold tileOf in Hc0, Ht. congruence.
    + rewrite (Htiles _ _ Ht). do 2 f_equal.
      destruct (Row t =? 0) eqn:Er; [|done]. simpl.
      apply Z.eqb_eq in Er.
      destruct (Col t <? Z.of_nat n) eqn:E1, (Col t <? Z.of_nat n + 1) eqn:E2;
        try done.
      * apply Z.ltb_lt in E1. apply Z.ltb_ge in E2. lia.
      * apply Z.ltb_ge in E1. apply Z.ltb_lt in E2.
        exfalso. apply Hne. destruct t as [ct rt]. simpl in *. f_equal; lia.
Qed.

Lemma channelOfPort_nil p arr : channelOfPort p (upto 0) arr = Some None.
Proof. done. Qed.

(** X17.  [XAie_ResetHostEdgeConstraints] takes the port mappings off
    every tile of row 0 (null pointer, count 0), changes no other field, no
    other row and no mapping array, and makes no hardware call.  It does
    not put back the default mappings of [XAie_InitRoutingHandler]: on a
    row-0 tile every port then maps to channel 0, and the search for a DMA
    stream reads the tile's channel bitmap instead of a mapping. *)
Theorem reset_host_edge_clears_row0 m :
  wfInstance (ri m) = true → 0 < NumRows (ri m) →
  ∃ m', XAie_ResetHostEdgeConstraints m = Some (XAIE_OK, m')
    ∧ calls m' = calls m
    ∧ PortMappings (ri m') = PortMappings (ri m)
    ∧ (∀ t c, tileOf m t = Some c →
         tileOf m' t = Some (if Row t =? 0 then clearEdges c else c))
    ∧ (∀ t c, tileOf m t = Some c → Row t = 0 →
         (∀ p h, findAvailableChannelIDforShimTile (ri m') t p h = Some 0)
         ∧ ∀ e, _XAie_findFirstMatchingStream (ri m') t DMA e
                = Some (firstBit (upto 8)
                          (if e then S2MM_State c else MM2S_State c))).
Proof.
  intros Hwf Hrows. pose proof (wfInstance_dims _ Hwf) as [Hcols _].
  destruct (resetColumns_run m Hwf Hrows (Z.to_nat (NumCols (ri m))))
    as (m' & Hrun & Hcalls & Hpm & Htiles); [lia|].
  rewrite Z2Nat.id in Hrun, Htiles by lia.
  assert (∀ t c, tileOf m t = Some c →
            tileOf m' t = Some (if Row t =? 0 then clearEdges c else c))
    as Hall.
  { intros t c Ht. rewrite (Htiles _ _ Ht).
    pose proof (tileAt_wfInstance_range _ _ _ Hwf Ht) as [Hc _].
    replace (Col t <? NumCols (ri m)) with true
      by (symmetry; apply Z.ltb_lt; lia).
    by rewrite andb_true_r. }
  exists m'. split_and!; try done.
  - unfold XAie_ResetHostEdgeConstraints, bind, get_ri. by rewrite Hrun.
  - intros t c Ht Hr. pose proof (Hall _ _ Ht) as H1.
    rewrite Hr in H1. simpl in H1. unfold tileOf in H1. split.
    + intros p h. unfold findAvailableChannelIDforShimTile.
      rewrite H1. simpl. by destruct h.
    + intros e. unfold _XAie_findFirstMatchingStream, _XAie_isShimTile.
      rewrite H1. simpl.
      destruct (bool_decide _); simpl; by destruct e.
Qed.

Lemma reset_host_edge_clears_row0_witness :
  ∃ m', XAie_ResetHostEdgeConstraints m56 = Some (XAIE_OK, m')
    ∧ calls m' = calls m56
    ∧ PortMappings (ri m') = PortMappings (ri m56)
    ∧ (∀ t c, tileOf m56 t = Some c →
         tileOf m' t = Some (if Row t =? 0 then clearEdges c else c))
    ∧ (∀ t c, tileOf m56 t = Some c → Row t = 0 →
         (∀ p h, findAvailableChannelIDforShimTile (ri m') t p h = Some 0)
         ∧ ∀ e, _XAie_findFirstMatchingStream (ri m') t DMA e
                = Some (firstBit (upto 8)
                          (if e then S2MM_State c else MM2S_State c))).
Proof.
  apply (reset_host_edge_clears_row0 m56); [reflexivity | reflexivity].
Defined.

Lemma lastEdge_snoc col h l C :
  lastEdge col h (l ++ [C])
  = if decide (u8 (column C) = col ∧ HostToAie C = h) then Some C
    else lastEdge col h l.
Proof.
  unfold lastEdge. rewrite list.filter_app.
  rewrite filter_cons, filter_nil.
  destruct (decide _); [by rewrite last_snoc | by rewrite app_nil_r].
Qed.

Lemma lastEdge_dir col h l C : lastEdge col h l = Some C → HostToAie C = h.
Proof.
  unfold lastEdge. intros H. apply last_Some_elem_of in H.
  apply list_elem_of_filter in H as [[_ H] _]. done.
Qed.

Lemma installEdge_absorbs C A B c :
  (∀ A', A = Some A' → HostToAie A' = false) →
  (∀ B', B = Some B' → HostToAie B' = true) →
  installEdge C (installLast A (installLast B c))
  = if HostToAie C then installLast A (installLast (Some C) c)
    else installLast (Some C) (installLast B c).
Proof.
  intros HA HB. unfold installLast, installEdge.
  destruct A as [A'|]; [rewrite (HA A' eq_refl)|];
    (destruct B as [B'|]; [rewrite (HB B' eq_refl)|]);
    destruct (HostToAie C); done.
Qed.

Lemma configEdges_run : ∀ l m,
  (∀ C, C ∈ l → is_Some (tileOf m (XAie_TileLoc (column C) 0))) →
  ∃ m', forEach l (fun Constraint =>
          modifyConstraint (XAie_TileLoc (column Constraint) 0)
            (installEdge Constraint)) m
        = Some (tt, m')
      ∧ calls m' = calls m
      ∧ PortMappings (ri m') = PortMappings (ri m)
      ∧ ∀ t c, tileOf m t = Some c →
          tileOf m' t
          = Some (if Row t =? 0
                  then installLast (lastEdge (Col t) false l)
                         (installLast (lastEdge (Col t) true l) c)
                  else c).
Proof.
  induction l as [|C l IH] using rev_ind; intros m Hin.
  - exists m. split_and!; try done. intros t c Ht. by destruct (Row t =? 0).
  - destruct (IH m) as (m1 & Hrun & Hcalls & Hpm & Htiles).
    { intros C' HC'. apply Hin. apply elem_of_app. by left. }
    rewrite forEach_app. unfold bind at 1. rewrite Hrun. rewrite forEach_one.
    destruct (Hin C) as [c0 Hc0]; [apply elem_of_app; right; by left|].
    pose proof (Htiles _ _ Hc0) as H1. simpl in H1.
    rewrite (modifyConstraint_intro _ _ _ _ H1).
    eexists. split; [reflexivity|]. split_and!; try done.
    intros t c Ht. rewrite (tileOf_setTable_alter _ _ _ _ _ H1).
    destruct (decide (XAie_TileLoc (column C) 0 = t)) as [<-|Hne].
    + simpl. assert (c0 = c) as -> by (unfold tileOf in *; congruence).
      f_equal. rewrite installEdge_absorbs.
      * rewrite !lastEdge_snoc.
        destruct (HostToAie C) eqn:Eh.
        -- rewrite (decide_False (P := _ ∧ true = false)) by (by intros [_ ?]).
           rewrite (decide_True (P := _ ∧ true = true)) by done. done.
        -- rewrite (decide_True (P := _ ∧ false = false)) by done.
           rewrite (decide_False (P := _ ∧ false = true)) by (by intros [_ ?]).
           done.
      * intros A' HA. by apply lastEdge_dir in HA.
      * intros B' HB. by apply lastEdge_dir in HB.
    + rewrite (Htiles _ _ Ht). f_equal.
      destruct (Row t =? 0) eqn:Er; [|done]. apply Z.eqb_eq in Er.
      rewrite !lastEdge_snoc.
      assert (u8 (column C) ≠ Col t) as Hc.
      { intros Heq. apply Hne. destruct t as [ct rt]. simpl in *.
        unfold XAie_TileLoc. by rewrite Heq, Er. }
      rewrite !decide_False by (by intros [? _]). done.
Qed.

(** X18.  [XAie_ConfigHostEdgeConstraints] installs, on the row-0 tile of
    each named column and for each direction, the mapping pointer and the
    count of the last constraint given for that column and direction; it
    changes no other field, no other tile and no mapping array, and makes
    no hardware call.  The channel lookup of that tile and direction then
    reads the installed array. *)
Theorem config_host_edge_last_wins l m :
  (∀ C, C ∈ l → is_Some (tileOf m (XAie_TileLoc (column C) 0))) →
  ∃ m', XAie_ConfigHostEdgeConstraints l m = Some (XAIE_OK, m')
    ∧ calls m' = calls m
    ∧ PortMappings (ri m') = PortMappings (ri m)
    ∧ (∀ t c, tileOf m t = Some c →
         tileOf m' t
         = Some (if Row t =? 0
                 then installLast (lastEdge (Col t) false l)
                        (installLast (lastEdge (Col t) true l) c)
                 else c))
    ∧ (∀ t c h C p, tileOf m t = Some c → Row t = 0 →
         lastEdge (Col t) h l = Some C →
         findAvailableChannelIDforShimTile (ri m') t p h
         = channelIn (ri m) (channelPortMappings C)
             (u8 (channelPortMappingCount C)) p).
Proof.
  intros Hin. destruct (configEdges_run l m Hin)
    as (m' & Hrun & Hcalls & Hpm & Htiles).
  exists m'. split_and!; try done.
  - unfold XAie_ConfigHostEdgeConstraints, bind. by rewrite Hrun.
  - intros t c h C p Ht Hr HC. pose proof (Htiles _ _ Ht) as H1.
    rewrite Hr in H1. simpl in H1. unfold tileOf in H1.
    unfold findAvailableChannelIDforShimTile, channelIn, mappingArray.
    rewrite H1, Hpm. simpl.
    pose proof (lastEdge_dir _ _ _ _ HC) as Hh.
    destruct h.
    + rewrite HC. simpl.
      destruct (lastEdge (Col t) false l) as [A|] eqn:HA; simpl.
      * apply lastEdge_dir in HA. unfold installEdge. rewrite HA, Hh. done.
      * unfold installEdge. rewrite Hh. done.
    + rewrite HC. simpl. unfold installEdge. rewrite Hh. done.
Qed.

Lemma config_host_edge_last_wins_witness :
  let user := {| column := 1; channelPortMappings := Some 0%nat;
                 channelPortMappingCount := 2; HostToAie := true |} in
  ∃ m', XAie_ConfigHostEdgeConstraints [user] m56 = Some (XAIE_OK, m')
    ∧ findAvailableChannelIDforShimTile (ri m') (mkLoc 1 0) 7 true = Some 1.
Proof.
  intros user.
  destruct (config_host_edge_last_wins [user] m56) as (m' & Hrun & _ & _ & _ & Hlook).
  { intros C HC. apply list_elem_of_singleton in HC as ->. by eexists. }
  exists m'. split; [done|].
  destruct (tileOf m56 (mkLoc 1 0)) as [c|] eqn:Hc; [|by vm_compute in Hc].
  rewrite (Hlook (mkLoc 1 0) c true user 7 Hc eq_refl eq_refl).
  vm_compute. reflexivity.
Defined.

(** *** Resetting the switches *)

Lemma issueUntilFailure_app rc_of : ∀ d1 d2 cs,
  issueUntilFailure rc_of (d1 ++ d2) cs
  = match issueUntilFailure rc_of d1 cs with
    | (None, cs') => issueUntilFailure rc_of d2 cs'
    | stop => stop
    end.
Proof.
  induction d1 as [|c d1 IH]; intros d2 cs; [done|].
  simpl. destruct (negb _); [done|]. apply IH.
Qed.

Lemma sweepEach_due {A} rc_of (g : A → list SilentCall) (body : A → Sweep) :
  ∀ l : list A,
  (∀ a cs, a ∈ l → body a cs = Some (issueUntilFailure rc_of (g a) cs)) →
  ∀ cs, sweepEach l body cs = Some (issueUntilFailure rc_of (l ≫= g) cs).
Proof.
  induction l as [|a l IH]; intros Hbody cs; [done|].
  rewrite bind_cons. simpl. rewrite Hbody by (by left).
  rewrite issueUntilFailure_app.
  destruct (issueUntilFailure rc_of (g a) cs) as [[rc|] cs']; [done|].
  apply IH. intros a' cs0 Ha'. apply Hbody. by right.
Qed.

Lemma bind_filter {A B} (f : A → bool) (g : A → list B) : ∀ l : list A,
  l ≫= (fun x => if f x then g x else [])
  = filter (fun x => f x = true) l ≫= g.
Proof.
  induction l as [|a l IH]; [done|].
  rewrite filter_cons, bind_cons, IH.
  destruct (f a) eqn:E.
  - rewrite decide_True by done. by rewrite bind_cons.
  - rewrite decide_False by done. done.
Qed.

Lemma resetTile_due rc_of t c cs :
  resetTile rc_of t c cs = Some (issueUntilFailure rc_of (dueOnTile t c) cs).
Proof.
  unfold resetTile, dueOnTile.
  apply sweepEach_due. intros slaveDir cs1 _.
  apply sweepEach_due. intros masterDir cs2 _.
  rewrite <- (bind_filter (bitSet (slaveBitfield slaveDir c))
                (fun bit =>
                   filter (fun bitM =>
                             bitSet (masterBitfield masterDir c) bitM = true)
                     (upto 8)
                   ≫= fun bitM =>
                        [XAie_SStrmConnCctDisable t slaveDir bit masterDir
                           bitM])).
  apply sweepEach_due. intros bit cs3 _.
  destruct (bitSet (slaveBitfield slaveDir c) bit); [|done].
  rewrite <- (bind_filter (bitSet (masterBitfield masterDir c))
                (fun bitM =>
                   [XAie_SStrmConnCctDisable t slaveDir bit masterDir bitM])).
  apply sweepEach_due. intros bitM cs4 _.
  destruct (bitSet (masterBitfield masterDir c) bitM); [|done].
  unfold disableOne. simpl. by destruct (negb _).
Qed.

(** X19.  [XAie_RoutingSwitchReset] on tiles of the instance only reads the
    instance.  It makes the silenced disable calls due on the listed tiles
    (for each listed tile that is not auto-configured, in the order
    DMA, SOUTH, WEST, NORTH, EAST of slave and of master directions, one
    call per pair of a bit set in the slave bitmap and a bit set in the
    master bitmap, the DMA bitmaps being [ShimMM2S_State] and
    [ShimS2MM_State]) one after the other up to the first that fails.  It
    returns [XAIE_ERR] when a call failed and [XAIE_OK] otherwise. *)
Theorem switch_reset_issues_due_calls rc_of r tiles :
  (∀ t, t ∈ tiles → is_Some (tileAt (CoreConstraintPerCore r) t)) →
  XAie_RoutingSwitchReset rc_of r tiles
  = Some (default XAIE_OK (issueUntilFailure rc_of (dueCalls r tiles) []).1,
          (issueUntilFailure rc_of (dueCalls r tiles) []).2).
Proof.
  intros Hin. unfold XAie_RoutingSwitchReset, dueCalls.
  rewrite (sweepEach_due rc_of
             (fun t => match tileAt (CoreConstraintPerCore r) t with
                       | Some c => if isAutoConfigured c then []
                                   else dueOnTile t c
                       | None => []
                       end)).
  - by destruct (issueUntilFailure _ _ _) as [[rc|] cs].
  - intros t cs Ht. destruct (Hin t Ht) as [c ->].
    destruct (isAutoConfigured c); [done|]. apply resetTile_due.
Qed.

Lemma switch_reset_issues_due_calls_witness :
  XAie_RoutingSwitchReset (fun _ _ => XAIE_OK) (ri m56_routed)
    [mkLoc 2 3; mkLoc 0 0]
  = Some (XAIE_OK, dueCalls (ri m56_routed) [mkLoc 0 0]).
Proof.
  rewrite (switch_reset_issues_due_calls (fun _ _ => XAIE_OK) (ri m56_routed)
             [mkLoc 2 3; mkLoc 0 0]).
  - vm_compute. reflexivity.
  - intros t Ht.
    assert (t = mkLoc 2 3 ∨ t = mkLoc 0 0) as [-> | ->].
    { apply elem_of_cons in Ht as [->|Ht]; [by left|].
      apply list_elem_of_singleton in Ht as ->. by right. }
    + destruct (tileAt _ _) eqn:E; [done|]. vm_compute in E. discriminate.
    + destruct (tileAt _ _) eqn:E; [done|]. vm_compute in E. discriminate.
Defined.

(** *** The fixed part of the instance *)

Lemma sameLayout_refl c : sameLayout c c.
Proof. by repeat split. Qed.

Lemma sameLayout_trans c1 c2 c3 :
  sameLayout c1 c2 → sameLayout c2 c3 → sameLayout c1 c3.
Proof.
  unfold sameLayout. intros H1 H2. destruct_and!.
  split_and!; try congruence. auto.
Qed.

Lemma forallb_alter {A} (P : A → bool) (g : A → A) :
  (∀ x, P (g x) = P x) →
  ∀ l i, forallb P (alter g i l) = forallb P l.
Proof.
  intros Hg. induction l as [|x l IH]; intros [|i]; simpl; try done.
  - by rewrite Hg.
  - f_equal. apply IH.
Qed.

Lemma wfInstance_alterTile r f t :
  wfInstance (with_table r (alterTile f t (CoreConstraintPerCore r)))
  = wfInstance r.
Proof.
  unfold wfInstance, with_table, alterTile. simpl.
  rewrite length_alter. f_equal.
  apply forallb_alter. intros col. by rewrite length_alter.
Qed.

Lemma keepsLayout_refl m : keepsLayout m m.
Proof.
  split_and!; try done. intros t c Hc. exists c. split; [done|].
  apply sameLayout_refl.
Qed.

Lemma keepsLayout_trans m1 m2 m3 :
  keepsLayout m1 m2 → keepsLayout m2 m3 → keepsLayout m1 m3.
Proof.
  intros (W1 & C1 & R1 & D1 & T1) (W2 & C2 & R2 & D2 & T2).
  split_and!; try congruence; [auto|].
  intros t c Hc. destruct (T1 t c Hc) as (c1 & H1 & L1).
  destruct (T2 t c1 H1) as (c2 & H2 & L2). exists c2. split; [done|].
  by eapply sameLayout_trans.
Qed.

Lemma keepsLayout_ri m m' : ri m' = ri m → keepsLayout m m'.
Proof.
  intros H. split_and!; try (by rewrite H).
  intros t c Hc. exists c. rewrite (tileOf_ri _ _ _ H).
  split; [done|]. apply sameLayout_refl.
Qed.

Lemma keepsLayout_alter m t f c :
  tileOf m t = Some c → sameLayout c (f c) →
  keepsLayout m (setTable m (alterTile f t (CoreConstraintPerCore (ri m)))).
Proof.
  intros Hc Hf. split_and!; try done.
  - simpl. by rewrite wfInstance_alterTile.
  - intros t' c' Hc'. rewrite (tileOf_setTable_alter _ _ _ _ _ Hc).
    destruct (decide (t = t')) as [<-|].
    + exists (f c). split; [done|]. congruence.
    + exists c'. split; [done|]. apply sameLayout_refl.
Qed.

Lemma lay_modifyConstraint P t f :
  (∀ c, sameLayout c (f c)) →
  ensures P keepsLayout (modifyConstraint t f).
Proof.
  intros Hf m a m' H _. apply modifyConstraint_inv in H as (c & Hc & ->).
  by apply (keepsLayout_alter m t f c).
Qed.

Lemma updSlave_layout op d s c c' :
  updSlave op d s c = Some c' → sameLayout c c'.
Proof.
  unfold updSlave. destruct (getSlave d c) as [f|];
    [|intros [= <-]; apply sameLayout_refl].
  destruct (op f s) as [v|]; [|done]. simpl. intros [= <-].
  by destruct d; repeat split.
Qed.

Lemma updMaster_layout op d s c c' :
  updMaster op d s c = Some c' → sameLayout c c'.
Proof.
  unfold updMaster. destruct (getMaster d c) as [f|];
    [|intros [= <-]; apply sameLayout_refl].
  destruct (op f s) as [v|]; [|done]. simpl. intros [= <-].
  by destruct d; repeat split.
Qed.

Lemma lay_updStrmConn P op t ps s pd d :
  ensures P keepsLayout (updStrmConn op t ps s pd d).
Proof.
  intros m a m' H _.
  apply updStrmConn_inv in H as (c & c1 & c2 & Hc & H1 & H2 & ->).
  apply updSlave_layout in H1. apply updMaster_layout in H2.
  apply (keepsLayout_alter m t (fun _ => c2) c Hc).
  by eapply sameLayout_trans.
Qed.

Lemma lay_updateMappingArray P p count f :
  ensures P keepsLayout (updateMappingArray p count f).
Proof.
  intros m a m' H _. unfold updateMappingArray in H.
  destruct (count <=? 0);
    [apply ret_inv in H as [_ ->]; apply keepsLayout_refl|].
  apply bind_inv in H as (r0 & m0 & Hr & H).
  apply get_ri_inv in Hr as [-> ->].
  apply bind_inv in H as (ad & m0 & Ha & H).
  apply lift_opt_inv in Ha as [Ha ->].
  apply bind_inv in H as (arr & m0 & Harr & H).
  apply lift_opt_inv in Harr as [Harr ->].
  apply bind_inv in H as (arr' & m0 & Harr' & H).
  apply lift_opt_inv in Harr' as [Harr' ->].
  unfold put_ri in H. injection H as _ <-.
  split_and!; try done. intros t c Hc. exists c. split; [done|].
  apply sameLayout_refl.
Qed.

Lemma lay_pure {A} P (e : Exec A) :
  (∀ m a m', e m = Some (a, m') → m' = m) → ensures P keepsLayout e.
Proof. intros He m a m' H _. rewrite (He _ _ _ H). apply keepsLayout_refl. Qed.

Lemma lay_hw P be c : ensures P keepsLayout (hw be c).
Proof. intros m a m' H _. apply hw_inv in H. by apply keepsLayout_ri. Qed.

Lemma lay_hw_count P be c : ensures P keepsLayout (hw_count be c).
Proof.
  intros m a m' H _. unfold hw_count in H. injection H as _ <-.
  by apply keepsLayout_ri.
Qed.

(** Discharges [ensures _ keepsLayout e] goals along the structure of
    [e]. *)
Ltac lay_step :=
  first
    [ apply ensures_ret; apply keepsLayout_refl
    | apply lay_pure; intros ???;
      first [ intros [_ ->]%lift_opt_inv | intros [_ ->]%get_ri_inv
            | intros [_ ->]%constraintOf_inv ]; done
    | apply ensures_undef
    | apply lay_hw
    | apply lay_hw_count
    | apply lay_updStrmConn
    | apply lay_updateMappingArray
    | apply lay_modifyConstraint; intros ?; by repeat split
    | apply ensures_bind; [apply keepsLayout_trans | | intros ?]
    | match goal with
      | |- ensures _ _ (if ?b then _ else _) => destruct b
      | |- ensures _ _ (match ?x with _ => _ end) => destruct x
      end ].

Lemma lay_ShimDmaToAie P t p b :
  ensures P keepsLayout (_XAie_updatePortAvailabilityForShimDmaToAie t p b).
Proof.
  unfold _XAie_updatePortAvailabilityForShimDmaToAie. repeat lay_step.
Qed.

Lemma lay_AieToShimDma P t p b :
  ensures P keepsLayout (_XAie_updatePortAvailabilityForAieToShimDma t p b).
Proof.
  unfold _XAie_updatePortAvailabilityForAieToShimDma. repeat lay_step.
Qed.

Lemma lay_routeHop be i S D ls :
  ensures (fun _ => True) keepsLayout (routeHop be i S D ls).
Proof.
  unfold routeHop, setAutoConfigured. cbv zeta.
  repeat first [ apply lay_ShimDmaToAie
               | apply (lay_updStrmConn _ u8_clear_bit) | lay_step ].
Qed.

Lemma lay_routeLastTile be src dst T ls :
  ensures (fun _ => True) keepsLayout (routeLastTile be src dst T ls).
Proof.
  unfold routeLastTile, setAutoConfigured. cbv zeta.
  repeat first [ apply lay_AieToShimDma
               | apply (lay_updStrmConn _ u8_clear_bit) | lay_step ].
Qed.

Lemma lay_routeLoop be src dst : ∀ rest i ls,
  ensures (fun _ => True) keepsLayout (routeLoop be src dst i rest ls).
Proof.
  induction rest as [|T rest IH]; intros i ls.
  - simpl. lay_step.
  - destruct rest as [|T' rest'].
    + apply lay_routeLastTile.
    + cbn [routeLoop].
      apply ensures_bind; [apply keepsLayout_trans|apply lay_routeHop|].
      intros [rc|ls']; [lay_step|apply IH].
Qed.

Lemma lay_XAie_SetCoreExecute P t b :
  ensures P keepsLayout (XAie_SetCoreExecute t b).
Proof. unfold XAie_SetCoreExecute. repeat lay_step. Qed.

Lemma lay_XAie_Route be RC src dst :
  ensures (fun _ => True) keepsLayout (XAie_Route be RC src dst).
Proof.
  unfold XAie_Route, _XAie_performRoutingOnPath, isComputeEndpoint.
  repeat first [ apply lay_routeLoop | apply lay_XAie_SetCoreExecute
               | lay_step ].
Qed.

Lemma lay_derouteLoop be ps : ∀ todo first,
  ensures (fun _ => True) keepsLayout (derouteLoop be ps first todo).
Proof.
  induction todo as [|st todo IH]; intros first; simpl.
  - lay_step.
  - repeat first [ apply IH | apply lay_ShimDmaToAie | apply lay_AieToShimDma
                 | apply (lay_updStrmConn _ u8_set_bit) | lay_step ].
Qed.

Lemma lay_XAie_DeRoute be src dst flag :
  ensures (fun _ => True) keepsLayout (XAie_DeRoute be src dst flag).
Proof.
  unfold XAie_DeRoute, isComputeEndpoint.
  repeat first [ apply lay_derouteLoop | lay_step ].
Qed.

Lemma lay_pendingLoop P be t ch : ∀ polls RC,
  ensures P keepsLayout (pendingLoop be polls t ch RC).
Proof.
  induction polls as [|polls IH]; intros RC; simpl; [apply ensures_undef|].
  apply ensures_bind; [apply keepsLayout_trans|apply lay_hw_count|].
  intros [rc n]. destruct (n =? 0); [lay_step|apply IH].
Qed.

Lemma lay_XAie_MoveData be polls src so sz do dst :
  ensures (fun _ => True) keepsLayout
    (XAie_MoveData be polls src so sz do dst).
Proof.
  unfold XAie_MoveData, _XAie_programBufferDescriptors, programOneDescriptor,
    _XAie_findAvailableBufferID, _XAie_resetBDAvailability.
  cbv zeta.
  repeat first [ apply lay_pendingLoop | lay_step ].
Qed.

(** X20.  None of [XAie_Route], [XAie_DeRoute], [XAie_MoveData] and
    [XAie_SetCoreExecute] changes, whatever it returns, the dimensions of
    the instance or, in any tile, the tile type, the supported directions,
    the shim channel bitmaps, the two all-in-use flags or the host-edge
    mapping pointers and counts; a well-formed instance stays well formed,
    and a tile marked as auto-configured stays marked. *)
Theorem api_calls_keep_layout
  be RC polls src dst flag so sz do exec m rc m' :
  XAie_Route be RC src dst m = Some (rc, m')
  ∨ XAie_DeRoute be src dst flag m = Some (rc, m')
  ∨ XAie_MoveData be polls src so sz do dst m = Some (rc, m')
  ∨ XAie_SetCoreExecute src exec m = Some (rc, m') →
  keepsLayout m m'.
Proof.
  intros [H|[H|[H|H]]].
  - by apply (lay_XAie_Route _ _ _ _ _ _ _ H).
  - by apply (lay_XAie_DeRoute _ _ _ _ _ _ _ H).
  - by apply (lay_XAie_MoveData _ _ _ _ _ _ _ _ _ _ H).
  - by apply (lay_XAie_SetCoreExecute (fun _ => True) _ _ _ _ _ H).
Qed.

Lemma api_calls_keep_layout_witness : keepsLayout m56 m56_routed.
Proof.
  apply (api_calls_keep_layout okBackend None 0 (mkLoc 2 3) (mkLoc 4 3) true
           0 0 0 true m56 XAIE_OK m56_routed).
  left. vm_compute. reflexivity.
Defined.

Lemma autoAt_keeps m m' t :
  keepsLayout m m' → autoAt (ri m) t → autoAt (ri m') t.
Proof.
  intros (_ & _ & _ & _ & T) (c & Hc & Ha).
  destruct (T t c Hc) as (c' & Hc' & L). exists c'. split; [done|].
  unfold sameLayout in L. destruct_and!. auto.
Qed.

Lemma autoAt_markCore t t' m :
  autoAt (ri m) t' → autoAt (ri (markCore t m)) t'.
Proof.
  intros (c & Hc & Ha).
  destruct (tileOf_markCore t t' m c Hc) as (c' & Hc' & Hx).
  exists c'. split; [done|]. by destruct Hx as [-> | ->].
Qed.

Lemma setAutoConfigured_auto t u m m' :
  setAutoConfigured t m = Some (u, m') → autoAt (ri m') t.
Proof.
  intros H. apply modifyConstraint_inv in H as (c & Hc & ->).
  exists (set_isAutoConfigured true c). split; [|done].
  pose proof (tileOf_setTable_alter m (set_isAutoConfigured true) t t c Hc)
    as H.
  by rewrite decide_True in H.
Qed.

(** A round of the programming loop that goes on has marked its tile, which
    is the tile of the step it recorded. *)
Lemma routeHop_auto be i S D ls ls' m m' :
  routeHop be i S D ls m = Some (inr ls', m') →
  ∃ st, steps ls' = steps ls ++ [st] ∧ sourceTile st = S
        ∧ autoAt (ri m') S.
Proof.
  unfold routeHop. cbv zeta. intros H.
  apply bind_inv in H as (r0 & m0 & Hr & H).
  apply get_ri_inv in Hr as [-> ->].
  apply bind_inv in H as (shim & m0 & Hs & H).
  apply lift_opt_inv in Hs as [Hs ->].
  apply bind_inv in H as (ss & m0 & Hss & H).
  assert (m0 = m) as ->.
  { destruct (shim && negb (i =? 0));
      [by apply ret_inv in Hss as [_ ->]|by apply lift_opt_inv in Hss as [_ ->]]. }
  apply bind_inv in H as (dd & m0 & Hdd & H).
  apply lift_opt_inv in Hdd as [Hdd ->].
  destruct ((ss =? -1) || (dd =? -1)); [by apply ret_inv in H as [? _]|].
  apply bind_inv in H as (u & m1 & Hauto & H).
  apply setAutoConfigured_auto in Hauto.
  apply bind_inv in H as (RC & m2 & Hhw & H).
  pose proof (lay_hw (fun _ => True) _ _ _ _ _ Hhw I) as K2.
  destruct (negb (RC =? XAIE_OK)); [by apply ret_inv in H as [? _]|].
  apply bind_inv in H as (u2 & m3 & Hupd & H).
  pose proof (lay_updStrmConn (fun _ => True) _ _ _ _ _ _ _ _ _ Hupd I) as K3.
  pose proof (autoAt_keeps _ _ _ K3 (autoAt_keeps _ _ _ K2 Hauto)) as Ha3.
  destruct (shim && (i =? 0)).
  - apply bind_inv in H as (RC2 & m4 & Hhw2 & H).
    pose proof (lay_hw (fun _ => True) _ _ _ _ _ Hhw2 I) as K4.
    destruct (negb (RC2 =? XAIE_OK)); [by apply ret_inv in H as [? _]|].
    apply bind_inv in H as (u3 & m5 & Hshim & H).
    pose proof (lay_ShimDmaToAie (fun _ => True) _ _ _ _ _ _ Hshim I) as K5.
    apply ret_inv in H as [[= ->] ->].
    eexists. split; [reflexivity|]. split; [reflexivity|].
    by apply (autoAt_keeps _ _ _ K5), (autoAt_keeps _ _ _ K4).
  - apply ret_inv in H as [[= ->] ->].
    eexists. split; [reflexivity|]. split; [reflexivity|done].
Qed.

Lemma routeLastTile_auto be src dst T ls m m' :
  routeLastTile be src dst T ls m = Some (XAIE_OK, m') →
  ∃ st p next,
    catalogueOf m' src = Some (RouteNode p next)
    ∧ nextStep p = steps ls ++ [st] ∧ sourceTile st = T
    ∧ autoAt (ri m') T.
Proof.
  unfold routeLastTile. cbv zeta. intros H.
  apply bind_inv in H as (r0 & m0 & Hr & H).
  apply get_ri_inv in Hr as [-> ->].
  apply bind_inv in H as (shim & m0 & Hs & H).
  apply lift_opt_inv in Hs as [Hs ->].
  apply bind_inv in H as (dd & m0 & Hdd & H).
  apply lift_opt_inv in Hdd as [Hdd ->].
  destruct (dd =? -1); [by apply ret_inv in H as [? _]|].
  apply bind_inv in H as (u & m1 & Hauto & H).
  apply setAutoConfigured_auto in Hauto.
  apply bind_inv in H as (RC & m2 & Hhw & H).
  pose proof (lay_hw (fun _ => True) _ _ _ _ _ Hhw I) as K2.
  destruct (negb (RC =? XAIE_OK)); [by apply ret_inv in H as [? _]|].
  apply bind_inv in H as (u2 & m3 & Hupd & H).
  pose proof (lay_updStrmConn (fun _ => True) _ _ _ _ _ _ _ _ _ Hupd I) as K3.
  apply bind_inv in H as (RC3 & m4 & Hshim & H).
  assert (keepsLayout m3 m4) as K4.
  { assert (ensures (fun _ : AieRC => True) keepsLayout
              (if shim
               then RC0 <<- hw be (XAie_EnableAieToShimDmaStrmPort T dd) ;;
                    (if negb (RC0 =? XAIE_OK) then ret XAIE_ERR
                     else _XAie_updatePortAvailabilityForAieToShimDma T dd
                            false ;;; ret XAIE_OK)
               else ret XAIE_OK)) as He.
    { repeat first [ apply lay_AieToShimDma | lay_step ]. }
    by apply (He _ _ _ Hshim). }
  pose proof (autoAt_keeps _ _ _ K4
                (autoAt_keeps _ _ _ K3 (autoAt_keeps _ _ _ K2 Hauto))) as Ha4.
  destruct (negb (RC3 =? XAIE_OK)); [by apply ret_inv in H as [? _]|].
  apply bind_inv in H as (sc & m5 & Hsc & H).
  apply constraintOf_inv in Hsc as [Hsc ->].
  assert (∃ p next u4,
            modifyConstraint src (set_routesDB (RouteNode p next)) m4
            = Some (u4, m')
            ∧ nextStep p = steps ls ++
                [{| sourceTile := T; sourceStream := lastStream ls;
                    destStream := dd; source_direction := lastDir ls;
                    dest_direction := if shim then SOUTH else DMA |}])
    as (p & next & u4 & Hmod & Hp).
  { destruct (routesDB sc) eqn:Edb; [| |done].
    - apply bind_inv in H as (u4 & m6 & Hm & H).
      apply ret_inv in H as [_ ->]. eexists _, _, _. split; [exact Hm|done].
    - apply bind_inv in H as (u4 & m6 & Hm & H).
      apply ret_inv in H as [_ ->]. unfold _XAie_addRouteInRoutesDB in Hm.
      eexists _, _, _. split; [exact Hm|done]. }
  pose proof (lay_modifyConstraint (fun _ => True) src
                (set_routesDB (RouteNode p next))
                ltac:(intros ?; by repeat split) _ _ _ Hmod I) as K5.
  apply modifyConstraint_inv in Hmod as (c & Hc & ->).
  eexists _, p, next. split_and!; [|exact Hp|reflexivity|].
  - unfold catalogueOf. rewrite (tileOf_setTable_alter _ _ _ _ _ Hc).
    by rewrite decide_True.
  - by apply (autoAt_keeps _ _ _ K5).
Qed.

Lemma routeLoop_auto be src dst : ∀ rest i ls m m',
  rest ≠ [] →
  routeLoop be src dst i rest ls m = Some (XAIE_OK, m') →
  (∀ st, st ∈ steps ls → autoAt (ri m) (sourceTile st)) →
  ∃ p next, catalogueOf m' src = Some (RouteNode p next)
    ∧ sourceTile <$> nextStep p = (sourceTile <$> steps ls) ++ rest
    ∧ ∀ st, st ∈ nextStep p → autoAt (ri m') (sourceTile st).
Proof.
  induction rest as [|T rest IH]; intros i ls m m' Hne H Hsteps; [done|].
  destruct rest as [|T' rest'].
  - pose proof (lay_routeLastTile _ _ _ _ _ _ _ _ H I) as K.
    apply routeLastTile_auto in H as (st & p & next & Hcat & Hp & Hst & Ha).
    exists p, next. split; [done|]. split.
    { by rewrite Hp, fmap_app, <- Hst. }
    intros st' Hin. rewrite Hp in Hin.
    apply elem_of_app in Hin as [Hin|Hin].
    + by apply (autoAt_keeps _ _ _ K), Hsteps.
    + apply list_elem_of_singleton in Hin as ->. by rewrite Hst.
  - cbn [routeLoop] in H.
    apply bind_inv in H as ([rc|ls'] & m1 & Hhop & H).
    + apply routeHop_err in Hhop as ->. by apply ret_inv in H as [? _].
    + pose proof (lay_routeHop _ _ _ _ _ _ _ _ Hhop I) as K.
      apply routeHop_auto in Hhop as (st & Hst & Htile & Ha).
      apply IH in H as (p & next & Hcat & Htiles & Hauto); [|done|].
      * exists p, next. split; [done|]. split; [|done].
        rewrite Htiles, Hst, fmap_app, <- app_assoc. simpl.
        by rewrite Htile.
      * intros st' Hin. rewrite Hst in Hin.
        apply elem_of_app in Hin as [Hin|Hin].
        -- by apply (autoAt_keeps _ _ _ K), Hsteps.
        -- apply list_elem_of_singleton in Hin as ->. by rewrite Htile.
Qed.

Lemma sweepEach_skip {A} (body : A → Sweep) : ∀ (l : list A) cs,
  (∀ a cs', a ∈ l → body a cs' = Some (None, cs')) →
  sweepEach l body cs = Some (None, cs).
Proof.
  induction l as [|a l IH]; intros cs Hbody; [done|].
  simpl. rewrite Hbody by (by left). apply IH.
  intros a' cs' Ha'. apply Hbody. by right.
Qed.

Lemma switch_reset_skips rc_of r tiles :
  (∀ t, t ∈ tiles → autoAt r t) →
  XAie_RoutingSwitchReset rc_of r tiles = Some (XAIE_OK, []).
Proof.
  intros Hauto. unfold XAie_RoutingSwitchReset.
  rewrite sweepEach_skip; [done|].
  intros t cs Ht. destruct (Hauto t Ht) as (c & -> & ->). done.
Qed.

(** X21.  [XAie_RoutingSwitchReset] never resets a tile of a programmed
    route: after a successful [XAie_Route] between two different tiles, a
    switch reset of the tiles of the catalogued path makes no call and
    returns [XAIE_OK], and this is still so after [XAie_DeRoute] of the
    pair, whatever [XAie_DeRoute] returned, since no call clears
    [isAutoConfigured]. *)
Theorem routed_tiles_are_never_reset
  be RC src dst flag rc_of m m1 p next rc m2 :
  src ≠ dst →
  XAie_Route be RC src dst m = Some (XAIE_OK, m1) →
  catalogueOf m1 src = Some (RouteNode p next) →
  XAie_DeRoute be src dst flag m1 = Some (rc, m2) →
  XAie_RoutingSwitchReset rc_of (ri m1) (sourceTile <$> nextStep p)
  = Some (XAIE_OK, [])
  ∧ XAie_RoutingSwitchReset rc_of (ri m2) (sourceTile <$> nextStep p)
    = Some (XAIE_OK, []).
Proof.
  intros Hne Hroute Hcat Hde.
  apply XAie_Route_ok_inv in Hroute
    as (c & path & m0 & Hc & Hfind & Hpath & Hprog & ->).
  apply findShortestPath_nonempty in Hpath; [|done].
  unfold _XAie_performRoutingOnPath in Hprog.
  apply routeLoop_auto in Hprog as (p' & next' & Hcat' & _ & Hauto);
    [|done|by intros st Hst; apply elem_of_nil in Hst].
  rewrite !catalogueOf_markCore, Hcat' in Hcat. injection Hcat as <- <-.
  assert (∀ t, t ∈ sourceTile <$> nextStep p' →
            autoAt (ri (markCore dst (markCore src m0))) t) as H1.
  { intros t Ht. apply list_elem_of_fmap in Ht as (st & -> & Hst).
    by apply autoAt_markCore, autoAt_markCore, Hauto. }
  pose proof (lay_XAie_DeRoute _ _ _ _ _ _ _ Hde I) as K.
  split; apply switch_reset_skips; [done|].
  intros t Ht. by apply (autoAt_keeps _ _ _ K), H1.
Qed.

Lemma routed_tiles_are_never_reset_witness :
  XAie_RoutingSwitchReset (fun _ _ => XAIE_ERR) (ri m56_derouted)
    [mkLoc 2 3; mkLoc 3 3; mkLoc 4 3]
  = Some (XAIE_OK, []).
Proof.
  destruct (catalogueOf m56_routed (mkLoc 2 3)) as [[|p next|]|] eqn:Hcat;
    try (vm_compute in Hcat; discriminate).
  destruct (XAie_DeRoute okBackend (mkLoc 2 3) (mkLoc 4 3) true m56_routed)
    as [[rc m2]|] eqn:Hde; [|vm_compute in Hde; discriminate].
  destruct (routed_tiles_are_never_reset okBackend None (mkLoc 2 3)
              (mkLoc 4 3) true (fun _ _ => XAIE_ERR) m56 m56_routed p next
              rc m2) as [_ H2]; [done | by vm_compute | done | done |].
  assert (sourceTile <$> nextStep p = [mkLoc 2 3; mkLoc 3 3; mkLoc 4 3])
    as Htiles.
  { vm_compute in Hcat. injection Hcat as <- _. reflexivity. }
  assert (m56_derouted = m2) as ->.
  { unfold m56_derouted. rewrite Hde. reflexivity. }
  by rewrite <- Htiles.
Defined.

(** *** Removing a route from a catalogue *)






(** *** Moving data, then waiting *)

Lemma pendingLoop_grows be t ch : ∀ polls RC rc m m',
  pendingLoop be polls t ch RC m = Some (rc, m') →
  ∃ extra, calls m' = calls m ++ extra.
Proof.
  induction polls as [|polls IH]; intros RC rc m m' H; simpl in H; [done|].
  apply bind_inv in H as ([rc1 n] & m1 & H1 & H).
  unfold hw_count in H1. injection H1 as _ _ <-.
  destruct (n =? 0).
  - apply ret_inv in H as [_ ->]. by eexists.
  - apply IH in H as [extra ->]. simpl. rewrite <- app_assoc. by eexists.
Qed.

Lemma resetBDAvailability_calls t id u m m' :
  _XAie_resetBDAvailability t id m = Some (u, m') → calls m' = calls m.
Proof.
  unfold _XAie_resetBDAvailability. cbv zeta. intros H.
  apply bind_inv in H as (c & m0 & Hc & H).
  apply constraintOf_inv in Hc as [_ ->].
  destruct (u8 id <? 16); [|by apply ret_inv in H as [_ ->]].
  apply bind_inv in H as (k & m0 & Hk & H).
  apply lift_opt_inv in Hk as [_ ->].
  by apply modifyConstraint_calls in H.
Qed.

Lemma waitChannel_onlyBDs m m' t p ch :
  onlyBDs m m' →
  waitChannel (ri m) t p = Some ch → waitChannel (ri m') t p = Some ch.
Proof.
  intros [T M]. unfold waitChannel, _XAie_isShimTile,
    findAvailableChannelIDforShimTile, mappingArray.
  destruct (tileAt (CoreConstraintPerCore (ri m)) t) as [c|] eqn:Hc; [|done].
  destruct (T t c Hc) as (bd & Hc'). unfold tileOf in Hc'.
  rewrite Hc', M. done.
Qed.

(** X23.  After a successful [XAie_MoveData], [XAie_RouteDmaWait] for the
    same pair polls the S2MM channel of the destination tile on which
    [XAie_MoveData] queued the destination descriptor, and returns
    [XAIE_OK] when it returns. *)
Theorem dma_wait_polls_the_moved_channel
  be polls src so sz do dst m m' be' polls' isS2MM rc m'' :
  XAie_MoveData be polls src so sz do dst m = Some (XAIE_OK, m') →
  XAie_RouteDmaWait be' polls' src dst isS2MM m' = Some (rc, m'') →
  rc = XAIE_OK ∧ ri m'' = ri m'
  ∧ ∃ ch bd n,
      XAie_DmaChannelPushBdToQueue dst ch DMA_S2MM bd ∈ calls m'
      ∧ calls m''
        = calls m' ++ replicate (S n) (XAie_DmaGetPendingBdCount dst ch DMA_S2MM).
Proof.
  intros H Hwait. unfold XAie_MoveData in H.
  apply bind_inv in H as ([rc0 bds] & md & Hprog & H).
  destruct (negb (rc0 =? XAIE_OK)) eqn:Erc;
    [by apply ret_inv in H as [? _]|].
  apply bind_inv in H as (sc & m0 & Hsc & H).
  apply constraintOf_inv in Hsc as [Hsc ->].
  apply bind_inv in H as (lk & m0 & Hlk & H).
  apply lift_opt_inv in Hlk as [Hlk ->].
  destruct lk as [p|]; [|by apply ret_inv in H as [? _]].
  apply bind_inv in H as (r0 & m0 & Hr & H). apply get_ri_inv in Hr as [-> ->].
  apply bind_inv in H as (shimS & m0 & HsS & H).
  apply lift_opt_inv in HsS as [HsS ->].
  apply bind_inv in H as (chS & m0 & HchS & H).
  assert (m0 = md) as ->.
  { destruct shimS; [|by apply ret_inv in HchS as [_ ->]].
    apply bind_inv in HchS as (x & m1 & Hx & HchS).
    apply lift_opt_inv in Hx as [_ ->]. by apply ret_inv in HchS as [_ ->]. }
  apply bind_inv in H as (shimD & m0 & HsD & H).
  apply lift_opt_inv in HsD as [HsD ->].
  apply bind_inv in H as (chD & m0 & HchD & H).
  assert (m0 = md ∧ waitChannel (ri md) dst p = Some chD) as [-> Hch].
  { unfold waitChannel. rewrite HsD. simpl. destruct shimD.
    - apply bind_inv in HchD as (x & m1 & Hx & HchD).
      apply lift_opt_inv in Hx as [-> ->].
      by apply ret_inv in HchD as [-> ->].
    - by apply ret_inv in HchD as [-> ->]. }
  apply bind_inv in H as (rc1 & m1 & H1 & H).
  apply bind_inv in H as (rc2 & m2 & H2 & H).
  cbv zeta in H.
  destruct (negb (Z.lor (Z.lor XAIE_OK rc1) rc2 =? XAIE_OK));
    [by apply ret_inv in H as [? _]|].
  apply bind_inv in H as (rc3 & m3 & H3 & H).
  apply hw_calls in H3 as (_ & Hc3 & Hr3).
  apply bind_inv in H as (rc4 & m4 & H4 & H).
  apply hw_calls in H4 as (_ & Hc4 & Hr4).
  destruct (negb (Z.lor (Z.lor (Z.lor (Z.lor XAIE_OK rc1) rc2) rc3) rc4
                  =? XAIE_OK));
    [by apply ret_inv in H as [? _]|].
  apply bind_inv in H as (rc5 & m5 & H5 & H).
  pose proof (pendingLoop_ri _ _ _ _ _ _ _ _ H5) as Hr5.
  apply pendingLoop_grows in H5 as [extra Hc5].
  destruct (negb (rc5 =? XAIE_OK)); [by apply ret_inv in H as [? _]|].
  apply bind_inv in H as (u1 & m6 & H6 & H).
  apply bind_inv in H as (u2 & m7 & H7 & H).
  apply ret_inv in H as [_ ->].
  pose proof (bd_resetBDAvailability (fun _ => True) _ _ _ _ _ H6 I) as K6.
  pose proof (bd_resetBDAvailability (fun _ => True) _ _ _ _ _ H7 I) as K7.
  apply resetBDAvailability_calls in H6, H7.
  apply hw_inv in H1, H2.
  assert (onlyBDs md m7) as K.
  { eapply onlyBDs_trans; [|exact K7]. eapply onlyBDs_trans; [|exact K6].
    apply onlyBDs_ri. congruence. }
  apply (waitChannel_onlyBDs _ _ _ _ _ K) in Hch.
  destruct K as [T _]. destruct (T src sc Hsc) as (bd' & Hsc').
  rewrite (routeDmaWait_found be' polls' src dst isS2MM m7 _ p chD Hsc'
             Hlk Hch) in Hwait.
  apply bind_inv in Hwait as ([] & mw & Hloop & Hwait).
  apply ret_inv in Hwait as [-> ->].
  apply dmaWaitLoop_inv in Hloop as [Hri (n & Hn & _)].
  split; [done|]. split; [done|].
  exists chD, (destinationBD bds), n. split; [|done].
  rewrite H7, H6, Hc5, Hc4, Hc3. set_solver.
Qed.

Lemma dma_wait_polls_the_moved_channel_witness :
  ∃ m' m'',
    XAie_MoveData okBackend 1 (mkLoc 2 3) 0x2000 128 0x2000 (mkLoc 4 3)
      m56_routed = Some (XAIE_OK, m')
    ∧ XAie_RouteDmaWait okBackend 1 (mkLoc 2 3) (mkLoc 4 3) true m'
      = Some (XAIE_OK, m'')
    ∧ ri m'' = ri m'.
Proof.
  destruct (XAie_MoveData okBackend 1 (mkLoc 2 3) 0x2000 128 0x2000
              (mkLoc 4 3) m56_routed) as [[rc1 m']|] eqn:Hmove;
    [|vm_compute in Hmove; discriminate].
  assert (rc1 = XAIE_OK) as ->.
  { vm_compute in Hmove. by injection Hmove as <- _. }
  destruct (XAie_RouteDmaWait okBackend 1 (mkLoc 2 3) (mkLoc 4 3) true m')
    as [[rc2 m'']|] eqn:Hwait.
  - destruct (dma_wait_polls_the_moved_channel _ _ _ _ _ _ _ _ _ _ _ _ _ _
                Hmove Hwait) as (-> & Hri & _).
    exists m', m''. split; [reflexivity|]. split; [exact Hwait|exact Hri].
  - vm_compute in Hmove. injection Hmove as <-. vm_compute in Hwait.
    discriminate.
Defined.

(** *** The tiles of a programmed route *)

Lemma findShortestPath_found r RC src dst c p :
  wfInstance r = true →
  tileAt (CoreConstraintPerCore r) src = Some c →
  src ≠ dst →
  _XAie_findShortestPath r RC src dst (NumRows r * NumCols r)
  = Some (true, p) →
  pathFromTo src dst p
  ∧ chain (traversable r RC) p
  ∧ (∀ t, t ∈ afterSource p → _XAie_isTileBlackListed t RC = false)
  ∧ (∀ q, pathFromTo src dst q → chain (traversable r RC) q →
       (length p ≤ length q)%nat).
Proof.
  intros Hwf Hc Hsd Hrun.
  pose proof (tileAt_allTiles r src c Hwf Hc) as Hsrc.
  destruct (findShortestPath_spec r RC src dst Hwf Hsrc Hsd)
    as (ok & p' & Hrun' & Hok & _).
  change (gridSize r) with (NumRows r * NumCols r) in Hrun'.
  rewrite Hrun in Hrun'. injection Hrun' as <- <-.
  destruct (Hok eq_refl) as (Hft & Hch & _ & Hmin).
  split_and!; try done.
  - eapply chain_mono; [|done]. intros a b. by apply traversable_edge.
  - eapply chain_targets; [|done]. intros a b. apply edge_not_blacklisted.
  - intros q Hq Hcq.
    destruct (path_reach r RC src dst q Hq) as (n & -> & Hreach).
    { eapply chain_mono; [|done]. intros a b. by apply traversable_edge. }
    by apply Hmin.
Qed.

(** X24.  The route that a successful [XAie_Route] between two different
    tiles programs on a well-formed instance runs along a shortest path:
    the tiles of the recorded steps, in order, lead from the source to the
    destination along edges that pass the edge test of the search on the
    instance as it was before the call, none of them after the source is
    blacklisted, and no such path has fewer tiles.  There is one step per
    tile of the path. *)
Theorem route_runs_along_shortest_path be RC src dst m m' p next :
  wfInstance (ri m) = true → src ≠ dst →
  XAie_Route be RC src dst m = Some (XAIE_OK, m') →
  catalogueOf m' src = Some (RouteNode p next) →
  pathFromTo src dst (sourceTile <$> nextStep p)
  ∧ chain (traversable (ri m) RC) (sourceTile <$> nextStep p)
  ∧ (∀ t, t ∈ afterSource (sourceTile <$> nextStep p) →
       _XAie_isTileBlackListed t RC = false)
  ∧ (∀ q, pathFromTo src dst q → chain (traversable (ri m) RC) q →
       (length (nextStep p) ≤ length q)%nat).
Proof.
  intros Hwf Hne Hroute Hcat.
  apply XAie_Route_ok_inv in Hroute
    as (c & path & m0 & Hc & Hfind & Hpath & Hprog & ->).
  pose proof (findShortestPath_nonempty _ _ _ _ _ _ Hne Hpath) as Hnil.
  unfold _XAie_performRoutingOnPath in Hprog.
  apply routeLoop_auto in Hprog as (p' & next' & Hcat' & Htiles & _);
    [|done|by intros st Hst; apply elem_of_nil in Hst].
  rewrite !catalogueOf_markCore, Hcat' in Hcat. injection Hcat as <- <-.
  simpl in Htiles. rewrite Htiles.
  destruct (findShortestPath_found (ri m) RC src dst c path Hwf Hc Hne Hpath)
    as (H1 & H2 & H3 & H4).
  split_and!; try done.
  intros q Hq Hcq. rewrite <- (length_fmap sourceTile), Htiles. by apply H4.
Qed.

Lemma route_runs_along_shortest_path_witness :
  ∃ p next,
    catalogueOf m56_routed (mkLoc 2 3) = Some (RouteNode p next)
    ∧ pathFromTo (mkLoc 2 3) (mkLoc 4 3) (sourceTile <$> nextStep p)
    ∧ chain (traversable (ri m56) None) (sourceTile <$> nextStep p).
Proof.
  destruct (catalogueOf m56_routed (mkLoc 2 3)) as [[|p next|]|] eqn:Hcat;
    try (vm_compute in Hcat; discriminate).
  exists p, next. split; [reflexivity|].
  destruct (route_runs_along_shortest_path okBackend None (mkLoc 2 3)
              (mkLoc 4 3) m56 m56_routed p next) as (H1 & H2 & _);
    [reflexivity | done | by vm_compute | exact Hcat |].
  split; [exact H1|exact H2].
Defined.

(** *** Route, then de-route, away from the shim row *)

Lemma masks_fields c c' :
  masks_of c' = masks_of c →
  SlaveEast c' = SlaveEast c ∧ SlaveWest c' = SlaveWest c
  ∧ SlaveSouth c' = SlaveSouth c ∧ SlaveNorth c' = SlaveNorth c
  ∧ MasterEast c' = MasterEast c ∧ MasterWest c' = MasterWest c
  ∧ MasterSouth c' = MasterSouth c ∧ MasterNorth c' = MasterNorth c
  ∧ MM2S_State c' = MM2S_State c ∧ S2MM_State c' = S2MM_State c
  ∧ BDState c' = BDState c.
Proof. unfold masks_of. intros [=]. by split_and!. Qed.

Lemma getSlave_masks d c c' :
  masks_of c' = masks_of c → getSlave d c' = getSlave d c.
Proof.
  intros H. apply masks_fields in H. destruct_and!.
  destruct d; simpl; congruence.
Qed.

Lemma getMaster_masks d c c' :
  masks_of c' = masks_of c → getMaster d c' = getMaster d c.
Proof.
  intros H. apply masks_fields in H. destruct_and!.
  destruct d; simpl; congruence.
Qed.

Lemma updSlave_respects op d s c c' c1 :
  masks_of c' = masks_of c → updSlave op d s c = Some c1 →
  ∃ c1', updSlave op d s c' = Some c1' ∧ masks_of c1' = masks_of c1.
Proof.
  intros H. unfold updSlave. rewrite (getSlave_masks d c c' H).
  apply masks_fields in H. destruct_and!.
  destruct (getSlave d c) as [f|]; [|intros [= <-]; eexists; split; [done|]].
  - destruct (op f s) as [v|]; [|done]. simpl. intros [= <-].
    eexists. split; [done|]. unfold masks_of. destruct d; simpl; congruence.
  - unfold masks_of. congruence.
Qed.

Lemma updMaster_respects op d s c c' c1 :
  masks_of c' = masks_of c → updMaster op d s c = Some c1 →
  ∃ c1', updMaster op d s c' = Some c1' ∧ masks_of c1' = masks_of c1.
Proof.
  intros H. unfold updMaster. rewrite (getMaster_masks d c c' H).
  apply masks_fields in H. destruct_and!.
  destruct (getMaster d c) as [f|]; [|intros [= <-]; eexists; split; [done|]].
  - destruct (op f s) as [v|]; [|done]. simpl. intros [= <-].
    eexists. split; [done|]. unfold masks_of. destruct d; simpl; congruence.
  - unfold masks_of. congruence.
Qed.

Lemma reserveStep_respects st c c' c2 :
  masks_of c' = masks_of c → reserveStep st c = Some c2 →
  ∃ c2', reserveStep st c' = Some c2' ∧ masks_of c2' = masks_of c2.
Proof.
  intros H. unfold reserveStep.
  destruct (updSlave _ _ _ c) as [c1|] eqn:E1; [|done]. simpl. intros E2.
  destruct (updSlave_respects _ _ _ _ _ _ H E1) as (c1' & -> & H1). simpl.
  by apply (updMaster_respects _ _ _ c1).
Qed.

Lemma releaseStep_respects st c c' c2 :
  masks_of c' = masks_of c → releaseStep st c = Some c2 →
  ∃ c2', releaseStep st c' = Some c2' ∧ masks_of c2' = masks_of c2.
Proof.
  intros H. unfold releaseStep.
  destruct (updSlave _ _ _ c) as [c1|] eqn:E1; [|done]. simpl. intros E2.
  destruct (updSlave_respects _ _ _ _ _ _ H E1) as (c1' & -> & H1). simpl.
  by apply (updMaster_respects _ _ _ c1).
Qed.

(** Releasing the ports of a step that were available gives the bitmaps
    back. *)
Lemma release_after_reserve st c c2 c1 c3 :
  u8Ports c → stepFree st c → reserveStep st c = Some c2 →
  masks_of c1 = masks_of c2 → releaseStep st c1 = Some c3 →
  masks_of c3 = masks_of c.
Proof.
  intros Hu (f & g & Hf & Hg & Hfs & Hgd) Hres Hm Hrel.
  destruct (port_round_trip_fields _ _ c f g _ _ Hf Hg
              (Hu _ _ (or_introl Hf)) (Hu _ _ (or_intror Hg)) Hfs Hgd)
    as (x1 & x2 & x3 & H1 & H2 & H3 & H4).
  assert (reserveStep st c = Some x2) as Hres'
    by (unfold reserveStep; rewrite H1; done).
  assert (releaseStep st x2 = Some c) as Hrel'
    by (unfold releaseStep; rewrite H3; done).
  assert (x2 = c2) as -> by congruence.
  destruct (releaseStep_respects st c1 c2 c3) as (c3' & Hr & Hm3);
    [done|done|].
  congruence.
Qed.

Lemma firstCommonBit_seq a b : ∀ n k s,
  firstCommonBit (Z.of_nat <$> seq k n) a b = s →
  s = -1
  ∨ (Z.of_nat k ≤ s < Z.of_nat (k + n) ∧ Z.testbit a s = true
     ∧ Z.testbit b s = true).
Proof.
  induction n as [|n IH]; intros k s H; simpl in H; [by left|].
  destruct (bitSet a (Z.of_nat k) && bitSet b (Z.of_nat k)) eqn:E.
  - subst s. right. apply andb_true_iff in E as [Ea Eb].
    rewrite bitSet_testbit in Ea, Eb by lia. split; [lia|done].
  - apply IH in H as [->|(Hr & Ha & Hb)]; [by left|].
    right. split; [lia|done].
Qed.

Lemma firstCommonBit_upto8 a b s :
  firstCommonBit (upto 8) a b = s →
  s = -1 ∨ (0 ≤ s < 8 ∧ Z.testbit a s = true ∧ Z.testbit b s = true).
Proof. intros H. by apply (firstCommonBit_seq a b 8 0) in H. Qed.

Lemma chain_app_r E : ∀ l1 l2, chain E (l1 ++ l2) → chain E l2.
Proof.
  induction l1 as [|a l1 IH]; intros l2 H; [done|].
  apply IH. destruct l1 as [|b l1]; simpl in *.
  - by destruct l2 as [|c l2]; [|destruct H].
  - by destruct H.
Qed.

(** A shortest path visits no tile twice. *)
Lemma shortest_NoDup E d : ∀ p s,
  pathFromTo s d p → chain E p →
  (∀ q, pathFromTo s d q → chain E q → (length p ≤ length q)%nat) →
  NoDup p.
Proof.
  induction p as [|a p IH]; intros s [Hh Hl] Hc Hmin; [constructor|].
  simpl in Hh. injection Hh as ->.
  constructor.
  - intros Hin. apply list_elem_of_split in Hin as (l1 & l2 & ->).
    assert (length (s :: l1 ++ s :: l2) ≤ length (s :: l2))%nat as Hlen.
    { apply Hmin.
      - split; [done|].
        change (s :: l1 ++ s :: l2) with ((s :: l1) ++ s :: l2) in Hl.
        rewrite last_app in Hl.
        destruct (list.last (s :: l2)) eqn:El; [done|].
        by apply last_None in El.
      - change (s :: l1 ++ s :: l2) with ((s :: l1) ++ s :: l2) in Hc.
        by apply chain_app_r in Hc. }
    simpl in Hlen. rewrite length_app in Hlen. simpl in Hlen. lia.
  - destruct p as [|b p]; [constructor|].
    destruct Hc as [Hab Hc].
    apply (IH b); [done|done|].
    intros q [Hqh Hql] Hcq.
    assert (length (s :: b :: p) ≤ length (s :: q))%nat as Hlen.
    { apply Hmin.
      - split; [done|]. destruct q as [|x q]; [done|]. done.
      - destruct q as [|x q]; [done|]. simpl in Hqh. injection Hqh as ->.
        split; done. }
    simpl in *. lia.
Qed.

Lemma findFirstMatchingStream_end r t c :
  tileAt (CoreConstraintPerCore r) t = Some c →
  tile_type c ≠ XAIE_AIE_SHIM →
  _XAie_findFirstMatchingStream r t DMA true
  = Some (firstBit (upto 8) (S2MM_State c)).
Proof.
  intros Hc Hns. unfold _XAie_findFirstMatchingStream, _XAie_isShimTile.
  rewrite Hc. simpl. by rewrite bool_decide_eq_false_2 by done.
Qed.

Lemma isShimTile_plain r t c :
  tileAt (CoreConstraintPerCore r) t = Some c →
  tile_type c ≠ XAIE_AIE_SHIM → _XAie_isShimTile r t = Some false.
Proof.
  intros Hc Hns. unfold _XAie_isShimTile. rewrite Hc. simpl.
  by rewrite bool_decide_eq_false_2 by done.
Qed.

Lemma tile_type_updStrm op ps s pd d c c1 c2 :
  updSlave op ps s c = Some c1 → updMaster op pd d c1 = Some c2 →
  tile_type c2 = tile_type c.
Proof.
  intros H1%updSlave_layout H2%updMaster_layout.
  unfold sameLayout in *. destruct_and!. congruence.
Qed.

(** A round of the programming loop on a tile that is not a shim tile:
    the ports of the step it records were available in the tile and are
    reserved there, no other tile changes, and the slave port it binds on
    the next tile is available there. *)
Lemma routeHop_reserves be i S D ls ls' m m' c :
  routeHop be i S D ls m = Some (inr ls', m') →
  tileOf m S = Some c → tile_type c ≠ XAIE_AIE_SHIM → S ≠ D →
  ∃ st c2 cD g,
    steps ls' = steps ls ++ [st] ∧ sourceTile st = S
    ∧ stepFree st c ∧ reserveStep st c = Some c2
    ∧ PortMappings (ri m') = PortMappings (ri m)
    ∧ (∀ t ct, tileOf m t = Some ct →
         ∃ c', tileOf m' t = Some c' ∧ tile_type c' = tile_type ct
               ∧ masks_of c' = masks_of (if decide (t = S) then c2 else ct))
    ∧ tileOf m D = Some cD
    ∧ getSlave (lastDir ls') cD = Some g
    ∧ Z.testbit g (lastStream ls') = true.
Proof.
  unfold routeHop. cbv zeta. intros H Hc Hns Hne.
  apply bind_inv in H as (r0 & m0 & Hr & H).
  apply get_ri_inv in Hr as [-> ->].
  apply bind_inv in H as (shim & m0 & Hs & H).
  apply lift_opt_inv in Hs as [Hs ->].
  rewrite (isShimTile_plain _ _ _ Hc Hns) in Hs. injection Hs as <-.
  cbn [andb] in H.
  apply bind_inv in H as (ss & m0 & Hss & H).
  apply lift_opt_inv in Hss as [Hss ->].
  rewrite (findFirstMatchingStream_start _ _ _ _ Hc Hns) in Hss.
  injection Hss as Hss.
  apply bind_inv in H as (dd & m0 & Hdd & H).
  apply lift_opt_inv in Hdd as [Hdd ->].
  destruct ((ss =? -1) || (dd =? -1)) eqn:Eneg;
    [by apply ret_inv in H as [? _]|].
  apply orb_false_iff in Eneg as [Ess Edd].
  apply Z.eqb_neq in Ess, Edd.
  apply bind_inv in H as (u & m1 & Hauto & H).
  apply modifyConstraint_inv in Hauto as (c0 & Hc0 & ->).
  assert (c0 = c) as -> by congruence.
  apply bind_inv in H as (RC & m2 & Hhw & H).
  apply hw_inv in Hhw.
  destruct (negb (RC =? XAIE_OK)); [by apply ret_inv in H as [? _]|].
  apply bind_inv in H as (u2 & m3 & Hupd & H).
  apply ret_inv in H as [[= ->] ->].
  apply updStrmConn_inv in Hupd as (cA & c1 & c2 & HcA & H1 & H2 & ->).
  rewrite (tileOf_ri _ _ _ Hhw), (tileOf_setTable_alter _ _ _ _ _ Hc),
    decide_True in HcA by done.
  injection HcA as <-.
  (* the slave port *)
  destruct (getSlave (if i =? 0 then DMA else lastDir ls) c) as [f|] eqn:Hf;
    [|congruence].
  destruct (firstBit_upto8 f ss Hss) as [[? _]|(Hssr & Hfs & _)]; [done|].
  (* the master port, and the slave port of the next tile *)
  unfold findFirstMatchingStreamForDestination in Hdd.
  unfold tileOf in Hc. rewrite Hc in Hdd. simpl in Hdd.
  destruct (tileAt (CoreConstraintPerCore (ri m)) D) as [cD|] eqn:HcD;
    [|done].
  simpl in Hdd.
  set (dirSource := if Col D =? Col S
                    then if Row S <? Row D then NORTH else SOUTH
                    else if Col S <? Col D then EAST else WEST) in *.
  set (dirDest := if Col D =? Col S
                  then if Row S <? Row D then SOUTH else NORTH
                  else if Col S <? Col D then WEST else EAST) in *.
  assert (∃ fm g, getMaster dirSource c = Some fm
                  ∧ getSlave dirDest cD = Some g
                  ∧ Z.testbit fm dd = true ∧ Z.testbit g dd = true)
    as (fm & g & Hfm & Hg & Hfmd & Hgd).
  { subst dirSource dirDest.
    destruct (Col D =? Col S), (Row S <? Row D), (Col S <? Col D);
      simpl in Hdd |- *; injection Hdd as Hdd;
      (destruct (firstCommonBit_upto8 _ _ _ Hdd) as [?|(_ & Ha & Hb)];
       [done|]); eexists _, _; split_and!; done. }
  (* the reservation, on the record the call found *)
  destruct (updSlave_respects _ _ _ (set_isAutoConfigured true c) c _
              eq_refl H1) as (c1' & H1' & M1).
  destruct (updMaster_respects _ _ _ c1 c1' _ M1 H2) as (c2' & H2' & M2).
  eexists _, c2', cD, g. split; [reflexivity|]. split; [reflexivity|].
  split_and!; try done.
  - exists f, fm. done.
  - unfold reserveStep. simpl. rewrite H1'. done.
  - simpl. by rewrite Hhw.
  - intros t ct Ht.
    rewrite (tileOf_setTable_alter _ (fun _ => c2) S t
               (set_isAutoConfigured true c)).
    2:{ rewrite (tileOf_ri _ _ _ Hhw).
        fold (tileOf m S) in Hc.
        rewrite (tileOf_setTable_alter _ _ _ _ _ Hc). by rewrite decide_True. }
    destruct (decide (S = t)) as [<-|Hst].
    + rewrite decide_True by done. eexists. split; [done|].
      split; [|done].
      rewrite (tile_type_updStrm _ _ _ _ _ _ _ _ H1 H2). simpl.
      unfold tileOf in Ht. congruence.
    + rewrite decide_False by done.
      rewrite (tileOf_ri _ _ _ Hhw).
      fold (tileOf m S) in Hc.
      rewrite (tileOf_setTable_alter _ _ _ _ _ Hc), decide_False by done.
      by exists ct.
Qed.

Lemma sameView_refl m : sameView m m.
Proof. split; [done|]. intros t c Hc. by exists c. Qed.

Lemma sameView_trans m1 m2 m3 :
  sameView m1 m2 → sameView m2 m3 → sameView m1 m3.
Proof.
  intros [P1 T1] [P2 T2]. split; [congruence|].
  intros t c Hc. destruct (T1 t c Hc) as (c1 & H1 & Y1 & M1).
  destruct (T2 t c1 H1) as (c2 & H2 & Y2 & M2).
  exists c2. split_and!; congruence.
Qed.

Lemma sameView_modify t f u m m' :
  modifyConstraint t f m = Some (u, m') →
  (∀ c, tile_type (f c) = tile_type c ∧ masks_of (f c) = masks_of c) →
  sameView m m'.
Proof.
  intros H Hf. apply modifyConstraint_inv in H as (c & Hc & ->).
  split; [done|]. intros t' ct Ht.
  rewrite (tileOf_setTable_alter _ _ _ _ _ Hc).
  destruct (decide (t = t')) as [<-|].
  - exists (f c). assert (ct = c) as -> by congruence.
    destruct (Hf c). done.
  - by exists ct.
Qed.

Lemma sameView_markCore t m : sameView m (markCore t m).
Proof.
  split.
  - unfold markCore. destruct (tileOf m t) as [c|]; [|done].
    by destruct (_ && _).
  - intros t' c Hc.
    destruct (tileOf_markCore t t' m c Hc) as (c' & Hc' & Hx).
    exists c'. split; [done|]. by destruct Hx as [-> | ->].
Qed.

(** The round for the last tile, when it is not a shim tile. *)
Lemma routeLastTile_reserves be src dst T ls m m' c :
  routeLastTile be src dst T ls m = Some (XAIE_OK, m') →
  tileOf m T = Some c → tile_type c ≠ XAIE_AIE_SHIM →
  (lastDir ls = SOUTH ∧ lastStream ls = -1)
  ∨ (∃ g, getSlave (lastDir ls) c = Some g
          ∧ Z.testbit g (lastStream ls) = true) →
  ∃ st c2 p next,
    catalogueOf m' src = Some (RouteNode p next)
    ∧ nextStep p = steps ls ++ [st] ∧ sourceTile st = T
    ∧ stepFree st c ∧ reserveStep st c = Some c2
    ∧ PortMappings (ri m') = PortMappings (ri m)
    ∧ ∀ t ct, tileOf m t = Some ct →
        ∃ c', tileOf m' t = Some c' ∧ tile_type c' = tile_type ct
              ∧ masks_of c' = masks_of (if decide (t = T) then c2 else ct).
Proof.
  unfold routeLastTile. cbv zeta. intros H Hc Hns Hin.
  apply bind_inv in H as (r0 & m0 & Hr & H).
  apply get_ri_inv in Hr as [-> ->].
  apply bind_inv in H as (shim & m0 & Hs & H).
  apply lift_opt_inv in Hs as [Hs ->].
  rewrite (isShimTile_plain _ _ _ Hc Hns) in Hs. injection Hs as <-.
  apply bind_inv in H as (dd & m0 & Hdd & H).
  apply lift_opt_inv in Hdd as [Hdd ->].
  rewrite (findFirstMatchingStream_end _ _ _ Hc Hns) in Hdd.
  assert (firstBit (upto 8) (S2MM_State c) = dd) as Hdd' by congruence.
  clear Hdd.
  destruct (dd =? -1) eqn:Edd; [by apply ret_inv in H as [? _]|].
  apply Z.eqb_neq in Edd.
  destruct (firstBit_upto8 _ _ Hdd') as [[? _]|(Hddr & Hds & _)]; [done|].
  apply bind_inv in H as (u & m1 & Hauto & H).
  apply modifyConstraint_inv in Hauto as (c0 & Hc0 & ->).
  assert (c0 = c) as -> by congruence.
  apply bind_inv in H as (RC & m2 & Hhw & H).
  apply hw_inv in Hhw.
  destruct (negb (RC =? XAIE_OK)); [by apply ret_inv in H as [? _]|].
  apply bind_inv in H as (u2 & m3 & Hupd & H).
  apply updStrmConn_inv in Hupd as (cA & c1 & c2 & HcA & H1 & H2 & ->).
  rewrite (tileOf_ri _ _ _ Hhw), (tileOf_setTable_alter _ _ _ _ _ Hc),
    decide_True in HcA by done.
  injection HcA as <-.
  destruct Hin as [[Hd Hl]|(g & Hg & Hgs)].
  { exfalso. rewrite Hd, Hl in H1. by vm_compute in H1. }
  destruct (updSlave_respects _ _ _ (set_isAutoConfigured true c) c _
              eq_refl H1) as (c1' & H1' & M1).
  destruct (updMaster_respects _ _ _ c1 c1' _ M1 H2) as (c2' & H2' & M2).
  set (m3 := setTable m2 (alterTile (fun _ => c2) T
                            (CoreConstraintPerCore (ri m2)))) in *.
  assert (∀ t ct, tileOf m t = Some ct →
            ∃ c', tileOf m3 t = Some c' ∧ tile_type c' = tile_type ct
                  ∧ masks_of c' = masks_of (if decide (t = T) then c2' else ct))
    as Hview.
  { intros t ct Ht. subst m3.
    rewrite (tileOf_setTable_alter _ (fun _ => c2) T t
               (set_isAutoConfigured true c)).
    2:{ rewrite (tileOf_ri _ _ _ Hhw).
        rewrite (tileOf_setTable_alter _ _ _ _ _ Hc). by rewrite decide_True. }
    destruct (decide (T = t)) as [<-|Hst].
    + rewrite decide_True by done. eexists. split; [done|].
      split; [|done].
      rewrite (tile_type_updStrm _ _ _ _ _ _ _ _ H1 H2). simpl. congruence.
    + rewrite decide_False by done.
      rewrite (tileOf_ri _ _ _ Hhw).
      rewrite (tileOf_setTable_alter _ _ _ _ _ Hc), decide_False by done.
      by exists ct. }
  simpl in H.
  apply bind_inv in H as (RC3 & m4 & Hshim & H).
  apply ret_inv in Hshim as [-> ->]. simpl in H.
  apply bind_inv in H as (sc & m5 & Hsc & H).
  apply constraintOf_inv in Hsc as [Hsc ->].
  assert (∃ p next u4,
            modifyConstraint src (set_routesDB (RouteNode p next)) m3
            = Some (u4, m')
            ∧ nextStep p = steps ls ++
                [{| sourceTile := T; sourceStream := lastStream ls;
                    destStream := dd; source_direction := lastDir ls;
                    dest_direction := DMA |}])
    as (p & next & u4 & Hmod & Hp).
  { destruct (routesDB sc) eqn:Edb; [| |done].
    - apply bind_inv in H as (u4 & m6 & Hm & H).
      apply ret_inv in H as [_ ->]. eexists _, _, _. split; [exact Hm|done].
    - apply bind_inv in H as (u4 & m6 & Hm & H).
      apply ret_inv in H as [_ ->]. unfold _XAie_addRouteInRoutesDB in Hm.
      eexists _, _, _. split; [exact Hm|done]. }
  pose proof (sameView_modify _ _ _ _ _ Hmod ltac:(done)) as [P5 T5].
  apply modifyConstraint_inv in Hmod as (cs & Hcs & ->).
  eexists _, c2', p, next. split_and!; [|exact Hp|reflexivity| | | |].
  - unfold catalogueOf. rewrite (tileOf_setTable_alter _ _ _ _ _ Hcs).
    by rewrite decide_True.
  - exists g, (S2MM_State c). done.
  - unfold reserveStep. simpl. rewrite H1'. done.
  - rewrite P5. subst m3. simpl. by rewrite Hhw.
  - intros t ct Ht. destruct (Hview t ct Ht) as (c3 & H3 & Y3 & M3).
    destruct (T5 t c3 H3) as (c' & H' & Y' & M').
    exists c'. split_and!; congruence.
Qed.

Lemma stepFree_respects st c c' :
  masks_of c' = masks_of c → stepFree st c → stepFree st c'.
Proof.
  intros H (f & g & Hf & Hg & Hfs & Hgd). exists f, g.
  by rewrite (getSlave_masks _ _ _ H), (getMaster_masks _ _ _ H).
Qed.

(** The programming loop on a path of distinct tiles none of which is a
    shim tile: each tile of the path gets one step, whose two ports were
    available in the tile and are reserved there; nothing else changes in
    the bitmaps. *)
Lemma routeLoop_reserves be src dst : ∀ rest i ls m m',
  rest ≠ [] → NoDup rest → 0 ≤ i →
  (∀ t, t ∈ rest →
     ∃ c, tileOf m t = Some c ∧ tile_type c ≠ XAIE_AIE_SHIM) →
  (i = 0 ∧ lastDir ls = SOUTH ∧ lastStream ls = -1)
  ∨ (0 < i ∧ ∃ T c g, head rest = Some T ∧ tileOf m T = Some c
                      ∧ getSlave (lastDir ls) c = Some g
                      ∧ Z.testbit g (lastStream ls) = true) →
  routeLoop be src dst i rest ls m = Some (XAIE_OK, m') →
  ∃ p next more,
    catalogueOf m' src = Some (RouteNode p next)
    ∧ nextStep p = steps ls ++ more
    ∧ sourceTile <$> more = rest
    ∧ PortMappings (ri m') = PortMappings (ri m)
    ∧ ∀ t c, tileOf m t = Some c →
        ∃ c', tileOf m' t = Some c' ∧ tile_type c' = tile_type c
          ∧ (t ∉ rest → masks_of c' = masks_of c)
          ∧ ∀ st, st ∈ more → sourceTile st = t →
              stepFree st c
              ∧ ∃ c2, reserveStep st c = Some c2
                      ∧ masks_of c' = masks_of c2.
Proof.
  induction rest as [|T rest IH]; intros i ls m m' Hne Hnd Hi Hplain Hin H;
    [done|].
  assert (T ∈ T :: rest) as HTin by (apply elem_of_cons; by left).
  destruct (Hplain T HTin) as (cT & HcT & HnsT).
  destruct rest as [|T' rest'].
  - apply (routeLastTile_reserves be src dst T ls m m' cT) in H
      as (st & c2 & p & next & Hcat & Hp & Hst & Hfree & Hres & Hpm & Hview);
      [|done|done|].
    + exists p, next, [st]. split_and!; try done.
      { simpl. by rewrite Hst. }
      intros t c Ht. destruct (Hview t c Ht) as (c' & Hc' & Hty & Hm).
      exists c'. split_and!; try done.
      * intros Hnot. rewrite decide_False in Hm; [done|].
        intros ->. apply Hnot. by left.
      * intros st' ->%list_elem_of_singleton Htile.
        rewrite Hst in Htile. subst t.
        rewrite decide_True in Hm by done.
        assert (c = cT) as -> by congruence. split; [done|]. by exists c2.
    + destruct Hin as [(_ & Hd & Hl)|(_ & T0 & c0 & g & Hh & Hc0 & Hg & Hgs)].
      * by left.
      * right. simpl in Hh. injection Hh as ->.
        assert (c0 = cT) as -> by congruence. by exists g.
  - cbn [routeLoop] in H.
    apply bind_inv in H as ([rc|ls'] & m1 & Hhop & H).
    { apply routeHop_err in Hhop as ->. by apply ret_inv in H as [? _]. }
    apply list.NoDup_cons in Hnd as [HT Hnd].
    assert (T ≠ T') as HTT' by (intros ->; apply HT; by left).
    apply (routeHop_reserves be i T T' ls ls' m m1 cT) in Hhop
      as (st & c2 & cD & g & Hsteps & Hst & Hfree & Hres & Hpm & Hview
          & HcD & Hg & Hgs); [|done..].
    apply IH in H as (p & next & more & Hcat & Hp & Htiles & Hpm' & Hall).
    + exists p, next, (st :: more). split_and!; try done.
      { rewrite Hp, Hsteps, <- app_assoc. done. }
      { by rewrite fmap_cons, Hst, Htiles. }
      { congruence. }
      intros t c Ht. destruct (Hview t c Ht) as (c1 & Hc1 & Hty1 & Hm1).
      destruct (Hall t c1 Hc1) as (c' & Hc' & Hty' & Hout & Hsteps').
      exists c'. split_and!; [done|congruence| |].
      * intros Hnot. rewrite decide_False in Hm1.
        2:{ intros ->. apply Hnot. by left. }
        rewrite Hout; [done|]. intros Hin'. apply Hnot. by right.
      * intros st' [->|Hst']%elem_of_cons Htile.
        -- rewrite Hst in Htile. subst t.
           rewrite decide_True in Hm1 by done.
           assert (c = cT) as -> by congruence. split; [done|].
           exists c2. split; [done|]. rewrite Hout; done.
        -- assert (t ∈ T' :: rest') as Hin'.
           { rewrite <- Htiles, <- Htile. by apply list_elem_of_fmap_2. }
           rewrite decide_False in Hm1 by (intros ->; done).
           destruct (Hsteps' st' Hst' Htile) as (Hf' & c2' & Hr' & Hm').
           split; [by apply (stepFree_respects st' c1)|].
           destruct (reserveStep_respects st' c1 c c2') as (c2'' & Hr'' & Hm'');
             [done|done|].
           exists c2''. split; [done|]. congruence.
    + done.
    + done.
    + lia.
    + intros t Ht.
      assert (t ∈ T :: T' :: rest') as Ht' by (apply elem_of_cons; by right).
      destruct (Hplain t Ht') as (ct & Hct & Hnst).
      destruct (Hview t ct Hct) as (c1 & Hc1 & Hty1 & _).
      exists c1. split; [done|]. congruence.
    + right. split; [lia|].
      destruct (Hview T' cD HcD) as (c1 & Hc1 & _ & Hm1).
      rewrite decide_False in Hm1 by done.
      exists T', c1, g. split_and!; try done.
      by rewrite (getSlave_masks _ _ _ Hm1).
Qed.

(** The teardown loop for a path of distinct tiles whose source is not a
    shim tile: the ports of each step are released in the step's tile;
    nothing else changes in the bitmaps. *)
Lemma derouteLoop_releases be ps : ∀ todo first m m',
  NoDup (sourceTile <$> todo) →
  (∃ c, tileOf m ps = Some c ∧ tile_type c ≠ XAIE_AIE_SHIM) →
  derouteLoop be ps first todo m = Some (XAIE_OK, m') →
  PortMappings (ri m') = PortMappings (ri m)
  ∧ ∀ t c, tileOf m t = Some c →
      ∃ c', tileOf m' t = Some c' ∧ tile_type c' = tile_type c
        ∧ (t ∉ sourceTile <$> todo → masks_of c' = masks_of c)
        ∧ ∀ st, st ∈ todo → sourceTile st = t →
            ∃ c3, releaseStep st c = Some c3 ∧ masks_of c' = masks_of c3.
Proof.
  induction todo as [|st todo IH]; intros first m m' Hnd Hps H; simpl in H.
  - apply ret_inv in H as [_ ->]. split; [done|]. intros t c Hc.
    exists c. split_and!; try done. by intros st Hst%elem_of_nil.
  - rewrite fmap_cons in Hnd. apply list.NoDup_cons in Hnd as [Hfresh Hnd].
    apply bind_inv in H as (RC & m1 & Hhw & H). apply hw_inv in Hhw.
    destruct (negb (RC =? XAIE_OK)); [by apply ret_inv in H as [? _]|].
    apply bind_inv in H as (u & m2 & Hupd & H).
    apply updStrmConn_inv in Hupd as (c0 & c1 & c2 & Hc0 & H1 & H2 & ->).
    rewrite (tileOf_ri _ _ _ Hhw) in Hc0.
    set (m2 := setTable m1 _) in *.
    assert (∀ t ct, tileOf m t = Some ct →
              ∃ c', tileOf m2 t = Some c' ∧ tile_type c' = tile_type ct
                    ∧ masks_of c'
                      = masks_of (if decide (t = sourceTile st) then c2
                                  else ct)) as Hview.
    { intros t ct Ht. subst m2.
      rewrite (tileOf_setTable_alter _ (fun _ => c2) (sourceTile st) t c0)
        by (by rewrite (tileOf_ri _ _ _ Hhw)).
      destruct (decide (sourceTile st = t)) as [<-|Hst].
      - rewrite decide_True by done. exists c2. split_and!; try done.
        rewrite (tile_type_updStrm _ _ _ _ _ _ _ _ H1 H2). congruence.
      - rewrite decide_False by done. rewrite (tileOf_ri _ _ _ Hhw).
        by exists ct. }
    destruct Hps as (cp & Hcp & Hnsp).
    destruct (Hview ps cp Hcp) as (cp2 & Hcp2 & Htyp & _).
    apply bind_inv in H as (r0 & m3 & Hr & H).
    apply get_ri_inv in Hr as [-> ->].
    apply bind_inv in H as (shim & m3 & Hs & H).
    apply lift_opt_inv in Hs as [Hs ->].
    rewrite (isShimTile_plain _ _ cp2) in Hs by (done || congruence).
    injection Hs as <-.
    apply bind_inv in H as (rc & m3 & Hret & H).
    apply ret_inv in Hret as [_ ->].
    apply IH in H as [Hpm Hall]; [|done|exists cp2; split; [done|congruence]].
    split; [rewrite Hpm; subst m2; simpl; by rewrite Hhw|].
    intros t c Ht. destruct (Hview t c Ht) as (c1' & Hc1' & Hty1 & Hm1).
    destruct (Hall t c1' Hc1') as (c' & Hc' & Hty' & Hout & Hsteps).
    exists c'. split_and!; [done|congruence| |].
    + intros Hnot. rewrite decide_False in Hm1.
      2:{ intros ->. apply Hnot. rewrite fmap_cons. by left. }
      rewrite Hout; [done|]. intros Hin. apply Hnot. rewrite fmap_cons.
      by right.
    + intros st' [->|Hst']%elem_of_cons Htile.
      * subst t. rewrite decide_True in Hm1 by done.
        assert (c = c0) as -> by congruence.
        exists c2. split; [unfold releaseStep; rewrite H1; done|].
        rewrite Hout; done.
      * assert (t ≠ sourceTile st) as Hne.
        { intros ->. apply Hfresh. rewrite <- Htile.
          by apply list_elem_of_fmap_2. }
        rewrite decide_False in Hm1 by done.
        destruct (Hsteps st' Hst' Htile) as (c3 & Hr3 & Hm3).
        destruct (releaseStep_respects st' c1' c c3) as (c3' & Hr3' & Hm3');
          [done|done|].
        exists c3'. split; [done|]. congruence.
Qed.

Lemma XAie_DeRoute_releases be src dst flag m m' p next :
  XAie_DeRoute be src dst flag m = Some (XAIE_OK, m') →
  catalogueOf m src = Some (RouteNode p next) →
  source p = src → destination p = dst →
  NoDup (sourceTile <$> nextStep p) →
  (∃ c, tileOf m src = Some c ∧ tile_type c ≠ XAIE_AIE_SHIM) →
  PortMappings (ri m') = PortMappings (ri m)
  ∧ ∀ t c, tileOf m t = Some c →
      ∃ c', tileOf m' t = Some c' ∧ tile_type c' = tile_type c
        ∧ (t ∉ sourceTile <$> nextStep p → masks_of c' = masks_of c)
        ∧ ∀ st, st ∈ nextStep p → sourceTile st = t →
            ∃ c3, releaseStep st c = Some c3 ∧ masks_of c' = masks_of c3.
Proof.
  unfold XAie_DeRoute. intros H Hcat Hsrc Hdst Hnd (cs & Hcs & Hns).
  apply bind_inv in H as (c & m0 & Hc & H).
  apply constraintOf_inv in Hc as [Hc ->].
  apply bind_inv in H as (cd & m0 & Hcd & H).
  apply constraintOf_inv in Hcd as [Hcd ->].
  assert (routesDB c = RouteNode p next) as Edb.
  { unfold catalogueOf in Hcat. rewrite Hc in Hcat. by injection Hcat. }
  rewrite Edb in H.
  apply bind_inv in H as (b1 & m0 & Hb1 & H).
  apply isComputeEndpoint_same in Hb1 as ->.
  apply bind_inv in H as (u1 & m1 & H1 & H).
  assert (sameView m m1) as V1.
  { destruct (flag && b1).
    - by apply (sameView_modify _ _ _ _ _ H1).
    - apply ret_inv in H1 as [_ ->]. apply sameView_refl. }
  apply bind_inv in H as (b2 & m0 & Hb2 & H).
  apply isComputeEndpoint_same in Hb2 as ->.
  apply bind_inv in H as (u2 & m2 & H2 & H).
  assert (sameView m1 m2) as V2.
  { destruct (flag && b2).
    - by apply (sameView_modify _ _ _ _ _ H2).
    - apply ret_inv in H2 as [_ ->]. apply sameView_refl. }
  pose proof (sameView_trans _ _ _ V1 V2) as [P12 T12].
  apply bind_inv in H as (lk & m0 & Hlk & H).
  apply lift_opt_inv in Hlk as [Hlk ->].
  rewrite (find_at_head p next src dst Hsrc Hdst) in Hlk.
  injection Hlk as <-.
  apply bind_inv in H as (p' & m0 & Hp & H).
  apply lift_opt_inv in Hp as [[= <-] ->].
  apply bind_inv in H as (RC & m3 & Hloop & H).
  destruct (negb (RC =? XAIE_OK)) eqn:ERC; [by apply ret_inv in H as [? _]|].
  assert (RC = XAIE_OK) as ->
    by (apply negb_false_iff, Z.eqb_eq in ERC; done).
  rewrite Hsrc in Hloop.
  destruct (T12 src cs Hcs) as (cs2 & Hcs2 & Htys & _).
  apply derouteLoop_releases in Hloop as [P3 T3];
    [|done|exists cs2; split; [done|congruence]].
  apply bind_inv in H as (c' & m0 & Hc' & H).
  apply constraintOf_inv in Hc' as [Hc' ->].
  apply bind_inv in H as (db & m0 & Hdb & H).
  apply lift_opt_inv in Hdb as [Hdb ->].
  apply bind_inv in H as (u3 & m4 & Hmod & H).
  apply ret_inv in H as [_ ->].
  pose proof (sameView_modify _ _ _ _ _ Hmod ltac:(done)) as [P4 T4].
  split; [congruence|].
  intros t ct Ht. destruct (T12 t ct Ht) as (c2 & Hc2 & Hty2 & Hm2).
  destruct (T3 t c2 Hc2) as (c3 & Hc3 & Hty3 & Hout & Hsteps).
  destruct (T4 t c3 Hc3) as (c4 & Hc4 & Hty4 & Hm4).
  exists c4. split_and!; [done|congruence| |].
  - intros Hnot. rewrite Hm4, (Hout Hnot). done.
  - intros st Hst Htile. destruct (Hsteps st Hst Htile) as (x & Hx & Hmx).
    destruct (releaseStep_respects st c2 ct x) as (x' & Hx' & Hmx');
      [done|done|].
    exists x'. split; [done|]. congruence.
Qed.

(** X25.  Away from the shim row, de-routing undoes routing.  After a
    successful [XAie_Route] between two different tiles of a well-formed
    instance whose path holds no shim tile, a successful [XAie_DeRoute] of
    the pair leaves every tile with the port, channel and
    buffer-descriptor bitmaps it had before the route call, and the shim
    port mappings as they were. *)
Theorem route_then_deroute_restores_bitmaps
  be be' RC src dst flag m m1 m2 p next :
  wfInstance (ri m) = true → src ≠ dst →
  XAie_Route be RC src dst m = Some (XAIE_OK, m1) →
  catalogueOf m1 src = Some (RouteNode p next) →
  (∀ st, st ∈ nextStep p → plainTile m (sourceTile st)) →
  XAie_DeRoute be' src dst flag m1 = Some (XAIE_OK, m2) →
  (∀ t c, tileOf m t = Some c → bitmaps m2 t = Some (masks_of c))
  ∧ PortMappings (ri m2) = PortMappings (ri m).
Proof.
  intros Hwf Hne Hroute Hcat Hplain Hde.
  pose proof (XAie_Route_ok_spec _ _ _ _ _ _ Hne Hroute)
    as (p0 & old & _ & _ & Hcat0 & Hsrc & Hdst & _).
  rewrite Hcat in Hcat0. injection Hcat0 as <- _.
  apply XAie_Route_ok_inv in Hroute
    as (c & path & m0 & Hc & Hfind & Hpath & Hprog & ->).
  pose proof (findShortestPath_nonempty _ _ _ _ _ _ Hne Hpath) as Hnil.
  destruct (findShortestPath_found (ri m) RC src dst c path Hwf Hc Hne Hpath)
    as (Hft & Hch & _ & Hmin).
  pose proof (shortest_NoDup _ _ _ _ Hft Hch Hmin) as Hnd.
  unfold _XAie_performRoutingOnPath in Hprog.
  pose proof Hprog as Hprog'.
  apply routeLoop_auto in Hprog' as (p' & next' & Hcat' & Htiles & _);
    [|done|by intros st Hst; apply elem_of_nil in Hst].
  rewrite !catalogueOf_markCore, Hcat' in Hcat. injection Hcat as <- <-.
  simpl in Htiles.
  apply routeLoop_reserves in Hprog
    as (p'' & next'' & more & Hcat'' & Hp'' & Hmore & Hpm0 & Hall);
    [|done|done|lia| |by left].
  2:{ intros t Ht. rewrite <- Htiles in Ht.
      apply list_elem_of_fmap in Ht as (st & -> & Hst).
      destruct (Hplain st Hst) as (ct & Hct & Hns & _). by exists ct. }
  rewrite Hcat' in Hcat''. injection Hcat'' as <- <-.
  simpl in Hp''. subst more.
  pose proof (sameView_trans _ _ _ (sameView_markCore src m0)
                (sameView_markCore dst (markCore src m0))) as [Pmk Tmk].
  assert (∃ cs, tileOf (markCore dst (markCore src m0)) src = Some cs
                ∧ tile_type cs ≠ XAIE_AIE_SHIM) as Hsrcplain.
  { destruct Hft as [Hhead _].
    destruct path as [|a path]; [done|]. simpl in Hhead.
    injection Hhead as ->.
    destruct (nextStep p') as [|st0 sts] eqn:Esteps; [done|].
    rewrite fmap_cons in Htiles. injection Htiles as Hst0 _.
    destruct (Hplain st0 ltac:(by left)) as (ct & Hct & Hns & _).
    rewrite Hst0 in Hct.
    destruct (Hall src ct Hct) as (c0 & Hc0 & Hty0 & _).
    destruct (Tmk src c0 Hc0) as (c1 & Hc1 & Hty1 & _).
    exists c1. split; [done|]. congruence. }
  apply (XAie_DeRoute_releases be' src dst flag _ m2 p' next') in Hde
    as [Pde Tde]; [|by rewrite !catalogueOf_markCore|done|done| |done].
  2:{ by rewrite Htiles. }
  split; [|congruence].
  intros t ct Ht. unfold bitmaps.
  destruct (Hall t ct Ht) as (c0 & Hc0 & Hty0 & Hout0 & Hsteps0).
  destruct (Tmk t c0 Hc0) as (c1 & Hc1 & Hty1 & Hm1).
  destruct (Tde t c1 Hc1) as (c2 & Hc2 & Hty2 & Hout2 & Hsteps2).
  rewrite Hc2. simpl. f_equal.
  destruct (decide (t ∈ path)) as [Hin|Hnot].
  - rewrite <- Htiles in Hin.
    apply list_elem_of_fmap in Hin as (st & -> & Hst).
    destruct (Hsteps0 st Hst eq_refl) as (Hfree & x & Hres & Hmx).
    destruct (Hsteps2 st Hst eq_refl) as (y & Hrel & Hmy).
    destruct (Hplain st Hst) as (ct' & Hct' & _ & Hu8).
    assert (ct' = ct) as -> by congruence.
    rewrite Hmy.
    apply (release_after_reserve st ct x c1 y); try done. congruence.
  - rewrite Hout2 by (by rewrite Htiles). rewrite Hm1. by apply Hout0.
Qed.

Lemma m56_plain t :
  t ∈ [mkLoc 2 3; mkLoc 3 3; mkLoc 4 3] → plainTile m56 t.
Proof.
  intros Ht.
  assert (t = mkLoc 2 3 ∨ t = mkLoc 3 3 ∨ t = mkLoc 4 3) as Hcases.
  { apply elem_of_cons in Ht as [->|Ht]; [by left|].
    apply elem_of_cons in Ht as [->|Ht]; [right; by left|].
    apply list_elem_of_singleton in Ht as ->. right. by right. }
  clear Ht.
  destruct (tileOf m56 t) as [c|] eqn:E.
  - exists c. split; [exact E|].
    destruct Hcases as [-> | [-> | ->]];
      (vm_compute in E; injection E as <-; split; [discriminate|];
       intros d f [Hf|Hf]; destruct d; simpl in Hf; try discriminate;
       injection Hf as <-; lia).
  - destruct Hcases as [-> | [-> | ->]]; vm_compute in E; discriminate.
Qed.

Lemma route_then_deroute_restores_bitmaps_witness :
  bitmaps m56_derouted (mkLoc 2 3) = bitmaps m56 (mkLoc 2 3)
  ∧ bitmaps m56_derouted (mkLoc 3 3) = bitmaps m56 (mkLoc 3 3)
  ∧ bitmaps m56_derouted (mkLoc 4 3) = bitmaps m56 (mkLoc 4 3)
  ∧ PortMappings (ri m56_derouted) = PortMappings (ri m56).
Proof.
  destruct (catalogueOf m56_routed (mkLoc 2 3)) as [[|p next|]|] eqn:Hcat;
    try (vm_compute in Hcat; discriminate).
  destruct (XAie_DeRoute okBackend (mkLoc 2 3) (mkLoc 4 3) true m56_routed)
    as [[rc m2]|] eqn:Hde; [|vm_compute in Hde; discriminate].
  assert (rc = XAIE_OK) as ->.
  { vm_compute in Hde. by injection Hde as <- _. }
  assert (m56_derouted = m2) as ->.
  { unfold m56_derouted. rewrite Hde. reflexivity. }
  destruct (route_then_deroute_restores_bitmaps okBackend okBackend None
              (mkLoc 2 3) (mkLoc 4 3) true m56 m56_routed m2 p next)
    as [Hall Hpm];
    [reflexivity | done | by vm_compute | exact Hcat | | exact Hde |].
  { intros st Hst. apply m56_plain.
    vm_compute in Hcat. injection Hcat as <- _. simpl in Hst.
    apply (list_elem_of_fmap_2 sourceTile) in Hst. exact Hst. }
  assert (∀ t, is_Some (tileOf m56 t) → bitmaps m2 t = bitmaps m56 t) as Hsame.
  { intros t [c Hc]. rewrite (Hall t c Hc). unfold bitmaps.
    rewrite Hc. reflexivity. }
  split; [|split; [|split; [|exact Hpm]]]; apply Hsame;
    (destruct (tileOf m56 _) as [c|] eqn:E;
     [eexists; reflexivity|vm_compute in E; discriminate E]).
Defined.

(** ** What a failed [XAie_Route] leaves reserved *)

Lemma okCalls_app be hist a b :
  okCalls be hist (a ++ b)
  = okCalls be hist a ++ okCalls be (hist ++ a) b.
Proof.
  revert hist. induction a as [|c a IH]; intros hist; simpl.
  - by rewrite app_nil_r.
  - rewrite IH, <- !app_assoc. reflexivity.
Qed.

Lemma u8_clear_bit_taken f k v :
  u8_clear_bit f k = Some v → Z.testbit v k = false.
Proof.
  unfold u8_clear_bit. destruct (shl1 k) as [b|] eqn:Hb; [|done]. simpl.
  apply shl1_Some in Hb as [Hk ->]. intros [= <-].
  unfold u8. change 256 with (2 ^ 8).
  destruct (decide (k < 8)) as [Hlt|Hge].
  - rewrite Z.testbit_mod_pow2, Z.land_spec, Z.lnot_spec by lia.
    rewrite Z.pow2_bits_true by lia.
    apply andb_false_iff. right. apply andb_false_iff. by right.
  - apply Z.mod_pow2_bits_high. lia.
Qed.

Lemma getSlave_le d c' c f' :
  tileLe c' c → getSlave d c' = Some f' →
  ∃ f, getSlave d c = Some f ∧ subBits f' f.
Proof.
  unfold tileLe. intros H Hg. destruct_and!.
  destruct d; simpl in *; simplify_eq; eauto.
Qed.

Lemma getMaster_le d c' c f' :
  tileLe c' c → getMaster d c' = Some f' →
  ∃ f, getMaster d c = Some f ∧ subBits f' f.
Proof.
  unfold tileLe. intros H Hg. destruct_and!.
  destruct d; simpl in *; simplify_eq; eauto.
Qed.

Lemma portTaken_le (g g' : option Z) k :
  (∀ f', g' = Some f' → ∃ f, g = Some f ∧ subBits f' f) →
  portTaken g k → portTaken g' k.
Proof.
  intros Hle Ht f' Hf'. destruct (Hle f' Hf') as (f & Hf & Hsub).
  specialize (Ht f Hf). destruct (Z.testbit f' k) eqn:E; [|done].
  apply Hsub in E. congruence.
Qed.

Lemma portMarked_le r r' p count port' :
  Forall2 (Forall2 entryLe) (PortMappings r') (PortMappings r) →
  portMarked r p count port' → portMarked r' p count port'.
Proof.
  intros HM Hm arr' i e' Harr' Hi He' Hp.
  unfold mappingArray in *.
  destruct (count <=? 0) eqn:Ec.
  { injection Harr' as <-. by rewrite lookup_nil in He'. }
  destruct p as [a|]; [|done]. simpl in *.
  destruct (Forall2_lookup_l _ _ _ _ _ HM Harr') as (arr & Harr & Hle).
  destruct (Forall2_lookup_l _ _ _ _ _ Hle He') as (e & He & (_ & Hport & Hav)).
  assert (availability e = false) as Hf.
  { apply (Hm arr i e); [|done|done|congruence].
    unfold mappingArray. rewrite Ec. exact Harr. }
  destruct (availability e') eqn:E; [|done]. rewrite Hav in Hf; done.
Qed.

Lemma reservedIn_mono m m' call :
  noRelease m m' → reservedIn m call → reservedIn m' call.
Proof.
  intros [HT HM]. destruct call; simpl; try done.
  - intros (c & Hc & Hs & Hd). destruct (HT _ _ Hc) as (c' & Hc' & Hle).
    exists c'. split_and!; [done| |].
    + eapply portTaken_le; [|exact Hs]. intros f'. by apply getSlave_le.
    + eapply portTaken_le; [|exact Hd]. intros f'. by apply getMaster_le.
  - intros (c & Hc & Hm). destruct (HT _ _ Hc) as (c' & Hc' & Hle).
    exists c'. split; [done|]. unfold tileLe in Hle. destruct_and!.
    replace (AIE2HostPorts c') with (AIE2HostPorts c) by done.
    replace (AIE2HostPortCount c') with (AIE2HostPortCount c) by done.
    by eapply portMarked_le.
  - intros (c & Hc & Hm). destruct (HT _ _ Hc) as (c' & Hc' & Hle).
    exists c'. split; [done|]. unfold tileLe in Hle. destruct_and!.
    replace (Host2AIEPorts c') with (Host2AIEPorts c) by done.
    replace (Host2AIEPortCount c') with (Host2AIEPortCount c) by done.
    by eapply portMarked_le.
Qed.

Lemma keepsReserved_refl be m : keepsReserved be m m.
Proof.
  split; [apply noRelease_refl|]. exists []. rewrite app_nil_r.
  split; [done|]. intros c Hc. by apply elem_of_nil in Hc.
Qed.

Lemma keepsReserved_trans be m1 m2 m3 :
  keepsReserved be m1 m2 → keepsReserved be m2 m3 → keepsReserved be m1 m3.
Proof.
  intros (N1 & new1 & E1 & R1) (N2 & new2 & E2 & R2). split.
  - by eapply noRelease_trans.
  - exists (new1 ++ new2). split; [by rewrite E2, E1, app_assoc|].
    intros c Hc. rewrite okCalls_app in Hc.
    apply elem_of_app in Hc as [Hc|Hc].
    + eapply reservedIn_mono; [exact N2|]. by apply R1.
    + apply R2. by rewrite E1.
Qed.

(** A step that makes no hardware call and releases nothing. *)
Lemma keepsReserved_silent be m m' :
  noRelease m m' → calls m' = calls m → keepsReserved be m m'.
Proof.
  intros HN Hc. split; [done|]. exists []. rewrite app_nil_r.
  split; [done|]. intros c Hin. by apply elem_of_nil in Hin.
Qed.

(** A hardware call that is refused. *)
Lemma keepsReserved_refused be c rc m m' :
  hw be c m = Some (rc, m') → (rc =? XAIE_OK) = false →
  keepsReserved be m m'.
Proof.
  intros H Hrc. destruct (hw_calls _ _ _ _ _ H) as (-> & Hcalls & Hri).
  split; [by apply noRelease_same_ri|]. exists [c]. split; [done|].
  simpl. rewrite Hrc. simpl. intros c' Hc'. by apply elem_of_nil in Hc'.
Qed.

Lemma updSlave_taken d k c c' :
  updSlave u8_clear_bit d k c = Some c' → portTaken (getSlave d c') k.
Proof.
  unfold updSlave. destruct (getSlave d c) as [f|] eqn:Hg; simpl.
  - destruct (u8_clear_bit f k) as [v|] eqn:Hv; [|done]. simpl.
    intros [= <-] f' Hf'. apply u8_clear_bit_taken in Hv.
    destruct d; simpl in *; simplify_eq; done.
  - intros [= <-] f' Hf'. congruence.
Qed.

Lemma updMaster_taken d k c c' :
  updMaster u8_clear_bit d k c = Some c' → portTaken (getMaster d c') k.
Proof.
  unfold updMaster. destruct (getMaster d c) as [f|] eqn:Hg; simpl.
  - destruct (u8_clear_bit f k) as [v|] eqn:Hv; [|done]. simpl.
    intros [= <-] f' Hf'. apply u8_clear_bit_taken in Hv.
    destruct d; simpl in *; simplify_eq; done.
  - intros [= <-] f' Hf'. congruence.
Qed.

(** An accepted connection followed by the update that marks its two
    ports. *)
Lemma keepsReserved_connection be t ps s pd d rc u m1 m2 m3 :
  hw be (XAie_StrmConnCctEnable t ps s pd d) m1 = Some (rc, m2) →
  _XAie_updatePortAvailabilityForStrmConn t ps s pd d m2 = Some (u, m3) →
  keepsReserved be m1 m3.
Proof.
  intros Hhw Hupd.
  pose proof (ensures_updatePortAvailabilityForStrmConn (fun _ => True)
                t ps s pd d m2 u m3 Hupd I) as HN.
  pose proof (updStrmConn_calls _ _ _ _ _ _ _ _ _ Hupd) as Hcalls.
  apply updStrmConn_inv in Hupd as (c & c1 & c2 & Hc & H1 & H2 & ->).
  destruct (hw_calls _ _ _ _ _ Hhw) as (-> & Hcalls2 & Hri).
  split.
  - eapply noRelease_trans; [by apply noRelease_same_ri|exact HN].
  - exists [XAie_StrmConnCctEnable t ps s pd d].
    split; [by rewrite Hcalls, Hcalls2|].
    intros c' Hc'. simpl in Hc'. rewrite app_nil_r in Hc'.
    destruct (hw_rc be (calls m1) _ =? XAIE_OK);
      [|by apply elem_of_nil in Hc'].
    apply list_elem_of_singleton in Hc' as ->. simpl.
    exists c2. split_and!.
    + rewrite (tileOf_setTable_alter _ _ _ _ _ Hc). by rewrite decide_True.
    + rewrite (proj1 (updMaster_keeps_slave _ _ _ _ _ ps H2)).
      by eapply updSlave_taken.
    + by eapply updMaster_taken.
Qed.

Lemma setAvailability_marks p idx : ∀ arr arr',
  setAvailability p false idx arr = Some arr' →
  ∀ i e, i ∈ idx → arr' !! Z.to_nat i = Some e → port e = p →
         availability e = false.
Proof.
  induction idx as [|j idx IH]; intros arr arr' Hrun i e Hi He Hp.
  - by apply elem_of_nil in Hi.
  - simpl in Hrun. destruct (arr !! Z.to_nat j) as [e0|] eqn:He0; [|done].
    simpl in Hrun.
    destruct (decide (i ∈ idx)) as [Hin|Hnin]; [by eapply IH|].
    apply elem_of_cons in Hi as [->|Hi]; [|done].
    pose proof (setAvailability_false_le _ _ _ _ Hrun) as Hle.
    destruct (Forall2_lookup_l _ _ _ _ _ Hle He) as (e1 & He1 & (_ & Hport & Hav)).
    destruct (availability e) eqn:E; [|done].
    specialize (Hav eq_refl).
    destruct (Z.eqb_spec (port e0) p) as [Heq|Hne].
    + rewrite list_lookup_insert_eq in He1
        by (by apply lookup_lt_Some in He0).
      injection He1 as <-. simpl in Hav. done.
    + rewrite He0 in He1. injection He1 as <-. congruence.
Qed.

Lemma updateMappingArray_marks p count port' u m m' :
  updateMappingArray p count
    (setAvailability port' false (upto count)) m = Some (u, m') →
  CoreConstraintPerCore (ri m') = CoreConstraintPerCore (ri m)
  ∧ portMarked (ri m') p count port'.
Proof.
  unfold updateMappingArray, portMarked, mappingArray. intros H.
  destruct (count <=? 0).
  { apply ret_inv in H as [_ ->]. split; [done|].
    intros arr i e [= <-]. by rewrite lookup_nil. }
  apply bind_inv in H as (r0 & m0 & Hr & H).
  apply get_ri_inv in Hr as [-> ->].
  apply bind_inv in H as (a & m0 & Ha & H).
  apply lift_opt_inv in Ha as [-> ->].
  apply bind_inv in H as (arr & m0 & Harr & H).
  apply lift_opt_inv in Harr as [Harr ->].
  apply bind_inv in H as (arr' & m0 & Harr' & H).
  apply lift_opt_inv in Harr' as [Harr' ->].
  unfold put_ri in H. injection H as _ <-. simpl. split; [done|].
  intros arr2 i e Harr2 Hi He Hp.
  rewrite list_lookup_insert_eq in Harr2 by (by apply lookup_lt_Some in Harr).
  injection Harr2 as <-.
  by eapply setAvailability_marks.
Qed.

Lemma noRelease_isShimTile m m' t b :
  noRelease m m' → _XAie_isShimTile (ri m) t = Some b →
  _XAie_isShimTile (ri m') t = Some b.
Proof.
  intros [HT _]. unfold _XAie_isShimTile.
  destruct (tileAt (CoreConstraintPerCore (ri m)) t) as [c|] eqn:Hc; [|done].
  destruct (HT t c Hc) as (c' & Hc' & Hle). unfold tileOf in Hc'.
  rewrite Hc'. simpl. unfold tileLe in Hle. destruct_and!.
  by replace (tile_type c') with (tile_type c) by done.
Qed.

(** A shim DMA connection towards the array, on a shim tile, followed by
    the update that marks its port. *)
Lemma keepsReserved_shim_port be t p rc x m1 m2 m3 :
  _XAie_isShimTile (ri m1) t = Some true →
  hw be (XAie_EnableShimDmaToAieStrmPort t p) m1 = Some (rc, m2) →
  _XAie_updatePortAvailabilityForShimDmaToAie t p false m2 = Some (x, m3) →
  keepsReserved be m1 m3.
Proof.
  intros Hshim Hhw Hupd.
  pose proof (ensures_ShimDmaToAie_unset (fun _ => True) t p m2 x m3 Hupd I)
    as HN.
  pose proof (ShimDmaToAie_calls _ _ _ _ _ _ Hupd) as Hcalls.
  destruct (hw_calls _ _ _ _ _ Hhw) as (-> & Hcalls2 & Hri).
  split.
  - eapply noRelease_trans; [by apply noRelease_same_ri|exact HN].
  - exists [XAie_EnableShimDmaToAieStrmPort t p].
    split; [by rewrite Hcalls, Hcalls2|].
    intros c' Hc'. simpl in Hc'. rewrite app_nil_r in Hc'.
    destruct (hw_rc be (calls m1) _ =? XAIE_OK);
      [|by apply elem_of_nil in Hc'].
    apply list_elem_of_singleton in Hc' as ->. simpl.
    unfold _XAie_updatePortAvailabilityForShimDmaToAie in Hupd.
    apply bind_inv in Hupd as (c & m0 & Hc & Hupd).
    apply constraintOf_inv in Hc as [Hc ->].
    apply bind_inv in Hupd as (r0 & m0 & Hr & Hupd).
    apply get_ri_inv in Hr as [-> ->].
    apply bind_inv in Hupd as (shim & m0 & Hs & Hupd).
    apply lift_opt_inv in Hs as [Hs ->].
    rewrite Hri, Hshim in Hs. injection Hs as <-. simpl in Hupd.
    apply bind_inv in Hupd as (u & m4 & Hmap & Hupd).
    apply ret_inv in Hupd as [_ ->].
    destruct (updateMappingArray_marks _ _ _ _ _ _ Hmap) as [Htbl Hmark].
    exists c. split; [|done]. unfold tileOf in *. by rewrite Htbl.
Qed.

Lemma keepsReserved_routeHop be i s d ls m res m' :
  routeHop be i s d ls m = Some (res, m') → keepsReserved be m m'.
Proof.
  unfold routeHop. cbv zeta. intros H.
  apply bind_inv in H as (r0 & m0 & Hr & H).
  apply get_ri_inv in Hr as [-> ->].
  apply bind_inv in H as (shim & m0 & Hs & H).
  apply lift_opt_inv in Hs as [Hs ->].
  apply bind_inv in H as (ss & m0 & Hss & H).
  assert (m0 = m) as ->.
  { destruct (shim && negb (i =? 0)).
    - by apply ret_inv in Hss as [_ ->].
    - by apply lift_opt_inv in Hss as [_ ->]. }
  apply bind_inv in H as (ds & m0 & Hds & H).
  apply lift_opt_inv in Hds as [Hds ->].
  destruct ((ss =? -1) || (ds =? -1)).
  { apply ret_inv in H as [_ ->]. apply keepsReserved_refl. }
  apply bind_inv in H as (u1 & m1 & Hauto & H).
  assert (keepsReserved be m m1) as K1.
  { apply keepsReserved_silent.
    - exact (ensures_setAutoConfigured (fun _ => True) _ _ _ _ Hauto I).
    - by eapply modifyConstraint_calls. }
  apply bind_inv in H as (rc & m2 & Hhw & H).
  destruct (rc =? XAIE_OK) eqn:Hrc; simpl in H.
  2: { apply ret_inv in H as [_ ->].
       eapply keepsReserved_trans; [exact K1|].
       by eapply keepsReserved_refused. }
  apply bind_inv in H as (u2 & m3 & Hupd & H).
  assert (keepsReserved be m m3) as K3.
  { eapply keepsReserved_trans; [exact K1|].
    by eapply keepsReserved_connection. }
  destruct (shim && (i =? 0)) eqn:Eshim.
  2: { by apply ret_inv in H as [_ ->]. }
  apply andb_true_iff in Eshim as [-> _].
  apply bind_inv in H as (rc2 & m4 & Hhw2 & H).
  destruct (rc2 =? XAIE_OK) eqn:Hrc2; simpl in H.
  2: { apply ret_inv in H as [_ ->].
       eapply keepsReserved_trans; [exact K3|].
       by eapply keepsReserved_refused. }
  apply bind_inv in H as (x & m5 & Hupd2 & H).
  apply ret_inv in H as [_ ->].
  eapply keepsReserved_trans; [exact K3|].
  eapply keepsReserved_shim_port; [|exact Hhw2|exact Hupd2].
  eapply noRelease_isShimTile; [exact (proj1 K3)|exact Hs].
Qed.

Lemma keepsReserved_routeLastTile be src dst t ls m rc m' :
  routeLastTile be src dst t ls m = Some (rc, m') → rc ≠ XAIE_OK →
  keepsReserved be m m'.
Proof.
  unfold routeLastTile. cbv zeta. intros H Hne.
  apply bind_inv in H as (r0 & m0 & Hr & H).
  apply get_ri_inv in Hr as [-> ->].
  apply bind_inv in H as (shim & m0 & Hs & H).
  apply lift_opt_inv in Hs as [Hs ->].
  apply bind_inv in H as (ds & m0 & Hds & H).
  apply lift_opt_inv in Hds as [Hds ->].
  destruct (ds =? -1).
  { apply ret_inv in H as [_ ->]. apply keepsReserved_refl. }
  apply bind_inv in H as (u1 & m1 & Hauto & H).
  assert (keepsReserved be m m1) as K1.
  { apply keepsReserved_silent.
    - exact (ensures_setAutoConfigured (fun _ => True) _ _ _ _ Hauto I).
    - by eapply modifyConstraint_calls. }
  apply bind_inv in H as (rc1 & m2 & Hhw & H).
  destruct (rc1 =? XAIE_OK) eqn:Hrc; simpl in H.
  2: { apply ret_inv in H as [_ ->].
       eapply keepsReserved_trans; [exact K1|].
       by eapply keepsReserved_refused. }
  apply bind_inv in H as (u2 & m3 & Hupd & H).
  assert (keepsReserved be m m3) as K3.
  { eapply keepsReserved_trans; [exact K1|].
    by eapply keepsReserved_connection. }
  apply bind_inv in H as (rc2 & m4 & Hblock & H).
  destruct (rc2 =? XAIE_OK) eqn:Hrc2; simpl in H.
  - exfalso. apply bind_inv in H as (c & m5 & _ & H).
    destruct (routesDB c); [| |done].
    + apply bind_inv in H as (? & ? & _ & H).
      by apply ret_inv in H as [-> _].
    + apply bind_inv in H as (? & ? & _ & H).
      by apply ret_inv in H as [-> _].
  - apply ret_inv in H as [_ ->].
    destruct shim.
    + apply bind_inv in Hblock as (rc3 & m5 & Hhw3 & Hblock).
      destruct (rc3 =? XAIE_OK) eqn:Hrc3; simpl in Hblock.
      * apply bind_inv in Hblock as (? & ? & _ & Hblock).
        apply ret_inv in Hblock as [-> _]. done.
      * apply ret_inv in Hblock as [_ ->].
        eapply keepsReserved_trans; [exact K3|].
        by eapply keepsReserved_refused.
    + apply ret_inv in Hblock as [-> _]. done.
Qed.

Lemma keepsReserved_routeLoop be src dst rest :
  ∀ i ls, ensures (fun rc => rc ≠ XAIE_OK) (keepsReserved be)
            (routeLoop be src dst i rest ls).
Proof.
  induction rest as [|t rest IH]; intros i ls.
  - simpl. apply ensures_ret, keepsReserved_refl.
  - destruct rest as [|t' rest'].
    + intros m rc m' H Hne. by eapply keepsReserved_routeLastTile.
    + cbn [routeLoop].
      apply ensures_bind; [apply keepsReserved_trans| |].
      * intros m res m' H _. by eapply keepsReserved_routeHop.
      * intros [rc|ls'].
        -- apply ensures_ret, keepsReserved_refl.
        -- apply IH.
Qed.

(** C2, as the code has it.  When [XAie_Route] returns [XAIE_ERR], what the
    call reserved before it failed stays reserved.  Nothing has been
    released: in every tile the catalogue and the buffer-descriptor
    bitmap are what they were, every port or channel bitmap holds only
    bits it held before the call, and every shim port mapping is
    available only if it was before the call.  And every hardware call
    made by this call that the hardware layer accepted has its resources
    marked used on return: the slave and the master port of a stream
    connection are in use in its tile, the port of a shim DMA connection
    is unavailable in the mapping array of its tile. *)
Theorem route_failure_releases_nothing be RC src dst m m' :
  XAie_Route be RC src dst m = Some (XAIE_ERR, m') →
  noRelease m m'
  ∧ ∃ new, calls m' = calls m ++ new
           ∧ ∀ c, c ∈ okCalls be (calls m) new → reservedIn m' c.
Proof.
  change (XAie_Route be RC src dst m = Some (XAIE_ERR, m') →
          keepsReserved be m m').
  unfold XAie_Route. intros H.
  apply bind_inv in H as (c & m0 & Hc & H).
  apply constraintOf_inv in Hc as [Hc ->].
  apply bind_inv in H as (ex & m0 & Hex & H).
  apply lift_opt_inv in Hex as [Hex ->].
  destruct ex as [p|].
  { apply ret_inv in H as [_ ->]. apply keepsReserved_refl. }
  apply bind_inv in H as (r0 & m0 & Hr & H).
  apply get_ri_inv in Hr as [-> ->].
  apply bind_inv in H as ([ok path] & m0 & Hp & H).
  apply lift_opt_inv in Hp as [Hp ->].
  destruct ok; simpl in H;
    [|apply ret_inv in H as [_ ->]; apply keepsReserved_refl].
  apply bind_inv in H as (rc & m1 & Hprog & H).
  destruct (rc =? XAIE_OK) eqn:Hrc; simpl in H.
  - exfalso.
    apply bind_inv in H as (b1 & m1' & _ & H).
    apply bind_inv in H as (x1 & m2 & _ & H).
    apply bind_inv in H as (b2 & m2' & _ & H).
    apply bind_inv in H as (x2 & m3 & _ & H).
    by apply ret_inv in H as [? _].
  - apply ret_inv in H as [_ ->].
    eapply (keepsReserved_routeLoop be src dst path 0); [exact Hprog|].
    intros ->. done.
Qed.

Lemma route_failure_releases_nothing_witness :
  XAie_Route okBackend None (mkLoc 2 3) (mkLoc 3 3) m56_twoInto33
  = Some (XAIE_ERR, m56_thirdInto33)
  ∧ noRelease m56_twoInto33 m56_thirdInto33
  ∧ calls m56_thirdInto33
    = calls m56_twoInto33 ++ [XAie_StrmConnCctEnable (mkLoc 2 3) DMA 0 EAST 0]
  ∧ ¬ reservedIn m56_twoInto33
        (XAie_StrmConnCctEnable (mkLoc 2 3) DMA 0 EAST 0)
  ∧ reservedIn m56_thirdInto33
      (XAie_StrmConnCctEnable (mkLoc 2 3) DMA 0 EAST 0).
Proof.
  assert (XAie_Route okBackend None (mkLoc 2 3) (mkLoc 3 3) m56_twoInto33
          = Some (XAIE_ERR, m56_thirdInto33)) as Hrun
    by (vm_compute; reflexivity).
  assert (calls m56_thirdInto33
          = calls m56_twoInto33
            ++ [XAie_StrmConnCctEnable (mkLoc 2 3) DMA 0 EAST 0]) as Hcalls
    by (vm_compute; reflexivity).
  destruct (route_failure_releases_nothing okBackend None (mkLoc 2 3)
              (mkLoc 3 3) m56_twoInto33 m56_thirdInto33 Hrun)
    as (HN & new & Hnew & Hres).
  split; [exact Hrun|]. split; [exact HN|]. split; [exact Hcalls|]. split.
  - intros (c & Hc & Hs & _). vm_compute in Hc. injection Hc as <-.
    specialize (Hs _ eq_refl). vm_compute in Hs. discriminate Hs.
  - apply Hres. rewrite Hcalls in Hnew. apply app_inv_head in Hnew.
    rewrite <- Hnew. simpl. left.
Defined.
